(** * A transactional storage core: lock manager, transaction manager,
      B+ tree index and log recovery

    Shallow embedding of the C++ sources (namespace [cmudb]) and the
    properties proved about them.  The first part of the file holds the
    embedding, one module per translation unit; the second part holds the
    theorems. *)

From Stdlib Require Import ZArith Lia Bool List.
From stdpp Require Import gmap list sorting.

#[local] Open Scope Z_scope.

(** ** Shared types (common/config.h, common/rid.h) *)

Abbreviation page_id_t := Z (only parsing).
Abbreviation txn_id_t := Z (only parsing).
Abbreviation lsn_t := Z (only parsing).

(** A row identifier is the pair (page id, slot number). *)
Abbreviation RID := (Z * Z)%type (only parsing).

Definition INVALID_PAGE_ID : Z := -1.
Definition INVALID_TXN_ID : Z := -1.
Definition INVALID_LSN : Z := -1.
Definition HEADER_PAGE_ID : Z := 0.

(** What a call of the modelled code can do from the point of view of the
    calling thread: return a value, block on a condition variable, or fail
    an [assert] (the process aborts). *)
Inductive Outcome (A : Type) : Type :=
| Returned (a : A)
| Blocked
| AssertFailed.
Arguments Returned {A} a.
Arguments Blocked {A}.
Arguments AssertFailed {A}.

(** ** concurrency/transaction.h

    The header is a plain data class; the fields below are the ones the
    translated code reads and writes through its getters and setters. *)

Inductive TransactionState := GROWING | SHRINKING | COMMITTED | ABORTED.

#[global] Instance TransactionState_eq_dec : EqDecision TransactionState.
Proof. solve_decision. Defined.

Inductive WType := WINSERT | WDELETE | WUPDATE.

#[global] Instance WType_eq_dec : EqDecision WType.
Proof. solve_decision. Defined.

(** A tuple is kept as its serialized bytes. *)
Abbreviation Tuple := (list Z) (only parsing).

Record WriteRecord := {
  rid_ : RID;
  wtype_ : WType;
  tuple_ : Tuple;
  table_ : Z
}.

Record Transaction := {
  txn_id_ : txn_id_t;
  state_ : TransactionState;
  prev_lsn_ : lsn_t;
  shared_lock_set_ : gset RID;
  exclusive_lock_set_ : gset RID;
  write_set_ : list WriteRecord;
  page_set_ : list page_id_t;
  deleted_page_set_ : gset page_id_t
}.

Definition SetState (st : TransactionState) (txn : Transaction) : Transaction :=
  {| txn_id_ := txn_id_ txn; state_ := st; prev_lsn_ := prev_lsn_ txn;
     shared_lock_set_ := shared_lock_set_ txn;
     exclusive_lock_set_ := exclusive_lock_set_ txn;
     write_set_ := write_set_ txn; page_set_ := page_set_ txn;
     deleted_page_set_ := deleted_page_set_ txn |}.

Definition SetPrevLSN (l : lsn_t) (txn : Transaction) : Transaction :=
  {| txn_id_ := txn_id_ txn; state_ := state_ txn; prev_lsn_ := l;
     shared_lock_set_ := shared_lock_set_ txn;
     exclusive_lock_set_ := exclusive_lock_set_ txn;
     write_set_ := write_set_ txn; page_set_ := page_set_ txn;
     deleted_page_set_ := deleted_page_set_ txn |}.

Definition SetSharedLockSet (s : gset RID) (txn : Transaction) : Transaction :=
  {| txn_id_ := txn_id_ txn; state_ := state_ txn; prev_lsn_ := prev_lsn_ txn;
     shared_lock_set_ := s;
     exclusive_lock_set_ := exclusive_lock_set_ txn;
     write_set_ := write_set_ txn; page_set_ := page_set_ txn;
     deleted_page_set_ := deleted_page_set_ txn |}.

Definition SetExclusiveLockSet (s : gset RID) (txn : Transaction) : Transaction :=
  {| txn_id_ := txn_id_ txn; state_ := state_ txn; prev_lsn_ := prev_lsn_ txn;
     shared_lock_set_ := shared_lock_set_ txn;
     exclusive_lock_set_ := s;
     write_set_ := write_set_ txn; page_set_ := page_set_ txn;
     deleted_page_set_ := deleted_page_set_ txn |}.

Definition SetWriteSet (w : list WriteRecord) (txn : Transaction) : Transaction :=
  {| txn_id_ := txn_id_ txn; state_ := state_ txn; prev_lsn_ := prev_lsn_ txn;
     shared_lock_set_ := shared_lock_set_ txn;
     exclusive_lock_set_ := exclusive_lock_set_ txn;
     write_set_ := w; page_set_ := page_set_ txn;
     deleted_page_set_ := deleted_page_set_ txn |}.

Definition SetPageSet (p : list page_id_t) (txn : Transaction) : Transaction :=
  {| txn_id_ := txn_id_ txn; state_ := state_ txn; prev_lsn_ := prev_lsn_ txn;
     shared_lock_set_ := shared_lock_set_ txn;
     exclusive_lock_set_ := exclusive_lock_set_ txn;
     write_set_ := write_set_ txn; page_set_ := p;
     deleted_page_set_ := deleted_page_set_ txn |}.

Definition SetDeletedPageSet (d : gset page_id_t) (txn : Transaction) : Transaction :=
  {| txn_id_ := txn_id_ txn; state_ := state_ txn; prev_lsn_ := prev_lsn_ txn;
     shared_lock_set_ := shared_lock_set_ txn;
     exclusive_lock_set_ := exclusive_lock_set_ txn;
     write_set_ := write_set_ txn; page_set_ := page_set_ txn;
     deleted_page_set_ := d |}.

(** [Transaction(txn_id)]: a fresh transaction is GROWING and holds nothing. *)
Definition new_Transaction (tid : txn_id_t) : Transaction :=
  {| txn_id_ := tid; state_ := GROWING; prev_lsn_ := INVALID_LSN;
     shared_lock_set_ := ∅; exclusive_lock_set_ := ∅;
     write_set_ := []; page_set_ := []; deleted_page_set_ := ∅ |}.

(** ** concurrency/lock_manager.h, lock_manager.cpp *)

Module LockManager.

Inductive LockMode := SHARED | EXCLUSIVE | UPGRADING.

#[global] Instance LockMode_eq_dec : EqDecision LockMode.
Proof. solve_decision. Defined.

Record TxItem := {
  tid_ : txn_id_t;
  mode_ : LockMode;
  granted_ : bool
}.

(** [TxItem::Grant]: set [granted_] (and wake the waiter). *)
Definition Grant (tx : TxItem) : TxItem :=
  {| tid_ := tid_ tx; mode_ := mode_ tx; granted_ := true |}.

Definition set_mode (m : LockMode) (tx : TxItem) : TxItem :=
  {| tid_ := tid_ tx; mode_ := m; granted_ := granted_ tx |}.

Record TxList := {
  locks_ : list TxItem;
  hasUpgrading_ : bool
}.

(** The queue [lockTable_[rid]] creates for a RID that has none:
    value-initialised, so the list is empty and the flag is false. *)
Definition empty_TxList : TxList := {| locks_ := []; hasUpgrading_ := false |}.

(** [TxList::checkCanGrant] *)
Definition checkCanGrant (mode : LockMode) (l : TxList) : bool :=
  match last (locks_ l) with
  | None => true
  | Some lastItem =>
      match mode with
      | SHARED => granted_ lastItem && bool_decide (mode_ lastItem = SHARED)
      | _ => false
      end
  end.

(** [TxList::insert] up to the point where the caller either goes on
    (granted) or blocks in [last.Wait()]. The result also carries the value
    of the local variable [mode] after the rewrite of a granted upgrade. *)
Definition insert_enqueue (tid : txn_id_t) (mode : LockMode) (granted : bool)
    (l : TxList) : TxList * LockMode :=
  let upgradingMode := bool_decide (mode = UPGRADING) in
  let mode' := if upgradingMode && granted then EXCLUSIVE else mode in
  let locks' := locks_ l ++ [{| tid_ := tid; mode_ := mode'; granted_ := granted |}] in
  if granted
  then ({| locks_ := locks'; hasUpgrading_ := hasUpgrading_ l |}, mode')
  else ({| locks_ := locks'; hasUpgrading_ := hasUpgrading_ l || upgradingMode |}, mode').

(** The rest of [TxList::insert], run once the entry is granted: record
    the RID in the lock set that the local [mode] selects. *)
Definition insert_finish (rid : RID) (mode : LockMode) (txn : Transaction) : Transaction :=
  match mode with
  | SHARED => SetSharedLockSet ({[rid]} ∪ shared_lock_set_ txn) txn
  | _ => SetExclusiveLockSet ({[rid]} ∪ exclusive_lock_set_ txn) txn
  end.

Record LockManager := {
  strict_2PL_ : bool;
  lockTable_ : gmap RID TxList
}.

Definition set_table (t : gmap RID TxList) (lm : LockManager) : LockManager :=
  {| strict_2PL_ := strict_2PL_ lm; lockTable_ := t |}.

(** [lockTable_[rid]]: the mapped queue, inserted empty when absent. *)
Definition table_at (rid : RID) (lm : LockManager) : TxList :=
  default empty_TxList (lockTable_ lm !! rid).

Definition store (rid : RID) (l : TxList) (lm : LockManager) : LockManager :=
  set_table (<[rid := l]> (lockTable_ lm)) lm.

(** [find_if] over the queue for the entry of a transaction. *)
Fixpoint find_tid (tid : txn_id_t) (l : list TxItem) : option TxItem :=
  match l with
  | [] => None
  | tx :: rest => if tid_ tx =? tid then Some tx else find_tid tid rest
  end.

(** [locks_.erase(it)] for the iterator [find_if] returned. *)
Fixpoint erase_tid (tid : txn_id_t) (l : list TxItem) : list TxItem :=
  match l with
  | [] => []
  | tx :: rest => if tid_ tx =? tid then rest else tx :: erase_tid tid rest
  end.

Definition abort_false (txn : Transaction) (lm : LockManager)
  : Outcome bool * Transaction * LockManager :=
  (Returned false, SetState ABORTED txn, lm).

(** Steps 3 and 4 of [lockTemplate], on the queue [l] of [rid]. *)
Definition lock_step3 (txn : Transaction) (rid : RID) (mode : LockMode)
    (l : TxList) (lm : LockManager) : Outcome bool * Transaction * LockManager :=
  let canGrant := checkCanGrant mode l in
  let die :=
    match last (locks_ l) with
    | Some back => negb canGrant && (tid_ back <? txn_id_ txn)
    | None => false
    end in
  if die then abort_false txn (store rid l lm)
  else
    let '(l', mode') := insert_enqueue (txn_id_ txn) mode canGrant l in
    if canGrant
    then (Returned true, insert_finish rid mode' txn, store rid l' lm)
    else (Blocked, txn, store rid l' lm).

(** [LockManager::lockTemplate] *)
Definition lockTemplate (txn : Transaction) (rid : RID) (mode : LockMode)
    (lm : LockManager) : Outcome bool * Transaction * LockManager :=
  if negb (bool_decide (state_ txn = GROWING)) then abort_false txn lm
  else
    let txList := table_at rid lm in
    let lm := store rid txList lm in
    if bool_decide (mode = UPGRADING) then
      if hasUpgrading_ txList then abort_false txn lm
      else
        match find_tid (txn_id_ txn) (locks_ txList) with
        | None => abort_false txn lm
        | Some it =>
            if negb (bool_decide (mode_ it = SHARED)) || negb (granted_ it)
            then abort_false txn lm
            else
              let txList' := {| locks_ := erase_tid (txn_id_ txn) (locks_ txList);
                                hasUpgrading_ := hasUpgrading_ txList |} in
              if bool_decide (rid ∈ shared_lock_set_ txn)
              then lock_step3 (SetSharedLockSet (shared_lock_set_ txn ∖ {[rid]}) txn)
                              rid mode txList' lm
              else (AssertFailed, txn, store rid txList' lm)
        end
    else lock_step3 txn rid mode txList lm.

Definition LockShared (txn : Transaction) (rid : RID) := lockTemplate txn rid SHARED.
Definition LockExclusive (txn : Transaction) (rid : RID) := lockTemplate txn rid EXCLUSIVE.
Definition LockUpgrade (txn : Transaction) (rid : RID) := lockTemplate txn rid UPGRADING.

(** The grant loop that ends [Unlock]: it walks the queue from the head,
    returns the queue as the loop leaves it and the new [hasUpgrading_]. *)
Fixpoint grant_pass (locks : list TxItem) (hasUpgrading : bool) : list TxItem * bool :=
  match locks with
  | [] => ([], hasUpgrading)
  | tx :: rest =>
      if granted_ tx then (tx :: rest, hasUpgrading)
      else
        let tx := Grant tx in
        match mode_ tx with
        | SHARED =>
            let '(rest', h) := grant_pass rest hasUpgrading in (tx :: rest', h)
        | UPGRADING => (set_mode EXCLUSIVE tx :: rest, false)
        | EXCLUSIVE => (tx :: rest, hasUpgrading)
        end
  end.

(** [Unlock] from the table lookup on (the state check is done). *)
Definition unlock_step2 (txn : Transaction) (rid : RID) (lm : LockManager)
  : Outcome bool * Transaction * LockManager :=
  let txList := table_at rid lm in
  let lm := store rid txList lm in
  match find_tid (txn_id_ txn) (locks_ txList) with
  | None => (AssertFailed, txn, lm)
  | Some it =>
      let shared := bool_decide (mode_ it = SHARED) in
      let lockSet := if shared then shared_lock_set_ txn else exclusive_lock_set_ txn in
      if negb (bool_decide (rid ∈ lockSet)) then (AssertFailed, txn, lm)
      else
        let txn := if shared
                   then SetSharedLockSet (shared_lock_set_ txn ∖ {[rid]}) txn
                   else SetExclusiveLockSet (exclusive_lock_set_ txn ∖ {[rid]}) txn in
        let locks := erase_tid (txn_id_ txn) (locks_ txList) in
        match locks with
        | [] => (Returned true, txn, set_table (delete rid (lockTable_ lm)) lm)
        | _ =>
            let '(locks', h) := grant_pass locks (hasUpgrading_ txList) in
            (Returned true, txn, store rid {| locks_ := locks'; hasUpgrading_ := h |} lm)
        end
  end.

(** [LockManager::Unlock] *)
Definition Unlock (txn : Transaction) (rid : RID) (lm : LockManager)
  : Outcome bool * Transaction * LockManager :=
  if strict_2PL_ lm then
    if negb (bool_decide (state_ txn = COMMITTED)) && negb (bool_decide (state_ txn = ABORTED))
    then abort_false txn lm
    else unlock_step2 txn rid lm
  else if bool_decide (state_ txn = GROWING)
  then unlock_step2 (SetState SHRINKING txn) rid lm
  else unlock_step2 txn rid lm.

(** *** Threads

    Every transaction runs on a thread of its own.  A call that blocks
    leaves its entry in the queue ungranted; the thread resumes in
    [TxList::insert] once another thread's [Unlock] has granted the entry. *)

Record System := {
  lm_ : LockManager;
  txns_ : gmap txn_id_t Transaction;
  waiting_ : gmap txn_id_t (RID * LockMode)
}.

Definition init_System (strict : bool) (tids : list txn_id_t) : System :=
  {| lm_ := {| strict_2PL_ := strict; lockTable_ := ∅ |};
     txns_ := list_to_map ((fun t => (t, new_Transaction t)) <$> tids);
     waiting_ := ∅ |}.

Inductive Call :=
| CallLock (tid : txn_id_t) (rid : RID) (mode : LockMode)
| CallUnlock (tid : txn_id_t) (rid : RID)
| Resume (tid : txn_id_t).

(** One scheduling step; [None] when the step is not enabled (unknown
    transaction, a thread that is blocked, a wake-up without a grant) or
    when an assertion fails. *)
Definition step (s : System) (c : Call) : option System :=
  match c with
  | CallLock tid rid mode =>
      match txns_ s !! tid, waiting_ s !! tid with
      | Some txn, None =>
          match lockTemplate txn rid mode (lm_ s) with
          | (Returned _, txn', lm') =>
              Some {| lm_ := lm'; txns_ := <[tid := txn']> (txns_ s); waiting_ := waiting_ s |}
          | (Blocked, txn', lm') =>
              Some {| lm_ := lm'; txns_ := <[tid := txn']> (txns_ s);
                      waiting_ := <[tid := (rid, mode)]> (waiting_ s) |}
          | (AssertFailed, _, _) => None
          end
      | _, _ => None
      end
  | CallUnlock tid rid =>
      match txns_ s !! tid, waiting_ s !! tid with
      | Some txn, None =>
          match Unlock txn rid (lm_ s) with
          | (Returned _, txn', lm') =>
              Some {| lm_ := lm'; txns_ := <[tid := txn']> (txns_ s); waiting_ := waiting_ s |}
          | _ => None
          end
      | _, _ => None
      end
  | Resume tid =>
      match txns_ s !! tid, waiting_ s !! tid with
      | Some txn, Some (rid, mode) =>
          match find_tid tid (locks_ (table_at rid (lm_ s))) with
          | Some it =>
              if granted_ it
              then Some {| lm_ := lm_ s;
                           txns_ := <[tid := insert_finish rid mode txn]> (txns_ s);
                           waiting_ := delete tid (waiting_ s) |}
              else None
          | None => None
          end
      | _, _ => None
      end
  end.

Fixpoint run (s : System) (cs : list Call) : option System :=
  match cs with
  | [] => Some s
  | c :: cs' => match step s c with Some s' => run s' cs' | None => None end
  end.

(** The states some schedule of calls leads to. *)
Definition reachable (strict : bool) (tids : list txn_id_t) (s : System) : Prop :=
  exists cs, run (init_System strict tids) cs = Some s.

(** Transaction [tid] is blocked in the queue of [rid]. *)
Definition waits_in (s : System) (tid : txn_id_t) (rid : RID) : Prop :=
  exists tx, tx ∈ locks_ (table_at rid (lm_ s)) /\ tid_ tx = tid /\ granted_ tx = false.

(** Transaction [tid] has an entry, granted or not, in the queue of [rid]. *)
Definition holds_or_waits (s : System) (tid : txn_id_t) (rid : RID) : Prop :=
  exists tx, tx ∈ locks_ (table_at rid (lm_ s)) /\ tid_ tx = tid.

End LockManager.

(** ** logging/log_record.h

    The header is not part of the sources at hand; the record keeps the
    fields that [TransactionManager] and [LogRecovery] read. *)

Inductive LogRecordType :=
| INVALID | INSERT | MARKDELETE | APPLYDELETE | ROLLBACKDELETE | UPDATE
| BEGIN | COMMIT | ABORT | NEWPAGE.

#[global] Instance LogRecordType_eq_dec : EqDecision LogRecordType.
Proof. solve_decision. Defined.

Module LogRecord.

Record LogRecord := {
  size_ : Z;
  lsn_ : lsn_t;
  txn_id_ : txn_id_t;
  prev_lsn_ : lsn_t;
  log_record_type_ : LogRecordType;
  (* INSERT *)
  insert_rid_ : RID;
  insert_tuple_ : Tuple;
  (* MARKDELETE, APPLYDELETE, ROLLBACKDELETE *)
  delete_rid_ : RID;
  delete_tuple_ : Tuple;
  (* UPDATE *)
  update_rid_ : RID;
  old_tuple_ : Tuple;
  new_tuple_ : Tuple;
  (* NEWPAGE *)
  prev_page_id_ : page_id_t;
  page_id_ : page_id_t
}.

(** [LogRecord{txn_id, prev_lsn, type}]: the header-only constructor used
    for BEGIN, COMMIT and ABORT (20 bytes, the LSN still unassigned). *)
Definition header_only (tid : txn_id_t) (prev : lsn_t) (ty : LogRecordType) : LogRecord :=
  {| size_ := 20; lsn_ := INVALID_LSN; txn_id_ := tid; prev_lsn_ := prev;
     log_record_type_ := ty;
     insert_rid_ := (0, 0); insert_tuple_ := [];
     delete_rid_ := (0, 0); delete_tuple_ := [];
     update_rid_ := (0, 0); old_tuple_ := []; new_tuple_ := [];
     prev_page_id_ := INVALID_PAGE_ID; page_id_ := INVALID_PAGE_ID |}.

End LogRecord.

(** ** concurrency/transaction_manager.cpp *)

Module TransactionManager.

(** The calls [Commit] makes, in the order it makes them. *)
Inductive Event :=
| EvSetState (st : TransactionState)
| EvApplyDelete (table : Z) (rid : RID)
| EvAppendLogRecord (ty : LogRecordType)
| EvFlush (force : bool)
| EvUnlock (rid : RID).

Section WithHeap.

(** The table heap (table/table_heap.h) is an external collaborator. *)
Variable Heap : Type.

(** The global switch of common/config.h. *)
Variable ENABLE_LOGGING : bool.

(** What the transaction manager works on: the heap, the lock manager and
    the log manager (the records appended so far and the next LSN). *)
Record Env := {
  heap_ : Heap;
  lock_manager_ : LockManager.LockManager;
  log_ : list LogRecord.LogRecord;
  next_lsn_ : lsn_t
}.

Definition set_lock_manager (lm : LockManager.LockManager) (e : Env) : Env :=
  {| heap_ := heap_ e; lock_manager_ := lm; log_ := log_ e;
     next_lsn_ := next_lsn_ e |}.

(** [TableHeap::ApplyDelete(rid, txn)] of the table an entry names: any
    function of the transaction and the environment.  The write set is
    the one thing it is taken not to touch. *)
Variable ApplyDelete : Z -> RID -> Transaction -> Env -> Transaction * Env.

(** [LogManager::AppendLogRecord]: stamp the next LSN on the record,
    append it and return the LSN. *)
Definition AppendLogRecord (r : LogRecord.LogRecord) (e : Env) : lsn_t * Env :=
  let lsn := next_lsn_ e in
  let r' := {| LogRecord.size_ := LogRecord.size_ r; LogRecord.lsn_ := lsn;
               LogRecord.txn_id_ := LogRecord.txn_id_ r;
               LogRecord.prev_lsn_ := LogRecord.prev_lsn_ r;
               LogRecord.log_record_type_ := LogRecord.log_record_type_ r;
               LogRecord.insert_rid_ := LogRecord.insert_rid_ r;
               LogRecord.insert_tuple_ := LogRecord.insert_tuple_ r;
               LogRecord.delete_rid_ := LogRecord.delete_rid_ r;
               LogRecord.delete_tuple_ := LogRecord.delete_tuple_ r;
               LogRecord.update_rid_ := LogRecord.update_rid_ r;
               LogRecord.old_tuple_ := LogRecord.old_tuple_ r;
               LogRecord.new_tuple_ := LogRecord.new_tuple_ r;
               LogRecord.prev_page_id_ := LogRecord.prev_page_id_ r;
               LogRecord.page_id_ := LogRecord.page_id_ r |} in
  (lsn, {| heap_ := heap_ e; lock_manager_ := lock_manager_ e;
           log_ := log_ e ++ [r']; next_lsn_ := lsn + 1 |}).

(** The state [Commit] threads: the transaction, the environment and the
    calls made so far. *)
Definition St : Type := Transaction * Env * list Event.

(** The [while (!write_set->empty())] loop of [Commit]: entries are taken
    from the back, so the loop runs over the reversed write set. *)
Fixpoint drain_from_back (rev_ws : list WriteRecord) (st : St) : St :=
  match rev_ws with
  | [] => st
  | item :: rest =>
      let '(txn, e, tr) := st in
      let st1 :=
        if bool_decide (wtype_ item = WDELETE)
        then
          let '(txn1, e1) := ApplyDelete (table_ item) (rid_ item) txn e in
          (txn1, e1, tr ++ [EvApplyDelete (table_ item) (rid_ item)])
        else (txn, e, tr) in
      let '(txn1, e1, tr1) := st1 in
      (* write_set->pop_back() *)
      drain_from_back rest (SetWriteSet (rev rest) txn1, e1, tr1)
  end.

Definition drain_write_set (st : St) : St :=
  let '(txn, e, tr) := st in
  let '(txn1, e1, tr1) := drain_from_back (rev (write_set_ txn)) st in
  (* write_set->clear() *)
  (SetWriteSet [] txn1, e1, tr1).

(** The [if (ENABLE_LOGGING)] block of [Commit]. *)
Definition log_commit (st : St) : St :=
  let '(txn, e, tr) := st in
  if ENABLE_LOGGING then
    let log := LogRecord.header_only (txn_id_ txn) (prev_lsn_ txn) COMMIT in
    let '(lsn, e1) := AppendLogRecord log e in
    (SetPrevLSN lsn txn, e1, tr ++ [EvAppendLogRecord COMMIT; EvFlush false])
  else st.

(** The loop over [lock_set]; the value [Unlock] returns is dropped, a
    failed assertion inside it ends the process. *)
Fixpoint release_locks (rids : list RID) (st : St) : Outcome unit * St :=
  match rids with
  | [] => (Returned tt, st)
  | rid :: rest =>
      let '(txn, e, tr) := st in
      match LockManager.Unlock txn rid (lock_manager_ e) with
      | (Returned _, txn1, lm1) =>
          release_locks rest (txn1, set_lock_manager lm1 e, tr ++ [EvUnlock rid])
      | (_, txn1, lm1) =>
          (AssertFailed, (txn1, set_lock_manager lm1 e, tr ++ [EvUnlock rid]))
      end
  end.

(** The RIDs [Commit] collects into [lock_set] from both lock sets; the
    iteration order of an [unordered_set] is unspecified, the model takes
    the order of [elements]. *)
Definition lock_set (txn : Transaction) : list RID :=
  elements (shared_lock_set_ txn ∪ exclusive_lock_set_ txn).

(** [TransactionManager::Commit] *)
Definition Commit (txn : Transaction) (e : Env) : Outcome unit * St :=
  let st0 : St := (SetState COMMITTED txn, e, [EvSetState COMMITTED]) in
  let st1 := drain_write_set st0 in
  let st2 := log_commit st1 in
  release_locks (lock_set (fst (fst st2))) st2.

End WithHeap.

Arguments heap_ {Heap} _.
Arguments lock_manager_ {Heap} _.
Arguments log_ {Heap} _.
Arguments next_lsn_ {Heap} _.

End TransactionManager.

(** ** logging/log_recovery.cpp *)

Module LogRecovery.
Import LogRecord.

Section WithTablePage.

(** A table page (page/table_page.h, an external collaborator): its LSN
    and sibling links, and the slotted tuple area, which the recovery
    code reaches only through the page's own operations. *)
Variable Body : Type.

Record TablePage := {
  page_lsn_ : lsn_t;
  table_page_id_ : page_id_t;
  table_next_page_id_ : page_id_t;
  body_ : Body
}.

Definition GetLSN (p : TablePage) : lsn_t := page_lsn_ p.

Definition SetLSN (l : lsn_t) (p : TablePage) : TablePage :=
  {| page_lsn_ := l; table_page_id_ := table_page_id_ p;
     table_next_page_id_ := table_next_page_id_ p; body_ := body_ p |}.

Definition GetNextPageId (p : TablePage) : page_id_t := table_next_page_id_ p.

Definition SetNextPageId (n : page_id_t) (p : TablePage) : TablePage :=
  {| page_lsn_ := page_lsn_ p; table_page_id_ := table_page_id_ p;
     table_next_page_id_ := n; body_ := body_ p |}.

(** The page operations, called with null transaction, lock manager and
    log manager. *)
Variable Init : page_id_t -> page_id_t -> TablePage -> TablePage.
Variable InsertTuple : Tuple -> RID -> TablePage -> TablePage.
Variable UpdateTuple : Tuple -> Tuple -> RID -> TablePage -> TablePage.
Variable MarkDelete : RID -> TablePage -> TablePage.
Variable ApplyDelete : RID -> TablePage -> TablePage.
Variable RollbackDelete : RID -> TablePage -> TablePage.

(** The buffer pool as the recovery pass sees it (page id to page; a page
    that cannot be fetched is the null pointer), and the two tables the
    pass builds. *)
Record Recovery := {
  pages_ : gmap page_id_t TablePage;
  lsn_mapping_ : gmap lsn_t Z;
  active_txn_ : gmap txn_id_t lsn_t
}.

Definition set_pages (ps : gmap page_id_t TablePage) (r : Recovery) : Recovery :=
  {| pages_ := ps; lsn_mapping_ := lsn_mapping_ r; active_txn_ := active_txn_ r |}.

(** The RID a data record carries. *)
Definition record_rid (log : LogRecord) : RID :=
  match log_record_type_ log with
  | INSERT => insert_rid_ log
  | UPDATE => update_rid_ log
  | _ => delete_rid_ log
  end.

(** The [if (needRedo)] block for the tuple-level records: the operation
    the record logs, then [SetLSN]; [None] is [assert(false)]. *)
Definition replay (log : LogRecord) (rid : RID) (page : TablePage) : option TablePage :=
  let done (p : TablePage) := Some (SetLSN (lsn_ log) p) in
  match log_record_type_ log with
  | INSERT => done (InsertTuple (insert_tuple_ log) rid page)
  | UPDATE => done (UpdateTuple (new_tuple_ log) (old_tuple_ log) rid page)
  | MARKDELETE => done (MarkDelete rid page)
  | APPLYDELETE => done (ApplyDelete rid page)
  | ROLLBACKDELETE => done (RollbackDelete rid page)
  | _ => None
  end.

(** [DeserializeLogRecord] and the body of the inner loop of [Redo] for
    one record of the log buffer; [offset] is the value [temp + bufferOffset]
    the loop has computed for it.  [None] when an assertion fails: a record
    whose type is none of the nine the [switch] of [DeserializeLogRecord]
    lists ends there, before either table is written. *)
Definition redo_record (offset : Z) (log : LogRecord) (r : Recovery) : option Recovery :=
  if bool_decide (log_record_type_ log = INVALID) then None else
  let r := {| pages_ := pages_ r;
              lsn_mapping_ := <[lsn_ log := offset]> (lsn_mapping_ r);
              active_txn_ := <[txn_id_ log := lsn_ log]> (active_txn_ r) |} in
  match log_record_type_ log with
  | BEGIN => Some r
  | COMMIT | ABORT =>
      Some {| pages_ := pages_ r; lsn_mapping_ := lsn_mapping_ r;
              active_txn_ := delete (txn_id_ log) (active_txn_ r) |}
  | NEWPAGE =>
      match pages_ r !! page_id_ log with
      | None => None
      | Some page =>
          let needRedo := GetLSN page <? lsn_ log in
          if needRedo then
            let page := SetLSN (lsn_ log) (Init (page_id_ log) (prev_page_id_ log) page) in
            let r := set_pages (<[page_id_ log := page]> (pages_ r)) r in
            if bool_decide (prev_page_id_ log = INVALID_PAGE_ID) then Some r
            else
              match pages_ r !! prev_page_id_ log with
              | None => None
              | Some prevPage =>
                  Some (set_pages (<[prev_page_id_ log := SetNextPageId (page_id_ log) prevPage]>
                                     (pages_ r)) r)
              end
          else Some r
      end
  | _ =>
      let rid := record_rid log in
      match pages_ r !! fst rid with
      | None => None
      | Some page =>
          let needRedo := GetLSN page <? lsn_ log in
          if needRedo then
            match replay log rid page with
            | Some page' => Some (set_pages (<[fst rid := page']> (pages_ r)) r)
            | None => None
            end
          else Some r
      end
  end.

(** [Redo] over the records the buffer loop deserializes, from the start
    of the log to its end, each with the value [temp + bufferOffset] the
    loop stores for it in [lsn_mapping_]. *)
Fixpoint Redo (logs : list (Z * LogRecord)) (r : Recovery) : option Recovery :=
  match logs with
  | [] => Some r
  | (offset, log) :: rest =>
      match redo_record offset log r with
      | Some r' => Redo rest r'
      | None => None
      end
  end.

End WithTablePage.

Arguments page_lsn_ {Body} _.
Arguments table_page_id_ {Body} _.
Arguments table_next_page_id_ {Body} _.
Arguments body_ {Body} _.
Arguments pages_ {Body} _.
Arguments lsn_mapping_ {Body} _.
Arguments active_txn_ {Body} _.
Arguments GetLSN {Body} _.
Arguments SetLSN {Body} _ _.

End LogRecovery.

(** ** A state monad with failure

    The index code is written in it: a computation reads and writes the
    state and either returns or does not ([None]: a failed [assert], a
    dereferenced null pointer, or an exhausted recursion budget). *)

Definition M (S A : Type) : Type := S -> option (A * S).

Definition ret {S A : Type} (a : A) : M S A := fun s => Some (a, s).

Definition bind {S A B : Type} (m : M S A) (k : A -> M S B) : M S B :=
  fun s => match m s with
           | Some (a, s') => k a s'
           | None => None
           end.

Definition crash {S A : Type} : M S A := fun _ => None.

Definition get {S : Type} : M S S := fun s => Some (s, s).

Definition gets {S A : Type} (f : S -> A) : M S A := fun s => Some (f s, s).

Definition modify {S : Type} (f : S -> S) : M S unit := fun s => Some (tt, f s).

(** [assert(b)] *)
Definition check {S : Type} (b : bool) : M S unit :=
  if b then ret tt else crash.

Definition when {S : Type} (b : bool) (m : M S unit) : M S unit :=
  if b then m else ret tt.

(** [for (x : l) body(x)] *)
Fixpoint for_each {S A : Type} (l : list A) (body : A -> M S unit) : M S unit :=
  match l with
  | [] => ret tt
  | x :: rest => bind (body x) (fun _ => for_each rest body)
  end.

Declare Scope m_scope.
Delimit Scope m_scope with M.
Notation "'let*' x ':=' m 'in' k" := (bind m (fun x => k))
  (at level 200, x name, m at level 100, k at level 200, right associativity) : m_scope.
Notation "m '>>' k" := (bind m (fun _ => k))
  (at level 100, k at level 200, right associativity) : m_scope.

(** ** page/b_plus_tree_page.h: the node header and its payload *)

Module BPlusTreePage.

(** The kind of operation a descent is made for (index/b_plus_tree.h). *)
Inductive OpType := READ | INSERT | DELETE.

#[global] Instance OpType_eq_dec : EqDecision OpType.
Proof. solve_decision. Defined.

(** The calls of the restructuring routines that [Remove] can make. *)
Inductive Event :=
| EvCoalesceOrRedistribute (node : page_id_t)
| EvCoalesce (neighbor node parent : page_id_t)
| EvRedistribute (neighbor node : page_id_t).

Section WithKey.
Context {Key : Type}.

(** The slot array of a node, up to its size.  A leaf also carries the
    sibling link of its header. *)
Inductive Payload :=
| LeafArray (next_page_id : page_id_t) (array : list (Key * RID))
| InternalArray (array : list (Key * page_id_t)).

Record BPlusTreePage := {
  max_size_ : Z;
  parent_page_id_ : page_id_t;
  page_id_ : page_id_t;
  payload_ : Payload
}.

Definition IsLeafPage (p : BPlusTreePage) : bool :=
  match payload_ p with LeafArray _ _ => true | InternalArray _ => false end.

Definition IsRootPage (p : BPlusTreePage) : bool :=
  parent_page_id_ p =? INVALID_PAGE_ID.

Definition GetSize (p : BPlusTreePage) : Z :=
  match payload_ p with
  | LeafArray _ a => Z.of_nat (length a)
  | InternalArray a => Z.of_nat (length a)
  end.

Definition GetMaxSize (p : BPlusTreePage) : Z := max_size_ p.
Definition GetParentPageId (p : BPlusTreePage) : page_id_t := parent_page_id_ p.
Definition GetPageId (p : BPlusTreePage) : page_id_t := page_id_ p.

Definition set_parent (parent : page_id_t) (p : BPlusTreePage) : BPlusTreePage :=
  {| max_size_ := max_size_ p; parent_page_id_ := parent;
     page_id_ := page_id_ p; payload_ := payload_ p |}.

Definition set_payload (pl : Payload) (p : BPlusTreePage) : BPlusTreePage :=
  {| max_size_ := max_size_ p; parent_page_id_ := parent_page_id_ p;
     page_id_ := page_id_ p; payload_ := pl |}.

(** The buffer pool (its frames by page id, the pin count of every page
    and the next page id to allocate), the members of the tree object
    ([root_page_id_], the thread-local [rootLockedCnt], the root id the
    header page records for this index), the transaction the operation was
    called with (null or not) and the restructuring calls made so far. *)
Record State := {
  root_page_id_ : page_id_t;
  rootLockedCnt : Z;
  pages_ : gmap page_id_t BPlusTreePage;
  pin_count_ : page_id_t -> Z;
  next_page_id_ : page_id_t;
  header_record_ : option page_id_t;
  transaction_ : option Transaction;
  events_ : list Event
}.

Definition set_root_page_id (r : page_id_t) (s : State) : State :=
  {| root_page_id_ := r; rootLockedCnt := rootLockedCnt s; pages_ := pages_ s;
     pin_count_ := pin_count_ s; next_page_id_ := next_page_id_ s;
     header_record_ := header_record_ s; transaction_ := transaction_ s;
     events_ := events_ s |}.

Definition set_rootLockedCnt (c : Z) (s : State) : State :=
  {| root_page_id_ := root_page_id_ s; rootLockedCnt := c; pages_ := pages_ s;
     pin_count_ := pin_count_ s; next_page_id_ := next_page_id_ s;
     header_record_ := header_record_ s; transaction_ := transaction_ s;
     events_ := events_ s |}.

Definition set_pages (ps : gmap page_id_t BPlusTreePage) (s : State) : State :=
  {| root_page_id_ := root_page_id_ s; rootLockedCnt := rootLockedCnt s; pages_ := ps;
     pin_count_ := pin_count_ s; next_page_id_ := next_page_id_ s;
     header_record_ := header_record_ s; transaction_ := transaction_ s;
     events_ := events_ s |}.

Definition set_pin_count (pc : page_id_t -> Z) (s : State) : State :=
  {| root_page_id_ := root_page_id_ s; rootLockedCnt := rootLockedCnt s; pages_ := pages_ s;
     pin_count_ := pc; next_page_id_ := next_page_id_ s;
     header_record_ := header_record_ s; transaction_ := transaction_ s;
     events_ := events_ s |}.

Definition set_next_page_id (n : page_id_t) (s : State) : State :=
  {| root_page_id_ := root_page_id_ s; rootLockedCnt := rootLockedCnt s; pages_ := pages_ s;
     pin_count_ := pin_count_ s; next_page_id_ := n;
     header_record_ := header_record_ s; transaction_ := transaction_ s;
     events_ := events_ s |}.

Definition set_header_record (h : option page_id_t) (s : State) : State :=
  {| root_page_id_ := root_page_id_ s; rootLockedCnt := rootLockedCnt s; pages_ := pages_ s;
     pin_count_ := pin_count_ s; next_page_id_ := next_page_id_ s;
     header_record_ := h; transaction_ := transaction_ s;
     events_ := events_ s |}.

Definition set_transaction (t : option Transaction) (s : State) : State :=
  {| root_page_id_ := root_page_id_ s; rootLockedCnt := rootLockedCnt s; pages_ := pages_ s;
     pin_count_ := pin_count_ s; next_page_id_ := next_page_id_ s;
     header_record_ := header_record_ s; transaction_ := t;
     events_ := events_ s |}.

Definition set_events (ev : list Event) (s : State) : State :=
  {| root_page_id_ := root_page_id_ s; rootLockedCnt := rootLockedCnt s; pages_ := pages_ s;
     pin_count_ := pin_count_ s; next_page_id_ := next_page_id_ s;
     header_record_ := header_record_ s; transaction_ := transaction_ s;
     events_ := ev |}.

Definition emit (e : Event) : M State unit :=
  modify (fun s => set_events (events_ s ++ [e]) s).

(** *** The buffer pool manager (buffer/buffer_pool_manager.h)

    Modelled from the spec: the buffer pool is an external collaborator of
    which the spec gives the contract [fetch_page], [new_page] (pinned),
    [unpin_page], [delete_page]; "every fetch must be balanced by an
    unpin".  The pin count of a page is the number of fetches of it minus
    the number of unpins. *)

Definition add_pin (id : page_id_t) (d : Z) (pc : page_id_t -> Z) : page_id_t -> Z :=
  fun q => if bool_decide (q = id) then pc q + d else pc q.

(** [FetchPage]: pin the page and hand out its frame; a page that does
    not exist gives the null pointer, which every caller dereferences. *)
Definition FetchPage (id : page_id_t) : M State BPlusTreePage :=
  fun s => match pages_ s !! id with
           | Some p => Some (p, set_pin_count (add_pin id 1 (pin_count_ s)) s)
           | None => None
           end.

(** [NewPage]: allocate the next page id; the frame comes back pinned. *)
Definition NewPage : M State page_id_t :=
  fun s => let id := next_page_id_ s in
           Some (id, set_next_page_id (id + 1)
                       (set_pin_count (add_pin id 1 (pin_count_ s)) s)).

Definition UnpinPage (id : page_id_t) (is_dirty : bool) : M State unit :=
  modify (fun s => set_pin_count (add_pin id (-1) (pin_count_ s)) s).

(** [DeletePage]: a page that is still pinned is not deleted. *)
Definition DeletePage (id : page_id_t) : M State bool :=
  fun s => if pin_count_ s id =? 0
           then Some (true, set_pages (delete id (pages_ s)) s)
           else Some (false, s).

(** [UnpinPage(node->GetPageId(), is_dirty)] for a pointer [node] into
    the frame of page [ptr]. *)
Definition UnpinPage_of (ptr : page_id_t) (is_dirty : bool) : M State unit :=
  fun s => match pages_ s !! ptr with
           | Some p => UnpinPage (page_id_ p) is_dirty s
           | None => None
           end.

(** Reading and writing a node through a pointer into its frame. *)
Definition page_at (id : page_id_t) : M State BPlusTreePage :=
  fun s => match pages_ s !! id with
           | Some p => Some (p, s)
           | None => None
           end.

Definition store_page (id : page_id_t) (p : BPlusTreePage) : M State unit :=
  modify (fun s => set_pages (<[id := p]> (pages_ s)) s).

(** A write to a field of the node in the frame of [id]. *)
Definition update_page (id : page_id_t) (f : BPlusTreePage -> BPlusTreePage) : M State unit :=
  bind (page_at id) (fun p => store_page id (f p)).

Definition SetParentPageId (id : page_id_t) (parent : page_id_t) : M State unit :=
  update_page id (set_parent parent).

(** *** The transaction's page sets (concurrency/transaction.h) *)

(** [transaction->AddIntoPageSet(page)]; a null transaction is
    dereferenced. *)
Definition AddIntoPageSet (id : page_id_t) : M State unit :=
  fun s => match transaction_ s with
           | Some t => Some (tt, set_transaction (Some (SetPageSet (page_set_ t ++ [id]) t)) s)
           | None => None
           end.

(** [if (transaction != nullptr) transaction->AddIntoPageSet(page)] *)
Definition AddIntoPageSet_if_transaction (id : page_id_t) : M State unit :=
  fun s => match transaction_ s with
           | Some t => Some (tt, set_transaction (Some (SetPageSet (page_set_ t ++ [id]) t)) s)
           | None => Some (tt, s)
           end.

Definition AddIntoDeletedPageSet (id : page_id_t) : M State unit :=
  fun s => match transaction_ s with
           | Some t => Some (tt, set_transaction
                                   (Some (SetDeletedPageSet ({[id]} ∪ deleted_page_set_ t) t)) s)
           | None => None
           end.

End WithKey.

Arguments Payload : clear implicits.
Arguments BPlusTreePage : clear implicits.
Arguments State : clear implicits.

End BPlusTreePage.

(** ** page/b_plus_tree_internal_page.cpp

    Modelled from the spec: the file is not part of the sources at hand.
    The spec gives the layout ("in an internal node the value is a child
    page id; slot 0's key is unused"), the lookup ("the child page id for
    the slot i such that keys[i] <= key < keys[i+1], with keys[0] treated
    as minus infinity and out-of-range as plus infinity"), the split ("moves
    the upper half"), the new root ("[(-, old_page), (sep, new_page)]"),
    the coalesce ("move node's entries into the sibling so that the final
    order is left-then-right, delete the separator key from the parent") and
    the redistribution ("borrow one entry from the sibling; update the
    relevant parent key to reflect the new boundary").  A child that changes
    parent has its parent page id rewritten, through a fetch and an unpin
    of the child. *)

Module InternalPage.
Import BPlusTreePage.

Section WithKey.
Context {Key : Type}.
Variable comparator : Key -> Key -> Z.

(** The maximal size [Init] computes from [PAGE_SIZE] and the slot size. *)
Variable internal_max_size : Z.

Abbreviation Page := (BPlusTreePage Key).
Abbreviation St := (State Key).

(** The node behind a pointer to an internal page: header and slots. *)
Definition internal_at (id : page_id_t) : M St (Page * list (Key * page_id_t)) :=
  (let* p := page_at id in
   match payload_ p with
   | InternalArray array => ret (p, array)
   | LeafArray _ _ => crash
   end)%M.

(** A write to the slots (and the size) of the node. *)
Definition set_array (id : page_id_t) (array : list (Key * page_id_t)) : M St unit :=
  (let* _ := internal_at id in
   update_page id (set_payload (InternalArray array)))%M.

(** [Init(page_id, parent_id = INVALID_PAGE_ID)], on the frame of [page_id]. *)
Definition Init (page_id parent_id : page_id_t) : M St unit :=
  store_page page_id {| max_size_ := internal_max_size; parent_page_id_ := parent_id;
                        page_id_ := page_id; payload_ := InternalArray [] |}.

(** The scan behind [Lookup]: [cur] is the child of the slot reached so
    far, [rest] the slots after it. *)
Fixpoint lookup_from (key : Key) (rest : list (Key * page_id_t)) (cur : page_id_t) : page_id_t :=
  match rest with
  | [] => cur
  | (k, v) :: rest' => if comparator key k <? 0 then cur else lookup_from key rest' v
  end.

(** [Lookup]: the child of the slot [i] with [keys[i] <= key < keys[i+1]]. *)
Definition Lookup (array : list (Key * page_id_t)) (key : Key) : option page_id_t :=
  match array with
  | [] => None
  | (_, v0) :: rest => Some (lookup_from key rest v0)
  end.

(** [ValueIndex]: the first slot that holds [value], -1 when there is none. *)
Fixpoint value_index_from (value : page_id_t) (array : list (Key * page_id_t)) (i : Z) : Z :=
  match array with
  | [] => -1
  | (_, v) :: rest => if v =? value then i else value_index_from value rest (i + 1)
  end.

Definition ValueIndex (array : list (Key * page_id_t)) (value : page_id_t) : Z :=
  value_index_from value array 0.

(** [ValueAt], [KeyAt]: the index is asserted to be in range. *)
Definition ValueAt (self : page_id_t) (index : Z) : M St page_id_t :=
  (let* n := internal_at self in
   check ((0 <=? index) && (index <? Z.of_nat (length (snd n)))) >>
   match snd n !! Z.to_nat index with
   | Some (_, v) => ret v
   | None => crash
   end)%M.

Definition KeyAt (self : page_id_t) (index : Z) : M St Key :=
  (let* n := internal_at self in
   check ((0 <=? index) && (index <? Z.of_nat (length (snd n)))) >>
   match snd n !! Z.to_nat index with
   | Some (k, _) => ret k
   | None => crash
   end)%M.

Definition set_key (index : nat) (key : Key) (array : list (Key * page_id_t))
  : list (Key * page_id_t) :=
  match array !! index with
  | Some (_, v) => <[index := (key, v)]> array
  | None => array
  end.

Definition SetKeyAt (self : page_id_t) (index : Z) (key : Key) : M St unit :=
  (let* n := internal_at self in
   check ((0 <=? index) && (index <? Z.of_nat (length (snd n)))) >>
   set_array self (set_key (Z.to_nat index) key (snd n)))%M.

(** [PopulateNewRoot]: two slots; the key of slot 0 is never read. *)
Definition PopulateNewRoot (self : page_id_t) (old_value : page_id_t) (new_key : Key)
    (new_value : page_id_t) : M St unit :=
  set_array self [(new_key, old_value); (new_key, new_value)].

(** The slots after [InsertNodeAfter]: the new pair stands in the slot
    after the one that holds [old_value]. *)
Definition insert_after (array : list (Key * page_id_t)) (old_value : page_id_t)
    (new_key : Key) (new_value : page_id_t) : list (Key * page_id_t) :=
  let idx := Z.to_nat (ValueIndex array old_value + 1) in
  take idx array ++ (new_key, new_value) :: drop idx array.

(** [InsertNodeAfter] *)
Definition InsertNodeAfter (self : page_id_t) (old_value : page_id_t) (new_key : Key)
    (new_value : page_id_t) : M St Z :=
  (let* n := internal_at self in
   check (0 <? ValueIndex (snd n) old_value + 1) >>
   let array' := insert_after (snd n) old_value new_key new_value in
   set_array self array' >>
   ret (Z.of_nat (length array')))%M.

(** A child that moves to another node: its parent page id is rewritten. *)
Definition adopt (new_parent : page_id_t) (child : page_id_t) : M St unit :=
  (let* _ := FetchPage child in
   SetParentPageId child new_parent >>
   UnpinPage child true)%M.

(** [MoveHalfTo]: the upper half of the slots goes to [recipient]. *)
Definition MoveHalfTo (self recipient : page_id_t) : M St unit :=
  (let* n := internal_at self in
   let total := GetMaxSize (fst n) + 1 in
   check (Z.of_nat (length (snd n)) =? total) >>
   let copyIdx := total ÷ 2 in
   let* r := internal_at recipient in
   let moved := drop (Z.to_nat copyIdx) (snd n) in
   set_array recipient moved >>
   for_each moved (fun kv => adopt (GetPageId (fst r)) (snd kv)) >>
   set_array self (take (Z.to_nat copyIdx) (snd n)))%M.

(** [Remove(index)] *)
Definition Remove (self : page_id_t) (index : Z) : M St unit :=
  (let* n := internal_at self in
   check ((0 <=? index) && (index <? Z.of_nat (length (snd n)))) >>
   set_array self (take (Z.to_nat index) (snd n) ++ drop (S (Z.to_nat index)) (snd n)))%M.

(** [RemoveAndReturnOnlyChild] *)
Definition RemoveAndReturnOnlyChild (self : page_id_t) : M St page_id_t :=
  (let* ret_ := ValueAt self 0 in
   let* n := internal_at self in
   check (Z.of_nat (length (snd n)) =? 1) >>
   set_array self [] >>
   ret ret_)%M.

(** [MoveAllTo]: the separator comes down from the parent into slot 0,
    then all slots are appended to [recipient]. *)
Definition MoveAllTo (self recipient : page_id_t) (index_in_parent : Z) : M St unit :=
  (let* n := internal_at self in
   let parent := GetParentPageId (fst n) in
   let* _ := FetchPage parent in
   let* sep := KeyAt parent index_in_parent in
   SetKeyAt self 0 sep >>
   UnpinPage parent false >>
   let* n := internal_at self in
   let* r := internal_at recipient in
   set_array recipient (snd r ++ snd n) >>
   for_each (snd n) (fun kv => adopt (GetPageId (fst r)) (snd kv)) >>
   set_array self [])%M.

(** [MoveFirstToEndOf]: the first child of the right sibling goes to the
    end of [recipient] under the old separator; the key of the sibling's
    next slot becomes the separator. *)
Definition MoveFirstToEndOf (self recipient : page_id_t) : M St unit :=
  (let* n := internal_at self in
   match snd n with
   | (_, v0) :: (k1, v1) :: rest =>
       let parent := GetParentPageId (fst n) in
       let* _ := FetchPage parent in
       let* pn := internal_at parent in
       let index := ValueIndex (snd pn) (GetPageId (fst n)) in
       let* sep := KeyAt parent index in
       SetKeyAt parent index k1 >>
       UnpinPage parent true >>
       set_array self ((k1, v1) :: rest) >>
       let* r := internal_at recipient in
       check (Z.of_nat (length (snd r)) + 1 <=? GetMaxSize (fst r)) >>
       set_array recipient (snd r ++ [(sep, v0)]) >>
       adopt (GetPageId (fst r)) v0
   | _ => crash
   end)%M.

(** [MoveLastToFrontOf]: the last child of the left sibling goes to the
    front of [recipient]; its key becomes the separator and the old
    separator the key of the slot that was first. *)
Definition MoveLastToFrontOf (self recipient : page_id_t) (parent_index : Z) : M St unit :=
  (let* n := internal_at self in
   match last (snd n) with
   | Some (k, v) =>
       set_array self (removelast (snd n)) >>
       let* r := internal_at recipient in
       check (Z.of_nat (length (snd r)) + 1 <=? GetMaxSize (fst r)) >>
       let parent := GetParentPageId (fst r) in
       let* _ := FetchPage parent in
       let* sep := KeyAt parent parent_index in
       SetKeyAt parent parent_index k >>
       UnpinPage parent true >>
       let* r := internal_at recipient in
       set_array recipient ((k, v) :: set_key 0 sep (snd r)) >>
       adopt (GetPageId (fst r)) v
   | None => crash
   end)%M.

End WithKey.

End InternalPage.

(** ** page/b_plus_tree_leaf_page.cpp *)

Module LeafPage.
Import BPlusTreePage.

Section WithKey.
Context {Key : Type}.

(** The comparator: negative, zero or positive as in [KeyComparator]. *)
Variable comparator : Key -> Key -> Z.

(** What [Init] computes for the maximal size from [PAGE_SIZE] and the
    slot size: [(PAGE_SIZE - sizeof(BPlusTreeLeafPage)) / sizeof(MappingType) - 1]. *)
Variable leaf_max_size : Z.

Abbreviation Page := (BPlusTreePage Key).
Abbreviation St := (State Key).

(** The [while (st <= ed)] loop of [KeyIndex]; [fuel] bounds the number of
    rounds, and a read outside the array ends the loop like its guard. *)
Fixpoint KeyIndex_loop (fuel : nat) (array : list (Key * RID)) (key : Key) (st ed : Z) : Z :=
  match fuel with
  | O => ed + 1
  | S fuel' =>
      if st <=? ed then
        let mid := (ed - st) ÷ 2 + st in
        match array !! Z.to_nat mid with
        | Some (k, _) =>
            if comparator k key >=? 0
            then KeyIndex_loop fuel' array key st (mid - 1)
            else KeyIndex_loop fuel' array key (mid + 1) ed
        | None => ed + 1
        end
      else ed + 1
  end.

(** [KeyIndex], as a function of the slots of the page. *)
Definition KeyIndex (array : list (Key * RID)) (key : Key) : Z :=
  KeyIndex_loop (length array) array key 0 (Z.of_nat (length array) - 1).

(** What [Lookup] finds in the slots: the value stored under [key], if
    any. *)
Definition array_lookup (array : list (Key * RID)) (key : Key) : option RID :=
  let idx := KeyIndex array key in
  if idx <? Z.of_nat (length array) then
    match array !! Z.to_nat idx with
    | Some (k, v) => if comparator k key =? 0 then Some v else None
    | None => None
    end
  else None.

(** What [Insert] leaves in the slots: the slots from [idx] on are
    shifted by one and the pair is written at [idx]. *)
Definition array_insert (array : list (Key * RID)) (key : Key) (value : RID) : list (Key * RID) :=
  let idx := Z.to_nat (KeyIndex array key) in
  take idx array ++ (key, value) :: drop idx array.

(** What [RemoveAndDeleteRecord] leaves in the slots. *)
Definition array_remove (array : list (Key * RID)) (key : Key) : list (Key * RID) :=
  let idx := KeyIndex array key in
  if Z.of_nat (length array) <=? idx then array
  else
    match array !! Z.to_nat idx with
    | Some (k, _) =>
        if negb (comparator key k =? 0) then array
        else take (Z.to_nat idx) array ++ drop (S (Z.to_nat idx)) array
    | None => array
    end.

(** The node behind a leaf pointer: its header, sibling link and slots. *)
Definition leaf_at (id : page_id_t) : M St (Page * page_id_t * list (Key * RID)) :=
  (let* p := page_at id in
   match payload_ p with
   | LeafArray next array => ret (p, next, array)
   | InternalArray _ => crash
   end)%M.

(** A write to the slots (and the size) of the leaf. *)
Definition set_array (id : page_id_t) (array : list (Key * RID)) : M St unit :=
  (let* l := leaf_at id in
   update_page id (set_payload (LeafArray (snd (fst l)) array)))%M.

(** [SetNextPageId] *)
Definition SetNextPageId (id : page_id_t) (next_page_id : page_id_t) : M St unit :=
  (let* l := leaf_at id in
   update_page id (set_payload (LeafArray next_page_id (snd l))))%M.

(** [Init(page_id, parent_id)], on the frame of [page_id]. *)
Definition Init (page_id parent_id : page_id_t) : M St unit :=
  store_page page_id {| max_size_ := leaf_max_size; parent_page_id_ := parent_id;
                        page_id_ := page_id; payload_ := LeafArray INVALID_PAGE_ID [] |}.

(** [KeyAt] *)
Definition KeyAt (self : page_id_t) (index : Z) : M St Key :=
  (let* l := leaf_at self in
   check ((0 <=? index) && (index <? Z.of_nat (length (snd l)))) >>
   match snd l !! Z.to_nat index with
   | Some (k, _) => ret k
   | None => crash
   end)%M.

(** [GetItem] *)
Definition GetItem (self : page_id_t) (index : Z) : M St (Key * RID) :=
  (let* l := leaf_at self in
   check ((0 <=? index) && (index <? Z.of_nat (length (snd l)))) >>
   match snd l !! Z.to_nat index with
   | Some kv => ret kv
   | None => crash
   end)%M.

(** [Lookup] *)
Definition Lookup (self : page_id_t) (key : Key) : M St (option RID) :=
  (let* l := leaf_at self in
   ret (array_lookup (snd l) key))%M.

(** [Insert]: the size after the insertion.  The code checks no capacity:
    the frame has room for [max_size + 1] pairs, and the definition stands
    for the calls that stay within it, on a leaf of at most [max_size]
    pairs. *)
Definition Insert (self : page_id_t) (key : Key) (value : RID) : M St Z :=
  (let* l := leaf_at self in
   let array' := array_insert (snd l) key value in
   set_array self array' >>
   ret (Z.of_nat (length array')))%M.

(** [RemoveAndDeleteRecord]: the size after the deletion. *)
Definition RemoveAndDeleteRecord (self : page_id_t) (key : Key) : M St Z :=
  (let* l := leaf_at self in
   let array' := array_remove (snd l) key in
   set_array self array' >>
   ret (Z.of_nat (length array')))%M.

(** [MoveHalfTo] *)
Definition MoveHalfTo (self recipient : page_id_t) : M St unit :=
  (let* l := leaf_at self in
   let '(p, next, array) := l in
   let total := GetMaxSize p + 1 in
   check (Z.of_nat (length array) =? total) >>
   let copyIdx := total ÷ 2 in
   let* r := leaf_at recipient in
   set_array recipient (drop (Z.to_nat copyIdx) array) >>
   SetNextPageId recipient next >>
   SetNextPageId self (GetPageId (fst (fst r))) >>
   set_array self (take (Z.to_nat copyIdx) array))%M.

(** [MoveAllTo] *)
Definition MoveAllTo (self recipient : page_id_t) : M St unit :=
  (let* l := leaf_at self in
   let '(p, next, array) := l in
   let* r := leaf_at recipient in
   set_array recipient (snd r ++ array) >>
   SetNextPageId recipient next >>
   set_array self [])%M.

(** [CopyLastFrom] *)
Definition CopyLastFrom (self : page_id_t) (item : Key * RID) : M St unit :=
  (let* l := leaf_at self in
   let '(p, next, array) := l in
   check (Z.of_nat (length array) + 1 <=? GetMaxSize p) >>
   set_array self (array ++ [item]))%M.

(** [MoveFirstToEndOf]; the key written into the parent is [array[0].first]
    after the shift, which is still the moved pair's when the page is left
    empty. *)
Definition MoveFirstToEndOf (self recipient : page_id_t) : M St unit :=
  (let* pair := GetItem self 0 in
   let* l := leaf_at self in
   let '(p, next, array) := l in
   let array' := drop 1 array in
   set_array self array' >>
   CopyLastFrom recipient pair >>
   let parent := GetParentPageId p in
   let* _ := FetchPage parent in
   let* pn := InternalPage.internal_at parent in
   let first := match array' with (k, _) :: _ => k | [] => fst pair end in
   InternalPage.SetKeyAt parent (InternalPage.ValueIndex (snd pn) (GetPageId p)) first >>
   UnpinPage parent true)%M.

(** [CopyFirstFrom] *)
Definition CopyFirstFrom (self : page_id_t) (item : Key * RID) (parentIndex : Z) : M St unit :=
  (let* l := leaf_at self in
   let '(p, next, array) := l in
   check (Z.of_nat (length array) + 1 <? GetMaxSize p) >>
   set_array self (item :: array) >>
   let parent := GetParentPageId p in
   let* _ := FetchPage parent in
   InternalPage.SetKeyAt parent parentIndex (fst item) >>
   UnpinPage parent true)%M.

(** [MoveLastToFrontOf] *)
Definition MoveLastToFrontOf (self recipient : page_id_t) (parentIndex : Z) : M St unit :=
  (let* l := leaf_at self in
   let '(p, next, array) := l in
   let* pair := GetItem self (Z.of_nat (length array) - 1) in
   set_array self (removelast array) >>
   CopyFirstFrom recipient pair parentIndex)%M.

End WithKey.

End LeafPage.

(** ** index/index_iterator.h *)

Module IndexIterator.
Import BPlusTreePage.

Section WithKey.
Context {Key : Type}.

Abbreviation St := (State Key).

(** The members of the iterator; the constructor (index_iterator.cpp)
    stores its arguments. *)
Record IndexIterator := {
  index_ : Z;
  leaf_ : option page_id_t
}.

Definition isEnd (it : IndexIterator) : bool :=
  match leaf_ it with None => true | Some _ => false end.

(** [operator*]; a null [leaf_] is dereferenced. *)
Definition deref (it : IndexIterator) : M St (Key * RID) :=
  match leaf_ it with
  | Some leaf => LeafPage.GetItem leaf (index_ it)
  | None => crash
  end.

(** [UnlockAndUnPin] *)
Definition UnlockAndUnPin (leaf : page_id_t) : M St unit :=
  (let* p := page_at leaf in
   let* _ := FetchPage (GetPageId p) in
   UnpinPage (GetPageId p) false >>
   UnpinPage (GetPageId p) false)%M.

(** [operator++]; a null [leaf_] is dereferenced. *)
Definition incr (it : IndexIterator) : M St IndexIterator :=
  match leaf_ it with
  | None => crash
  | Some leaf =>
      (let index := index_ it + 1 in
       let* l := LeafPage.leaf_at leaf in
       let '(p, next, array) := l in
       if Z.of_nat (length array) <=? index then
         UnlockAndUnPin leaf >>
         if next =? INVALID_PAGE_ID then ret {| index_ := index; leaf_ := None |}
         else
           let* _ := FetchPage next in
           ret {| index_ := 0; leaf_ := Some next |}
       else ret {| index_ := index; leaf_ := Some leaf |})%M
  end.

(** The loop of a range scan: dereference and advance until [isEnd]. *)
Fixpoint scan (fuel : nat) (it : IndexIterator) : M St (list (Key * RID)) :=
  match fuel with
  | O => crash
  | S fuel' =>
      if isEnd it then ret []
      else (let* kv := deref it in
            let* it' := incr it in
            let* rest := scan fuel' it' in
            ret (kv :: rest))%M
  end.

End WithKey.

End IndexIterator.

(** ** index/b_plus_tree.cpp *)

Module BPlusTree.
Import BPlusTreePage.

Section WithKey.
Context {Key : Type}.
Variable comparator : Key -> Key -> Z.
Variable leaf_max_size internal_max_size : Z.

Abbreviation Page := (BPlusTreePage Key).
Abbreviation St := (State Key).

(** page/b_plus_tree_page.cpp is not part of the sources at hand: the
    minimal size of a node and the test behind "safe" are parameters. *)
Variable GetMinSize : Page -> Z.
Variable IsSafe : OpType -> Page -> bool.

(** [IsEmpty] *)
Definition IsEmpty : M St bool :=
  gets (fun s => root_page_id_ s =? INVALID_PAGE_ID).

(** The tree-root latch (index/b_plus_tree.h).  Modelled from the spec:
    "a thread-local counter avoids double-locking by the same thread";
    the latch itself has no state in a run of one thread. *)
Definition LockRootPageId (exclusive : bool) : M St unit :=
  modify (fun s => set_rootLockedCnt (rootLockedCnt s + 1) s).

Definition TryUnlockRootPageId (exclusive : bool) : M St unit :=
  modify (fun s => if 0 <? rootLockedCnt s
                   then set_rootLockedCnt (rootLockedCnt s - 1) s else s).

(** [Unlock(exclusive, pageId)] (index/b_plus_tree.h).  Modelled from the
    spec's contract of the buffer pool: the frame is fetched to reach its
    latch and unpinned again. *)
Definition Unlock_page_id (exclusive : bool) (pageId : page_id_t) : M St unit :=
  (let* _ := FetchPage pageId in
   UnpinPage pageId exclusive)%M.

(** The fetch of the header page, which is no node of the tree. *)
Definition FetchHeaderPage : M St unit :=
  modify (fun s => set_pin_count (add_pin HEADER_PAGE_ID 1 (pin_count_ s)) s).

(** [UpdateRootPageId]: the header page is fetched, the record of this
    index written and the header page unpinned. *)
Definition UpdateRootPageId (insert_record : bool) : M St unit :=
  (FetchHeaderPage >>
   modify (fun s => set_header_record (Some (root_page_id_ s)) s) >>
   UnpinPage HEADER_PAGE_ID true)%M.

(** [transaction->GetDeletedPageSet()->erase(curPid)] *)
Definition erase_deleted (curPid : page_id_t) : M St unit :=
  fun s => match transaction_ s with
           | Some t => Some (tt, set_transaction
                                   (Some (SetDeletedPageSet (deleted_page_set_ t ∖ {[curPid]}) t)) s)
           | None => None
           end.

(** The body of the loop of [FreePagesInTransaction] for one page of the
    page set. *)
Definition free_page (exclusive : bool) (curPid : page_id_t) : M St unit :=
  (UnpinPage curPid exclusive >>
   let* t := gets transaction_ in
   match t with
   | Some t =>
       when (bool_decide (curPid ∈ deleted_page_set_ t))
            (let* _ := DeletePage curPid in erase_deleted curPid)
   | None => crash
   end)%M.

(** [transaction->GetPageSet()->clear()] *)
Definition clear_page_set : M St unit :=
  fun s => match transaction_ s with
           | Some t => Some (tt, set_transaction (Some (SetPageSet [] t)) s)
           | None => None
           end.

(** [FreePagesInTransaction(exclusive, transaction, cur = -1)] *)
Definition FreePagesInTransaction (exclusive : bool) (cur : page_id_t) : M St unit :=
  (TryUnlockRootPageId exclusive >>
   let* t := gets transaction_ in
   match t with
   | None =>
       check (negb exclusive && (0 <=? cur)) >>
       Unlock_page_id false cur >>
       UnpinPage cur false
   | Some t =>
       for_each (page_set_ t) (free_page exclusive) >>
       let* t := gets transaction_ in
       match t with
       | Some t => check (bool_decide (deleted_page_set_ t = ∅)) >> clear_page_set
       | None => crash
       end
   end)%M.

(** [CrabingProtocalFetchPage] *)
Definition CrabingProtocalFetchPage (page_id : page_id_t) (op : OpType)
    (previous : page_id_t) : M St page_id_t :=
  (let exclusive := negb (bool_decide (op = READ)) in
   let* treePage := FetchPage page_id in
   when ((0 <? previous) && (negb exclusive || IsSafe op treePage))
        (FreePagesInTransaction exclusive previous) >>
   AddIntoPageSet_if_transaction page_id >>
   ret page_id)%M.

(** The child [FindLeafPage] goes to from an internal node. *)
Definition next_child (key : option Key) (leftMost : bool) (cur : page_id_t)
    (array : list (Key * page_id_t)) : M St page_id_t :=
  if leftMost then InternalPage.ValueAt cur 0
  else match key with
       | Some k =>
           match InternalPage.Lookup comparator array k with
           | Some v => ret v
           | None => crash
           end
       | None => crash
       end.

(** The [while (!pointer->IsLeafPage())] loop of [FindLeafPage], from the
    page [cur] on; [key] is absent for the uninitialised key that
    [Begin()] passes. *)
Fixpoint descend (fuel : nat) (key : option Key) (leftMost : bool) (op : OpType)
    (cur : page_id_t) : M St page_id_t :=
  match fuel with
  | O => crash
  | S fuel' =>
      (let* p := page_at cur in
       match payload_ p with
       | LeafArray _ _ => ret cur
       | InternalArray array =>
           let* next := next_child key leftMost cur array in
           let* _ := CrabingProtocalFetchPage next op cur in
           descend fuel' key leftMost op next
       end)%M
  end.

(** [FindLeafPage(key, leftMost = false, op = READ, transaction = nullptr)];
    the result is null on an empty tree. *)
Definition FindLeafPage (fuel : nat) (key : option Key) (leftMost : bool) (op : OpType)
  : M St (option page_id_t) :=
  (let exclusive := negb (bool_decide (op = READ)) in
   LockRootPageId exclusive >>
   let* empty := IsEmpty in
   if empty then TryUnlockRootPageId exclusive >> ret None
   else
     let* root := gets root_page_id_ in
     let* _ := CrabingProtocalFetchPage root op (-1) in
     let* leaf := descend fuel key leftMost op root in
     ret (Some leaf))%M.

(** [GetValue]: the value found, if any ([result[0]] and [true]). *)
Definition GetValue (fuel : nat) (key : Key) : M St (option RID) :=
  (let* tar := FindLeafPage fuel (Some key) false READ in
   match tar with
   | None => ret None
   | Some tar =>
       let* ret_ := LeafPage.Lookup comparator tar key in
       let* p := page_at tar in
       FreePagesInTransaction false (GetPageId p) >>
       ret ret_
   end)%M.

(** [StartNewTree] *)
Definition StartNewTree (key : Key) (value : RID) : M St unit :=
  (let* newPageId := NewPage in
   LeafPage.Init leaf_max_size newPageId INVALID_PAGE_ID >>
   modify (set_root_page_id newPageId) >>
   UpdateRootPageId true >>
   let* _ := LeafPage.Insert comparator newPageId key value in
   UnpinPage newPageId true)%M.

(** [Split]: [N] is the type of the node that is split. *)
Definition Split (node : page_id_t) : M St page_id_t :=
  (let* newPageId := NewPage in
   AddIntoPageSet newPageId >>
   let* n := page_at node in
   (if IsLeafPage n
    then LeafPage.Init leaf_max_size newPageId (GetParentPageId n) >>
         LeafPage.MoveHalfTo node newPageId
    else InternalPage.Init internal_max_size newPageId (GetParentPageId n) >>
         InternalPage.MoveHalfTo node newPageId) >>
   ret newPageId)%M.

(** [InsertIntoParent] *)
Fixpoint InsertIntoParent (fuel : nat) (old_node : page_id_t) (key : Key)
    (new_node : page_id_t) : M St unit :=
  match fuel with
  | O => crash
  | S fuel' =>
      (let* old := page_at old_node in
       let* new := page_at new_node in
       if IsRootPage old then
         let* newRoot := NewPage in
         modify (set_root_page_id newRoot) >>
         InternalPage.Init internal_max_size newRoot INVALID_PAGE_ID >>
         InternalPage.PopulateNewRoot newRoot (GetPageId old) key (GetPageId new) >>
         SetParentPageId old_node newRoot >>
         SetParentPageId new_node newRoot >>
         UpdateRootPageId false >>
         UnpinPage_of newRoot true
       else
         let parentId := GetParentPageId old in
         let* _ := FetchPage parentId in
         SetParentPageId new_node parentId >>
         let* _ := InternalPage.InsertNodeAfter parentId (GetPageId old) key (GetPageId new) in
         let* parent := page_at parentId in
         when (GetMaxSize parent <? GetSize parent)
              (let* newLeafPage := Split parentId in
               let* k0 := InternalPage.KeyAt newLeafPage 0 in
               InsertIntoParent fuel' parentId k0 newLeafPage) >>
         UnpinPage parentId true)%M
  end.

(** [InsertIntoLeaf] *)
Definition InsertIntoLeaf (fuel : nat) (key : Key) (value : RID) : M St bool :=
  (let* leafPage := FindLeafPage fuel (Some key) false INSERT in
   match leafPage with
   | None => crash
   | Some leafPage =>
       let* exist := LeafPage.Lookup comparator leafPage key in
       match exist with
       | Some _ => FreePagesInTransaction true (-1) >> ret false
       | None =>
           let* _ := LeafPage.Insert comparator leafPage key value in
           let* p := page_at leafPage in
           when (GetMaxSize p <? GetSize p)
                (let* newLeafPage := Split leafPage in
                 let* k0 := LeafPage.KeyAt newLeafPage 0 in
                 InsertIntoParent fuel leafPage k0 newLeafPage) >>
           FreePagesInTransaction true (-1) >>
           ret true
       end
   end)%M.

(** [Insert] *)
Definition Insert (fuel : nat) (key : Key) (value : RID) : M St bool :=
  (let* empty := IsEmpty in
   if empty then
     LockRootPageId true >>
     StartNewTree key value >>
     TryUnlockRootPageId true >>
     ret true
   else InsertIntoLeaf fuel key value)%M.

(** [AdjustRoot] *)
Definition AdjustRoot (old_root_node : page_id_t) : M St bool :=
  (let* r := page_at old_root_node in
   if IsLeafPage r then
     check (GetSize r =? 0) >>
     check (GetParentPageId r =? INVALID_PAGE_ID) >>
     modify (set_root_page_id INVALID_PAGE_ID) >>
     UpdateRootPageId false >>
     ret true
   else if GetSize r =? 1 then
     let* newRootId := InternalPage.RemoveAndReturnOnlyChild old_root_node in
     modify (set_root_page_id newRootId) >>
     UpdateRootPageId false >>
     let* _ := FetchPage newRootId in
     SetParentPageId newRootId INVALID_PAGE_ID >>
     UnpinPage newRootId true >>
     ret true
   else ret false)%M.

(** [FindLeftSibling]: the sibling found and whether it is the right one. *)
Definition FindLeftSibling (node : page_id_t) : M St (page_id_t * bool) :=
  (let* n := page_at node in
   let parent := GetParentPageId n in
   let* _ := FetchPage parent in
   let* pn := InternalPage.internal_at parent in
   let index := InternalPage.ValueIndex (snd pn) (GetPageId n) in
   let siblingIndex := if index =? 0 then index + 1 else index - 1 in
   let* sv := InternalPage.ValueAt parent siblingIndex in
   let* sibling := CrabingProtocalFetchPage sv DELETE (-1) in
   UnpinPage_of parent false >>
   ret (sibling, index =? 0))%M.

(** [Redistribute] *)
Definition Redistribute (neighbor_node node : page_id_t) (index : Z) : M St unit :=
  (emit (EvRedistribute neighbor_node node) >>
   let* n := page_at node in
   if index =? 0 then
     if IsLeafPage n then LeafPage.MoveFirstToEndOf neighbor_node node
     else InternalPage.MoveFirstToEndOf neighbor_node node
   else
     if IsLeafPage n then LeafPage.MoveLastToFrontOf neighbor_node node index
     else InternalPage.MoveLastToFrontOf neighbor_node node index)%M.

(** [Coalesce]; [recur] is [CoalesceOrRedistribute] on the parent. *)
Definition Coalesce (recur : page_id_t -> M St bool) (neighbor_node node parent : page_id_t)
    (index : Z) : M St bool :=
  (emit (EvCoalesce neighbor_node node parent) >>
   let* n := page_at node in
   let* nb := page_at neighbor_node in
   check (GetSize n + GetSize nb <=? GetMaxSize n) >>
   (if IsLeafPage n then LeafPage.MoveAllTo node neighbor_node
    else InternalPage.MoveAllTo node neighbor_node index) >>
   AddIntoDeletedPageSet (GetPageId n) >>
   InternalPage.Remove parent index >>
   let* p := page_at parent in
   if GetSize p <=? GetMinSize p then recur parent else ret false)%M.

(** [CoalesceOrRedistribute] *)
Fixpoint CoalesceOrRedistribute (fuel : nat) (node : page_id_t) : M St bool :=
  match fuel with
  | O => crash
  | S fuel' =>
      (emit (EvCoalesceOrRedistribute node) >>
       let* n := page_at node in
       if IsRootPage n then
         let* delOldRoot := AdjustRoot node in
         when delOldRoot (AddIntoDeletedPageSet (GetPageId n)) >>
         ret delOldRoot
       else
         let* sib := FindLeftSibling node in
         let* n := page_at node in
         let parentPage := GetParentPageId n in
         let* _ := FetchPage parentPage in
         let* n2 := page_at (fst sib) in
         if GetSize n + GetSize n2 <=? GetMaxSize n then
           (* swap(node, node2) when the sibling is the right one *)
           let node' := if snd sib then fst sib else node in
           let node2' := if snd sib then node else fst sib in
           let* n' := page_at node' in
           let* pn := InternalPage.internal_at parentPage in
           let removeIndex := InternalPage.ValueIndex (snd pn) (GetPageId n') in
           let* _ := Coalesce (CoalesceOrRedistribute fuel') node2' node' parentPage removeIndex in
           UnpinPage_of parentPage true >>
           ret true
         else
           let* pn := InternalPage.internal_at parentPage in
           let nodeInParentIndex := InternalPage.ValueIndex (snd pn) (GetPageId n) in
           Redistribute (fst sib) node nodeInParentIndex >>
           UnpinPage_of parentPage false >>
           ret false)%M
  end.

(** [Remove] *)
Definition Remove (fuel : nat) (key : Key) : M St unit :=
  (let* empty := IsEmpty in
   if empty then ret tt
   else
     let* delTar := FindLeafPage fuel (Some key) false DELETE in
     match delTar with
     | None => crash
     | Some delTar =>
         let* curSize := LeafPage.RemoveAndDeleteRecord comparator delTar key in
         let* p := page_at delTar in
         when (curSize <? GetMinSize p)
              (let* _ := CoalesceOrRedistribute fuel delTar in ret tt) >>
         FreePagesInTransaction true (-1)
     end)%M.

(** [Begin()] *)
Definition Begin (fuel : nat) : M St IndexIterator.IndexIterator :=
  (let* start_leaf := FindLeafPage fuel None true READ in
   TryUnlockRootPageId false >>
   ret {| IndexIterator.index_ := 0; IndexIterator.leaf_ := start_leaf |})%M.

(** [Begin(key)] *)
Definition Begin_key (fuel : nat) (key : Key) : M St IndexIterator.IndexIterator :=
  (let* start_leaf := FindLeafPage fuel (Some key) false READ in
   TryUnlockRootPageId false >>
   match start_leaf with
   | None => ret {| IndexIterator.index_ := 0; IndexIterator.leaf_ := None |}
   | Some leaf =>
       let* l := LeafPage.leaf_at leaf in
       let idx := LeafPage.KeyIndex comparator (snd l) key in
       ret {| IndexIterator.index_ := idx; IndexIterator.leaf_ := Some leaf |}
   end)%M.

End WithKey.

End BPlusTree.


(** ** 32-bit integers (common/config.h: [txn_id_t], [lsn_t]) *)

Definition INT32_MAX : Z := 2147483647.
Definition INT32_MIN : Z := -2147483648.

(** The value of a 32-bit [int] after an arithmetic step that wraps. *)
Definition int32 (z : Z) : Z := (z - INT32_MIN) mod 2 ^ 32 + INT32_MIN.

(** ** concurrency/transaction_manager.cpp: [Begin] and [Abort] *)

Module TransactionAbort.
Import TransactionManager.

(** The calls [Abort] makes, in the order it makes them. *)
Inductive Call :=
| CallSetState (st : TransactionState)
| CallRollbackDelete (table : Z) (rid : RID)
| CallApplyDelete (table : Z) (rid : RID)
| CallUpdateTuple (table : Z) (tuple : Tuple) (rid : RID)
| CallAppendLogRecord (ty : LogRecordType)
| CallFlush (force : bool)
| CallUnlock (rid : RID).

Section WithHeap.

Variable Heap : Type.
Variable ENABLE_LOGGING : bool.

(** The operations of the table heap (table/table_heap.h) that [Abort]
    calls on the table an entry names: any functions of the transaction
    and the environment. *)
Variable RollbackDelete : Z -> RID -> Transaction -> Env Heap -> Transaction * Env Heap.
Variable ApplyDelete : Z -> RID -> Transaction -> Env Heap -> Transaction * Env Heap.
Variable UpdateTuple : Z -> Tuple -> RID -> Transaction -> Env Heap -> Transaction * Env Heap.

(** [TransactionManager::Begin]: [next_txn_id] is the member
    [next_txn_id_], an atomic 32-bit counter, returned as [next_txn_id_++]
    leaves it: one more, and [INT32_MIN] after [INT32_MAX].  The assertion
    on the previous LSN of the new transaction is checked. *)
Definition Begin (next_txn_id : txn_id_t) (e : Env Heap)
  : option (Transaction * txn_id_t * Env Heap) :=
  let txn := new_Transaction next_txn_id in
  if ENABLE_LOGGING then
    if bool_decide (prev_lsn_ txn = INVALID_LSN) then
      let log := LogRecord.header_only (txn_id_ txn) (prev_lsn_ txn) BEGIN in
      let '(lsn, e1) := AppendLogRecord Heap log e in
      Some (SetPrevLSN lsn txn, int32 (next_txn_id + 1), e1)
    else None
  else Some (txn, int32 (next_txn_id + 1), e).

Definition St : Type := Transaction * Env Heap * list Call.

(** The body of the rollback loop for one entry of the write set. *)
Definition undo_item (item : WriteRecord) (st : St) : St :=
  let '(txn, e, tr) := st in
  match wtype_ item with
  | WDELETE =>
      let '(txn1, e1) := RollbackDelete (table_ item) (rid_ item) txn e in
      (txn1, e1, tr ++ [CallRollbackDelete (table_ item) (rid_ item)])
  | WINSERT =>
      let '(txn1, e1) := ApplyDelete (table_ item) (rid_ item) txn e in
      (txn1, e1, tr ++ [CallApplyDelete (table_ item) (rid_ item)])
  | WUPDATE =>
      let '(txn1, e1) := UpdateTuple (table_ item) (tuple_ item) (rid_ item) txn e in
      (txn1, e1, tr ++ [CallUpdateTuple (table_ item) (tuple_ item) (rid_ item)])
  end.

(** The [while (!write_set->empty())] loop of [Abort]: entries are taken
    from the back, so the loop runs over the reversed write set. *)
Fixpoint rollback_from_back (rev_ws : list WriteRecord) (st : St) : St :=
  match rev_ws with
  | [] => st
  | item :: rest =>
      let '(txn1, e1, tr1) := undo_item item st in
      (* write_set->pop_back() *)
      rollback_from_back rest (SetWriteSet (rev rest) txn1, e1, tr1)
  end.

Definition rollback_write_set (st : St) : St :=
  let '(txn, e, tr) := st in
  let '(txn1, e1, tr1) := rollback_from_back (rev (write_set_ txn)) st in
  (* write_set->clear() *)
  (SetWriteSet [] txn1, e1, tr1).

(** The [if (ENABLE_LOGGING)] block of [Abort]. *)
Definition log_abort (st : St) : St :=
  let '(txn, e, tr) := st in
  if ENABLE_LOGGING then
    let log := LogRecord.header_only (txn_id_ txn) (prev_lsn_ txn) ABORT in
    let '(lsn, e1) := AppendLogRecord Heap log e in
    (SetPrevLSN lsn txn, e1, tr ++ [CallAppendLogRecord ABORT; CallFlush false])
  else st.

(** The loop over [lock_set]; the value [Unlock] returns is dropped, a
    failed assertion inside it ends the process. *)
Fixpoint release_locks (rids : list RID) (st : St) : Outcome unit * St :=
  match rids with
  | [] => (Returned tt, st)
  | rid :: rest =>
      let '(txn, e, tr) := st in
      match LockManager.Unlock txn rid (lock_manager_ e) with
      | (Returned _, txn1, lm1) =>
          release_locks rest (txn1, set_lock_manager Heap lm1 e, tr ++ [CallUnlock rid])
      | (_, txn1, lm1) =>
          (AssertFailed, (txn1, set_lock_manager Heap lm1 e, tr ++ [CallUnlock rid]))
      end
  end.

(** [TransactionManager::Abort] *)
Definition Abort (txn : Transaction) (e : Env Heap) : Outcome unit * St :=
  let st0 : St := (SetState ABORTED txn, e, [CallSetState ABORTED]) in
  let st1 := rollback_write_set st0 in
  let st2 := log_abort st1 in
  release_locks (lock_set (fst (fst st2))) st2.

End WithHeap.

End TransactionAbort.

(** ** common/rwmutex.h *)

Module RWMutex.

(** [max_readers_ = UINT_MAX] *)
Definition max_readers_ : Z := 4294967295.

(** The two members the mutex guards; [reader_count_] is a [uint32_t]. *)
Record RWMutex := {
  reader_count_ : Z;
  writer_entered_ : bool
}.

(** [RWMutex()] *)
Definition new_RWMutex : RWMutex := {| reader_count_ := 0; writer_entered_ := false |}.

Definition uint32 (z : Z) : Z := z mod 2 ^ 32.

(** Every member function runs under [mutex_] and gives it up only inside
    a [wait], so the code between two waits is one step.  A step that
    gives [None] is a thread that stays in its [while] loop: the condition
    variables decide when it looks at the members again, not what it does
    then. *)

(** [WLock], the first loop and the assignment after it. *)
Definition WLock_enter (m : RWMutex) : option RWMutex :=
  if writer_entered_ m then None
  else Some {| reader_count_ := reader_count_ m; writer_entered_ := true |}.

(** [WLock], the second loop: the call returns once no reader is left. *)
Definition WLock_return (m : RWMutex) : option RWMutex :=
  if 0 <? reader_count_ m then None else Some m.

(** [WUnlock] *)
Definition WUnlock (m : RWMutex) : RWMutex :=
  {| reader_count_ := reader_count_ m; writer_entered_ := false |}.

(** [RLock] *)
Definition RLock (m : RWMutex) : option RWMutex :=
  if writer_entered_ m || (reader_count_ m =? max_readers_) then None
  else Some {| reader_count_ := uint32 (reader_count_ m + 1);
               writer_entered_ := writer_entered_ m |}.

(** [RUnlock] *)
Definition RUnlock (m : RWMutex) : RWMutex :=
  {| reader_count_ := uint32 (reader_count_ m - 1); writer_entered_ := writer_entered_ m |}.

(** The mutex with the threads that use it: how many hold it for reading
    (between the return of [RLock] and the call of [RUnlock]), how many
    are between the two loops of [WLock], and how many hold it for
    writing (between the return of [WLock] and the call of [WUnlock]). *)
Record World := {
  mutex_state : RWMutex;
  reading : nat;
  entering : nat;
  writing : nat
}.

Definition new_World : World :=
  {| mutex_state := new_RWMutex; reading := 0; entering := 0; writing := 0 |}.

(** The steps of the threads.  A thread unlocks only what it holds. *)
Inductive Step :=
| StepRLock | StepRUnlock | StepWLockEnter | StepWLockReturn | StepWUnlock.

(** One step; [None] when the thread cannot take it in this state. *)
Definition step (c : Step) (w : World) : option World :=
  match c with
  | StepRLock =>
      match RLock (mutex_state w) with
      | Some m => Some {| mutex_state := m; reading := S (reading w);
                          entering := entering w; writing := writing w |}
      | None => None
      end
  | StepRUnlock =>
      match reading w with
      | S n => Some {| mutex_state := RUnlock (mutex_state w); reading := n;
                       entering := entering w; writing := writing w |}
      | O => None
      end
  | StepWLockEnter =>
      match WLock_enter (mutex_state w) with
      | Some m => Some {| mutex_state := m; reading := reading w;
                          entering := S (entering w); writing := writing w |}
      | None => None
      end
  | StepWLockReturn =>
      match entering w, WLock_return (mutex_state w) with
      | S n, Some m => Some {| mutex_state := m; reading := reading w;
                               entering := n; writing := S (writing w) |}
      | _, _ => None
      end
  | StepWUnlock =>
      match writing w with
      | S n => Some {| mutex_state := WUnlock (mutex_state w); reading := reading w;
                       entering := entering w; writing := n |}
      | O => None
      end
  end.

Fixpoint run (cs : list Step) (w : World) : option World :=
  match cs with
  | [] => Some w
  | c :: rest =>
      match step c w with
      | Some w' => run rest w'
      | None => None
      end
  end.

End RWMutex.

(** ** index/b_plus_tree.cpp: [isBalanced] *)

Module BPlusTreeCheck.
Import BPlusTreePage.

Section WithKey.
Context {Key : Type}.

Abbreviation St := (State Key).

(** The [for] loop of [isBalanced] over the slots of the internal page
    [page], from slot [i] on with [n] slots to go; [rec] is the recursive
    call.  The loop writes to no page, so the size it compares [i] with is
    the one read before it. *)
Fixpoint isBalanced_loop (rec : page_id_t -> M St Z) (page : page_id_t) (n : nat)
    (i last ret_ : Z) : M St Z :=
  match n with
  | O => ret ret_
  | S n' =>
      (let* child := InternalPage.ValueAt page i in
       let* cur := rec child in
       if (0 <=? cur) && (last =? -2) then
         isBalanced_loop rec page n' (i + 1) cur (cur + 1)
       else if negb (last =? cur) then ret (-1)
       else isBalanced_loop rec page n' (i + 1) last ret_)%M
  end.

(** [isBalanced(pid)]: [return true] on an empty tree is the integer 1; a
    page that cannot be fetched ends the run (the exception). *)
Fixpoint isBalanced (fuel : nat) (pid : page_id_t) : M St Z :=
  match fuel with
  | O => crash
  | S fuel' =>
      (let* empty := BPlusTree.IsEmpty in
       if empty then ret 1
       else
         let* node := FetchPage pid in
         let* ret_ :=
           if IsLeafPage node then ret 0
           else isBalanced_loop (isBalanced fuel') pid (Z.to_nat (GetSize node)) 0 (-2) 0 in
         UnpinPage pid false >>
         ret ret_)%M
  end.

End WithKey.

End BPlusTreeCheck.


(** * Part II: properties *)

(** ** Lock manager *)

Section LockManagerFacts.
Import LockManager.

(** The RID the scenarios below lock. *)
Definition rid0 : RID := (1, 0).

Definition item (tid : Z) (m : LockMode) (g : bool) : TxItem :=
  {| tid_ := tid; mode_ := m; granted_ := g |}.

(** A granted head ends the grant loop at once. *)
Lemma grant_pass_head_granted tx rest h :
  granted_ tx = true -> grant_pass (tx :: rest) h = (tx :: rest, h).
Proof. intros Hg. simpl. by rewrite Hg. Qed.

(** Waiting SHARED entries at the head are all granted, and the loop goes
    on with what follows them. *)
Lemma grant_pass_shared_prefix ws rest h :
  Forall (fun tx => granted_ tx = false /\ mode_ tx = SHARED) ws ->
  grant_pass (ws ++ rest) h =
  (map Grant ws ++ fst (grant_pass rest h), snd (grant_pass rest h)).
Proof.
  induction 1 as [|tx ws [Hg Hm] _ IH]; simpl.
  - by destruct (grant_pass rest h).
  - rewrite Hg, Hm, IH. reflexivity.
Qed.

(** A waiting UPGRADING entry that the loop reaches is promoted to
    EXCLUSIVE, [hasUpgrading_] is cleared and the loop stops. *)
Lemma grant_pass_upgrading tx rest h :
  granted_ tx = false -> mode_ tx = UPGRADING ->
  grant_pass (tx :: rest) h = (item (tid_ tx) EXCLUSIVE true :: rest, false).
Proof. intros Hg Hm. simpl. by rewrite Hg, Hm. Qed.

(** A waiting EXCLUSIVE entry that the loop reaches is granted and the
    loop stops. *)
Lemma grant_pass_exclusive tx rest h :
  granted_ tx = false -> mode_ tx = EXCLUSIVE ->
  grant_pass (tx :: rest) h = (Grant tx :: rest, h).
Proof. intros Hg Hm. simpl. by rewrite Hg, Hm. Qed.

(** The loop reaches a waiting EXCLUSIVE entry behind waiting SHARED
    entries and grants it together with them. *)
Lemma grant_pass_shared_then_exclusive ws tx rest h :
  Forall (fun tx => granted_ tx = false /\ mode_ tx = SHARED) ws ->
  granted_ tx = false -> mode_ tx = EXCLUSIVE ->
  grant_pass (ws ++ tx :: rest) h = (map Grant ws ++ Grant tx :: rest, h).
Proof.
  intros Hws Hg Hm.
  rewrite (grant_pass_shared_prefix ws (tx :: rest) h Hws).
  by rewrite (grant_pass_exclusive tx rest h Hg Hm).
Qed.

(** C1 — the grant loop of [Unlock] on the queue [3:S waiting, 2:X waiting]
    that the release of transaction 5 leaves behind: the schedule
    LockExclusive(5), LockShared(3), LockExclusive(2), Unlock(5) ends with
    the SHARED entry of 3 and the EXCLUSIVE entry of 2 both granted, the
    EXCLUSIVE one not being at the head of the queue. *)
Theorem Unlock_grants_exclusive_behind_shared :
  exists s,
    run (init_System false [2; 3; 5])
        [CallLock 5 rid0 EXCLUSIVE; CallLock 3 rid0 SHARED;
         CallLock 2 rid0 EXCLUSIVE; CallUnlock 5 rid0] = Some s /\
    locks_ (table_at rid0 (lm_ s)) = [item 3 SHARED true; item 2 EXCLUSIVE true].
Proof. eexists. split; [vm_compute; reflexivity|]. reflexivity. Qed.

(** C2 — the schedule LockShared(1), LockShared(5), LockExclusive(3) is
    accepted by the lock manager and leaves transaction 3 blocked in the
    queue in which the older transaction 1 holds its lock: the wait-die
    test of [lockTemplate] looks at the tail of the queue only. *)
Theorem wait_die_younger_waits_on_older :
  exists s,
    reachable false [1; 3; 5] s /\
    locks_ (table_at rid0 (lm_ s)) =
      [item 1 SHARED true; item 5 SHARED true; item 3 EXCLUSIVE false] /\
    holds_or_waits s 1 rid0 /\ waits_in s 3 rid0 /\ 1 < 3.
Proof.
  eexists. split.
  { exists [CallLock 1 rid0 SHARED; CallLock 5 rid0 SHARED; CallLock 3 rid0 EXCLUSIVE].
    vm_compute. reflexivity. }
  split; [reflexivity|].
  split; [|split; [|lia]].
  - exists (item 1 SHARED true). split; [|reflexivity].
    change (item 1 SHARED true ∈ [item 1 SHARED true; item 5 SHARED true; item 3 EXCLUSIVE false]).
    apply list_elem_of_In. simpl. auto.
  - exists (item 3 EXCLUSIVE false). split; [|split; reflexivity].
    change (item 3 EXCLUSIVE false ∈ [item 1 SHARED true; item 5 SHARED true; item 3 EXCLUSIVE false]).
    apply list_elem_of_In. simpl. auto.
Qed.

(** What [lockTemplate] does guarantee when it blocks: the requester is
    not younger than the transaction at the tail of the queue. *)
Lemma lock_step3_blocked_tail txn rid mode l lm txn' lm' :
  lock_step3 txn rid mode l lm = (Blocked, txn', lm') ->
  exists back, last (locks_ l) = Some back /\ txn_id_ txn <= tid_ back.
Proof.
  unfold lock_step3. set (cg := checkCanGrant mode l).
  destruct (insert_enqueue (txn_id_ txn) mode cg l) as [l1 m1].
  destruct (last (locks_ l)) as [back|] eqn:Hlast.
  - destruct (tid_ back <? txn_id_ txn) eqn:Hlt; destruct cg; simpl;
      unfold abort_false; intros H; try congruence.
    apply Z.ltb_ge in Hlt. eauto.
  - assert (Hcg : cg = true) by (unfold cg, checkCanGrant; by rewrite Hlast).
    rewrite Hcg. intros H. congruence.
Qed.

(** The state check of [Unlock] under strict 2PL comes before the queue
    is looked up: a GROWING transaction without an entry gets [false]. *)
Lemma Unlock_strict_growing_returns_false :
  let lm := {| strict_2PL_ := true; lockTable_ := ∅ |} in
  find_tid 1 (locks_ (table_at rid0 lm)) = None /\
  Unlock (new_Transaction 1) rid0 lm
  = (Returned false, SetState ABORTED (new_Transaction 1), lm).
Proof. split; reflexivity. Qed.

(** C9 (amended) — under strict 2PL, [Unlock] for a transaction that is
    neither COMMITTED nor ABORTED sets it ABORTED and returns [false]
    before the queue of [rid] is looked at: the lock table stays as it is,
    whatever it holds.  Once [Unlock] is past this check (strict 2PL is
    off, or the transaction is COMMITTED or ABORTED), a transaction that
    has no entry in the queue of [rid] makes the assertion fail instead of
    a return of [false]; by then a GROWING transaction is SHRINKING when
    strict 2PL is off, and [lockTable_[rid]] has stored the queue, so a RID
    that had none is mapped to a fresh empty queue. *)
Theorem Unlock_without_entry_fails_assertion txn rid lm :
  (strict_2PL_ lm = true -> state_ txn <> COMMITTED -> state_ txn <> ABORTED ->
   Unlock txn rid lm = (Returned false, SetState ABORTED txn, lm)) /\
  (strict_2PL_ lm = false \/ state_ txn = COMMITTED \/ state_ txn = ABORTED ->
   find_tid (txn_id_ txn) (locks_ (table_at rid lm)) = None ->
   exists lm',
     Unlock txn rid lm
     = (AssertFailed,
        (if negb (strict_2PL_ lm) && bool_decide (state_ txn = GROWING)
         then SetState SHRINKING txn else txn),
        lm') /\
     strict_2PL_ lm' = strict_2PL_ lm /\
     lockTable_ lm' = <[rid := table_at rid lm]> (lockTable_ lm) /\
     (lockTable_ lm !! rid = None -> lockTable_ lm' !! rid = Some empty_TxList)).
Proof.
  split.
  - intros Hs Hc Ha. unfold Unlock. rewrite Hs.
    rewrite (bool_decide_eq_false_2 _ Hc), (bool_decide_eq_false_2 _ Ha). reflexivity.
  - intros Hgate Hfind.
    assert (Hstep : forall t, txn_id_ t = txn_id_ txn ->
              unlock_step2 t rid lm = (AssertFailed, t, store rid (table_at rid lm) lm)).
    { intros t Ht. unfold unlock_step2. rewrite Ht. simpl. by rewrite Hfind. }
    assert (Hnew : lockTable_ lm !! rid = None ->
                   lockTable_ (store rid (table_at rid lm) lm) !! rid = Some empty_TxList).
    { intros Hnone. unfold store, table_at. simpl. rewrite Hnone. simpl.
      apply lookup_insert_eq. }
    exists (store rid (table_at rid lm) lm).
    split; [|split; [reflexivity | split; [reflexivity | exact Hnew]]].
    unfold Unlock.
    destruct (strict_2PL_ lm) eqn:Hs.
    + destruct Hgate as [Hgate | Hgate]; [congruence|].
      assert (Hb : negb (bool_decide (state_ txn = COMMITTED))
                   && negb (bool_decide (state_ txn = ABORTED)) = false).
      { destruct Hgate as [-> | ->]; reflexivity. }
      rewrite Hb. cbn [negb andb]. by apply Hstep.
    + cbn [negb andb]. destruct (bool_decide (state_ txn = GROWING)); by apply Hstep.
Qed.

Lemma Unlock_without_entry_witness :
  Unlock (new_Transaction 1) rid0 {| strict_2PL_ := true; lockTable_ := ∅ |}
  = (Returned false, SetState ABORTED (new_Transaction 1),
     {| strict_2PL_ := true; lockTable_ := ∅ |}) /\
  exists lm',
    Unlock (new_Transaction 1) rid0 {| strict_2PL_ := false; lockTable_ := ∅ |}
    = (AssertFailed, SetState SHRINKING (new_Transaction 1), lm') /\
    lockTable_ lm' !! rid0 = Some empty_TxList.
Proof.
  split.
  - apply (proj1 (Unlock_without_entry_fails_assertion (new_Transaction 1) rid0
                    {| strict_2PL_ := true; lockTable_ := ∅ |})).
    + reflexivity.
    + discriminate.
    + discriminate.
  - destruct (proj2 (Unlock_without_entry_fails_assertion (new_Transaction 1) rid0
                       {| strict_2PL_ := false; lockTable_ := ∅ |}))
      as (lm' & Hrun & _ & _ & Hnew).
    + left. reflexivity.
    + reflexivity.
    + exists lm'. split; [exact Hrun | apply Hnew; reflexivity].
Defined.

End LockManagerFacts.


(** ** Transaction manager *)

Section CommitFacts.
Import TransactionManager.

Variable Heap : Type.
Variable ENABLE_LOGGING : bool.
Variable ApplyDelete : Z -> RID -> Transaction -> Env Heap -> Transaction * Env Heap.

Abbreviation drain_from_back := (drain_from_back Heap ApplyDelete).
Abbreviation drain_write_set := (drain_write_set Heap ApplyDelete).
Abbreviation log_commit := (log_commit Heap ENABLE_LOGGING).
Abbreviation release_locks := (release_locks Heap).
Abbreviation Commit := (Commit Heap ENABLE_LOGGING ApplyDelete).

Definition is_delete (w : WriteRecord) : bool := bool_decide (wtype_ w = WDELETE).

Definition apply_event (w : WriteRecord) : Event := EvApplyDelete (table_ w) (rid_ w).

(** The calls of the log block. *)
Definition log_events : list Event :=
  if ENABLE_LOGGING then [EvAppendLogRecord COMMIT; EvFlush false] else [].

Lemma drain_from_back_trace rev_ws txn e tr :
  snd (drain_from_back rev_ws (txn, e, tr))
  = tr ++ map apply_event (List.filter is_delete rev_ws).
Proof.
  revert txn e tr. induction rev_ws as [|item rest IH]; intros txn e tr.
  - simpl. by rewrite app_nil_r.
  - simpl. unfold is_delete at 1.
    destruct (bool_decide (wtype_ item = WDELETE)).
    + destruct (ApplyDelete _ _ _ _) as [txn1 e1]. rewrite IH.
      rewrite <- app_assoc. reflexivity.
    + rewrite IH. reflexivity.
Qed.

(** What the write-set loop does to the transaction and the environment:
    [ApplyDelete] for the DELETE entries and for no other, from the back
    of the write set, each call on what the one before it left; after each
    entry the write set loses its last element. *)
Fixpoint finalize_from_back (rev_ws : list WriteRecord) (txn : Transaction) (e : Env Heap)
  : Transaction * Env Heap :=
  match rev_ws with
  | [] => (txn, e)
  | item :: rest =>
      let '(txn1, e1) :=
        if is_delete item then ApplyDelete (table_ item) (rid_ item) txn e else (txn, e) in
      finalize_from_back rest (SetWriteSet (rev rest) txn1) e1
  end.

(** [lock_manager_->Unlock(txn, rid)] for the RIDs of a list in turn, the
    results dropped. *)
Fixpoint unlock_each (rids : list RID) (txn : Transaction) (lm : LockManager.LockManager)
  : Transaction * LockManager.LockManager :=
  match rids with
  | [] => (txn, lm)
  | rid :: rest =>
      let '(_, txn1, lm1) := LockManager.Unlock txn rid lm in
      unlock_each rest txn1 lm1
  end.

(** A heap whose [ApplyDelete] releases no lock: it leaves the lock
    manager, the two lock sets and the state of the transaction alone. *)
Definition leaves_locks : Prop :=
  forall table rid txn e,
    lock_manager_ (ApplyDelete table rid txn e).2 = lock_manager_ e /\
    shared_lock_set_ (ApplyDelete table rid txn e).1 = shared_lock_set_ txn /\
    exclusive_lock_set_ (ApplyDelete table rid txn e).1 = exclusive_lock_set_ txn /\
    state_ (ApplyDelete table rid txn e).1 = state_ txn.

Lemma drain_from_back_state rev_ws : forall txn e tr,
  (drain_from_back rev_ws (txn, e, tr)).1 = finalize_from_back rev_ws txn e.
Proof.
  induction rev_ws as [|item rest IH]; intros txn e tr; [done|].
  cbn [TransactionManager.drain_from_back finalize_from_back]. unfold is_delete.
  destruct (bool_decide (wtype_ item = WDELETE)).
  - destruct (ApplyDelete _ _ _ _) as [txn1 e1]. apply IH.
  - apply IH.
Qed.

Lemma finalize_from_back_locks rev_ws : forall txn e,
  leaves_locks ->
  lock_manager_ (finalize_from_back rev_ws txn e).2 = lock_manager_ e /\
  shared_lock_set_ (finalize_from_back rev_ws txn e).1 = shared_lock_set_ txn /\
  exclusive_lock_set_ (finalize_from_back rev_ws txn e).1 = exclusive_lock_set_ txn /\
  state_ (finalize_from_back rev_ws txn e).1 = state_ txn.
Proof.
  induction rev_ws as [|item rest IH]; intros txn e Hheap; [done|].
  cbn [finalize_from_back].
  destruct (is_delete item).
  - destruct (Hheap (table_ item) (rid_ item) txn e) as (Hlm & HS & HX & Hst).
    destruct (ApplyDelete _ _ _ _) as [txn1 e1]. cbn [fst snd] in *.
    destruct (IH (SetWriteSet (rev rest) txn1) e1 Hheap) as (Hlm' & HS' & HX' & Hst').
    cbn in HS', HX', Hst'. repeat split; congruence.
  - destruct (IH (SetWriteSet (rev rest) txn) e Hheap) as (Hlm' & HS' & HX' & Hst').
    done.
Qed.

(** The release loop: the calls it records are the calls of [Unlock] it
    makes, on the transaction and the lock manager, and it touches nothing
    else. *)
Lemma release_locks_run rids : forall txn e tr,
  exists unlocked,
    (release_locks rids (txn, e, tr)).2.2 = tr ++ map EvUnlock unlocked /\
    unlocked `prefix_of` rids /\
    ((release_locks rids (txn, e, tr)).1 = Returned tt -> unlocked = rids) /\
    unlock_each unlocked txn (lock_manager_ e)
    = ((release_locks rids (txn, e, tr)).2.1.1,
       lock_manager_ (release_locks rids (txn, e, tr)).2.1.2) /\
    log_ (release_locks rids (txn, e, tr)).2.1.2 = log_ e /\
    heap_ (release_locks rids (txn, e, tr)).2.1.2 = heap_ e.
Proof.
  induction rids as [|rid rest IH]; intros txn e tr.
  - exists []. cbn. rewrite app_nil_r. done.
  - cbn [TransactionManager.release_locks].
    destruct (LockManager.Unlock txn rid (lock_manager_ e)) as [[o txn1] lm1] eqn:Hunlock.
    destruct o as [b| |].
    + destruct (IH txn1 (set_lock_manager Heap lm1 e) (tr ++ [EvUnlock rid]))
        as (unlocked & Htr & Hpre & Hall & Hstate & Hlog & Hheap).
      exists (rid :: unlocked). rewrite Htr, <- app_assoc.
      split; [done|]. split; [by apply prefix_cons|].
      split; [intros Hret; by rewrite (Hall Hret)|].
      cbn [unlock_each]. rewrite Hunlock. done.
    + exists [rid]. cbn [unlock_each fst snd map]. rewrite Hunlock.
      split; [done|]. split; [apply prefix_cons, prefix_nil|]. done.
    + exists [rid]. cbn [unlock_each fst snd map]. rewrite Hunlock.
      split; [done|]. split; [apply prefix_cons, prefix_nil|]. done.
Qed.

(** [Unlock] leaves a COMMITTED transaction COMMITTED. *)
Lemma Unlock_keeps_committed txn rid lm :
  state_ txn = COMMITTED -> state_ (LockManager.Unlock txn rid lm).1.2 = COMMITTED.
Proof.
  intros Hst.
  assert (Hstep : forall t, state_ t = COMMITTED ->
            state_ (LockManager.unlock_step2 t rid lm).1.2 = COMMITTED).
  { intros t Ht. unfold LockManager.unlock_step2.
    destruct (LockManager.find_tid _ _) as [it|]; [|done].
    destruct (bool_decide (LockManager.mode_ it = LockManager.SHARED));
      (destruct (negb _); [done|]);
      (destruct (LockManager.erase_tid _ _); [done|]);
      by destruct (LockManager.grant_pass _ _). }
  unfold LockManager.Unlock. rewrite Hst. cbn.
  destruct (LockManager.strict_2PL_ lm); by apply Hstep.
Qed.

Lemma unlock_each_keeps_committed rids : forall txn lm,
  state_ txn = COMMITTED -> state_ (unlock_each rids txn lm).1 = COMMITTED.
Proof.
  induction rids as [|rid rest IH]; intros txn lm Hst; [done|].
  cbn [unlock_each]. pose proof (Unlock_keeps_committed txn rid lm Hst) as H.
  destruct (LockManager.Unlock txn rid lm) as [[o txn1] lm1]. by apply IH.
Qed.


End CommitFacts.


(** ** Log recovery: the REDO pass *)

Section RedoFacts.
Import LogRecord LogRecovery.

Variable Body : Type.
Variable Init : page_id_t -> page_id_t -> TablePage Body -> TablePage Body.
Variable InsertTuple : Tuple -> RID -> TablePage Body -> TablePage Body.
Variable UpdateTuple : Tuple -> Tuple -> RID -> TablePage Body -> TablePage Body.
Variable MarkDelete : RID -> TablePage Body -> TablePage Body.
Variable ApplyDelete : RID -> TablePage Body -> TablePage Body.
Variable RollbackDelete : RID -> TablePage Body -> TablePage Body.

Abbreviation redo_record :=
  (redo_record Body Init InsertTuple UpdateTuple MarkDelete ApplyDelete RollbackDelete).
Abbreviation Redo :=
  (Redo Body Init InsertTuple UpdateTuple MarkDelete ApplyDelete RollbackDelete).

(** The five record types that carry a RID and a tuple-level operation. *)
Definition is_tuple_record (ty : LogRecordType) : Prop :=
  ty = INSERT \/ ty = UPDATE \/ ty = MARKDELETE \/ ty = APPLYDELETE \/ ty = ROLLBACKDELETE.

(** The page operation a record of one of these types stands for. *)
Definition logged_operation (log : LogRecord) (page : TablePage Body) : TablePage Body :=
  match log_record_type_ log with
  | INSERT => InsertTuple (insert_tuple_ log) (insert_rid_ log) page
  | UPDATE => UpdateTuple (new_tuple_ log) (old_tuple_ log) (update_rid_ log) page
  | MARKDELETE => MarkDelete (delete_rid_ log) page
  | APPLYDELETE => ApplyDelete (delete_rid_ log) page
  | ROLLBACKDELETE => RollbackDelete (delete_rid_ log) page
  | _ => page
  end.

Lemma Redo_app pre post r0 :
  Redo (pre ++ post) r0 = match Redo pre r0 with Some r => Redo post r | None => None end.
Proof.
  revert r0. induction pre as [|[off log] pre IH]; intros r0; simpl; [done|].
  destruct (redo_record off log r0); [apply IH | done].
Qed.

(** C5 — during the REDO pass, for a record of type INSERT, UPDATE,
    MARKDELETE, APPLYDELETE or ROLLBACKDELETE met after the records [pre],
    with [page] the page its RID names: the pass goes on; if the record's
    LSN is greater than the page's LSN, the page becomes the logged
    operation applied to it, stamped with the record's LSN, and no other
    page changes; otherwise no page changes at all. *)
Theorem Redo_replays_iff_newer pre offset log post r0 r page :
  is_tuple_record (log_record_type_ log) ->
  Redo pre r0 = Some r ->
  pages_ r !! fst (record_rid log) = Some page ->
  exists r',
    redo_record offset log r = Some r' /\
    Redo (pre ++ (offset, log) :: post) r0 = Redo post r' /\
    (GetLSN page < lsn_ log ->
       pages_ r' = <[fst (record_rid log) := SetLSN (lsn_ log) (logged_operation log page)]> (pages_ r) /\
       (forall page', pages_ r' !! fst (record_rid log) = Some page' -> GetLSN page' = lsn_ log)) /\
    (lsn_ log <= GetLSN page -> pages_ r' = pages_ r).
Proof.
  intros Hty Hpre Hpage.
  assert (Hstep : exists r',
    redo_record offset log r = Some r' /\
    (GetLSN page < lsn_ log ->
       pages_ r' = <[fst (record_rid log) := SetLSN (lsn_ log) (logged_operation log page)]> (pages_ r)) /\
    (lsn_ log <= GetLSN page -> pages_ r' = pages_ r)).
  { unfold LogRecovery.redo_record, logged_operation, LogRecovery.replay.
    unfold record_rid in *.
    destruct (GetLSN page <? lsn_ log) eqn:Hlt;
      [apply Z.ltb_lt in Hlt | apply Z.ltb_ge in Hlt];
      destruct Hty as [Hty | [Hty | [Hty | [Hty | Hty]]]];
      rewrite Hty in *; cbn -[Z.ltb]; rewrite Hpage; cbn -[Z.ltb];
      (destruct (GetLSN page <? lsn_ log) eqn:Hlt';
        [apply Z.ltb_lt in Hlt' | apply Z.ltb_ge in Hlt']; try lia);
      eexists; (split; [reflexivity|]); split; intros; try lia; reflexivity. }
  destruct Hstep as (r' & Hr' & Hnew & Hold).
  exists r'. split; [exact Hr'|]. split.
  - rewrite Redo_app, Hpre. simpl. by rewrite Hr'.
  - split; [|exact Hold].
    intros Hlt. split; [by apply Hnew|].
    intros page'. rewrite (Hnew Hlt), lookup_insert_eq. intros [= <-]. reflexivity.
Qed.

End RedoFacts.

(** A run of the theorem on the log [BEGIN(t1); INSERT(t1, rid (3,0))] and a
    page whose LSN is behind the INSERT record. *)
Section RedoWitness.
Import LogRecord LogRecovery.

Definition bump (n : Z) (p : TablePage Z) : TablePage Z :=
  {| page_lsn_ := page_lsn_ p; table_page_id_ := table_page_id_ p;
     table_next_page_id_ := table_next_page_id_ p; body_ := body_ p + n |}.

Definition page3 : TablePage Z :=
  {| page_lsn_ := 0; table_page_id_ := 3; table_next_page_id_ := INVALID_PAGE_ID; body_ := 0 |}.

Definition begin1 : LogRecord :=
  {| size_ := 20; lsn_ := 0; txn_id_ := 1; prev_lsn_ := INVALID_LSN;
     log_record_type_ := BEGIN;
     insert_rid_ := (0, 0); insert_tuple_ := [];
     delete_rid_ := (0, 0); delete_tuple_ := [];
     update_rid_ := (0, 0); old_tuple_ := []; new_tuple_ := [];
     prev_page_id_ := INVALID_PAGE_ID; page_id_ := INVALID_PAGE_ID |}.

Definition insert1 : LogRecord :=
  {| size_ := 36; lsn_ := 1; txn_id_ := 1; prev_lsn_ := 0;
     log_record_type_ := INSERT;
     insert_rid_ := (3, 0); insert_tuple_ := [65];
     delete_rid_ := (0, 0); delete_tuple_ := [];
     update_rid_ := (0, 0); old_tuple_ := []; new_tuple_ := [];
     prev_page_id_ := INVALID_PAGE_ID; page_id_ := INVALID_PAGE_ID |}.

Definition recovery0 : Recovery Z :=
  {| pages_ := {[ 3 := page3 ]}; lsn_mapping_ := ∅; active_txn_ := ∅ |}.

Definition recovery1 : Recovery Z :=
  {| pages_ := {[ 3 := page3 ]}; lsn_mapping_ := {[ 0 := 0 ]}; active_txn_ := {[ 1 := 0 ]} |}.

(** Stand-ins for the page operations: each adds its own amount to the
    page body. *)
Definition redo_on_fixture :=
  redo_record Z (fun _ _ p => p) (fun _ _ => bump 1) (fun _ _ _ => bump 2)
              (fun _ => bump 3) (fun _ => bump 4) (fun _ => bump 5).

Definition Redo_on_fixture :=
  Redo Z (fun _ _ p => p) (fun _ _ => bump 1) (fun _ _ _ => bump 2)
       (fun _ => bump 3) (fun _ => bump 4) (fun _ => bump 5).

Lemma Redo_replays_iff_newer_witness :
  is_tuple_record (log_record_type_ insert1) /\
  Redo_on_fixture [(0, begin1)] recovery0 = Some recovery1 /\
  pages_ recovery1 !! 3 = Some page3 /\
  exists r',
    redo_on_fixture 20 insert1 recovery1 = Some r' /\
    Redo_on_fixture ([(0, begin1)] ++ [(20, insert1)]) recovery0 = Some r' /\
    pages_ r' = <[3 := SetLSN 1 (bump 1 page3)]> (pages_ recovery1).
Proof.
  assert (H1 : is_tuple_record (log_record_type_ insert1)) by (left; reflexivity).
  assert (H2 : Redo_on_fixture [(0, begin1)] recovery0 = Some recovery1) by reflexivity.
  assert (H3 : pages_ recovery1 !! fst (record_rid insert1) = Some page3) by reflexivity.
  split; [exact H1|]. split; [exact H2|]. split; [exact H3|].
  destruct (Redo_replays_iff_newer Z (fun _ _ p => p) (fun _ _ => bump 1)
              (fun _ _ _ => bump 2) (fun _ => bump 3) (fun _ => bump 4) (fun _ => bump 5)
              [(0, begin1)] 20 insert1 [] recovery0 recovery1 page3 H1 H2 H3)
    as (r' & Hstep & Hrun & Hnew & _).
  exists r'. split; [exact Hstep|]. split; [exact Hrun|].
  apply Hnew. reflexivity.
Defined.

End RedoWitness.


(** ** Leaf pages: the binary search *)

Section KeyIndexFacts.
Context {Key : Type}.
Variable comparator : Key -> Key -> Z.

(** The comparator orders keys: "less than" is transitive. *)
Hypothesis comparator_lt_trans :
  forall a b c, comparator a b < 0 -> comparator b c < 0 -> comparator a c < 0.

(** The keys of consecutive slots are strictly ascending. *)
Definition strictly_ascending {V : Type} (array : list (Key * V)) : Prop :=
  forall (i : nat) k1 v1 k2 v2,
    array !! i = Some (k1, v1) -> array !! S i = Some (k2, v2) ->
    comparator k1 k2 < 0.

Lemma strictly_ascending_lt {V : Type} (array : list (Key * V)) :
  strictly_ascending array ->
  forall (d i : nat) k1 v1 k2 v2,
    array !! i = Some (k1, v1) -> array !! (i + S d)%nat = Some (k2, v2) ->
    comparator k1 k2 < 0.
Proof.
  intros Hasc. induction d as [|d IH]; intros i k1 v1 k2 v2 H1 H2.
  - replace (i + 1)%nat with (S i) in H2 by lia. eapply Hasc; eauto.
  - assert (Hlt : (i + S d < length array)%nat).
    { apply lookup_lt_Some in H2. lia. }
    destruct (lookup_lt_is_Some_2 array (i + S d)%nat Hlt) as [[k3 v3] H3].
    eapply comparator_lt_trans; [eapply IH; eauto|].
    replace (i + S (S d))%nat with (S (i + S d)) in H2 by lia.
    eapply Hasc; eauto.
Qed.

Lemma strictly_ascending_pairs {V : Type} (array : list (Key * V)) :
  strictly_ascending array ->
  forall (i j : nat) k1 v1 k2 v2,
    (i < j)%nat -> array !! i = Some (k1, v1) -> array !! j = Some (k2, v2) ->
    comparator k1 k2 < 0.
Proof.
  intros Hasc i j k1 v1 k2 v2 Hij H1 H2.
  replace j with (i + S (j - i - 1))%nat in H2 by lia.
  eapply strictly_ascending_lt; eauto.
Qed.

(** What the loop knows between two rounds: every slot left of [st] holds
    a key below [key], every slot right of [ed] a key not below it. *)
Definition search_inv (array : list (Key * RID)) (key : Key) (st ed : Z) : Prop :=
  0 <= st /\ ed < Z.of_nat (length array) /\ st <= ed + 1 /\
  (forall (i : nat) k v, array !! i = Some (k, v) -> Z.of_nat i < st -> comparator k key < 0) /\
  (forall (i : nat) k v, array !! i = Some (k, v) -> ed < Z.of_nat i -> comparator k key >= 0).

Lemma midpoint_bounds st ed :
  st <= ed -> st <= (ed - st) ÷ 2 + st <= ed.
Proof.
  intros H. rewrite Z.quot_div_nonneg by lia.
  pose proof (Z.div_mod (ed - st) 2 ltac:(lia)).
  pose proof (Z.mod_pos_bound (ed - st) 2 ltac:(lia)). lia.
Qed.

Lemma KeyIndex_loop_spec (array : list (Key * RID)) (key : Key) :
  strictly_ascending array ->
  forall (fuel : nat) st ed,
    search_inv array key st ed ->
    ed - st + 1 <= Z.of_nat fuel ->
    let r := LeafPage.KeyIndex_loop comparator fuel array key st ed in
    search_inv array key r (r - 1).
Proof.
  intros Hasc. induction fuel as [|fuel IH]; intros st ed Hinv Hfuel.
  - simpl. destruct Hinv as (H0 & Hn & Hle & Hlo & Hhi).
    assert (st = ed + 1) by lia. subst st.
    replace (ed + 1 - 1) with ed by lia.
    split; [lia|]. split; [lia|]. split; [lia|]. split; assumption.
  - simpl. destruct (st <=? ed) eqn:Hguard.
    2:{ apply Z.leb_gt in Hguard. destruct Hinv as (H0 & Hn & Hle & Hlo & Hhi).
        assert (st = ed + 1) by lia. subst st.
        replace (ed + 1 - 1) with ed by lia.
        split; [lia|]. split; [lia|]. split; [lia|]. split; assumption. }
    apply Z.leb_le in Hguard.
    pose proof (midpoint_bounds st ed Hguard) as Hmid.
    set (mid := (ed - st) ÷ 2 + st) in *.
    destruct Hinv as (H0 & Hn & Hle & Hlo & Hhi).
    assert (Hlt : (Z.to_nat mid < length array)%nat) by lia.
    destruct (lookup_lt_is_Some_2 array _ Hlt) as [[km vm] Hm].
    rewrite Hm.
    destruct (comparator km key >=? 0) eqn:Hc.
    + apply Z.geb_le in Hc. apply IH; [|lia].
      split; [lia|]. split; [lia|]. split; [lia|]. split; [exact Hlo|].
      intros i k v Hi Hgt.
      destruct (decide (Z.of_nat i = mid)) as [Heq | Hne].
      * assert (i = Z.to_nat mid) by lia. subst i.
        rewrite Hm in Hi. injection Hi as -> ->. lia.
      * destruct (Z_lt_ge_dec (comparator k key) 0) as [Hneg | Hpos]; [|exact Hpos].
        assert (Hmi : (Z.to_nat mid < i)%nat) by lia.
        pose proof (strictly_ascending_pairs array Hasc _ _ _ _ _ _ Hmi Hm Hi).
        pose proof (comparator_lt_trans _ _ _ H Hneg). lia.
    + assert (Hneg : comparator km key < 0).
      { destruct (Z_lt_ge_dec (comparator km key) 0) as [?|Hge]; [done|].
        apply Z.ge_le, Z.geb_le in Hge. congruence. }
      apply IH; [|lia].
      split; [lia|]. split; [lia|]. split; [lia|]. split; [|exact Hhi].
      intros i k v Hi Hlt'.
      destruct (decide (Z.of_nat i = mid)) as [Heq | Hne].
      * assert (i = Z.to_nat mid) by lia. subst i.
        rewrite Hm in Hi. injection Hi as -> ->. exact Hneg.
      * assert (Him : (i < Z.to_nat mid)%nat) by lia.
        pose proof (strictly_ascending_pairs array Hasc _ _ _ _ _ _ Him Hi Hm).
        eapply comparator_lt_trans; eauto.
Qed.

Lemma KeyIndex_inv (array : list (Key * RID)) (key : Key) :
  strictly_ascending array ->
  search_inv array key (LeafPage.KeyIndex comparator array key)
    (LeafPage.KeyIndex comparator array key - 1).
Proof.
  intros Hasc.
  assert (Hinv : search_inv array key 0 (Z.of_nat (length array) - 1)).
  { split; [lia|]. split; [lia|]. split; [lia|]. split.
    - intros i k v _ Hi. lia.
    - intros i k v Hi Hgt. apply lookup_lt_Some in Hi. lia. }
  exact (KeyIndex_loop_spec array key Hasc (length array) 0
           (Z.of_nat (length array) - 1) Hinv ltac:(lia)).
Qed.

(** C7 — on a leaf whose keys are strictly ascending, [KeyIndex(key)] is
    an index between 0 and the size such that every slot before it holds a
    key below [key] and every slot from it on a key that is not below
    [key]: the smallest index [i] with [array[i].first >= key], and the size
    of the page when there is none. *)
Theorem KeyIndex_first_not_below (array : list (Key * RID)) (key : Key) :
  strictly_ascending array ->
  let r := LeafPage.KeyIndex comparator array key in
  0 <= r <= Z.of_nat (length array) /\
  (forall (i : nat) k v, array !! i = Some (k, v) -> Z.of_nat i < r -> comparator k key < 0) /\
  (forall (i : nat) k v, array !! i = Some (k, v) -> r <= Z.of_nat i -> comparator k key >= 0).
Proof.
  intros Hasc r.
  assert (Hinv : search_inv array key 0 (Z.of_nat (length array) - 1)).
  { split; [lia|]. split; [lia|]. split; [lia|]. split.
    - intros i k v _ Hi. lia.
    - intros i k v Hi Hgt. apply lookup_lt_Some in Hi. lia. }
  pose proof (KeyIndex_loop_spec array key Hasc (length array) 0
                (Z.of_nat (length array) - 1) Hinv ltac:(lia)) as H.
  change (search_inv array key r (r - 1)) in H.
  clearbody r. destruct H as (H0 & Hn & _ & Hlo & Hhi).
  split; [lia|]. split; [exact Hlo|].
  intros i k v Hi Hr. apply (Hhi i k v Hi). lia.
Qed.

End KeyIndexFacts.

(** Keys that are integers, compared as [GenericComparator] compares them. *)
Definition Zcomparator (a b : Z) : Z :=
  if a <? b then -1 else if b <? a then 1 else 0.

Lemma Zcomparator_lt a b : Zcomparator a b < 0 <-> a < b.
Proof. unfold Zcomparator. destruct (Z.ltb_spec a b), (Z.ltb_spec b a); lia. Qed.

Lemma Zcomparator_lt_trans a b c :
  Zcomparator a b < 0 -> Zcomparator b c < 0 -> Zcomparator a c < 0.
Proof. rewrite !Zcomparator_lt. lia. Qed.

Definition leaf135 : list (Z * RID) := [(1, (1, 1)); (3, (3, 3)); (5, (5, 5))].

Lemma leaf135_ascending : strictly_ascending Zcomparator leaf135.
Proof.
  intros i k1 v1 k2 v2 H1 H2. apply Zcomparator_lt.
  destruct i as [|[|[|i]]]; simpl in H1, H2; try discriminate;
    injection H1 as <- <-; injection H2 as <- <-; lia.
Defined.

Lemma KeyIndex_first_not_below_witness :
  strictly_ascending Zcomparator leaf135 /\
  LeafPage.KeyIndex Zcomparator leaf135 4 = 2 /\
  (forall (i : nat) k v, leaf135 !! i = Some (k, v) ->
     LeafPage.KeyIndex Zcomparator leaf135 4 <= Z.of_nat i -> Zcomparator k 4 >= 0).
Proof.
  split; [exact leaf135_ascending|]. split; [reflexivity|].
  exact (proj2 (proj2 (KeyIndex_first_not_below Zcomparator Zcomparator_lt_trans
                         leaf135 4 leaf135_ascending))).
Defined.


(** ** The index: fixtures

    Integer keys, nodes of at most three slots, and stand-ins for the two
    parameters of the tree: the minimal size of the spec ("ceil(max_size/2)
    for leaves, ceil((max_size+1)/2) for internals"; a root may hold a
    single key, or two children) and its notion of a safe node. *)

Definition fixture_GetMinSize (p : BPlusTreePage.BPlusTreePage Z) : Z :=
  if BPlusTreePage.IsRootPage p
  then (if BPlusTreePage.IsLeafPage p then 1 else 2)
  else if BPlusTreePage.IsLeafPage p
       then (BPlusTreePage.max_size_ p + 1) / 2
       else (BPlusTreePage.max_size_ p + 2) / 2.

Definition fixture_IsSafe (op : BPlusTreePage.OpType) (p : BPlusTreePage.BPlusTreePage Z) : bool :=
  match op with
  | BPlusTreePage.READ => true
  | BPlusTreePage.INSERT => BPlusTreePage.GetSize p <? BPlusTreePage.GetMaxSize p
  | BPlusTreePage.DELETE => fixture_GetMinSize p <? BPlusTreePage.GetSize p
  end.

(** A buffer pool without pages and an empty tree, called with a
    transaction or without one. *)
Definition empty_tree (txn : option Transaction) : BPlusTreePage.State Z :=
  {| BPlusTreePage.root_page_id_ := INVALID_PAGE_ID;
     BPlusTreePage.rootLockedCnt := 0;
     BPlusTreePage.pages_ := ∅;
     BPlusTreePage.pin_count_ := fun _ => 0;
     BPlusTreePage.next_page_id_ := 1;
     BPlusTreePage.header_record_ := None;
     BPlusTreePage.transaction_ := txn;
     BPlusTreePage.events_ := [] |}.

Definition leaf_page (id parent next : Z) (keys : list Z) : BPlusTreePage.BPlusTreePage Z :=
  {| BPlusTreePage.max_size_ := 3; BPlusTreePage.parent_page_id_ := parent;
     BPlusTreePage.page_id_ := id;
     BPlusTreePage.payload_ :=
       BPlusTreePage.LeafArray next ((fun k => (k, (k, k))) <$> keys) |}.

Definition internal_page (id parent : Z) (slots : list (Z * Z)) : BPlusTreePage.BPlusTreePage Z :=
  {| BPlusTreePage.max_size_ := 3; BPlusTreePage.parent_page_id_ := parent;
     BPlusTreePage.page_id_ := id;
     BPlusTreePage.payload_ := BPlusTreePage.InternalArray slots |}.

(** A tree of two leaves under the root page 3; the right leaf holds the
    keys [right_keys]. *)
Definition two_leaf_tree (right_keys : list Z) (txn : option Transaction)
  : BPlusTreePage.State Z :=
  {| BPlusTreePage.root_page_id_ := 3;
     BPlusTreePage.rootLockedCnt := 0;
     BPlusTreePage.pages_ :=
       <[1 := leaf_page 1 3 2 [1; 3; 4]]>
         (<[2 := leaf_page 2 3 INVALID_PAGE_ID right_keys]>
            (<[3 := internal_page 3 INVALID_PAGE_ID [(5, 1); (5, 2)]]> ∅));
     BPlusTreePage.pin_count_ := fun _ => 0;
     BPlusTreePage.next_page_id_ := 4;
     BPlusTreePage.header_record_ := Some 3;
     BPlusTreePage.transaction_ := txn;
     BPlusTreePage.events_ := [] |}.

(** ** The index iterator on an empty tree *)

Section EmptyTreeIterator.
Import BPlusTreePage.
Context {Key : Type}.
Variable comparator : Key -> Key -> Z.
Variable IsSafe : OpType -> BPlusTreePage Key -> bool.

Lemma FindLeafPage_empty fuel key leftMost op (s : State Key) :
  root_page_id_ s = INVALID_PAGE_ID ->
  exists s', BPlusTree.FindLeafPage comparator IsSafe fuel key leftMost op s = Some (None, s').
Proof.
  intros Hroot. unfold BPlusTree.FindLeafPage, BPlusTree.LockRootPageId, BPlusTree.IsEmpty,
    BPlusTree.TryUnlockRootPageId, bind, modify, gets, ret. simpl.
  rewrite Hroot. simpl. eauto.
Qed.

(** C10 — on an empty tree ([root_page_id_ = INVALID_PAGE_ID]) both
    [Begin()] and [Begin(key)] return, and the iterator they return has a
    null leaf pointer, so [isEnd()] is true at once; [operator*] and
    [operator++] on such an iterator dereference the null pointer: the model
    gives them no result in any state. *)
Theorem Begin_on_empty_tree fuel (key : Key) (s : State Key) :
  root_page_id_ s = INVALID_PAGE_ID ->
  (exists it s',
     BPlusTree.Begin comparator IsSafe fuel s = Some (it, s') /\
     IndexIterator.leaf_ it = None /\ IndexIterator.isEnd it = true /\
     (forall s1 : State Key, IndexIterator.deref it s1 = None) /\
     (forall s1 : State Key, IndexIterator.incr it s1 = None)) /\
  (exists it s',
     BPlusTree.Begin_key comparator IsSafe fuel key s = Some (it, s') /\
     IndexIterator.leaf_ it = None /\ IndexIterator.isEnd it = true /\
     (forall s1 : State Key, IndexIterator.deref it s1 = None) /\
     (forall s1 : State Key, IndexIterator.incr it s1 = None)).
Proof.
  intros Hroot. split.
  - destruct (FindLeafPage_empty fuel None true READ s Hroot) as [s' Hf].
    unfold BPlusTree.Begin, bind. rewrite Hf.
    unfold BPlusTree.TryUnlockRootPageId, modify, ret. simpl.
    eexists _, _. split; [reflexivity|]. simpl. auto.
  - destruct (FindLeafPage_empty fuel (Some key) false READ s Hroot) as [s' Hf].
    unfold BPlusTree.Begin_key, bind. rewrite Hf.
    unfold BPlusTree.TryUnlockRootPageId, modify, ret. simpl.
    eexists _, _. split; [reflexivity|]. simpl. auto.
Qed.

End EmptyTreeIterator.

Lemma Begin_on_empty_tree_witness :
  BPlusTreePage.root_page_id_ (empty_tree None) = INVALID_PAGE_ID /\
  (exists it s',
     BPlusTree.Begin Zcomparator fixture_IsSafe 8 (empty_tree None) = Some (it, s') /\
     IndexIterator.isEnd it = true) /\
  (exists it s',
     BPlusTree.Begin_key Zcomparator fixture_IsSafe 8 4 (empty_tree None) = Some (it, s') /\
     IndexIterator.isEnd it = true).
Proof.
  split; [reflexivity|].
  destruct (Begin_on_empty_tree Zcomparator fixture_IsSafe 8 4 (empty_tree None) eq_refl)
    as [(it1 & s1 & H1 & _ & E1 & _) (it2 & s2 & H2 & _ & E2 & _)].
  split; eauto.
Defined.


(** ** Reasoning about computations in the monad *)

Section MonadFacts.
Context {S : Type}.

Lemma bind_Some {A B : Type} (m : M S A) (k : A -> M S B) s b s' :
  bind m k s = Some (b, s') <->
  exists a s1, m s = Some (a, s1) /\ k a s1 = Some (b, s').
Proof.
  unfold bind. split.
  - destruct (m s) as [[a s1]|]; [eauto | discriminate].
  - intros (a & s1 & -> & Hk). exact Hk.
Qed.

(** A computation keeps the relation [R] between the state it starts in
    and the state it returns in. *)
Definition preserves (R : S -> S -> Prop) {A : Type} (m : M S A) : Prop :=
  forall s a s', m s = Some (a, s') -> R s s'.

Context (R : S -> S -> Prop) `{!PreOrder R}.

Lemma preserves_ret {A : Type} (a : A) : preserves R (ret a).
Proof. intros s a' s' [= <- <-]. reflexivity. Qed.

Lemma preserves_crash {A : Type} : preserves R (@crash S A).
Proof. intros s a s' H. discriminate. Qed.

Lemma preserves_gets {A : Type} (f : S -> A) : preserves R (gets f).
Proof. intros s a s' [= <- <-]. reflexivity. Qed.

Lemma preserves_check (b : bool) : preserves R (@check S b).
Proof. destruct b; [apply preserves_ret | apply preserves_crash]. Qed.

Lemma preserves_bind {A B : Type} (m : M S A) (k : A -> M S B) :
  preserves R m -> (forall a, preserves R (k a)) -> preserves R (bind m k).
Proof.
  intros Hm Hk s b s' H. apply bind_Some in H as (a & s1 & H1 & H2).
  etrans; [eapply Hm | eapply Hk]; eauto.
Qed.

Lemma preserves_when (b : bool) (m : M S unit) :
  preserves R m -> preserves R (when b m).
Proof. intros Hm. destruct b; [exact Hm | apply preserves_ret]. Qed.

Lemma preserves_for_each {A : Type} (l : list A) (body : A -> M S unit) :
  (forall x, preserves R (body x)) -> preserves R (for_each l body).
Proof.
  intros Hb. induction l as [|x l IH]; simpl.
  - apply preserves_ret.
  - apply preserves_bind; [apply Hb | intros _; exact IH].
Qed.

Lemma preserves_modify (f : S -> S) :
  (forall s, R s (f s)) -> preserves R (modify f).
Proof. intros Hf s a s' [= <- <-]. apply Hf. Qed.

End MonadFacts.

(** One step of a proof that a computation preserves a relation: split a
    bind, or look into the branch taken. *)
Ltac pres_step :=
  lazymatch goal with
  | |- preserves _ (bind _ _) => apply preserves_bind; [tc_solve | | intros ?]
  | |- preserves _ (ret _) => apply preserves_ret; tc_solve
  | |- preserves _ crash => apply preserves_crash
  | |- preserves _ (check _) => apply preserves_check; tc_solve
  | |- preserves _ (gets _) => apply preserves_gets; tc_solve
  | |- preserves _ (when _ _) => apply preserves_when; [tc_solve |]
  | |- preserves _ (for_each _ _) => apply preserves_for_each; [tc_solve | intros ?]
  | |- preserves _ (match ?x with _ => _ end) => destruct x
  | |- preserves _ (let _ := _ in _) => cbv zeta
  end.

(** ** The primitive steps, as equations between states *)

Section PrimitiveSteps.
Import BPlusTreePage.
Context {Key : Type}.

Abbreviation St := (State Key).
Abbreviation Page := (BPlusTreePage Key).

Lemma ret_Some {A : Type} (a a' : A) (s s' : St) :
  ret a s = Some (a', s') -> a' = a /\ s' = s.
Proof. intros [= <- <-]. auto. Qed.

Lemma gets_Some {A : Type} (f : St -> A) a (s s' : St) :
  gets f s = Some (a, s') -> a = f s /\ s' = s.
Proof. intros [= <- <-]. auto. Qed.

Lemma modify_Some (f : St -> St) u (s s' : St) :
  modify f s = Some (u, s') -> s' = f s.
Proof. intros [= <-]. auto. Qed.

Lemma check_Some (b : bool) u (s s' : St) :
  check b s = Some (u, s') -> b = true /\ s' = s.
Proof. destruct b; simpl; [intros [= <-]; auto | discriminate]. Qed.

Lemma page_at_Some id p (s s' : St) :
  page_at id s = Some (p, s') -> s' = s /\ pages_ s !! id = Some p.
Proof. unfold page_at. destruct (pages_ s !! id); [intros [= <- <-]; auto | discriminate]. Qed.

Lemma page_at_intro id p (s : St) :
  pages_ s !! id = Some p -> page_at id s = Some (p, s).
Proof. unfold page_at. by intros ->. Qed.

Lemma store_page_Some id p u (s s' : St) :
  store_page id p s = Some (u, s') -> s' = set_pages (<[id := p]> (pages_ s)) s.
Proof. intros [= <-]. auto. Qed.

Lemma update_page_Some id f u (s s' : St) :
  update_page id f s = Some (u, s') ->
  exists p, pages_ s !! id = Some p /\ s' = set_pages (<[id := f p]> (pages_ s)) s.
Proof.
  unfold update_page. intros H. apply bind_Some in H as (p & s1 & H1 & H2).
  apply page_at_Some in H1 as [-> Hp]. apply store_page_Some in H2. eauto.
Qed.

Lemma update_page_intro id f p (s : St) :
  pages_ s !! id = Some p ->
  update_page id f s = Some (tt, set_pages (<[id := f p]> (pages_ s)) s).
Proof. intros Hp. unfold update_page, bind. by rewrite (page_at_intro _ _ _ Hp). Qed.

Lemma FetchPage_Some id p (s s' : St) :
  FetchPage id s = Some (p, s') ->
  pages_ s !! id = Some p /\ s' = set_pin_count (add_pin id 1 (pin_count_ s)) s.
Proof. unfold FetchPage. destruct (pages_ s !! id); [intros [= <- <-]; auto | discriminate]. Qed.

Lemma FetchPage_intro id p (s : St) :
  pages_ s !! id = Some p ->
  FetchPage id s = Some (p, set_pin_count (add_pin id 1 (pin_count_ s)) s).
Proof. unfold FetchPage. by intros ->. Qed.

Lemma UnpinPage_Some id d u (s s' : St) :
  UnpinPage id d s = Some (u, s') -> s' = set_pin_count (add_pin id (-1) (pin_count_ s)) s.
Proof. intros [= <-]. auto. Qed.

Lemma NewPage_Some id (s s' : St) :
  NewPage s = Some (id, s') ->
  id = next_page_id_ s /\
  s' = set_next_page_id (id + 1) (set_pin_count (add_pin id 1 (pin_count_ s)) s).
Proof. intros [= <- <-]. auto. Qed.

Lemma DeletePage_Some id b (s s' : St) :
  DeletePage id s = Some (b, s') ->
  (b = true /\ s' = set_pages (delete id (pages_ s)) s) \/ (b = false /\ s' = s).
Proof. unfold DeletePage. destruct (pin_count_ s id =? 0); intros [= <- <-]; auto. Qed.

Lemma AddIntoPageSet_Some id u (s s' : St) :
  AddIntoPageSet id s = Some (u, s') ->
  exists t, transaction_ s = Some t /\
            s' = set_transaction (Some (SetPageSet (page_set_ t ++ [id]) t)) s.
Proof. unfold AddIntoPageSet. destruct (transaction_ s); [intros [= <-]; eauto | discriminate]. Qed.

Lemma AddIntoDeletedPageSet_Some id u (s s' : St) :
  AddIntoDeletedPageSet id s = Some (u, s') ->
  exists t, transaction_ s = Some t /\
            s' = set_transaction (Some (SetDeletedPageSet ({[id]} ∪ deleted_page_set_ t) t)) s.
Proof.
  unfold AddIntoDeletedPageSet. destruct (transaction_ s); [intros [= <-]; eauto | discriminate].
Qed.

Lemma leaf_at_Some id p next array (s s' : St) :
  LeafPage.leaf_at id s = Some (p, next, array, s') ->
  s' = s /\ pages_ s !! id = Some p /\ payload_ p = LeafArray next array.
Proof.
  unfold LeafPage.leaf_at. intros H. apply bind_Some in H as (p0 & s1 & H1 & H2).
  apply page_at_Some in H1 as [-> Hp].
  destruct (payload_ p0) eqn:Hpl; [|discriminate].
  apply ret_Some in H2 as [[= <- <- <-] ->]. auto.
Qed.

Lemma leaf_at_intro id p next array (s : St) :
  pages_ s !! id = Some p -> payload_ p = LeafArray next array ->
  LeafPage.leaf_at id s = Some (p, next, array, s).
Proof.
  intros Hp Hpl. unfold LeafPage.leaf_at, bind. rewrite (page_at_intro _ _ _ Hp), Hpl. done.
Qed.

Lemma internal_at_Some id p array (s s' : St) :
  InternalPage.internal_at id s = Some (p, array, s') ->
  s' = s /\ pages_ s !! id = Some p /\ payload_ p = InternalArray array.
Proof.
  unfold InternalPage.internal_at. intros H. apply bind_Some in H as (p0 & s1 & H1 & H2).
  apply page_at_Some in H1 as [-> Hp].
  destruct (payload_ p0) eqn:Hpl; [discriminate|].
  apply ret_Some in H2 as [[= <- <-] ->]. auto.
Qed.

Lemma internal_at_intro id p array (s : St) :
  pages_ s !! id = Some p -> payload_ p = InternalArray array ->
  InternalPage.internal_at id s = Some (p, array, s).
Proof.
  intros Hp Hpl. unfold InternalPage.internal_at, bind.
  rewrite (page_at_intro _ _ _ Hp), Hpl. done.
Qed.

Lemma Leaf_set_array_Some id array u (s s' : St) :
  LeafPage.set_array id array s = Some (u, s') ->
  exists p next old, pages_ s !! id = Some p /\ payload_ p = LeafArray next old /\
    s' = set_pages (<[id := set_payload (LeafArray next array) p]> (pages_ s)) s.
Proof.
  unfold LeafPage.set_array. intros H. apply bind_Some in H as ([[p next] old] & s1 & H1 & H2).
  apply leaf_at_Some in H1 as (-> & Hp & Hpl).
  apply update_page_Some in H2 as (p' & Hp' & ->).
  rewrite Hp in Hp'. injection Hp' as <-. simpl. eauto 6.
Qed.

Lemma Leaf_set_array_intro id array p next old (s : St) :
  pages_ s !! id = Some p -> payload_ p = LeafArray next old ->
  LeafPage.set_array id array s
  = Some (tt, set_pages (<[id := set_payload (LeafArray next array) p]> (pages_ s)) s).
Proof.
  intros Hp Hpl. unfold LeafPage.set_array, bind.
  rewrite (leaf_at_intro _ _ _ _ _ Hp Hpl). simpl. by apply update_page_intro.
Qed.

Lemma SetNextPageId_Some id next' u (s s' : St) :
  LeafPage.SetNextPageId id next' s = Some (u, s') ->
  exists p next array, pages_ s !! id = Some p /\ payload_ p = LeafArray next array /\
    s' = set_pages (<[id := set_payload (LeafArray next' array) p]> (pages_ s)) s.
Proof.
  unfold LeafPage.SetNextPageId. intros H.
  apply bind_Some in H as ([[p next] old] & s1 & H1 & H2).
  apply leaf_at_Some in H1 as (-> & Hp & Hpl).
  apply update_page_Some in H2 as (p' & Hp' & ->).
  rewrite Hp in Hp'. injection Hp' as <-. simpl. eauto 6.
Qed.

Lemma Internal_set_array_Some id array u (s s' : St) :
  InternalPage.set_array id array s = Some (u, s') ->
  exists p old, pages_ s !! id = Some p /\ payload_ p = InternalArray old /\
    s' = set_pages (<[id := set_payload (InternalArray array) p]> (pages_ s)) s.
Proof.
  unfold InternalPage.set_array. intros H. apply bind_Some in H as ([p old] & s1 & H1 & H2).
  apply internal_at_Some in H1 as (-> & Hp & Hpl).
  apply update_page_Some in H2 as (p' & Hp' & ->).
  rewrite Hp in Hp'. injection Hp' as <-. eauto 6.
Qed.

Lemma Internal_set_array_intro id array p old (s : St) :
  pages_ s !! id = Some p -> payload_ p = InternalArray old ->
  InternalPage.set_array id array s
  = Some (tt, set_pages (<[id := set_payload (InternalArray array) p]> (pages_ s)) s).
Proof.
  intros Hp Hpl. unfold InternalPage.set_array, bind.
  rewrite (internal_at_intro _ _ _ _ Hp Hpl). by apply update_page_intro.
Qed.

Lemma SetParentPageId_Some id parent u (s s' : St) :
  SetParentPageId id parent s = Some (u, s') ->
  exists p, pages_ s !! id = Some p /\
            s' = set_pages (<[id := set_parent parent p]> (pages_ s)) s.
Proof. apply update_page_Some. Qed.

End PrimitiveSteps.

(** Inversion of a run [H : m s = Some (a, s')]: binds are split, the
    primitive steps replaced by their equations. *)
Ltac minv_step :=
  match goal with
  | H : bind _ _ _ = Some _ |- _ =>
      let a := fresh "a" in let s := fresh "s" in let H1 := fresh "Hm" in
      apply bind_Some in H as (a & s & H1 & H)
  | H : ret _ _ = Some _ |- _ => apply ret_Some in H as [? ?]; subst
  | H : crash _ = Some _ |- _ => discriminate H
  | H : gets _ _ = Some _ |- _ => apply gets_Some in H as [? ?]; subst
  | H : modify _ _ = Some _ |- _ => apply modify_Some in H; subst
  | H : check _ _ = Some _ |- _ => apply check_Some in H as [? ?]; subst
  | H : BPlusTreePage.page_at _ _ = Some _ |- _ =>
      apply page_at_Some in H as [? ?]; subst
  | H : BPlusTreePage.store_page _ _ _ = Some _ |- _ => apply store_page_Some in H; subst
  | H : BPlusTreePage.FetchPage _ _ = Some _ |- _ =>
      apply FetchPage_Some in H as [? ?]; subst
  | H : BPlusTreePage.UnpinPage _ _ _ = Some _ |- _ => apply UnpinPage_Some in H; subst
  | H : BPlusTreePage.NewPage _ = Some _ |- _ => apply NewPage_Some in H as [? ?]; subst
  | H : LeafPage.leaf_at _ _ = Some (_, _, _, _) |- _ =>
      apply leaf_at_Some in H as (? & ? & ?); subst
  | H : LeafPage.leaf_at _ _ = Some (?l, _) |- _ => destruct l as [[? ?] ?]
  | H : InternalPage.internal_at _ _ = Some (_, _, _) |- _ =>
      apply internal_at_Some in H as (? & ? & ?); subst
  | H : InternalPage.internal_at _ _ = Some (?n, _) |- _ => destruct n as [? ?]
  | H : when ?b _ _ = Some _ |- _ => unfold when in H
  end.

Ltac minv := repeat minv_step.


(** ** Which calls of the tree restructure it *)

Section RestructuringCalls.
Import BPlusTreePage.
Context {Key : Type}.
Variable comparator : Key -> Key -> Z.
Variable leaf_max_size internal_max_size : Z.
Variable GetMinSize : BPlusTreePage Key -> Z.
Variable IsSafe : OpType -> BPlusTreePage Key -> bool.

Abbreviation St := (State Key).

(** The computation records no call. *)
Definition silent (s s' : St) : Prop := events_ s' = events_ s.

(** The computation only adds calls to the record. *)
Definition extends (s s' : St) : Prop := events_ s `prefix_of` events_ s'.

#[local] Instance silent_preorder : PreOrder silent.
Proof. split; [intros s; reflexivity | intros s1 s2 s3; unfold silent; congruence]. Qed.

#[local] Instance extends_preorder : PreOrder extends.
Proof.
  split; [intros s; unfold extends; done|].
  intros s1 s2 s3. unfold extends. intros. by etrans.
Qed.

Lemma silent_extends {A : Type} (m : M St A) :
  preserves silent m -> preserves extends m.
Proof. intros H s a s' Hm. unfold extends. rewrite (H s a s' Hm). done. Qed.

Create HintDb silent_db.
Create HintDb extends_db.

Ltac silent_prim :=
  let s := fresh "s" in let a := fresh "a" in let s' := fresh "s'" in let H := fresh "H" in
  intros s a s' H;
  cbv [FetchPage NewPage UnpinPage DeletePage page_at store_page AddIntoPageSet
       AddIntoDeletedPageSet modify gets ret crash
       BPlusTree.LockRootPageId BPlusTree.TryUnlockRootPageId
       BPlusTree.FetchHeaderPage BPlusTree.erase_deleted BPlusTree.clear_page_set
       AddIntoPageSet_if_transaction UnpinPage_of] in H;
  repeat case_match; simplify_eq; reflexivity.

Ltac silent_go :=
  repeat first
    [ solve [auto 1 with silent_db]
    | pres_step
    | solve [silent_prim] ].

Lemma silent_FetchPage id : preserves silent (@FetchPage Key id).
Proof. silent_prim. Qed.
Hint Resolve silent_FetchPage : silent_db.
Lemma silent_NewPage : preserves silent (@NewPage Key).
Proof. silent_prim. Qed.
Hint Resolve silent_NewPage : silent_db.
Lemma silent_UnpinPage id d : preserves silent (@UnpinPage Key id d).
Proof. silent_prim. Qed.
Hint Resolve silent_UnpinPage : silent_db.
Lemma silent_DeletePage id : preserves silent (@DeletePage Key id).
Proof. silent_prim. Qed.
Hint Resolve silent_DeletePage : silent_db.
Lemma silent_page_at id : preserves silent (@page_at Key id).
Proof. silent_prim. Qed.
Hint Resolve silent_page_at : silent_db.
Lemma silent_store_page id p : preserves silent (@store_page Key id p).
Proof. silent_prim. Qed.
Hint Resolve silent_store_page : silent_db.
Lemma silent_AddIntoPageSet id : preserves silent (@AddIntoPageSet Key id).
Proof. silent_prim. Qed.
Hint Resolve silent_AddIntoPageSet : silent_db.
Lemma silent_AddIntoDeletedPageSet id : preserves silent (@AddIntoDeletedPageSet Key id).
Proof. silent_prim. Qed.
Hint Resolve silent_AddIntoDeletedPageSet : silent_db.
Lemma silent_AddIntoPageSet_if_transaction id : preserves silent (@AddIntoPageSet_if_transaction Key id).
Proof. silent_prim. Qed.
Hint Resolve silent_AddIntoPageSet_if_transaction : silent_db.
Lemma silent_UnpinPage_of id d : preserves silent (@UnpinPage_of Key id d).
Proof. silent_prim. Qed.
Hint Resolve silent_UnpinPage_of : silent_db.
Lemma silent_LockRootPageId e : preserves silent (@BPlusTree.LockRootPageId Key e).
Proof. silent_prim. Qed.
Hint Resolve silent_LockRootPageId : silent_db.
Lemma silent_TryUnlockRootPageId e : preserves silent (@BPlusTree.TryUnlockRootPageId Key e).
Proof. silent_prim. Qed.
Hint Resolve silent_TryUnlockRootPageId : silent_db.
Lemma silent_FetchHeaderPage : preserves silent (@BPlusTree.FetchHeaderPage Key).
Proof. silent_prim. Qed.
Hint Resolve silent_FetchHeaderPage : silent_db.
Lemma silent_erase_deleted id : preserves silent (@BPlusTree.erase_deleted Key id).
Proof. silent_prim. Qed.
Hint Resolve silent_erase_deleted : silent_db.
Lemma silent_clear_page_set : preserves silent (@BPlusTree.clear_page_set Key).
Proof. silent_prim. Qed.
Hint Resolve silent_clear_page_set : silent_db.
Lemma silent_update_page id f : preserves silent (@update_page Key id f).
Proof. unfold update_page. silent_go. Qed.
Hint Resolve silent_update_page : silent_db.
Lemma silent_SetParentPageId id parent : preserves silent (@SetParentPageId Key id parent).
Proof. unfold SetParentPageId. silent_go. Qed.
Hint Resolve silent_SetParentPageId : silent_db.
Lemma silent_internal_at id : preserves silent (@InternalPage.internal_at Key id).
Proof. unfold InternalPage.internal_at. silent_go. Qed.
Hint Resolve silent_internal_at : silent_db.
Lemma silent_Internal_set_array id a : preserves silent (@InternalPage.set_array Key id a).
Proof. unfold InternalPage.set_array. silent_go. Qed.
Hint Resolve silent_Internal_set_array : silent_db.
Lemma silent_Internal_Init m id parent : preserves silent (@InternalPage.Init Key m id parent).
Proof. unfold InternalPage.Init. silent_go. Qed.
Hint Resolve silent_Internal_Init : silent_db.
Lemma silent_ValueAt self i : preserves silent (@InternalPage.ValueAt Key self i).
Proof. unfold InternalPage.ValueAt. silent_go. Qed.
Hint Resolve silent_ValueAt : silent_db.
Lemma silent_Internal_KeyAt self i : preserves silent (@InternalPage.KeyAt Key self i).
Proof. unfold InternalPage.KeyAt. silent_go. Qed.
Hint Resolve silent_Internal_KeyAt : silent_db.
Lemma silent_SetKeyAt self i k : preserves silent (@InternalPage.SetKeyAt Key self i k).
Proof. unfold InternalPage.SetKeyAt. silent_go. Qed.
Hint Resolve silent_SetKeyAt : silent_db.
Lemma silent_PopulateNewRoot self o k n : preserves silent (@InternalPage.PopulateNewRoot Key self o k n).
Proof. unfold InternalPage.PopulateNewRoot. silent_go. Qed.
Hint Resolve silent_PopulateNewRoot : silent_db.
Lemma silent_InsertNodeAfter self o k n : preserves silent (@InternalPage.InsertNodeAfter Key self o k n).
Proof. unfold InternalPage.InsertNodeAfter. silent_go. Qed.
Hint Resolve silent_InsertNodeAfter : silent_db.
Lemma silent_adopt p c : preserves silent (@InternalPage.adopt Key p c).
Proof. unfold InternalPage.adopt. silent_go. Qed.
Hint Resolve silent_adopt : silent_db.
Lemma silent_Internal_MoveHalfTo self r : preserves silent (@InternalPage.MoveHalfTo Key self r).
Proof. unfold InternalPage.MoveHalfTo. silent_go. Qed.
Hint Resolve silent_Internal_MoveHalfTo : silent_db.
Lemma silent_Internal_Remove self i : preserves silent (@InternalPage.Remove Key self i).
Proof. unfold InternalPage.Remove. silent_go. Qed.
Hint Resolve silent_Internal_Remove : silent_db.
Lemma silent_RemoveAndReturnOnlyChild self : preserves silent (@InternalPage.RemoveAndReturnOnlyChild Key self).
Proof. unfold InternalPage.RemoveAndReturnOnlyChild. silent_go. Qed.
Hint Resolve silent_RemoveAndReturnOnlyChild : silent_db.
Lemma silent_Internal_MoveAllTo self r i : preserves silent (@InternalPage.MoveAllTo Key self r i).
Proof. unfold InternalPage.MoveAllTo. silent_go. Qed.
Hint Resolve silent_Internal_MoveAllTo : silent_db.
Lemma silent_Internal_MoveFirstToEndOf self r : preserves silent (@InternalPage.MoveFirstToEndOf Key self r).
Proof. unfold InternalPage.MoveFirstToEndOf. silent_go. Qed.
Hint Resolve silent_Internal_MoveFirstToEndOf : silent_db.
Lemma silent_Internal_MoveLastToFrontOf self r i : preserves silent (@InternalPage.MoveLastToFrontOf Key self r i).
Proof. unfold InternalPage.MoveLastToFrontOf. silent_go. Qed.
Hint Resolve silent_Internal_MoveLastToFrontOf : silent_db.
Lemma silent_leaf_at id : preserves silent (@LeafPage.leaf_at Key id).
Proof. unfold LeafPage.leaf_at. silent_go. Qed.
Hint Resolve silent_leaf_at : silent_db.
Lemma silent_Leaf_set_array id a : preserves silent (@LeafPage.set_array Key id a).
Proof. unfold LeafPage.set_array. silent_go. Qed.
Hint Resolve silent_Leaf_set_array : silent_db.
Lemma silent_SetNextPageId id n : preserves silent (@LeafPage.SetNextPageId Key id n).
Proof. unfold LeafPage.SetNextPageId. silent_go. Qed.
Hint Resolve silent_SetNextPageId : silent_db.
Lemma silent_Leaf_Init m id parent : preserves silent (@LeafPage.Init Key m id parent).
Proof. unfold LeafPage.Init. silent_go. Qed.
Hint Resolve silent_Leaf_Init : silent_db.
Lemma silent_Leaf_KeyAt self i : preserves silent (@LeafPage.KeyAt Key self i).
Proof. unfold LeafPage.KeyAt. silent_go. Qed.
Hint Resolve silent_Leaf_KeyAt : silent_db.
Lemma silent_GetItem self i : preserves silent (@LeafPage.GetItem Key self i).
Proof. unfold LeafPage.GetItem. silent_go. Qed.
Hint Resolve silent_GetItem : silent_db.
Lemma silent_Leaf_Lookup self k : preserves silent (LeafPage.Lookup comparator self k).
Proof. unfold LeafPage.Lookup. silent_go. Qed.
Hint Resolve silent_Leaf_Lookup : silent_db.
Lemma silent_Leaf_Insert self k v : preserves silent (LeafPage.Insert comparator self k v).
Proof. unfold LeafPage.Insert. silent_go. Qed.
Hint Resolve silent_Leaf_Insert : silent_db.
Lemma silent_RemoveAndDeleteRecord self k : preserves silent (LeafPage.RemoveAndDeleteRecord comparator self k).
Proof. unfold LeafPage.RemoveAndDeleteRecord. silent_go. Qed.
Hint Resolve silent_RemoveAndDeleteRecord : silent_db.
Lemma silent_Leaf_MoveHalfTo self r : preserves silent (@LeafPage.MoveHalfTo Key self r).
Proof. unfold LeafPage.MoveHalfTo. silent_go. Qed.
Hint Resolve silent_Leaf_MoveHalfTo : silent_db.
Lemma silent_Leaf_MoveAllTo self r : preserves silent (@LeafPage.MoveAllTo Key self r).
Proof. unfold LeafPage.MoveAllTo. silent_go. Qed.
Hint Resolve silent_Leaf_MoveAllTo : silent_db.
Lemma silent_CopyLastFrom self item : preserves silent (@LeafPage.CopyLastFrom Key self item).
Proof. unfold LeafPage.CopyLastFrom. silent_go. Qed.
Hint Resolve silent_CopyLastFrom : silent_db.
Lemma silent_Leaf_MoveFirstToEndOf self r : preserves silent (@LeafPage.MoveFirstToEndOf Key self r).
Proof. unfold LeafPage.MoveFirstToEndOf. silent_go. Qed.
Hint Resolve silent_Leaf_MoveFirstToEndOf : silent_db.
Lemma silent_CopyFirstFrom self item i : preserves silent (@LeafPage.CopyFirstFrom Key self item i).
Proof. unfold LeafPage.CopyFirstFrom. silent_go. Qed.
Hint Resolve silent_CopyFirstFrom : silent_db.
Lemma silent_Leaf_MoveLastToFrontOf self r i : preserves silent (@LeafPage.MoveLastToFrontOf Key self r i).
Proof. unfold LeafPage.MoveLastToFrontOf. silent_go. Qed.
Hint Resolve silent_Leaf_MoveLastToFrontOf : silent_db.
Lemma silent_IsEmpty : preserves silent (@BPlusTree.IsEmpty Key).
Proof. unfold BPlusTree.IsEmpty. silent_go. Qed.
Hint Resolve silent_IsEmpty : silent_db.
Lemma silent_Unlock_page_id e id : preserves silent (@BPlusTree.Unlock_page_id Key e id).
Proof. unfold BPlusTree.Unlock_page_id. silent_go. Qed.
Hint Resolve silent_Unlock_page_id : silent_db.
Lemma silent_UpdateRootPageId b : preserves silent (@BPlusTree.UpdateRootPageId Key b).
Proof. unfold BPlusTree.UpdateRootPageId. silent_go. Qed.
Hint Resolve silent_UpdateRootPageId : silent_db.
Lemma silent_free_page e id : preserves silent (@BPlusTree.free_page Key e id).
Proof. unfold BPlusTree.free_page. silent_go. Qed.
Hint Resolve silent_free_page : silent_db.
Lemma silent_FreePagesInTransaction e cur : preserves silent (@BPlusTree.FreePagesInTransaction Key e cur).
Proof. unfold BPlusTree.FreePagesInTransaction. silent_go. Qed.
Hint Resolve silent_FreePagesInTransaction : silent_db.
Lemma silent_CrabingProtocalFetchPage id op prev : preserves silent (BPlusTree.CrabingProtocalFetchPage IsSafe id op prev).
Proof. unfold BPlusTree.CrabingProtocalFetchPage. silent_go. Qed.
Hint Resolve silent_CrabingProtocalFetchPage : silent_db.
Lemma silent_next_child key lm cur a : preserves silent (BPlusTree.next_child comparator key lm cur a).
Proof. unfold BPlusTree.next_child. silent_go. Qed.
Hint Resolve silent_next_child : silent_db.
Lemma silent_descend fuel key lm op cur : preserves silent (BPlusTree.descend comparator IsSafe fuel key lm op cur).
Proof.
  revert cur. induction fuel as [|fuel IH]; intros cur; simpl; silent_go.
Qed.
Hint Resolve silent_descend : silent_db.
Lemma silent_FindLeafPage fuel key lm op : preserves silent (BPlusTree.FindLeafPage comparator IsSafe fuel key lm op).
Proof. unfold BPlusTree.FindLeafPage. silent_go. Qed.
Hint Resolve silent_FindLeafPage : silent_db.
Lemma silent_GetValue fuel key : preserves silent (BPlusTree.GetValue comparator IsSafe fuel key).
Proof. unfold BPlusTree.GetValue. silent_go. Qed.
Hint Resolve silent_GetValue : silent_db.
Lemma silent_StartNewTree k v : preserves silent (BPlusTree.StartNewTree comparator leaf_max_size k v).
Proof. unfold BPlusTree.StartNewTree. silent_go. Qed.
Hint Resolve silent_StartNewTree : silent_db.
Lemma silent_Split node : preserves silent (@BPlusTree.Split Key leaf_max_size internal_max_size node).
Proof. unfold BPlusTree.Split. silent_go. Qed.
Hint Resolve silent_Split : silent_db.
Lemma silent_InsertIntoParent fuel o k n : preserves silent (@BPlusTree.InsertIntoParent Key leaf_max_size internal_max_size fuel o k n).
Proof.
  revert o k n. induction fuel as [|fuel IH]; intros o k n; simpl; silent_go.
Qed.
Hint Resolve silent_InsertIntoParent : silent_db.
Lemma silent_InsertIntoLeaf fuel k v : preserves silent (BPlusTree.InsertIntoLeaf comparator leaf_max_size internal_max_size IsSafe fuel k v).
Proof. unfold BPlusTree.InsertIntoLeaf. silent_go. Qed.
Hint Resolve silent_InsertIntoLeaf : silent_db.
Lemma silent_Insert fuel k v : preserves silent (BPlusTree.Insert comparator leaf_max_size internal_max_size IsSafe fuel k v).
Proof. unfold BPlusTree.Insert. silent_go. Qed.
Hint Resolve silent_Insert : silent_db.
Lemma silent_AdjustRoot node : preserves silent (@BPlusTree.AdjustRoot Key node).
Proof. unfold BPlusTree.AdjustRoot. silent_go. Qed.
Hint Resolve silent_AdjustRoot : silent_db.
Lemma silent_FindLeftSibling node : preserves silent (BPlusTree.FindLeftSibling IsSafe node).
Proof. unfold BPlusTree.FindLeftSibling. silent_go. Qed.
Hint Resolve silent_FindLeftSibling : silent_db.
Lemma silent_deref it : preserves silent (@IndexIterator.deref Key it).
Proof. unfold IndexIterator.deref. silent_go. Qed.
Hint Resolve silent_deref : silent_db.
Lemma silent_UnlockAndUnPin leaf : preserves silent (@IndexIterator.UnlockAndUnPin Key leaf).
Proof. unfold IndexIterator.UnlockAndUnPin. silent_go. Qed.
Hint Resolve silent_UnlockAndUnPin : silent_db.
Lemma silent_incr it : preserves silent (@IndexIterator.incr Key it).
Proof. unfold IndexIterator.incr. silent_go. Qed.
Hint Resolve silent_incr : silent_db.
Lemma silent_scan fuel it : preserves silent (@IndexIterator.scan Key fuel it).
Proof.
  revert it. induction fuel as [|fuel IH]; intros it; simpl; silent_go.
Qed.
Hint Resolve silent_scan : silent_db.

Ltac extends_go :=
  repeat first
    [ solve [auto 1 with extends_db]
    | solve [apply silent_extends; auto 1 with silent_db]
    | pres_step
    | solve [apply silent_extends; silent_prim] ].

Lemma extends_emit e : preserves extends (@emit Key e).
Proof.
  intros s a s' H. cbv [emit modify] in H. simplify_eq.
  unfold extends. simpl. by apply prefix_app_r.
Qed.
Hint Resolve extends_emit : extends_db.

Lemma extends_Redistribute neighbor node index :
  preserves extends (@BPlusTree.Redistribute Key neighbor node index).
Proof. unfold BPlusTree.Redistribute. extends_go. Qed.
Hint Resolve extends_Redistribute : extends_db.

Lemma extends_Coalesce recur neighbor node parent index :
  (forall p, preserves extends (recur p)) ->
  preserves extends (BPlusTree.Coalesce GetMinSize recur neighbor node parent index).
Proof. intros Hrec. unfold BPlusTree.Coalesce. extends_go. Qed.

Lemma extends_CoalesceOrRedistribute fuel node :
  preserves extends (BPlusTree.CoalesceOrRedistribute GetMinSize IsSafe fuel node).
Proof.
  revert node. induction fuel as [|fuel IH]; intros node; simpl; [apply preserves_crash|].
  pose proof (fun recur neighbor node parent index =>
                extends_Coalesce recur neighbor node parent index) as HC.
  extends_go.
  all: apply HC; exact IH.
Qed.
Hint Resolve extends_CoalesceOrRedistribute : extends_db.

(** A call of [CoalesceOrRedistribute] that returns has recorded itself
    first. *)
Lemma CoalesceOrRedistribute_first_event fuel node s b s' :
  BPlusTree.CoalesceOrRedistribute GetMinSize IsSafe fuel node s = Some (b, s') ->
  exists evs, events_ s' = events_ s ++ EvCoalesceOrRedistribute node :: evs.
Proof.
  intros H.
  pose proof (extends_CoalesceOrRedistribute fuel node s b s' H) as Hext.
  destruct fuel as [|fuel]; [discriminate|].
  simpl in H. apply bind_Some in H as (u & sa & Hemit & Hrest).
  cbv [emit modify] in Hemit. simplify_eq.
  match type of Hrest with
  | ?m _ = _ => assert (Hp : preserves extends m)
  end.
  { pose proof (fun recur neighbor node parent index =>
                  extends_Coalesce recur neighbor node parent index) as HC.
    extends_go.
    all: apply HC; intros; apply extends_CoalesceOrRedistribute. }
  apply Hp in Hrest. unfold extends in Hrest. simpl in Hrest.
  destruct Hrest as [evs Hevs]. exists evs. rewrite Hevs, <- app_assoc. reflexivity.
Qed.


End RestructuringCalls.

(** The theorem on the two-leaf tree: removing 5 from the right leaf [5; 7]
    leaves it with one key, which is below its minimal size 2; and a
    coalesce of the right leaf [5] into the left one [1; 3; 4] is refused,
    while one into [1; 3] leaves the root with a single slot. *)
Definition coalesce_fixture : BPlusTreePage.State Z :=
  BPlusTreePage.set_pages
    (<[1 := leaf_page 1 3 2 [1; 3]]>
       (BPlusTreePage.pages_ (two_leaf_tree [5] (Some (new_Transaction 0)))))
    (two_leaf_tree [5] (Some (new_Transaction 0))).



(** ** Pins: what every operation keeps *)

Section PinBalance.
Import BPlusTreePage.
Context {Key : Type}.
Variable comparator : Key -> Key -> Z.
Variable leaf_max_size internal_max_size : Z.
Variable GetMinSize : BPlusTreePage Key -> Z.
Variable IsSafe : OpType -> BPlusTreePage Key -> bool.

Abbreviation St := (State Key).

(** The page id in the header of a node is the id of its page. *)
Definition ids_ok (s : St) : Prop :=
  forall id p, pages_ s !! id = Some p -> page_id_ p = id.

(** The operation was called with a transaction. *)
Definition has_txn (s : St) : Prop := is_Some (transaction_ s).

(** Both are kept by every step: no step changes the page id of a node,
    and none changes whether there is a transaction. *)
Definition keeps (s s' : St) : Prop :=
  (ids_ok s -> ids_ok s') /\ (has_txn s' <-> has_txn s).

#[local] Instance keeps_preorder : PreOrder keeps.
Proof.
  split.
  - intros s. split; [auto | reflexivity].
  - intros s1 s2 s3 [H1 H2] [H3 H4]. split; [auto | by etrans].
Qed.

Lemma ids_ok_insert id p (s : St) :
  ids_ok s -> page_id_ p = id -> ids_ok (set_pages (<[id := p]> (pages_ s)) s).
Proof.
  intros Hok Hp id' p'. simpl. rewrite lookup_insert.
  case_decide; [intros [= <-]; congruence | apply Hok].
Qed.

Lemma ids_ok_delete id (s : St) :
  ids_ok s -> ids_ok (set_pages (delete id (pages_ s)) s).
Proof.
  intros Hok id' p'. simpl. rewrite lookup_delete.
  case_decide; [discriminate | apply Hok].
Qed.

Create HintDb keeps_db.

Ltac keeps_prim :=
  let s := fresh "s" in let a := fresh "a" in let s' := fresh "s'" in let H := fresh "H" in
  intros s a s' H;
  cbv [FetchPage NewPage UnpinPage DeletePage page_at AddIntoPageSet
       AddIntoDeletedPageSet modify gets ret crash
       BPlusTree.LockRootPageId BPlusTree.TryUnlockRootPageId
       BPlusTree.FetchHeaderPage BPlusTree.erase_deleted BPlusTree.clear_page_set
       AddIntoPageSet_if_transaction UnpinPage_of emit] in H;
  repeat case_match; simplify_eq;
  (split; [first [ done | apply ids_ok_delete ] | unfold has_txn; simpl; try done;
           split; intros; try done; eauto]).

Ltac keeps_go :=
  repeat first
    [ solve [auto 1 with keeps_db]
    | pres_step
    | solve [keeps_prim] ].

Lemma keeps_update_payload id pl : preserves keeps (@update_page Key id (set_payload pl)).
Proof.
  intros s a s' H. apply update_page_Some in H as (p & Hp & ->).
  split; [|done]. intros Hok. apply ids_ok_insert; [done|]. simpl. by apply Hok.
Qed.

Lemma keeps_update_parent id parent : preserves keeps (@update_page Key id (set_parent parent)).
Proof.
  intros s a s' H. apply update_page_Some in H as (p & Hp & ->).
  split; [|done]. intros Hok. apply ids_ok_insert; [done|]. simpl. by apply Hok.
Qed.

Lemma keeps_store_init id m parent pl :
  preserves keeps (@store_page Key id {| max_size_ := m; parent_page_id_ := parent;
                                         page_id_ := id; payload_ := pl |}).
Proof.
  intros s a s' H. apply store_page_Some in H as ->.
  split; [|done]. intros Hok. by apply ids_ok_insert.
Qed.

Lemma keeps_emit e : preserves keeps (@emit Key e).
Proof. keeps_prim. Qed.
Hint Resolve keeps_update_payload keeps_update_parent keeps_store_init keeps_emit : keeps_db.

Lemma keeps_FetchPage id : preserves keeps (@FetchPage Key id).
Proof. keeps_prim. Qed.
Hint Resolve keeps_FetchPage : keeps_db.
Lemma keeps_NewPage : preserves keeps (@NewPage Key).
Proof. keeps_prim. Qed.
Hint Resolve keeps_NewPage : keeps_db.
Lemma keeps_UnpinPage id d : preserves keeps (@UnpinPage Key id d).
Proof. keeps_prim. Qed.
Hint Resolve keeps_UnpinPage : keeps_db.
Lemma keeps_DeletePage id : preserves keeps (@DeletePage Key id).
Proof. keeps_prim. Qed.
Hint Resolve keeps_DeletePage : keeps_db.
Lemma keeps_page_at id : preserves keeps (@page_at Key id).
Proof. keeps_prim. Qed.
Hint Resolve keeps_page_at : keeps_db.
Lemma keeps_AddIntoPageSet id : preserves keeps (@AddIntoPageSet Key id).
Proof. keeps_prim. Qed.
Hint Resolve keeps_AddIntoPageSet : keeps_db.
Lemma keeps_AddIntoDeletedPageSet id : preserves keeps (@AddIntoDeletedPageSet Key id).
Proof. keeps_prim. Qed.
Hint Resolve keeps_AddIntoDeletedPageSet : keeps_db.
Lemma keeps_AddIntoPageSet_if_transaction id : preserves keeps (@AddIntoPageSet_if_transaction Key id).
Proof. keeps_prim. Qed.
Hint Resolve keeps_AddIntoPageSet_if_transaction : keeps_db.
Lemma keeps_UnpinPage_of id d : preserves keeps (@UnpinPage_of Key id d).
Proof. keeps_prim. Qed.
Hint Resolve keeps_UnpinPage_of : keeps_db.
Lemma keeps_LockRootPageId e : preserves keeps (@BPlusTree.LockRootPageId Key e).
Proof. keeps_prim. Qed.
Hint Resolve keeps_LockRootPageId : keeps_db.
Lemma keeps_TryUnlockRootPageId e : preserves keeps (@BPlusTree.TryUnlockRootPageId Key e).
Proof. keeps_prim. Qed.
Hint Resolve keeps_TryUnlockRootPageId : keeps_db.
Lemma keeps_FetchHeaderPage : preserves keeps (@BPlusTree.FetchHeaderPage Key).
Proof. keeps_prim. Qed.
Hint Resolve keeps_FetchHeaderPage : keeps_db.
Lemma keeps_erase_deleted id : preserves keeps (@BPlusTree.erase_deleted Key id).
Proof. keeps_prim. Qed.
Hint Resolve keeps_erase_deleted : keeps_db.
Lemma keeps_clear_page_set : preserves keeps (@BPlusTree.clear_page_set Key).
Proof. keeps_prim. Qed.
Hint Resolve keeps_clear_page_set : keeps_db.
Lemma keeps_SetParentPageId id parent : preserves keeps (@SetParentPageId Key id parent).
Proof. unfold SetParentPageId. keeps_go. Qed.
Hint Resolve keeps_SetParentPageId : keeps_db.
Lemma keeps_internal_at id : preserves keeps (@InternalPage.internal_at Key id).
Proof. unfold InternalPage.internal_at. keeps_go. Qed.
Hint Resolve keeps_internal_at : keeps_db.
Lemma keeps_Internal_set_array id a : preserves keeps (@InternalPage.set_array Key id a).
Proof. unfold InternalPage.set_array. keeps_go. Qed.
Hint Resolve keeps_Internal_set_array : keeps_db.
Lemma keeps_Internal_Init m id parent : preserves keeps (@InternalPage.Init Key m id parent).
Proof. unfold InternalPage.Init. keeps_go. Qed.
Hint Resolve keeps_Internal_Init : keeps_db.
Lemma keeps_ValueAt self i : preserves keeps (@InternalPage.ValueAt Key self i).
Proof. unfold InternalPage.ValueAt. keeps_go. Qed.
Hint Resolve keeps_ValueAt : keeps_db.
Lemma keeps_Internal_KeyAt self i : preserves keeps (@InternalPage.KeyAt Key self i).
Proof. unfold InternalPage.KeyAt. keeps_go. Qed.
Hint Resolve keeps_Internal_KeyAt : keeps_db.
Lemma keeps_SetKeyAt self i k : preserves keeps (@InternalPage.SetKeyAt Key self i k).
Proof. unfold InternalPage.SetKeyAt. keeps_go. Qed.
Hint Resolve keeps_SetKeyAt : keeps_db.
Lemma keeps_PopulateNewRoot self o k n : preserves keeps (@InternalPage.PopulateNewRoot Key self o k n).
Proof. unfold InternalPage.PopulateNewRoot. keeps_go. Qed.
Hint Resolve keeps_PopulateNewRoot : keeps_db.
Lemma keeps_InsertNodeAfter self o k n : preserves keeps (@InternalPage.InsertNodeAfter Key self o k n).
Proof. unfold InternalPage.InsertNodeAfter. keeps_go. Qed.
Hint Resolve keeps_InsertNodeAfter : keeps_db.
Lemma keeps_adopt p c : preserves keeps (@InternalPage.adopt Key p c).
Proof. unfold InternalPage.adopt. keeps_go. Qed.
Hint Resolve keeps_adopt : keeps_db.
Lemma keeps_Internal_MoveHalfTo self r : preserves keeps (@InternalPage.MoveHalfTo Key self r).
Proof. unfold InternalPage.MoveHalfTo. keeps_go. Qed.
Hint Resolve keeps_Internal_MoveHalfTo : keeps_db.
Lemma keeps_Internal_Remove self i : preserves keeps (@InternalPage.Remove Key self i).
Proof. unfold InternalPage.Remove. keeps_go. Qed.
Hint Resolve keeps_Internal_Remove : keeps_db.
Lemma keeps_RemoveAndReturnOnlyChild self : preserves keeps (@InternalPage.RemoveAndReturnOnlyChild Key self).
Proof. unfold InternalPage.RemoveAndReturnOnlyChild. keeps_go. Qed.
Hint Resolve keeps_RemoveAndReturnOnlyChild : keeps_db.
Lemma keeps_Internal_MoveAllTo self r i : preserves keeps (@InternalPage.MoveAllTo Key self r i).
Proof. unfold InternalPage.MoveAllTo. keeps_go. Qed.
Hint Resolve keeps_Internal_MoveAllTo : keeps_db.
Lemma keeps_Internal_MoveFirstToEndOf self r : preserves keeps (@InternalPage.MoveFirstToEndOf Key self r).
Proof. unfold InternalPage.MoveFirstToEndOf. keeps_go. Qed.
Hint Resolve keeps_Internal_MoveFirstToEndOf : keeps_db.
Lemma keeps_Internal_MoveLastToFrontOf self r i : preserves keeps (@InternalPage.MoveLastToFrontOf Key self r i).
Proof. unfold InternalPage.MoveLastToFrontOf. keeps_go. Qed.
Hint Resolve keeps_Internal_MoveLastToFrontOf : keeps_db.
Lemma keeps_leaf_at id : preserves keeps (@LeafPage.leaf_at Key id).
Proof. unfold LeafPage.leaf_at. keeps_go. Qed.
Hint Resolve keeps_leaf_at : keeps_db.
Lemma keeps_Leaf_set_array id a : preserves keeps (@LeafPage.set_array Key id a).
Proof. unfold LeafPage.set_array. keeps_go. Qed.
Hint Resolve keeps_Leaf_set_array : keeps_db.
Lemma keeps_SetNextPageId id n : preserves keeps (@LeafPage.SetNextPageId Key id n).
Proof. unfold LeafPage.SetNextPageId. keeps_go. Qed.
Hint Resolve keeps_SetNextPageId : keeps_db.
Lemma keeps_Leaf_Init m id parent : preserves keeps (@LeafPage.Init Key m id parent).
Proof. unfold LeafPage.Init. keeps_go. Qed.
Hint Resolve keeps_Leaf_Init : keeps_db.
Lemma keeps_Leaf_KeyAt self i : preserves keeps (@LeafPage.KeyAt Key self i).
Proof. unfold LeafPage.KeyAt. keeps_go. Qed.
Hint Resolve keeps_Leaf_KeyAt : keeps_db.
Lemma keeps_GetItem self i : preserves keeps (@LeafPage.GetItem Key self i).
Proof. unfold LeafPage.GetItem. keeps_go. Qed.
Hint Resolve keeps_GetItem : keeps_db.
Lemma keeps_Leaf_Lookup self k : preserves keeps (LeafPage.Lookup comparator self k).
Proof. unfold LeafPage.Lookup. keeps_go. Qed.
Hint Resolve keeps_Leaf_Lookup : keeps_db.
Lemma keeps_Leaf_Insert self k v : preserves keeps (LeafPage.Insert comparator self k v).
Proof. unfold LeafPage.Insert. keeps_go. Qed.
Hint Resolve keeps_Leaf_Insert : keeps_db.
Lemma keeps_RemoveAndDeleteRecord self k : preserves keeps (LeafPage.RemoveAndDeleteRecord comparator self k).
Proof. unfold LeafPage.RemoveAndDeleteRecord. keeps_go. Qed.
Hint Resolve keeps_RemoveAndDeleteRecord : keeps_db.
Lemma keeps_Leaf_MoveHalfTo self r : preserves keeps (@LeafPage.MoveHalfTo Key self r).
Proof. unfold LeafPage.MoveHalfTo. keeps_go. Qed.
Hint Resolve keeps_Leaf_MoveHalfTo : keeps_db.
Lemma keeps_Leaf_MoveAllTo self r : preserves keeps (@LeafPage.MoveAllTo Key self r).
Proof. unfold LeafPage.MoveAllTo. keeps_go. Qed.
Hint Resolve keeps_Leaf_MoveAllTo : keeps_db.
Lemma keeps_CopyLastFrom self item : preserves keeps (@LeafPage.CopyLastFrom Key self item).
Proof. unfold LeafPage.CopyLastFrom. keeps_go. Qed.
Hint Resolve keeps_CopyLastFrom : keeps_db.
Lemma keeps_Leaf_MoveFirstToEndOf self r : preserves keeps (@LeafPage.MoveFirstToEndOf Key self r).
Proof. unfold LeafPage.MoveFirstToEndOf. keeps_go. Qed.
Hint Resolve keeps_Leaf_MoveFirstToEndOf : keeps_db.
Lemma keeps_CopyFirstFrom self item i : preserves keeps (@LeafPage.CopyFirstFrom Key self item i).
Proof. unfold LeafPage.CopyFirstFrom. keeps_go. Qed.
Hint Resolve keeps_CopyFirstFrom : keeps_db.
Lemma keeps_Leaf_MoveLastToFrontOf self r i : preserves keeps (@LeafPage.MoveLastToFrontOf Key self r i).
Proof. unfold LeafPage.MoveLastToFrontOf. keeps_go. Qed.
Hint Resolve keeps_Leaf_MoveLastToFrontOf : keeps_db.
Lemma keeps_IsEmpty : preserves keeps (@BPlusTree.IsEmpty Key).
Proof. unfold BPlusTree.IsEmpty. keeps_go. Qed.
Hint Resolve keeps_IsEmpty : keeps_db.
Lemma keeps_Unlock_page_id e id : preserves keeps (@BPlusTree.Unlock_page_id Key e id).
Proof. unfold BPlusTree.Unlock_page_id. keeps_go. Qed.
Hint Resolve keeps_Unlock_page_id : keeps_db.
Lemma keeps_UpdateRootPageId b : preserves keeps (@BPlusTree.UpdateRootPageId Key b).
Proof. unfold BPlusTree.UpdateRootPageId. keeps_go. Qed.
Hint Resolve keeps_UpdateRootPageId : keeps_db.
Lemma keeps_free_page e id : preserves keeps (@BPlusTree.free_page Key e id).
Proof. unfold BPlusTree.free_page. keeps_go. Qed.
Hint Resolve keeps_free_page : keeps_db.
Lemma keeps_FreePagesInTransaction e cur : preserves keeps (@BPlusTree.FreePagesInTransaction Key e cur).
Proof. unfold BPlusTree.FreePagesInTransaction. keeps_go. Qed.
Hint Resolve keeps_FreePagesInTransaction : keeps_db.
Lemma keeps_CrabingProtocalFetchPage id op prev : preserves keeps (BPlusTree.CrabingProtocalFetchPage IsSafe id op prev).
Proof. unfold BPlusTree.CrabingProtocalFetchPage. keeps_go. Qed.
Hint Resolve keeps_CrabingProtocalFetchPage : keeps_db.
Lemma keeps_next_child key lm cur a : preserves keeps (BPlusTree.next_child comparator key lm cur a).
Proof. unfold BPlusTree.next_child. keeps_go. Qed.
Hint Resolve keeps_next_child : keeps_db.
Lemma keeps_descend fuel key lm op cur : preserves keeps (BPlusTree.descend comparator IsSafe fuel key lm op cur).
Proof.
  revert cur. induction fuel as [|fuel IH]; intros cur; simpl; keeps_go.
Qed.
Hint Resolve keeps_descend : keeps_db.
Lemma keeps_FindLeafPage fuel key lm op : preserves keeps (BPlusTree.FindLeafPage comparator IsSafe fuel key lm op).
Proof. unfold BPlusTree.FindLeafPage. keeps_go. Qed.
Hint Resolve keeps_FindLeafPage : keeps_db.
Lemma keeps_GetValue fuel key : preserves keeps (BPlusTree.GetValue comparator IsSafe fuel key).
Proof. unfold BPlusTree.GetValue. keeps_go. Qed.
Hint Resolve keeps_GetValue : keeps_db.
Lemma keeps_StartNewTree k v : preserves keeps (BPlusTree.StartNewTree comparator leaf_max_size k v).
Proof. unfold BPlusTree.StartNewTree. keeps_go. Qed.
Hint Resolve keeps_StartNewTree : keeps_db.
Lemma keeps_Split node : preserves keeps (@BPlusTree.Split Key leaf_max_size internal_max_size node).
Proof. unfold BPlusTree.Split. keeps_go. Qed.
Hint Resolve keeps_Split : keeps_db.
Lemma keeps_InsertIntoParent fuel o k n : preserves keeps (@BPlusTree.InsertIntoParent Key leaf_max_size internal_max_size fuel o k n).
Proof.
  revert o k n. induction fuel as [|fuel IH]; intros o k n; simpl; keeps_go.
Qed.
Hint Resolve keeps_InsertIntoParent : keeps_db.
Lemma keeps_InsertIntoLeaf fuel k v : preserves keeps (BPlusTree.InsertIntoLeaf comparator leaf_max_size internal_max_size IsSafe fuel k v).
Proof. unfold BPlusTree.InsertIntoLeaf. keeps_go. Qed.
Hint Resolve keeps_InsertIntoLeaf : keeps_db.
Lemma keeps_Insert fuel k v : preserves keeps (BPlusTree.Insert comparator leaf_max_size internal_max_size IsSafe fuel k v).
Proof. unfold BPlusTree.Insert. keeps_go. Qed.
Hint Resolve keeps_Insert : keeps_db.
Lemma keeps_AdjustRoot node : preserves keeps (@BPlusTree.AdjustRoot Key node).
Proof. unfold BPlusTree.AdjustRoot. keeps_go. Qed.
Hint Resolve keeps_AdjustRoot : keeps_db.
Lemma keeps_FindLeftSibling node : preserves keeps (BPlusTree.FindLeftSibling IsSafe node).
Proof. unfold BPlusTree.FindLeftSibling. keeps_go. Qed.
Hint Resolve keeps_FindLeftSibling : keeps_db.
Lemma keeps_deref it : preserves keeps (@IndexIterator.deref Key it).
Proof. unfold IndexIterator.deref. keeps_go. Qed.
Hint Resolve keeps_deref : keeps_db.
Lemma keeps_UnlockAndUnPin leaf : preserves keeps (@IndexIterator.UnlockAndUnPin Key leaf).
Proof. unfold IndexIterator.UnlockAndUnPin. keeps_go. Qed.
Hint Resolve keeps_UnlockAndUnPin : keeps_db.
Lemma keeps_incr it : preserves keeps (@IndexIterator.incr Key it).
Proof. unfold IndexIterator.incr. keeps_go. Qed.
Hint Resolve keeps_incr : keeps_db.
Lemma keeps_scan fuel it : preserves keeps (@IndexIterator.scan Key fuel it).
Proof.
  revert it. induction fuel as [|fuel IH]; intros it; simpl; keeps_go.
Qed.
Hint Resolve keeps_scan : keeps_db.

Lemma keeps_Redistribute neighbor node index :
  preserves keeps (@BPlusTree.Redistribute Key neighbor node index).
Proof. unfold BPlusTree.Redistribute. keeps_go. Qed.
Hint Resolve keeps_Redistribute : keeps_db.

Lemma keeps_Coalesce recur neighbor node parent index :
  (forall p, preserves keeps (recur p)) ->
  preserves keeps (BPlusTree.Coalesce GetMinSize recur neighbor node parent index).
Proof. intros Hrec. unfold BPlusTree.Coalesce. keeps_go. Qed.

Lemma keeps_CoalesceOrRedistribute fuel node :
  preserves keeps (BPlusTree.CoalesceOrRedistribute GetMinSize IsSafe fuel node).
Proof.
  revert node. induction fuel as [|fuel IH]; intros node; simpl; [apply preserves_crash|].
  pose proof (fun recur neighbor node parent index =>
                keeps_Coalesce recur neighbor node parent index) as HC.
  keeps_go.
  all: apply HC; exact IH.
Qed.
Hint Resolve keeps_CoalesceOrRedistribute : keeps_db.

Lemma keeps_Remove fuel key :
  preserves keeps (BPlusTree.Remove comparator GetMinSize IsSafe fuel key).
Proof. unfold BPlusTree.Remove. keeps_go. Qed.

Lemma keeps_Begin fuel : preserves keeps (BPlusTree.Begin comparator IsSafe fuel).
Proof. unfold BPlusTree.Begin. keeps_go. Qed.

Lemma keeps_Begin_key fuel key : preserves keeps (BPlusTree.Begin_key comparator IsSafe fuel key).
Proof. unfold BPlusTree.Begin_key. keeps_go. Qed.

(** *** The balance of pins

    A page that is fetched for the crabbing protocol stays pinned until
    [FreePagesInTransaction] walks the page set of the transaction.  The
    balance of a page is the number of its pins that the page set does not
    account for. *)

Definition page_set_of (s : St) : list page_id_t :=
  match transaction_ s with Some t => page_set_ t | None => [] end.

Fixpoint count (q : page_id_t) (l : list page_id_t) : Z :=
  match l with
  | [] => 0
  | x :: l' => (if bool_decide (q = x) then 1 else 0) + count q l'
  end.

Lemma count_app q l1 l2 : count q (l1 ++ l2) = count q l1 + count q l2.
Proof. induction l1 as [|x l1 IH]; simpl; lia. Qed.

Definition bal (s : St) (q : page_id_t) : Z := pin_count_ s q - count q (page_set_of s).

(** [triple t D m D']: a run of [m] that returns [a] moves the balance of
    every page [q] by [D' a q - D q]; [D] counts the pins the caller holds
    on entry, [D' a] those it holds on return.  With [t] the run starts
    with a transaction. *)
Definition triple {A : Type} (t : bool) (D : page_id_t -> Z) (m : M St A)
    (D' : A -> page_id_t -> Z) : Prop :=
  forall s a s', m s = Some (a, s') -> ids_ok s -> (t = true -> has_txn s) ->
    forall q, bal s' q - D' a q = bal s q - D q.

Lemma triple_ret {A : Type} t D (a : A) : triple t D (ret a) (fun _ => D).
Proof. intros s a' s' H _ _ q. apply ret_Some in H as [_ ->]. lia. Qed.

Lemma triple_crash {A : Type} t D D' : triple t D (@crash St A) D'.
Proof. intros s a s' H. discriminate. Qed.

Lemma triple_gets {A : Type} t D (f : St -> A) : triple t D (gets f) (fun _ => D).
Proof. intros s a' s' H _ _ q. apply gets_Some in H as [_ ->]. lia. Qed.

Lemma triple_check t D b : triple t D (@check St b) (fun _ => D).
Proof. destruct b; [apply triple_ret | apply triple_crash]. Qed.

Lemma triple_bind {A B : Type} t D (m : M St A) (k : A -> M St B) D1 D2 :
  triple t D m D1 -> preserves keeps m -> (forall a, triple t (D1 a) (k a) D2) ->
  triple t D (bind m k) D2.
Proof.
  intros Hm Hkeeps Hk s b s' H Hok Ht q.
  apply bind_Some in H as (a & s1 & H1 & H2).
  destruct (Hkeeps _ _ _ H1) as [Hok1 Ht1].
  pose proof (Hm _ _ _ H1 Hok Ht q).
  pose proof (Hk a _ _ _ H2 (Hok1 Hok) (fun e => proj2 Ht1 (Ht e)) q). lia.
Qed.

Lemma triple_conseq {A : Type} t D (m : M St A) D1 D2 :
  triple t D m D1 -> (forall a q, D1 a q = D2 a q) -> triple t D m D2.
Proof. intros Hm Heq s a s' H Hok Ht q. rewrite <- Heq. by apply Hm. Qed.

Lemma triple_when t D b (m : M St unit) :
  triple t D m (fun _ => D) -> triple t D (when b m) (fun _ => D).
Proof. intros Hm. destruct b; [exact Hm | apply triple_ret]. Qed.

Lemma triple_for_each {A : Type} t D (l : list A) (body : A -> M St unit) :
  (forall x, triple t D (body x) (fun _ => D)) -> (forall x, preserves keeps (body x)) ->
  triple t D (for_each l body) (fun _ => D).
Proof.
  intros Hb Hk. induction l as [|x l IH]; simpl.
  - apply triple_ret.
  - eapply triple_bind; [apply Hb | apply Hk | intros ?; exact IH].
Qed.

(** A step that touches neither the pins nor the page set. *)
Lemma triple_same {A : Type} t D (m : M St A) :
  (forall s a s', m s = Some (a, s') ->
     pin_count_ s' = pin_count_ s /\ page_set_of s' = page_set_of s) ->
  triple t D m (fun _ => D).
Proof.
  intros Hm s a s' H _ _ q. destruct (Hm _ _ _ H) as [Hp Hs].
  unfold bal. rewrite Hp, Hs. lia.
Qed.

Lemma triple_modify t D (f : St -> St) :
  (forall s, pin_count_ (f s) = pin_count_ s /\ page_set_of (f s) = page_set_of s) ->
  triple t D (modify f) (fun _ => D).
Proof. intros Hf. apply triple_same. intros s a s' H. apply modify_Some in H as ->. apply Hf. Qed.

Create HintDb triple_db.

Ltac same_prim :=
  apply triple_same;
  let s := fresh "s" in let a := fresh "a" in let s' := fresh "s'" in let H := fresh "H" in
  intros s a s' H;
  cbv [DeletePage page_at store_page AddIntoDeletedPageSet modify gets ret crash
       BPlusTree.LockRootPageId BPlusTree.TryUnlockRootPageId
       BPlusTree.erase_deleted emit] in H;
  repeat case_match; simplify_eq; unfold page_set_of; simpl;
  repeat match goal with H : transaction_ _ = _ |- _ => rewrite H end; done.

Ltac pointwise :=
  intros; unfold add_pin; repeat case_bool_decide; simplify_eq; lia.

Ltac triple_leaf :=
  first [ solve [eauto 2 with triple_db nocore]
        | eapply triple_conseq; [ solve [eauto 2 with triple_db nocore] | solve [pointwise] ] ].

Ltac triple_go :=
  lazymatch goal with
  | |- triple _ _ (bind _ _) _ =>
      eapply triple_bind; [ triple_go | solve [keeps_go] | intros ?; cbv beta; triple_go ]
  | |- triple _ _ (when _ _) _ =>
      first [ apply triple_when
            | eapply triple_conseq; [ apply triple_when | solve [pointwise] ] ];
      triple_go
  | |- triple _ _ (for_each _ _) _ =>
      first [ apply triple_for_each
            | eapply triple_conseq; [ apply triple_for_each | solve [pointwise] ] ];
      [ intros ?; triple_go | intros ?; solve [keeps_go] ]
  | |- triple _ _ (match ?x with _ => _ end) _ => destruct x; triple_go
  | |- triple _ _ (let _ := _ in _) _ => cbv zeta; triple_go
  | |- _ => triple_leaf
  end.

Lemma triple_FetchPage t D id : triple t D (@FetchPage Key id) (fun _ => add_pin id 1 D).
Proof.
  intros s a s' H _ _ q. apply FetchPage_Some in H as [_ ->].
  unfold bal, page_set_of, add_pin. simpl. case_bool_decide; lia.
Qed.

Lemma triple_UnpinPage t D id d : triple t D (@UnpinPage Key id d) (fun _ => add_pin id (-1) D).
Proof.
  intros s a s' H _ _ q. apply UnpinPage_Some in H as ->.
  unfold bal, page_set_of, add_pin. simpl. case_bool_decide; lia.
Qed.

Lemma triple_UnpinPage_of t D ptr d :
  triple t D (@UnpinPage_of Key ptr d) (fun _ => add_pin ptr (-1) D).
Proof.
  intros s a s' H Hok _ q. unfold UnpinPage_of in H.
  destruct (pages_ s !! ptr) as [p|] eqn:Hp; [|discriminate].
  rewrite (Hok _ _ Hp) in H. apply UnpinPage_Some in H as ->.
  unfold bal, page_set_of, add_pin. simpl. case_bool_decide; lia.
Qed.

Lemma triple_NewPage t D : triple t D (@NewPage Key) (fun id => add_pin id 1 D).
Proof.
  intros s a s' H _ _ q. apply NewPage_Some in H as [-> ->].
  unfold bal, page_set_of, add_pin. simpl. case_bool_decide; lia.
Qed.

Lemma triple_FetchHeaderPage t D :
  triple t D (@BPlusTree.FetchHeaderPage Key) (fun _ => add_pin HEADER_PAGE_ID 1 D).
Proof.
  intros s a s' H _ _ q. apply modify_Some in H as ->.
  unfold bal, page_set_of, add_pin. simpl. case_bool_decide; lia.
Qed.

Lemma triple_AddIntoPageSet t D id :
  triple t D (@AddIntoPageSet Key id) (fun _ => add_pin id (-1) D).
Proof.
  intros s a s' H _ _ q. apply AddIntoPageSet_Some in H as (tr & Htr & ->).
  unfold bal, page_set_of, add_pin. simpl. rewrite Htr, count_app. simpl.
  case_bool_decide; lia.
Qed.

Lemma triple_AddIntoPageSet_if_transaction D id :
  triple true D (@AddIntoPageSet_if_transaction Key id) (fun _ => add_pin id (-1) D).
Proof.
  intros s a s' H _ Ht q. destruct (Ht eq_refl) as [tr Htr].
  unfold AddIntoPageSet_if_transaction in H. rewrite Htr in H. simplify_eq.
  unfold bal, page_set_of, add_pin. simpl. rewrite Htr, count_app. simpl.
  case_bool_decide; lia.
Qed.
Hint Resolve triple_ret triple_crash triple_gets triple_check
  triple_FetchPage triple_UnpinPage triple_UnpinPage_of triple_NewPage
  triple_FetchHeaderPage triple_AddIntoPageSet triple_AddIntoPageSet_if_transaction : triple_db.

(** [FreePagesInTransaction] with a transaction: every page of the page
    set is unpinned once, and the page set is empty afterwards. *)
Lemma free_page_run e p u (s s' : St) :
  BPlusTree.free_page e p s = Some (u, s') ->
  pin_count_ s' = add_pin p (-1) (pin_count_ s) /\ page_set_of s' = page_set_of s /\
  (has_txn s -> has_txn s').
Proof.
  unfold BPlusTree.free_page. intros H.
  apply bind_Some in H as (u1 & s1 & H1 & H). apply UnpinPage_Some in H1 as ->.
  apply bind_Some in H as (tr0 & s2 & H2 & H). apply gets_Some in H2 as [-> ->].
  simpl in H. destruct (transaction_ s) as [tr|] eqn:Htr; [|discriminate].
  unfold when in H. case_bool_decide.
  - apply bind_Some in H as (b & s3 & H3 & H).
    unfold BPlusTree.erase_deleted in H.
    destruct (transaction_ s3) as [tr'|] eqn:Htr'; [|discriminate]. simplify_eq.
    apply DeletePage_Some in H3.
    unfold page_set_of, has_txn. simpl.
    destruct H3 as [[_ ->] | [_ ->]]; simpl in *; simplify_eq; rewrite ?Htr; eauto.
  - apply ret_Some in H as [_ ->]. unfold page_set_of, has_txn. simpl. auto.
Qed.

Lemma free_pages_loop e l u (s s' : St) :
  for_each l (BPlusTree.free_page e) s = Some (u, s') ->
  (forall q, pin_count_ s' q = pin_count_ s q - count q l) /\
  page_set_of s' = page_set_of s /\ (has_txn s -> has_txn s').
Proof.
  revert s. induction l as [|x l IH]; intros s H; simpl in H.
  - minv. split; [intros q; simpl; lia | auto].
  - apply bind_Some in H as (a & s1 & H1 & H2).
    apply free_page_run in H1 as (Hp & Hs & Ht).
    apply IH in H2 as (Hp' & Hs' & Ht').
    split; [|split; [congruence | auto]].
    intros q. rewrite Hp', Hp. unfold add_pin. simpl. case_bool_decide; lia.
Qed.

Lemma FreePagesInTransaction_run e cur u (s s' : St) :
  BPlusTree.FreePagesInTransaction e cur s = Some (u, s') -> has_txn s ->
  page_set_of s' = [] /\
  forall q, pin_count_ s' q = pin_count_ s q - count q (page_set_of s).
Proof.
  unfold BPlusTree.FreePagesInTransaction. intros H [tr Htr].
  apply bind_Some in H as (u1 & s1 & H1 & H).
  assert (Htr1 : transaction_ s1 = Some tr /\ pin_count_ s1 = pin_count_ s).
  { unfold BPlusTree.TryUnlockRootPageId in H1. apply modify_Some in H1 as ->.
    case_match; done. }
  destruct Htr1 as [Htr1 Hp1].
  apply bind_Some in H as (t1 & s2 & H2 & H). apply gets_Some in H2 as [-> ->].
  rewrite Htr1 in H.
  apply bind_Some in H as (u2 & s2 & H2 & H).
  apply free_pages_loop in H2 as (Hp & Hs & _).
  apply bind_Some in H as (t2 & s3 & H3 & H). apply gets_Some in H3 as [-> ->].
  destruct (transaction_ s2) as [tr2|] eqn:Htr2; [|discriminate].
  apply bind_Some in H as (u3 & s3 & H3 & H). apply check_Some in H3 as [_ ->].
  unfold BPlusTree.clear_page_set in H. rewrite Htr2 in H. simplify_eq.
  split; [unfold page_set_of; done|].
  intros q. simpl. rewrite Hp, Hp1. unfold page_set_of. by rewrite Htr.
Qed.

Lemma triple_FreePagesInTransaction D e cur :
  triple true D (@BPlusTree.FreePagesInTransaction Key e cur) (fun _ => D).
Proof.
  intros s a s' H _ Ht q.
  destruct (FreePagesInTransaction_run _ _ _ _ _ H (Ht eq_refl)) as [Hs Hp].
  unfold bal. rewrite Hs, Hp. simpl. lia.
Qed.
Hint Resolve triple_FreePagesInTransaction : triple_db.

Lemma triple_emit t D e : triple t D (@emit Key e) (fun _ => D).
Proof. same_prim. Qed.
Hint Resolve triple_emit : triple_db.
Hint Extern 1 (triple _ _ (modify _) _) =>
  apply triple_modify; intros; split; reflexivity : triple_db.

Lemma triple_DeletePage id t D : triple t D (@DeletePage Key id) (fun _ => D).
Proof. same_prim. Qed.
Hint Resolve triple_DeletePage : triple_db.
Lemma triple_page_at id t D : triple t D (@page_at Key id) (fun _ => D).
Proof. same_prim. Qed.
Hint Resolve triple_page_at : triple_db.
Lemma triple_store_page id p t D : triple t D (@store_page Key id p) (fun _ => D).
Proof. same_prim. Qed.
Hint Resolve triple_store_page : triple_db.
Lemma triple_AddIntoDeletedPageSet id t D : triple t D (@AddIntoDeletedPageSet Key id) (fun _ => D).
Proof. same_prim. Qed.
Hint Resolve triple_AddIntoDeletedPageSet : triple_db.
Lemma triple_LockRootPageId e t D : triple t D (@BPlusTree.LockRootPageId Key e) (fun _ => D).
Proof. same_prim. Qed.
Hint Resolve triple_LockRootPageId : triple_db.
Lemma triple_TryUnlockRootPageId e t D : triple t D (@BPlusTree.TryUnlockRootPageId Key e) (fun _ => D).
Proof. same_prim. Qed.
Hint Resolve triple_TryUnlockRootPageId : triple_db.
Lemma triple_erase_deleted id t D : triple t D (@BPlusTree.erase_deleted Key id) (fun _ => D).
Proof. same_prim. Qed.
Hint Resolve triple_erase_deleted : triple_db.
Lemma triple_update_page id f t D : triple t D (@update_page Key id f) (fun _ => D).
Proof. unfold update_page. triple_go. Qed.
Hint Resolve triple_update_page : triple_db.
Lemma triple_SetParentPageId id parent t D : triple t D (@SetParentPageId Key id parent) (fun _ => D).
Proof. unfold SetParentPageId. triple_go. Qed.
Hint Resolve triple_SetParentPageId : triple_db.
Lemma triple_internal_at id t D : triple t D (@InternalPage.internal_at Key id) (fun _ => D).
Proof. unfold InternalPage.internal_at. triple_go. Qed.
Hint Resolve triple_internal_at : triple_db.
Lemma triple_Internal_set_array id a t D : triple t D (@InternalPage.set_array Key id a) (fun _ => D).
Proof. unfold InternalPage.set_array. triple_go. Qed.
Hint Resolve triple_Internal_set_array : triple_db.
Lemma triple_Internal_Init m id parent t D : triple t D (@InternalPage.Init Key m id parent) (fun _ => D).
Proof. unfold InternalPage.Init. triple_go. Qed.
Hint Resolve triple_Internal_Init : triple_db.
Lemma triple_ValueAt self i t D : triple t D (@InternalPage.ValueAt Key self i) (fun _ => D).
Proof. unfold InternalPage.ValueAt. triple_go. Qed.
Hint Resolve triple_ValueAt : triple_db.
Lemma triple_Internal_KeyAt self i t D : triple t D (@InternalPage.KeyAt Key self i) (fun _ => D).
Proof. unfold InternalPage.KeyAt. triple_go. Qed.
Hint Resolve triple_Internal_KeyAt : triple_db.
Lemma triple_SetKeyAt self i k t D : triple t D (@InternalPage.SetKeyAt Key self i k) (fun _ => D).
Proof. unfold InternalPage.SetKeyAt. triple_go. Qed.
Hint Resolve triple_SetKeyAt : triple_db.
Lemma triple_PopulateNewRoot self o k n t D : triple t D (@InternalPage.PopulateNewRoot Key self o k n) (fun _ => D).
Proof. unfold InternalPage.PopulateNewRoot. triple_go. Qed.
Hint Resolve triple_PopulateNewRoot : triple_db.
Lemma triple_InsertNodeAfter self o k n t D : triple t D (@InternalPage.InsertNodeAfter Key self o k n) (fun _ => D).
Proof. unfold InternalPage.InsertNodeAfter. triple_go. Qed.
Hint Resolve triple_InsertNodeAfter : triple_db.
Lemma triple_adopt p c t D : triple t D (@InternalPage.adopt Key p c) (fun _ => D).
Proof. unfold InternalPage.adopt. triple_go. Qed.
Hint Resolve triple_adopt : triple_db.
Lemma triple_Internal_MoveHalfTo self r t D : triple t D (@InternalPage.MoveHalfTo Key self r) (fun _ => D).
Proof. unfold InternalPage.MoveHalfTo. triple_go. Qed.
Hint Resolve triple_Internal_MoveHalfTo : triple_db.
Lemma triple_Internal_Remove self i t D : triple t D (@InternalPage.Remove Key self i) (fun _ => D).
Proof. unfold InternalPage.Remove. triple_go. Qed.
Hint Resolve triple_Internal_Remove : triple_db.
Lemma triple_RemoveAndReturnOnlyChild self t D : triple t D (@InternalPage.RemoveAndReturnOnlyChild Key self) (fun _ => D).
Proof. unfold InternalPage.RemoveAndReturnOnlyChild. triple_go. Qed.
Hint Resolve triple_RemoveAndReturnOnlyChild : triple_db.
Lemma triple_Internal_MoveAllTo self r i t D : triple t D (@InternalPage.MoveAllTo Key self r i) (fun _ => D).
Proof. unfold InternalPage.MoveAllTo. triple_go. Qed.
Hint Resolve triple_Internal_MoveAllTo : triple_db.
Lemma triple_Internal_MoveFirstToEndOf self r t D : triple t D (@InternalPage.MoveFirstToEndOf Key self r) (fun _ => D).
Proof. unfold InternalPage.MoveFirstToEndOf. triple_go. Qed.
Hint Resolve triple_Internal_MoveFirstToEndOf : triple_db.
Lemma triple_Internal_MoveLastToFrontOf self r i t D : triple t D (@InternalPage.MoveLastToFrontOf Key self r i) (fun _ => D).
Proof. unfold InternalPage.MoveLastToFrontOf. triple_go. Qed.
Hint Resolve triple_Internal_MoveLastToFrontOf : triple_db.
Lemma triple_leaf_at id t D : triple t D (@LeafPage.leaf_at Key id) (fun _ => D).
Proof. unfold LeafPage.leaf_at. triple_go. Qed.
Hint Resolve triple_leaf_at : triple_db.
Lemma triple_Leaf_set_array id a t D : triple t D (@LeafPage.set_array Key id a) (fun _ => D).
Proof. unfold LeafPage.set_array. triple_go. Qed.
Hint Resolve triple_Leaf_set_array : triple_db.
Lemma triple_SetNextPageId id n t D : triple t D (@LeafPage.SetNextPageId Key id n) (fun _ => D).
Proof. unfold LeafPage.SetNextPageId. triple_go. Qed.
Hint Resolve triple_SetNextPageId : triple_db.
Lemma triple_Leaf_Init m id parent t D : triple t D (@LeafPage.Init Key m id parent) (fun _ => D).
Proof. unfold LeafPage.Init. triple_go. Qed.
Hint Resolve triple_Leaf_Init : triple_db.
Lemma triple_Leaf_KeyAt self i t D : triple t D (@LeafPage.KeyAt Key self i) (fun _ => D).
Proof. unfold LeafPage.KeyAt. triple_go. Qed.
Hint Resolve triple_Leaf_KeyAt : triple_db.
Lemma triple_GetItem self i t D : triple t D (@LeafPage.GetItem Key self i) (fun _ => D).
Proof. unfold LeafPage.GetItem. triple_go. Qed.
Hint Resolve triple_GetItem : triple_db.
Lemma triple_Leaf_Lookup self k t D : triple t D (LeafPage.Lookup comparator self k) (fun _ => D).
Proof. unfold LeafPage.Lookup. triple_go. Qed.
Hint Resolve triple_Leaf_Lookup : triple_db.
Lemma triple_Leaf_Insert self k v t D : triple t D (LeafPage.Insert comparator self k v) (fun _ => D).
Proof. unfold LeafPage.Insert. triple_go. Qed.
Hint Resolve triple_Leaf_Insert : triple_db.
Lemma triple_RemoveAndDeleteRecord self k t D : triple t D (LeafPage.RemoveAndDeleteRecord comparator self k) (fun _ => D).
Proof. unfold LeafPage.RemoveAndDeleteRecord. triple_go. Qed.
Hint Resolve triple_RemoveAndDeleteRecord : triple_db.
Lemma triple_Leaf_MoveHalfTo self r t D : triple t D (@LeafPage.MoveHalfTo Key self r) (fun _ => D).
Proof. unfold LeafPage.MoveHalfTo. triple_go. Qed.
Hint Resolve triple_Leaf_MoveHalfTo : triple_db.
Lemma triple_Leaf_MoveAllTo self r t D : triple t D (@LeafPage.MoveAllTo Key self r) (fun _ => D).
Proof. unfold LeafPage.MoveAllTo. triple_go. Qed.
Hint Resolve triple_Leaf_MoveAllTo : triple_db.
Lemma triple_CopyLastFrom self item t D : triple t D (@LeafPage.CopyLastFrom Key self item) (fun _ => D).
Proof. unfold LeafPage.CopyLastFrom. triple_go. Qed.
Hint Resolve triple_CopyLastFrom : triple_db.
Lemma triple_Leaf_MoveFirstToEndOf self r t D : triple t D (@LeafPage.MoveFirstToEndOf Key self r) (fun _ => D).
Proof. unfold LeafPage.MoveFirstToEndOf. triple_go. Qed.
Hint Resolve triple_Leaf_MoveFirstToEndOf : triple_db.
Lemma triple_CopyFirstFrom self item i t D : triple t D (@LeafPage.CopyFirstFrom Key self item i) (fun _ => D).
Proof. unfold LeafPage.CopyFirstFrom. triple_go. Qed.
Hint Resolve triple_CopyFirstFrom : triple_db.
Lemma triple_Leaf_MoveLastToFrontOf self r i t D : triple t D (@LeafPage.MoveLastToFrontOf Key self r i) (fun _ => D).
Proof. unfold LeafPage.MoveLastToFrontOf. triple_go. Qed.
Hint Resolve triple_Leaf_MoveLastToFrontOf : triple_db.
Lemma triple_IsEmpty t D : triple t D (@BPlusTree.IsEmpty Key) (fun _ => D).
Proof. unfold BPlusTree.IsEmpty. triple_go. Qed.
Hint Resolve triple_IsEmpty : triple_db.
Lemma triple_Unlock_page_id e id t D : triple t D (@BPlusTree.Unlock_page_id Key e id) (fun _ => D).
Proof. unfold BPlusTree.Unlock_page_id. triple_go. Qed.
Hint Resolve triple_Unlock_page_id : triple_db.
Lemma triple_UpdateRootPageId b t D : triple t D (@BPlusTree.UpdateRootPageId Key b) (fun _ => D).
Proof. unfold BPlusTree.UpdateRootPageId. triple_go. Qed.
Hint Resolve triple_UpdateRootPageId : triple_db.
Lemma triple_CrabingProtocalFetchPage id op prev D : triple true D (BPlusTree.CrabingProtocalFetchPage IsSafe id op prev) (fun _ => D).
Proof. unfold BPlusTree.CrabingProtocalFetchPage. triple_go. Qed.
Hint Resolve triple_CrabingProtocalFetchPage : triple_db.
Lemma triple_next_child key lm cur a t D : triple t D (BPlusTree.next_child comparator key lm cur a) (fun _ => D).
Proof. unfold BPlusTree.next_child. triple_go. Qed.
Hint Resolve triple_next_child : triple_db.
Lemma triple_descend fuel key lm op cur D : triple true D (BPlusTree.descend comparator IsSafe fuel key lm op cur) (fun _ => D).
Proof.
  revert cur D. induction fuel as [|fuel IH]; intros cur D; simpl; triple_go.
Qed.
Hint Resolve triple_descend : triple_db.
Lemma triple_FindLeafPage fuel key lm op D : triple true D (BPlusTree.FindLeafPage comparator IsSafe fuel key lm op) (fun _ => D).
Proof. unfold BPlusTree.FindLeafPage. triple_go. Qed.
Hint Resolve triple_FindLeafPage : triple_db.
Lemma triple_GetValue fuel key D : triple true D (BPlusTree.GetValue comparator IsSafe fuel key) (fun _ => D).
Proof. unfold BPlusTree.GetValue. triple_go. Qed.
Hint Resolve triple_GetValue : triple_db.
Lemma triple_StartNewTree k v t D : triple t D (BPlusTree.StartNewTree comparator leaf_max_size k v) (fun _ => D).
Proof. unfold BPlusTree.StartNewTree. triple_go. Qed.
Hint Resolve triple_StartNewTree : triple_db.
Lemma triple_Split node t D : triple t D (@BPlusTree.Split Key leaf_max_size internal_max_size node) (fun _ => D).
Proof. unfold BPlusTree.Split. triple_go. Qed.
Hint Resolve triple_Split : triple_db.
Lemma triple_InsertIntoParent fuel o k n t D : triple t D (@BPlusTree.InsertIntoParent Key leaf_max_size internal_max_size fuel o k n) (fun _ => D).
Proof.
  revert o k n D. induction fuel as [|fuel IH]; intros o k n D; simpl; triple_go.
Qed.
Hint Resolve triple_InsertIntoParent : triple_db.
Lemma triple_InsertIntoLeaf fuel k v D : triple true D (BPlusTree.InsertIntoLeaf comparator leaf_max_size internal_max_size IsSafe fuel k v) (fun _ => D).
Proof. unfold BPlusTree.InsertIntoLeaf. triple_go. Qed.
Hint Resolve triple_InsertIntoLeaf : triple_db.
Lemma triple_Insert fuel k v D : triple true D (BPlusTree.Insert comparator leaf_max_size internal_max_size IsSafe fuel k v) (fun _ => D).
Proof. unfold BPlusTree.Insert. triple_go. Qed.
Hint Resolve triple_Insert : triple_db.
Lemma triple_AdjustRoot node t D : triple t D (@BPlusTree.AdjustRoot Key node) (fun _ => D).
Proof. unfold BPlusTree.AdjustRoot. triple_go. Qed.
Hint Resolve triple_AdjustRoot : triple_db.
Lemma triple_FindLeftSibling node D : triple true D (BPlusTree.FindLeftSibling IsSafe node) (fun _ => D).
Proof. unfold BPlusTree.FindLeftSibling. triple_go. Qed.
Hint Resolve triple_FindLeftSibling : triple_db.
Lemma triple_Redistribute neighbor node index t D :
  triple t D (@BPlusTree.Redistribute Key neighbor node index) (fun _ => D).
Proof. unfold BPlusTree.Redistribute. triple_go. Qed.
Hint Resolve triple_Redistribute : triple_db.

Lemma triple_Coalesce recur neighbor node parent index t D :
  (forall p, preserves keeps (recur p)) ->
  (forall p D, triple t D (recur p) (fun _ => D)) ->
  triple t D (BPlusTree.Coalesce GetMinSize recur neighbor node parent index) (fun _ => D).
Proof. intros Hk Hr. unfold BPlusTree.Coalesce. triple_go. Qed.

Lemma triple_CoalesceOrRedistribute fuel node D :
  triple true D (BPlusTree.CoalesceOrRedistribute GetMinSize IsSafe fuel node) (fun _ => D).
Proof.
  revert node D. induction fuel as [|fuel IH]; intros node D; simpl; [apply triple_crash|].
  pose proof (fun neighbor node parent index =>
                keeps_Coalesce (BPlusTree.CoalesceOrRedistribute GetMinSize IsSafe fuel)
                  neighbor node parent index
                  (fun p => keeps_CoalesceOrRedistribute fuel p)) as HK.
  pose proof (fun neighbor node parent index D =>
                triple_Coalesce (BPlusTree.CoalesceOrRedistribute GetMinSize IsSafe fuel)
                  neighbor node parent index true D
                  (fun p => keeps_CoalesceOrRedistribute fuel p) IH) as HT.
  triple_go.
Qed.
Hint Resolve triple_CoalesceOrRedistribute : triple_db.

Lemma triple_Remove fuel key D :
  triple true D (BPlusTree.Remove comparator GetMinSize IsSafe fuel key) (fun _ => D).
Proof. unfold BPlusTree.Remove. triple_go. Qed.

(** *** The page set at the end of an operation *)

(** The steps that do not touch the page set. *)
Definition set_kept (s s' : St) : Prop := page_set_of s' = page_set_of s.

#[local] Instance set_kept_preorder : PreOrder set_kept.
Proof. split; [done | intros s1 s2 s3 H1 H2; unfold set_kept in *; congruence]. Qed.

Create HintDb set_db.

Ltac set_prim :=
  let s := fresh "s" in let a := fresh "a" in let s' := fresh "s'" in let H := fresh "H" in
  intros s a s' H;
  cbv [FetchPage NewPage UnpinPage page_at store_page modify gets ret crash
       BPlusTree.LockRootPageId BPlusTree.TryUnlockRootPageId
       BPlusTree.FetchHeaderPage] in H;
  repeat case_match; simplify_eq; done.

Ltac set_go :=
  repeat first
    [ solve [auto 1 with set_db]
    | pres_step
    | solve [set_prim] ].

Lemma kept_FetchPage id : preserves set_kept (@FetchPage Key id).
Proof. set_prim. Qed.
Hint Resolve kept_FetchPage : set_db.
Lemma kept_NewPage : preserves set_kept (@NewPage Key).
Proof. set_prim. Qed.
Hint Resolve kept_NewPage : set_db.
Lemma kept_UnpinPage id d : preserves set_kept (@UnpinPage Key id d).
Proof. set_prim. Qed.
Hint Resolve kept_UnpinPage : set_db.
Lemma kept_page_at id : preserves set_kept (@page_at Key id).
Proof. set_prim. Qed.
Hint Resolve kept_page_at : set_db.
Lemma kept_store_page id p : preserves set_kept (@store_page Key id p).
Proof. set_prim. Qed.
Hint Resolve kept_store_page : set_db.
Lemma kept_LockRootPageId e : preserves set_kept (@BPlusTree.LockRootPageId Key e).
Proof. set_prim. Qed.
Hint Resolve kept_LockRootPageId : set_db.
Lemma kept_TryUnlockRootPageId e : preserves set_kept (@BPlusTree.TryUnlockRootPageId Key e).
Proof. set_prim. Qed.
Hint Resolve kept_TryUnlockRootPageId : set_db.
Lemma kept_FetchHeaderPage : preserves set_kept (@BPlusTree.FetchHeaderPage Key).
Proof. set_prim. Qed.
Hint Resolve kept_FetchHeaderPage : set_db.
Lemma kept_update_page id f : preserves set_kept (@update_page Key id f).
Proof. unfold update_page. set_go. Qed.
Hint Resolve kept_update_page : set_db.
Lemma kept_leaf_at id : preserves set_kept (@LeafPage.leaf_at Key id).
Proof. unfold LeafPage.leaf_at. set_go. Qed.
Hint Resolve kept_leaf_at : set_db.
Lemma kept_Leaf_set_array id a : preserves set_kept (@LeafPage.set_array Key id a).
Proof. unfold LeafPage.set_array. set_go. Qed.
Hint Resolve kept_Leaf_set_array : set_db.
Lemma kept_Leaf_Init m id parent : preserves set_kept (@LeafPage.Init Key m id parent).
Proof. unfold LeafPage.Init. set_go. Qed.
Hint Resolve kept_Leaf_Init : set_db.
Lemma kept_Leaf_Insert self k v : preserves set_kept (LeafPage.Insert comparator self k v).
Proof. unfold LeafPage.Insert. set_go. Qed.
Hint Resolve kept_Leaf_Insert : set_db.
Lemma kept_IsEmpty : preserves set_kept (@BPlusTree.IsEmpty Key).
Proof. unfold BPlusTree.IsEmpty. set_go. Qed.
Hint Resolve kept_IsEmpty : set_db.
Lemma kept_UpdateRootPageId b : preserves set_kept (@BPlusTree.UpdateRootPageId Key b).
Proof. unfold BPlusTree.UpdateRootPageId. set_go. Qed.
Hint Resolve kept_UpdateRootPageId : set_db.
Lemma kept_StartNewTree k v : preserves set_kept (BPlusTree.StartNewTree comparator leaf_max_size k v).
Proof. unfold BPlusTree.StartNewTree. set_go. Qed.
Hint Resolve kept_StartNewTree : set_db.

(** A computation that ends with the release of the page set. *)
Definition clears {A : Type} (m : M St A) : Prop :=
  forall s a s', m s = Some (a, s') -> has_txn s -> page_set_of s' = [].

Lemma clears_bind {A B : Type} (m : M St A) (k : A -> M St B) :
  preserves keeps m -> (forall a, clears (k a)) -> clears (bind m k).
Proof.
  intros Hm Hk s b s' H Ht. apply bind_Some in H as (a & s1 & H1 & H2).
  eapply Hk; [exact H2|]. by apply (Hm _ _ _ H1).
Qed.

Lemma clears_crash {A : Type} : clears (@crash St A).
Proof. intros s a s' H. discriminate. Qed.

Lemma clears_FreePagesInTransaction e cur : clears (@BPlusTree.FreePagesInTransaction Key e cur).
Proof. intros s a s' H Ht. by destruct (FreePagesInTransaction_run _ _ _ _ _ H Ht). Qed.

Lemma clears_then_ret {A : Type} (m : M St unit) (a : A) :
  clears m -> clears (bind m (fun _ => ret a)).
Proof.
  intros Hm s b s' H Ht. apply bind_Some in H as (u & s1 & H1 & H2).
  apply ret_Some in H2 as [_ ->]. eapply Hm; eauto.
Qed.

Ltac clears_go :=
  lazymatch goal with
  | |- clears (bind (BPlusTree.FreePagesInTransaction _ _) (fun _ => ret _)) =>
      apply clears_then_ret, clears_FreePagesInTransaction
  | |- clears (BPlusTree.FreePagesInTransaction _ _) => apply clears_FreePagesInTransaction
  | |- clears (bind _ _) => apply clears_bind; [solve [keeps_go] | intros ?; clears_go]
  | |- clears crash => apply clears_crash
  | |- clears (match ?x with _ => _ end) => destruct x; clears_go
  | |- clears (let _ := _ in _) => cbv zeta; clears_go
  end.

Lemma clears_GetValue fuel key : 
  forall s r s', BPlusTree.GetValue comparator IsSafe fuel key s = Some (r, s') ->
  has_txn s -> page_set_of s' = [] \/ page_set_of s' = page_set_of s.
Proof.
  intros s r s' H Ht. unfold BPlusTree.GetValue in H.
  apply bind_Some in H as (tar & s1 & H1 & H).
  pose proof (keeps_FindLeafPage _ _ _ _ _ _ _ H1) as [_ Ht1].
  destruct tar as [tar|].
  - left. revert H. generalize r. revert Ht1. generalize s1 s'.
    intros s2 s3 Ht2 r' H. apply proj2 in Ht2. specialize (Ht2 Ht).
    revert s2 r' s3 H Ht2. 
    match goal with |- forall s a s', ?m s = Some (a, s') -> _ -> _ => change (clears m) end.
    clears_go.
  - right. apply ret_Some in H as [_ ->].
    unfold BPlusTree.FindLeafPage in H1.
    apply bind_Some in H1 as (u & s2 & H2 & H1). apply modify_Some in H2 as ->.
    apply bind_Some in H1 as (e & s2 & H2 & H1). apply gets_Some in H2 as [-> ->].
    simpl in H1. destruct (root_page_id_ s =? INVALID_PAGE_ID).
    + apply bind_Some in H1 as (u2 & s2 & H2 & H1). apply modify_Some in H2 as ->.
      apply ret_Some in H1 as [_ ->]. unfold page_set_of. simpl.
      destruct (0 <? rootLockedCnt s + 1); done.
    + apply bind_Some in H1 as (u2 & s2 & H2 & H1). apply gets_Some in H2 as [-> ->].
      apply bind_Some in H1 as (u3 & s3 & H3 & H1).
      apply bind_Some in H1 as (u4 & s4 & H4 & H1).
      apply ret_Some in H1 as [? _]. discriminate.
Qed.

(** A computation that ends with the release of the page set under the
    write latches: it has asserted a transaction. *)
Definition finally {A : Type} (Q : St -> Prop) (m : M St A) : Prop :=
  forall s a s', m s = Some (a, s') -> Q s'.

Definition released (s : St) : Prop := has_txn s /\ page_set_of s = [].

Lemma finally_bind {A B : Type} Q (m : M St A) (k : A -> M St B) :
  (forall a, finally Q (k a)) -> finally Q (bind m k).
Proof. intros Hk s b s' H. apply bind_Some in H as (a & s1 & _ & H2). eapply Hk; eauto. Qed.

Lemma finally_crash {A : Type} Q : finally Q (@crash St A).
Proof. intros s a s' H. discriminate. Qed.

Lemma finally_FreePagesInTransaction cur :
  finally released (@BPlusTree.FreePagesInTransaction Key true cur).
Proof.
  intros s a s' H.
  assert (Ht : has_txn s).
  { unfold BPlusTree.FreePagesInTransaction in H.
    apply bind_Some in H as (u1 & s1 & H1 & H).
    assert (Htr1 : transaction_ s1 = transaction_ s).
    { unfold BPlusTree.TryUnlockRootPageId in H1. apply modify_Some in H1 as ->.
      case_match; done. }
    apply bind_Some in H as (t1 & s2 & H2 & H). apply gets_Some in H2 as [-> ->].
    unfold has_txn. rewrite <- Htr1. destruct (transaction_ s1); [eauto|].
    simpl in H. discriminate. }
  split.
  - by apply (keeps_FreePagesInTransaction _ _ _ _ _ H).
  - by destruct (FreePagesInTransaction_run _ _ _ _ _ H Ht).
Qed.

Lemma finally_then_ret {A : Type} Q (m : M St unit) (a : A) :
  finally Q m -> finally Q (bind m (fun _ => ret a)).
Proof.
  intros Hm s b s' H. apply bind_Some in H as (u & s1 & H1 & H2).
  apply ret_Some in H2 as [_ ->]. eapply Hm; eauto.
Qed.

Ltac finally_go :=
  lazymatch goal with
  | |- finally _ (bind (BPlusTree.FreePagesInTransaction true _) (fun _ => ret _)) =>
      apply finally_then_ret, finally_FreePagesInTransaction
  | |- finally _ (BPlusTree.FreePagesInTransaction true _) =>
      apply finally_FreePagesInTransaction
  | |- finally _ (bind _ _) => apply finally_bind; intros ?; finally_go
  | |- finally _ crash => apply finally_crash
  | |- finally _ (match ?x with _ => _ end) => destruct x; finally_go
  | |- finally _ (let _ := _ in _) => cbv zeta; finally_go
  end.

Lemma finally_InsertIntoLeaf fuel k v :
  finally released
    (BPlusTree.InsertIntoLeaf comparator leaf_max_size internal_max_size IsSafe fuel k v).
Proof. unfold BPlusTree.InsertIntoLeaf. finally_go. Qed.

(** With no transaction the page set is empty; with one, a run that moves
    no balance and ends with an empty page set moves no pin. *)
Lemma pins_of_bal (s s' : St) :
  page_set_of s = [] -> page_set_of s' = [] ->
  (forall q, bal s' q - 0 = bal s q - 0) -> forall q, pin_count_ s' q = pin_count_ s q.
Proof.
  intros Hs Hs' Hb q. specialize (Hb q). unfold bal in Hb.
  rewrite Hs, Hs' in Hb. simpl in Hb. lia.
Qed.

Lemma kept_Insert_empty k v :
  preserves set_kept
    (BPlusTree.LockRootPageId true >>
     BPlusTree.StartNewTree comparator leaf_max_size k v >>
     BPlusTree.TryUnlockRootPageId true >>
     ret true)%M.
Proof. set_go. Qed.

Lemma triple_Insert_empty k v t D :
  triple t D
    (BPlusTree.LockRootPageId true >>
     BPlusTree.StartNewTree comparator leaf_max_size k v >>
     BPlusTree.TryUnlockRootPageId true >>
     ret true)%M (fun _ => D).
Proof. triple_go. Qed.

(** [Insert] leaves every pin count as it found it. *)
Lemma Insert_pins fuel k v b (s s' : St) :
  BPlusTree.Insert comparator leaf_max_size internal_max_size IsSafe fuel k v s = Some (b, s') ->
  ids_ok s -> page_set_of s = [] ->
  forall q, pin_count_ s' q = pin_count_ s q.
Proof.
  intros H Hok Hset. unfold BPlusTree.Insert in H.
  apply bind_Some in H as (empty & s0 & H0 & H). apply gets_Some in H0 as [-> ->].
  destruct (root_page_id_ s =? INVALID_PAGE_ID).
  - pose proof (kept_Insert_empty _ _ _ _ _ H) as Hkept. red in Hkept.
    apply pins_of_bal; [done | congruence |].
    intros q.
    exact (triple_Insert_empty k v false (fun _ => 0) _ _ _ H Hok ltac:(discriminate) q).
  - destruct (finally_InsertIntoLeaf _ _ _ _ _ _ H) as [Ht' Hs'].
    assert (Ht : has_txn s) by by apply (keeps_InsertIntoLeaf _ _ _ _ _ _ H).
    apply pins_of_bal; [done | done |].
    intros q. exact (triple_InsertIntoLeaf fuel k v (fun _ => 0) _ _ _ H Hok (fun _ => Ht) q).
Qed.

(** [Remove] leaves every pin count as it found it. *)
Lemma Remove_pins fuel key u (s s' : St) :
  BPlusTree.Remove comparator GetMinSize IsSafe fuel key s = Some (u, s') ->
  ids_ok s -> page_set_of s = [] ->
  forall q, pin_count_ s' q = pin_count_ s q.
Proof.
  intros H Hok Hset.
  pose proof (keeps_Remove _ _ _ _ _ H) as [_ Hiff].
  pose proof H as Hrun. unfold BPlusTree.Remove in H.
  apply bind_Some in H as (empty & s0 & H0 & H). apply gets_Some in H0 as [-> ->].
  destruct (root_page_id_ s =? INVALID_PAGE_ID).
  - apply ret_Some in H as [_ ->]. done.
  - assert (Hrel : released s').
    { revert H. generalize s at 1. generalize u, s'.
      match goal with |- forall a s' s, ?m s = Some (a, s') -> _ =>
        cut (finally released m); [intros Hf a0 s1 s2 Hm; exact (Hf _ _ _ Hm)|] end.
      finally_go. }
    destruct Hrel as [Ht' Hs'].
    apply pins_of_bal; [done | done |].
    intros q. exact (triple_Remove fuel key (fun _ => 0) _ _ _ Hrun Hok (fun _ => proj1 Hiff Ht') q).
Qed.

Lemma GetValue_pins_txn fuel key r (s s' : St) :
  BPlusTree.GetValue comparator IsSafe fuel key s = Some (r, s') ->
  ids_ok s -> page_set_of s = [] -> has_txn s ->
  forall q, pin_count_ s' q = pin_count_ s q.
Proof.
  intros H Hok Hset Ht.
  apply pins_of_bal; [done | |].
  - destruct (clears_GetValue _ _ _ _ _ H Ht); congruence.
  - intros q. exact (triple_GetValue fuel key (fun _ => 0) _ _ _ H Hok (fun _ => Ht) q).
Qed.

(** *** Reads without a transaction

    [GetValue] and the iterator pass no transaction: the crabbing protocol
    releases the parent as soon as the child is latched, and the leaf that
    is handed out stays pinned once. *)

Definition no_txn (s : St) : Prop := transaction_ s = None.

(** Page 0 is the header page: no node of the tree lives there. *)
Definition pos_ids (s : St) : Prop :=
  forall id p, pages_ s !! id = Some p -> 0 < id.

(** A run that reads: nodes and transaction are as before, the pin counts
    are moved by [f]. *)
Definition reads_with (f : (page_id_t -> Z) -> page_id_t -> Z) (s s' : St) : Prop :=
  pages_ s' = pages_ s /\ transaction_ s' = transaction_ s /\
  forall q, pin_count_ s' q = f (pin_count_ s) q.

Definition nothing (s s' : St) : Prop := s' = s.

#[local] Instance nothing_preorder : PreOrder nothing.
Proof. split; [done | intros s1 s2 s3 H1 H2; unfold nothing in *; congruence]. Qed.

Create HintDb pure_db.

Ltac pure_prim :=
  let s := fresh "s" in let a := fresh "a" in let s' := fresh "s'" in let H := fresh "H" in
  intros s a s' H; cbv [page_at gets ret crash] in H;
  repeat case_match; simplify_eq; done.

Ltac pure_go :=
  repeat first
    [ solve [auto 1 with pure_db]
    | pres_step
    | solve [pure_prim] ].

Lemma pure_page_at id : preserves nothing (@page_at Key id).
Proof. pure_prim. Qed.
Hint Resolve pure_page_at : pure_db.
Lemma pure_internal_at id : preserves nothing (@InternalPage.internal_at Key id).
Proof. unfold InternalPage.internal_at. pure_go. Qed.
Hint Resolve pure_internal_at : pure_db.
Lemma pure_ValueAt self i : preserves nothing (@InternalPage.ValueAt Key self i).
Proof. unfold InternalPage.ValueAt. pure_go. Qed.
Hint Resolve pure_ValueAt : pure_db.
Lemma pure_leaf_at id : preserves nothing (@LeafPage.leaf_at Key id).
Proof. unfold LeafPage.leaf_at. pure_go. Qed.
Hint Resolve pure_leaf_at : pure_db.
Lemma pure_GetItem self i : preserves nothing (@LeafPage.GetItem Key self i).
Proof. unfold LeafPage.GetItem. pure_go. Qed.
Hint Resolve pure_GetItem : pure_db.
Lemma pure_Leaf_Lookup self k : preserves nothing (LeafPage.Lookup comparator self k).
Proof. unfold LeafPage.Lookup. pure_go. Qed.
Hint Resolve pure_Leaf_Lookup : pure_db.
Lemma pure_IsEmpty : preserves nothing (@BPlusTree.IsEmpty Key).
Proof. unfold BPlusTree.IsEmpty. pure_go. Qed.
Hint Resolve pure_IsEmpty : pure_db.
Lemma pure_next_child key lm cur a : preserves nothing (BPlusTree.next_child comparator key lm cur a).
Proof. unfold BPlusTree.next_child. pure_go. Qed.
Hint Resolve pure_next_child : pure_db.
Lemma pure_deref it : preserves nothing (@IndexIterator.deref Key it).
Proof. unfold IndexIterator.deref. pure_go. Qed.
Hint Resolve pure_deref : pure_db.

Lemma FreePagesInTransaction_reads e cur u (s s' : St) :
  BPlusTree.FreePagesInTransaction e cur s = Some (u, s') -> no_txn s ->
  reads_with (add_pin cur (-1)) s s'.
Proof.
  unfold BPlusTree.FreePagesInTransaction, no_txn. intros H Hn.
  apply bind_Some in H as (u1 & s1 & H1 & H).
  unfold BPlusTree.TryUnlockRootPageId in H1. apply modify_Some in H1.
  assert (H1' : pages_ s1 = pages_ s /\ transaction_ s1 = transaction_ s /\
                pin_count_ s1 = pin_count_ s) by (subst s1; case_match; done).
  clear H1. destruct H1' as (Hp1 & Ht1 & Hc1).
  apply bind_Some in H as (t1 & s2 & H2 & H). apply gets_Some in H2 as [-> ->].
  rewrite Ht1, Hn in H. unfold BPlusTree.Unlock_page_id in H. minv.
  split; [done|]. split; [simpl; congruence|].
  intros q. simpl. rewrite Hc1. unfold add_pin. case_bool_decide; lia.
Qed.

Lemma CrabingProtocalFetchPage_reads id prev a (s s' : St) :
  BPlusTree.CrabingProtocalFetchPage IsSafe id READ prev s = Some (a, s') -> no_txn s ->
  a = id /\ is_Some (pages_ s !! id) /\
  reads_with (fun pc => if 0 <? prev then add_pin prev (-1) (add_pin id 1 pc)
                        else add_pin id 1 pc) s s'.
Proof.
  unfold BPlusTree.CrabingProtocalFetchPage, no_txn. intros H Hn. cbv zeta in H.
  apply bind_Some in H as (p & s1 & H1 & H). apply FetchPage_Some in H1 as [Hp ->].
  apply bind_Some in H as (u & s2 & H2 & H).
  apply bind_Some in H as (u' & s3 & H3 & H). apply ret_Some in H as [-> ->].
  split; [done|]. split; [eauto|].
  unfold AddIntoPageSet_if_transaction in H3.
  assert (Hs3 : s3 = s2).
  { destruct (0 <? prev); simpl in H2.
    - apply FreePagesInTransaction_reads in H2 as (_ & Ht & _); [|done].
      simpl in Ht. rewrite Ht, Hn in H3. by simplify_eq.
    - apply ret_Some in H2 as [_ ->]. simpl in H3. rewrite Hn in H3. by simplify_eq. }
  subst s3. destruct (0 <? prev); simpl in H2.
  - apply FreePagesInTransaction_reads in H2 as (Hp2 & Ht2 & Hc2); [|done].
    split; [done|]. split; [done|]. intros q. by rewrite Hc2.
  - apply ret_Some in H2 as [_ ->]. done.
Qed.
Lemma descend_reads fuel key lm cur leaf (s s' : St) :
  BPlusTree.descend comparator IsSafe fuel key lm READ cur s = Some (leaf, s') ->
  no_txn s -> pos_ids s ->
  is_Some (pages_ s !! leaf) /\
  reads_with (fun pc => add_pin leaf 1 (add_pin cur (-1) pc)) s s'.
Proof.
  revert cur s. induction fuel as [|fuel IH]; intros cur s H Hn Hpos; simpl in H; [discriminate|].
  apply bind_Some in H as (p & s1 & H1 & H). apply page_at_Some in H1 as [-> Hp].
  destruct (payload_ p) as [next array | array].
  - apply ret_Some in H as [-> ->]. split; [eauto|].
    split; [done|]. split; [done|].
    intros q. unfold add_pin. case_bool_decide; lia.
  - apply bind_Some in H as (next & s1 & H1 & H).
    pose proof (pure_next_child _ _ _ _ _ _ _ H1) as ->.
    apply bind_Some in H as (a & s2 & H2 & H).
    apply CrabingProtocalFetchPage_reads in H2 as (-> & _ & Hp2 & Ht2 & Hc2); [|done].
    assert (Hcur : 0 <? cur = true) by (apply Z.ltb_lt; eauto).
    rewrite Hcur in Hc2.
    apply IH in H as (Hleaf & Hp3 & Ht3 & Hc3).
    + split; [by rewrite <- Hp2|]. split; [congruence|]. split; [congruence|].
      intros q. rewrite Hc3. unfold add_pin. rewrite !Hc2. unfold add_pin.
      repeat case_bool_decide; lia.
    + unfold no_txn in *. congruence.
    + unfold pos_ids. rewrite Hp2. exact Hpos.
Qed.

Lemma FindLeafPage_reads fuel key lm r (s s' : St) :
  BPlusTree.FindLeafPage comparator IsSafe fuel key lm READ s = Some (r, s') ->
  no_txn s -> pos_ids s ->
  match r with Some leaf => is_Some (pages_ s !! leaf) | None => True end /\
  reads_with (match r with Some leaf => add_pin leaf 1 | None => fun pc => pc end) s s'.
Proof.
  unfold BPlusTree.FindLeafPage. intros H Hn Hpos. cbv zeta in H.
  apply bind_Some in H as (u1 & s1 & H1 & H).
  unfold BPlusTree.LockRootPageId in H1. apply modify_Some in H1 as ->.
  apply bind_Some in H as (e & s1 & H1 & H). apply gets_Some in H1 as [-> ->].
  simpl in H. destruct (root_page_id_ s =? INVALID_PAGE_ID).
  - apply bind_Some in H as (u2 & s2 & H2 & H).
    unfold BPlusTree.TryUnlockRootPageId in H2. apply modify_Some in H2 as ->.
    apply ret_Some in H as [-> ->]. split; [done|].
    destruct (0 <? _); done.
  - apply bind_Some in H as (root & s2 & H2 & H). apply gets_Some in H2 as [-> ->].
    apply bind_Some in H as (a & s2 & H2 & H).
    apply CrabingProtocalFetchPage_reads in H2 as (_ & _ & Hp2 & Ht2 & Hc2); [|done].
    simpl in Hp2, Ht2, Hc2.
    apply bind_Some in H as (leaf & s3 & H3 & H). apply ret_Some in H as [-> ->].
    apply descend_reads in H3 as (Hleaf & Hp3 & Ht3 & Hc3).
    + split; [by rewrite <- Hp2|]. split; [congruence|]. split; [congruence|].
      intros q. rewrite Hc3. unfold add_pin. rewrite !Hc2. unfold add_pin. simpl.
      repeat case_bool_decide; lia.
    + unfold no_txn in *. congruence.
    + unfold pos_ids. rewrite Hp2. exact Hpos.
Qed.

Lemma GetValue_pins_no_txn fuel key r (s s' : St) :
  BPlusTree.GetValue comparator IsSafe fuel key s = Some (r, s') ->
  ids_ok s -> pos_ids s -> no_txn s ->
  forall q, pin_count_ s' q = pin_count_ s q.
Proof.
  unfold BPlusTree.GetValue. intros H Hok Hpos Hn.
  apply bind_Some in H as (tar & s1 & H1 & H).
  apply FindLeafPage_reads in H1 as (Htar & Hp1 & Ht1 & Hc1); [|done..].
  destruct tar as [tar|].
  - apply bind_Some in H as (v & s2 & H2 & H).
    pose proof (pure_Leaf_Lookup _ _ _ _ _ H2) as ->.
    apply bind_Some in H as (p & s2 & H3 & H). apply page_at_Some in H3 as [-> Hp].
    apply bind_Some in H as (u & s2 & H3 & H). apply ret_Some in H as [_ ->].
    apply FreePagesInTransaction_reads in H3 as (_ & _ & Hc3); [|unfold no_txn in *; congruence].
    rewrite Hp1 in Hp. unfold GetPageId in Hc3. rewrite (Hok _ _ Hp) in Hc3.
    intros q. rewrite Hc3. unfold add_pin. rewrite Hc1. unfold add_pin.
    repeat case_bool_decide; lia.
  - apply ret_Some in H as [_ ->]. exact Hc1.
Qed.

(** [GetValue] leaves every pin count as it found it. *)
Lemma GetValue_pins fuel key r (s s' : St) :
  BPlusTree.GetValue comparator IsSafe fuel key s = Some (r, s') ->
  ids_ok s -> pos_ids s -> page_set_of s = [] ->
  forall q, pin_count_ s' q = pin_count_ s q.
Proof.
  intros H Hok Hpos Hset. destruct (transaction_ s) as [tr|] eqn:Htr.
  - eapply GetValue_pins_txn; eauto. unfold has_txn. rewrite Htr. eauto.
  - eapply GetValue_pins_no_txn; eauto.
Qed.

(** *** The iterator *)

(** The pin an iterator holds: one on its leaf. *)
Definition iterator_pin (it : IndexIterator.IndexIterator) (d : Z)
  : (page_id_t -> Z) -> page_id_t -> Z :=
  match IndexIterator.leaf_ it with
  | Some leaf => add_pin leaf d
  | None => fun pc => pc
  end.

Lemma Begin_reads fuel it (s s' : St) :
  BPlusTree.Begin comparator IsSafe fuel s = Some (it, s') ->
  no_txn s -> pos_ids s ->
  reads_with (iterator_pin it 1) s s'.
Proof.
  unfold BPlusTree.Begin. intros H Hn Hpos.
  apply bind_Some in H as (r & s1 & H1 & H).
  apply FindLeafPage_reads in H1 as (_ & Hp1 & Ht1 & Hc1); [|done..].
  apply bind_Some in H as (u & s2 & H2 & H). apply ret_Some in H as [-> ->].
  unfold BPlusTree.TryUnlockRootPageId in H2. apply modify_Some in H2 as ->.
  unfold iterator_pin. simpl. destruct (0 <? _); done.
Qed.

Lemma Begin_key_reads fuel key it (s s' : St) :
  BPlusTree.Begin_key comparator IsSafe fuel key s = Some (it, s') ->
  no_txn s -> pos_ids s ->
  reads_with (iterator_pin it 1) s s'.
Proof.
  unfold BPlusTree.Begin_key. intros H Hn Hpos.
  apply bind_Some in H as (r & s1 & H1 & H).
  apply FindLeafPage_reads in H1 as (_ & Hp1 & Ht1 & Hc1); [|done..].
  apply bind_Some in H as (u & s2 & H2 & H).
  unfold BPlusTree.TryUnlockRootPageId in H2. apply modify_Some in H2 as ->.
  assert (Hs : reads_with (match r with Some leaf => add_pin leaf 1 | None => fun pc => pc end)
                 s (if 0 <? rootLockedCnt s1 then set_rootLockedCnt (rootLockedCnt s1 - 1) s1
                    else s1)) by (destruct (0 <? _); done).
  destruct r as [leaf|].
  - apply bind_Some in H as (l & s3 & H3 & H).
    pose proof (pure_leaf_at _ _ _ _ H3) as ->.
    apply ret_Some in H as [-> ->]. exact Hs.
  - apply ret_Some in H as [-> ->]. exact Hs.
Qed.

Lemma UnlockAndUnPin_reads leaf u (s s' : St) :
  IndexIterator.UnlockAndUnPin leaf s = Some (u, s') -> ids_ok s ->
  reads_with (add_pin leaf (-1)) s s'.
Proof.
  unfold IndexIterator.UnlockAndUnPin. intros H Hok.
  apply bind_Some in H as (p & s1 & H1 & H). apply page_at_Some in H1 as [-> Hp].
  unfold GetPageId in H. rewrite (Hok _ _ Hp) in H. minv.
  split; [done|]. split; [done|].
  intros q. simpl. unfold add_pin. case_bool_decide; lia.
Qed.

Lemma incr_reads it it' (s s' : St) :
  IndexIterator.incr it s = Some (it', s') -> ids_ok s ->
  reads_with (fun pc => iterator_pin it' 1 (iterator_pin it (-1) pc)) s s'.
Proof.
  unfold IndexIterator.incr, iterator_pin. intros H Hok.
  destruct (IndexIterator.leaf_ it) as [leaf|]; [|discriminate]. cbv zeta in H.
  apply bind_Some in H as ([[p next] array] & s1 & H1 & H).
  apply leaf_at_Some in H1 as (-> & Hp & Hpl).
  destruct (Z.of_nat (length array) <=? IndexIterator.index_ it + 1).
  - apply bind_Some in H as (u & s1 & H1 & H).
    apply UnlockAndUnPin_reads in H1 as (Hp1 & Ht1 & Hc1); [|done].
    destruct (next =? INVALID_PAGE_ID).
    + apply ret_Some in H as [-> ->]. simpl. done.
    + apply bind_Some in H as (p' & s2 & H2 & H). apply FetchPage_Some in H2 as [_ ->].
      apply ret_Some in H as [-> ->]. simpl.
      split; [done|]. split; [done|]. intros q. simpl. unfold add_pin at 1 3. by rewrite Hc1.
  - apply ret_Some in H as [-> ->]. simpl.
    split; [done|]. split; [done|]. intros q. unfold add_pin. case_bool_decide; lia.
Qed.

Lemma scan_reads fuel it l (s s' : St) :
  IndexIterator.scan fuel it s = Some (l, s') -> ids_ok s ->
  reads_with (iterator_pin it (-1)) s s'.
Proof.
  revert it l s. induction fuel as [|fuel IH]; intros it l s H Hok; simpl in H; [discriminate|].
  unfold IndexIterator.isEnd in H. unfold iterator_pin at 1.
  destruct (IndexIterator.leaf_ it) as [leaf|] eqn:Hleaf.
  - apply bind_Some in H as (kv & s1 & H1 & H).
    pose proof (pure_deref _ _ _ _ H1) as ->.
    apply bind_Some in H as (it' & s2 & H2 & H).
    apply incr_reads in H2 as (Hp2 & Ht2 & Hc2); [|done].
    apply bind_Some in H as (rest & s3 & H3 & H). apply ret_Some in H as [_ ->].
    apply IH in H3 as (Hp3 & Ht3 & Hc3).
    + split; [congruence|]. split; [congruence|].
      intros q. rewrite Hc3. unfold iterator_pin in *. rewrite Hleaf in Hc2.
      destruct (IndexIterator.leaf_ it') as [leaf'|].
      * unfold add_pin at 1. rewrite !Hc2. unfold add_pin. repeat case_bool_decide; lia.
      * apply Hc2.
    + intros id p. rewrite Hp2. apply Hok.
  - apply ret_Some in H as [_ ->]. done.
Qed.

(** A full iteration from [Begin()], and one from [Begin(key)], leaves
    every pin count as it found it. *)
Lemma Begin_scan_pins fuel n it l (s s1 s2 : St) :
  BPlusTree.Begin comparator IsSafe fuel s = Some (it, s1) ->
  IndexIterator.scan n it s1 = Some (l, s2) ->
  ids_ok s -> pos_ids s -> no_txn s ->
  forall q, pin_count_ s2 q = pin_count_ s q.
Proof.
  intros HB HS Hok Hpos Hn.
  apply Begin_reads in HB as (Hp1 & Ht1 & Hc1); [|done..].
  apply scan_reads in HS as (Hp2 & Ht2 & Hc2); [|intros id p; rewrite Hp1; apply Hok].
  intros q. rewrite Hc2. unfold iterator_pin in *.
  destruct (IndexIterator.leaf_ it); [|apply Hc1].
  unfold add_pin at 1. rewrite !Hc1. unfold add_pin. case_bool_decide; lia.
Qed.

Lemma Begin_key_scan_pins fuel key n it l (s s1 s2 : St) :
  BPlusTree.Begin_key comparator IsSafe fuel key s = Some (it, s1) ->
  IndexIterator.scan n it s1 = Some (l, s2) ->
  ids_ok s -> pos_ids s -> no_txn s ->
  forall q, pin_count_ s2 q = pin_count_ s q.
Proof.
  intros HB HS Hok Hpos Hn.
  apply Begin_key_reads in HB as (Hp1 & Ht1 & Hc1); [|done..].
  apply scan_reads in HS as (Hp2 & Ht2 & Hc2); [|intros id p; rewrite Hp1; apply Hok].
  intros q. rewrite Hc2. unfold iterator_pin in *.
  destruct (IndexIterator.leaf_ it); [|apply Hc1].
  unfold add_pin at 1. rewrite !Hc1. unfold add_pin. case_bool_decide; lia.
Qed.
(** C8 — pin balance.  Take a state in which every node carries the id of
    its page, no node lives on the header page 0, and the page set of the
    transaction (if there is one) is empty.  Then every top-level operation
    that completes — [GetValue], [Insert], [Remove], with a transaction or
    without one, and a full iteration from [Begin()] or [Begin(key)] until
    [isEnd()], which pass no transaction — leaves the pin count of every page
    as it found it: each pin taken during the operation has been given back
    by one unpin, so that all pages are unpinned again if they were before. *)
Theorem pins_balanced_after_operation (s : St) :
  ids_ok s -> pos_ids s -> page_set_of s = [] ->
  (forall fuel key r s',
     BPlusTree.GetValue comparator IsSafe fuel key s = Some (r, s') ->
     forall q, pin_count_ s' q = pin_count_ s q) /\
  (forall fuel key value b s',
     BPlusTree.Insert comparator leaf_max_size internal_max_size IsSafe fuel key value s
     = Some (b, s') ->
     forall q, pin_count_ s' q = pin_count_ s q) /\
  (forall fuel key u s',
     BPlusTree.Remove comparator GetMinSize IsSafe fuel key s = Some (u, s') ->
     forall q, pin_count_ s' q = pin_count_ s q) /\
  (forall fuel n it l s1 s2,
     no_txn s ->
     BPlusTree.Begin comparator IsSafe fuel s = Some (it, s1) ->
     IndexIterator.scan n it s1 = Some (l, s2) ->
     forall q, pin_count_ s2 q = pin_count_ s q) /\
  (forall fuel key n it l s1 s2,
     no_txn s ->
     BPlusTree.Begin_key comparator IsSafe fuel key s = Some (it, s1) ->
     IndexIterator.scan n it s1 = Some (l, s2) ->
     forall q, pin_count_ s2 q = pin_count_ s q).
Proof.
  intros Hok Hpos Hset. repeat split.
  - intros fuel key r s' H. eapply GetValue_pins; eauto.
  - intros fuel key value b s' H. eapply Insert_pins; eauto.
  - intros fuel key u s' H. eapply Remove_pins; eauto.
  - intros fuel n it l s1 s2 Hn HB HS. eapply Begin_scan_pins; eauto.
  - intros fuel key n it l s1 s2 Hn HB HS. eapply Begin_key_scan_pins; eauto.
Qed.

End PinBalance.

(** The theorem on the two-leaf tree with the full right leaf [5; 6; 7]:
    an insert of 8 with a transaction splits the leaf, a scan without a
    transaction walks both leaves; no page is pinned afterwards. *)
Lemma two_leaf_tree_ids right_keys txn :
  ids_ok (two_leaf_tree right_keys txn) /\ pos_ids (two_leaf_tree right_keys txn).
Proof.
  split; intros id p H; cbn [BPlusTreePage.pages_ two_leaf_tree] in H;
    repeat (rewrite lookup_insert in H; case_decide; [simplify_eq; done|]);
    rewrite lookup_empty in H; discriminate.
Defined.

Lemma pins_balanced_after_operation_witness :
  ids_ok (two_leaf_tree [5; 6; 7] (Some (new_Transaction 0))) /\
  pos_ids (two_leaf_tree [5; 6; 7] None) /\
  (exists s',
     BPlusTree.Insert Zcomparator 3 3 fixture_IsSafe 8 8 (8, 8)
       (two_leaf_tree [5; 6; 7] (Some (new_Transaction 0))) = Some (true, s') /\
     BPlusTreePage.pages_ s' !! 4 = Some (leaf_page 4 3 INVALID_PAGE_ID [7; 8]) /\
     forall q, BPlusTreePage.pin_count_ s' q = 0) /\
  (exists it s1 s2,
     BPlusTree.Begin Zcomparator fixture_IsSafe 8 (two_leaf_tree [5; 6; 7] None)
     = Some (it, s1) /\
     IndexIterator.scan 8 it s1
     = Some ((fun k => (k, (k, k))) <$> [1; 3; 4; 5; 6; 7], s2) /\
     forall q, BPlusTreePage.pin_count_ s2 q = 0).
Proof.
  destruct (two_leaf_tree_ids [5; 6; 7] (Some (new_Transaction 0))) as [Hok Hpos].
  destruct (two_leaf_tree_ids [5; 6; 7] None) as [Hok' Hpos'].
  split; [exact Hok|]. split; [exact Hpos'|]. split.
  - destruct (BPlusTree.Insert Zcomparator 3 3 fixture_IsSafe 8 8 (8, 8)
                (two_leaf_tree [5; 6; 7] (Some (new_Transaction 0)))) as [[b s']|] eqn:Hrun;
      [|vm_compute in Hrun; discriminate].
    pose proof (proj1 (proj2 (pins_balanced_after_operation Zcomparator 3 3
                  fixture_GetMinSize fixture_IsSafe _ Hok Hpos eq_refl))
                  _ _ _ _ _ Hrun) as Hpins.
    vm_compute in Hrun. injection Hrun as <- <-.
    eexists. split; [reflexivity|]. split; [reflexivity|]. exact Hpins.
  - destruct (BPlusTree.Begin Zcomparator fixture_IsSafe 8 (two_leaf_tree [5; 6; 7] None))
      as [[it s1]|] eqn:HB; [|vm_compute in HB; discriminate].
    destruct (IndexIterator.scan 8 it s1) as [[l s2]|] eqn:HS.
    2:{ vm_compute in HB. injection HB as <- <-. vm_compute in HS. discriminate. }
    pose proof (proj1 (proj2 (proj2 (proj2 (pins_balanced_after_operation Zcomparator 3 3
                  fixture_GetMinSize fixture_IsSafe _ Hok' Hpos' eq_refl))))
                  _ _ _ _ _ _ eq_refl HB HS) as Hpins.
    exists it, s1, s2. split; [reflexivity|]. split; [|exact Hpins].
    vm_compute in HB. injection HB as <- <-. vm_compute in HS. injection HS as <- <-.
    reflexivity.
Defined.


(** ** Insertion: the order of the keys *)

Section OrderFacts.
Context {Key : Type}.
Variable comparator : Key -> Key -> Z.

(** The comparator is a total preorder on the keys: its sign flips with
    its arguments, and "not above" is transitive. *)
Hypothesis comparator_sym : forall a b, comparator a b < 0 <-> 0 < comparator b a.
Hypothesis comparator_trans :
  forall a b c, comparator a b <= 0 -> comparator b c <= 0 -> comparator a c <= 0.

Lemma comparator_refl a : comparator a a = 0.
Proof.
  destruct (Z.lt_trichotomy (comparator a a) 0) as [H | [H | H]]; [|done|].
  - pose proof (proj1 (comparator_sym a a) H). lia.
  - pose proof (proj2 (comparator_sym a a) H). lia.
Qed.

Lemma comparator_le_lt_trans a b c :
  comparator a b <= 0 -> comparator b c < 0 -> comparator a c < 0.
Proof.
  intros H1 H2.
  assert (H3 : comparator a c <= 0) by (apply (comparator_trans a b c); lia).
  destruct (Z.eq_dec (comparator a c) 0) as [H0 | ?]; [|lia].
  assert (Hca : comparator c a <= 0).
  { destruct (Z_lt_ge_dec 0 (comparator c a)) as [H | ?]; [|lia].
    apply comparator_sym in H. lia. }
  pose proof (comparator_trans c a b Hca H1).
  apply comparator_sym in H2. lia.
Qed.

Lemma comparator_lt_le_trans a b c :
  comparator a b < 0 -> comparator b c <= 0 -> comparator a c < 0.
Proof.
  intros H1 H2.
  assert (H3 : comparator a c <= 0) by (apply (comparator_trans a b c); lia).
  destruct (Z.eq_dec (comparator a c) 0) as [H0 | ?]; [|lia].
  assert (Hca : comparator c a <= 0).
  { destruct (Z_lt_ge_dec 0 (comparator c a)) as [H | ?]; [|lia].
    apply comparator_sym in H. lia. }
  pose proof (comparator_trans b c a H2 Hca).
  apply comparator_sym in H1. lia.
Qed.

Lemma comparator_lt_trans' a b c :
  comparator a b < 0 -> comparator b c < 0 -> comparator a c < 0.
Proof. intros H1 H2. apply (comparator_lt_le_trans a b c); lia. Qed.

(** [key] is not below [k] exactly when [k] is not above [key]. *)
Lemma comparator_ge_le a b : comparator a b >= 0 <-> comparator b a <= 0.
Proof.
  split; intros H.
  - destruct (Z_lt_ge_dec 0 (comparator b a)) as [H1 | ?]; [|lia].
    apply comparator_sym in H1. lia.
  - destruct (Z_lt_ge_dec (comparator a b) 0) as [H1 | ?]; [|lia].
    apply comparator_sym in H1. lia.
Qed.

Lemma comparator_eq_sym a b : comparator a b = 0 -> comparator b a = 0.
Proof.
  intros H. destruct (Z.lt_trichotomy (comparator b a) 0) as [H1 | [H1 | H1]]; [|done|].
  - apply comparator_sym in H1. lia.
  - apply comparator_sym in H1. lia.
Qed.

(** Keys that compare equal stand in the same relations to other keys. *)
Lemma comparator_eq_lt_l a b c :
  comparator a b = 0 -> comparator a c < 0 -> comparator b c < 0.
Proof.
  intros H1 H2. apply comparator_eq_sym in H1.
  apply (comparator_le_lt_trans b a c); lia.
Qed.

Lemma comparator_eq_lt_r a b c :
  comparator a b = 0 -> comparator c a < 0 -> comparator c b < 0.
Proof. intros H1 H2. apply (comparator_lt_le_trans c a b); lia. Qed.

Lemma comparator_eq_le_l a b c :
  comparator a b = 0 -> comparator a c <= 0 -> comparator b c <= 0.
Proof.
  intros H1 H2. apply comparator_eq_sym in H1.
  apply (comparator_trans b a c); lia.
Qed.

(** *** Slots in ascending order of their keys *)

Definition key_lt {V : Type} (x y : Key * V) : Prop := comparator x.1 y.1 < 0.

(** "keys strictly increasing within a node" *)
Definition ascending {V : Type} (l : list (Key * V)) : Prop := StronglySorted key_lt l.

Lemma ascending_strictly_ascending {V : Type} (l : list (Key * V)) :
  ascending l -> strictly_ascending comparator l.
Proof.
  intros H i k1 v1 k2 v2 H1 H2. unfold ascending in H.
  rewrite <- (take_drop (S i) l) in H.
  apply (StronglySorted_app_1_elem_of _ _ _ (k1, v1) (k2, v2)) in H; [exact H | |].
  - apply list_elem_of_lookup. exists i. rewrite lookup_take_lt by lia. done.
  - apply list_elem_of_lookup. exists 0%nat. rewrite lookup_drop.
    by replace (S i + 0)%nat with (S i) by lia.
Qed.

Lemma ascending_app {V : Type} (l1 l2 : list (Key * V)) :
  ascending (l1 ++ l2) <->
  (forall x1 x2, x1 ∈ l1 -> x2 ∈ l2 -> key_lt x1 x2) /\ ascending l1 /\ ascending l2.
Proof. apply StronglySorted_app. Qed.

Lemma ascending_cons {V : Type} (x : Key * V) (l : list (Key * V)) :
  ascending (x :: l) <-> Forall (key_lt x) l /\ ascending l.
Proof. apply StronglySorted_cons. Qed.

Lemma ascending_take {V : Type} n (l : list (Key * V)) : ascending l -> ascending (take n l).
Proof. intros H. rewrite <- (take_drop n l) in H. by apply ascending_app in H as (_ & ? & _). Qed.

Lemma ascending_drop {V : Type} n (l : list (Key * V)) : ascending l -> ascending (drop n l).
Proof. intros H. rewrite <- (take_drop n l) in H. by apply ascending_app in H as (_ & _ & ?). Qed.

(** *** The slots of a leaf *)

Lemma KeyIndex_range (array : list (Key * RID)) (key : Key) :
  ascending array ->
  0 <= LeafPage.KeyIndex comparator array key <= Z.of_nat (length array).
Proof.
  intros Hasc.
  destruct (KeyIndex_inv comparator comparator_lt_trans' array key
              (ascending_strictly_ascending _ Hasc)) as (H0 & Hn & _). lia.
Qed.

Lemma KeyIndex_below (array : list (Key * RID)) (key : Key) (i : nat) k v :
  ascending array -> array !! i = Some (k, v) ->
  Z.of_nat i < LeafPage.KeyIndex comparator array key -> comparator k key < 0.
Proof.
  intros Hasc Hi Hlt.
  destruct (KeyIndex_inv comparator comparator_lt_trans' array key
              (ascending_strictly_ascending _ Hasc)) as (_ & _ & _ & Hlo & _). eauto.
Qed.

Lemma KeyIndex_not_below (array : list (Key * RID)) (key : Key) (i : nat) k v :
  ascending array -> array !! i = Some (k, v) ->
  LeafPage.KeyIndex comparator array key <= Z.of_nat i -> comparator k key >= 0.
Proof.
  intros Hasc Hi Hle.
  destruct (KeyIndex_inv comparator comparator_lt_trans' array key
              (ascending_strictly_ascending _ Hasc)) as (_ & _ & _ & _ & Hhi).
  eapply Hhi; [exact Hi | lia].
Qed.

(** [Lookup] finds a key that is stored in the leaf. *)
Lemma array_lookup_found (array : list (Key * RID)) (key k : Key) v :
  ascending array -> (k, v) ∈ array -> comparator k key = 0 ->
  LeafPage.array_lookup comparator array key = Some v.
Proof.
  intros Hasc Hin Heq. apply list_elem_of_lookup in Hin as [j Hj].
  pose proof (KeyIndex_range array key Hasc) as Hr.
  set (r := LeafPage.KeyIndex comparator array key) in *.
  assert (Hrj : r <= Z.of_nat j).
  { destruct (Z_lt_le_dec (Z.of_nat j) r) as [Hlt | ?]; [|done].
    pose proof (KeyIndex_below array key j k v Hasc Hj Hlt). lia. }
  assert (Hjr : Z.of_nat j = r).
  { destruct (Z.eq_dec (Z.of_nat j) r) as [? | Hne]; [done|]. exfalso.
    assert (Hlen : (Z.to_nat r < length array)%nat).
    { apply lookup_lt_Some in Hj. lia. }
    destruct (lookup_lt_is_Some_2 array _ Hlen) as [[kr vr] Hkr].
    pose proof (KeyIndex_not_below array key (Z.to_nat r) kr vr Hasc Hkr ltac:(lia)) as Hge.
    pose proof (strictly_ascending_pairs comparator comparator_lt_trans' array
                  (ascending_strictly_ascending _ Hasc) (Z.to_nat r) j kr vr k v
                  ltac:(lia) Hkr Hj) as Hlt.
    pose proof (comparator_eq_lt_r k key kr Heq Hlt). lia. }
  unfold LeafPage.array_lookup. fold r.
  apply lookup_lt_Some in Hj as Hlen.
  destruct (r <? Z.of_nat (length array)) eqn:Hb; [|apply Z.ltb_ge in Hb; lia].
  replace (Z.to_nat r) with j by lia. rewrite Hj.
  rewrite Heq. done.
Qed.

(** What [Lookup] finds is stored in the leaf under a key equal to [key]. *)
Lemma array_lookup_Some (array : list (Key * RID)) (key : Key) v :
  LeafPage.array_lookup comparator array key = Some v ->
  exists k, (k, v) ∈ array /\ comparator k key = 0.
Proof.
  unfold LeafPage.array_lookup. intros H.
  destruct (_ <? _); [|discriminate].
  destruct (array !! _) as [[k v']|] eqn:Hk; [|discriminate].
  destruct (comparator k key =? 0) eqn:Hc; [|discriminate].
  injection H as ->. exists k. split; [|by apply Z.eqb_eq].
  eapply list_elem_of_lookup_2; eauto.
Qed.

Lemma array_lookup_None (array : list (Key * RID)) (key k : Key) v :
  ascending array -> LeafPage.array_lookup comparator array key = None ->
  (k, v) ∈ array -> comparator k key <> 0.
Proof.
  intros Hasc Hnone Hin Heq.
  rewrite (array_lookup_found array key k v Hasc Hin Heq) in Hnone. discriminate.
Qed.

Lemma elem_of_array_insert (array : list (Key * RID)) (key : Key) value x :
  x ∈ LeafPage.array_insert comparator array key value <-> x = (key, value) \/ x ∈ array.
Proof.
  unfold LeafPage.array_insert.
  set (idx := Z.to_nat _).
  rewrite elem_of_app, elem_of_cons.
  transitivity (x = (key, value) \/ x ∈ take idx array ++ drop idx array).
  - rewrite elem_of_app. tauto.
  - by rewrite take_drop.
Qed.

Lemma length_array_insert (array : list (Key * RID)) (key : Key) value :
  length (LeafPage.array_insert comparator array key value) = S (length array).
Proof.
  unfold LeafPage.array_insert. set (idx := Z.to_nat _).
  rewrite length_app. simpl.
  pose proof (f_equal length (take_drop idx array)) as H. rewrite length_app in H. lia.
Qed.

(** [Insert] keeps the slots in ascending order when the key is new. *)
Lemma array_insert_ascending (array : list (Key * RID)) (key : Key) value :
  ascending array -> LeafPage.array_lookup comparator array key = None ->
  ascending (LeafPage.array_insert comparator array key value).
Proof.
  intros Hasc Hnone. unfold LeafPage.array_insert.
  pose proof (KeyIndex_range array key Hasc) as Hr.
  set (r := LeafPage.KeyIndex comparator array key) in *.
  assert (Hlo : forall x, x ∈ take (Z.to_nat r) array -> key_lt x (key, value)).
  { intros [k v] Hin. apply list_elem_of_lookup in Hin as [i Hi].
    pose proof (lookup_lt_Some _ _ _ Hi) as Hlen. rewrite length_take in Hlen.
    rewrite lookup_take_lt in Hi by lia.
    exact (KeyIndex_below array key i k v Hasc Hi ltac:(lia)). }
  assert (Hhi : forall x, x ∈ drop (Z.to_nat r) array -> key_lt (key, value) x).
  { intros [k v] Hin. apply list_elem_of_lookup in Hin as [i Hi].
    rewrite lookup_drop in Hi.
    pose proof (KeyIndex_not_below array key _ k v Hasc Hi ltac:(lia)) as Hge.
    assert (Hne : comparator k key <> 0).
    { eapply array_lookup_None; eauto. eapply list_elem_of_lookup_2; eauto. }
    unfold key_lt. simpl. apply comparator_sym. lia. }
  apply ascending_app. split; [|split].
  - intros x1 x2 H1 H2. apply elem_of_cons in H2 as [-> | H2]; [by apply Hlo|].
    destruct x1 as [k1 v1], x2 as [k2 v2]. unfold key_lt. simpl.
    eapply comparator_lt_trans'; [apply (Hlo _ H1) | apply (Hhi _ H2)].
  - by apply ascending_take.
  - apply ascending_cons. split; [|by apply ascending_drop].
    apply Forall_forall. exact Hhi.
Qed.

(** After a split at [c], with [sk] the first key of the upper half, a
    stored key is in the lower half when it is below [sk] and in the upper
    half otherwise. *)
Lemma ascending_split_elem_of {V : Type} (array : list (Key * V)) (c : nat) sk sv rest k v :
  ascending array -> drop c array = (sk, sv) :: rest -> (k, v) ∈ array ->
  (k, v) ∈ (if comparator k sk <? 0 then take c array else drop c array).
Proof.
  intros Hasc Hdrop Hin.
  rewrite <- (take_drop c array) in Hin, Hasc.
  apply ascending_app in Hasc as (Hcross & _ & Hd).
  rewrite Hdrop in Hcross, Hd. apply ascending_cons in Hd as [Hd _].
  apply elem_of_app in Hin as [Hin | Hin].
  - pose proof (Hcross _ (sk, sv) Hin ltac:(left)) as Hlt. unfold key_lt in Hlt. simpl in Hlt.
    destruct (comparator k sk <? 0) eqn:Hb; [done | apply Z.ltb_ge in Hb; lia].
  - destruct (comparator k sk <? 0) eqn:Hb; [|done]. apply Z.ltb_lt in Hb. exfalso.
    rewrite Hdrop in Hin. apply elem_of_cons in Hin as [[= -> ->] | Hin].
    + rewrite comparator_refl in Hb. lia.
    + rewrite Forall_forall in Hd. pose proof (Hd _ Hin) as Hlt.
      unfold key_lt in Hlt. simpl in Hlt. apply comparator_sym in Hlt. lia.
Qed.

(** *** The slots of an internal page *)

(** The scan of [Lookup] passes the slots whose key is not above [key] and
    stops before the first slot whose key is. *)
Definition passes (key : Key) (pre : list (Key * page_id_t)) : Prop :=
  Forall (fun kv => comparator key kv.1 >= 0) pre.

Definition stops (key : Key) (post : list (Key * page_id_t)) : Prop :=
  match post with
  | [] => True
  | (k, _) :: _ => comparator key k < 0
  end.

(** The child of the last slot of [pre], or [cur] when [pre] is empty. *)
Definition last_value (pre : list (Key * page_id_t)) (cur : page_id_t) : page_id_t :=
  match last pre with Some (_, v) => v | None => cur end.

Lemma last_value_cons kv pre cur : last_value (kv :: pre) cur = last_value pre kv.2.
Proof.
  unfold last_value. destruct kv as [k v]. destruct pre as [|kv' pre]; [done|].
  rewrite last_cons_cons. destruct (last (kv' :: pre)) as [[? ?]|] eqn:E; [done|].
  by apply last_None in E.
Qed.

Lemma lookup_from_pass key pre post cur :
  passes key pre ->
  InternalPage.lookup_from comparator key (pre ++ post) cur
  = InternalPage.lookup_from comparator key post (last_value pre cur).
Proof.
  revert cur. induction pre as [|[k v] pre IH]; intros cur Hp; [done|].
  apply Forall_cons in Hp as [Hk Hp]. simpl in Hk |- *.
  destruct (comparator key k <? 0) eqn:Hb; [apply Z.ltb_lt in Hb; lia|].
  rewrite IH by done. by rewrite last_value_cons.
Qed.

Lemma lookup_from_stop key post cur :
  stops key post -> InternalPage.lookup_from comparator key post cur = cur.
Proof.
  destruct post as [|[k v] post]; [done|]. simpl. intros H.
  destruct (comparator key k <? 0) eqn:Hb; [done | apply Z.ltb_ge in Hb; lia].
Qed.

(** Every list of slots falls into the slots the scan passes and the rest. *)
Lemma scan_decomposition key (rest : list (Key * page_id_t)) :
  exists pre post, rest = pre ++ post /\ passes key pre /\ stops key post.
Proof.
  induction rest as [|[k v] rest (pre & post & -> & Hp & Hs)].
  - exists [], []. split; [done|]. split; [constructor | done].
  - destruct (Z_lt_ge_dec (comparator key k) 0) as [Hlt | Hge].
    + exists [], ((k, v) :: pre ++ post). split; [done|]. split; [constructor | done].
    + exists ((k, v) :: pre), post. split; [done|]. split; [|done].
      constructor; done.
Qed.

Lemma Lookup_decomposed key k0 v0 pre post :
  passes key pre -> stops key post ->
  InternalPage.Lookup comparator ((k0, v0) :: pre ++ post) key = Some (last_value pre v0).
Proof.
  intros Hp Hs. simpl. by rewrite lookup_from_pass, lookup_from_stop.
Qed.

(** The slot of a child is the first one that holds it. *)
Lemma value_index_from_NoDup (l : list (Key * page_id_t)) (i : nat) k v j :
  NoDup l.*2 -> l !! i = Some (k, v) ->
  InternalPage.value_index_from v l j = j + Z.of_nat i.
Proof.
  revert i j. induction l as [|[k' v'] l IH]; intros i j Hnd Hi; [done|].
  simpl in Hnd. apply NoDup_cons in Hnd as [Hnotin Hnd]. simpl.
  destruct i as [|i]; simpl in Hi.
  - injection Hi as -> ->. rewrite Z.eqb_refl. lia.
  - destruct (v' =? v) eqn:Hb.
    + apply Z.eqb_eq in Hb as ->. exfalso. apply Hnotin.
      apply list_elem_of_fmap. exists (k, v). split; [done|].
      eapply list_elem_of_lookup_2; eauto.
    + rewrite (IH i (j + 1)) by done. lia.
Qed.

(** [InsertNodeAfter] puts the new slot behind the slot of the child the
    scan for [key] arrives at. *)
Lemma insert_after_decomposed k0 v0 pre post sep new :
  NoDup ((k0, v0) :: pre ++ post).*2 ->
  InternalPage.ValueIndex ((k0, v0) :: pre ++ post) (last_value pre v0) = Z.of_nat (length pre) /\
  InternalPage.insert_after ((k0, v0) :: pre ++ post) (last_value pre v0) sep new
  = (k0, v0) :: pre ++ (sep, new) :: post.
Proof.
  intros Hnd.
  assert (Hidx : InternalPage.ValueIndex ((k0, v0) :: pre ++ post) (last_value pre v0)
                 = Z.of_nat (length pre)).
  { unfold InternalPage.ValueIndex.
    assert (Hl : exists k, ((k0, v0) :: pre ++ post) !! length pre = Some (k, last_value pre v0)).
    { clear Hnd. revert k0 v0. induction pre as [|[k v] pre IH]; intros k0 v0.
      - exists k0. done.
      - rewrite last_value_cons. simpl. apply IH. }
    destruct Hl as [k Hl].
    rewrite (value_index_from_NoDup _ (length pre) k _ 0 Hnd Hl). lia. }
  split; [exact Hidx|].
  unfold InternalPage.insert_after. rewrite Hidx.
  replace (Z.to_nat (Z.of_nat (length pre) + 1)) with (S (length pre)) by lia.
  simpl. f_equal.
  rewrite take_app_length, drop_app_length. done.
Qed.

Lemma Lookup_insert_after key k0 v0 pre post sep new :
  passes key pre -> stops key post ->
  InternalPage.Lookup comparator ((k0, v0) :: pre ++ (sep, new) :: post) key
  = Some (if comparator key sep <? 0 then last_value pre v0 else new).
Proof.
  intros Hp Hs. simpl. rewrite lookup_from_pass by done. simpl.
  destruct (comparator key sep <? 0); [done|]. by rewrite lookup_from_stop.
Qed.

(** A split at slot [c], whose key [sk] goes up as the separator: the scan
    of the lower half, and of the upper half when [key] is not below [sk],
    arrives where the scan of the whole page did. *)
Lemma lookup_from_take key rest (c : nat) sk vc cur :
  rest !! c = Some (sk, vc) -> comparator key sk < 0 ->
  InternalPage.lookup_from comparator key (take c rest) cur
  = InternalPage.lookup_from comparator key rest cur.
Proof.
  revert rest cur. induction c as [|c IH]; intros rest cur Hc Hlt.
  - destruct rest as [|[k v] rest]; [done|]. simpl in Hc. injection Hc as -> ->.
    simpl. destruct (comparator key sk <? 0) eqn:Hb; [done | apply Z.ltb_ge in Hb; lia].
  - destruct rest as [|[k v] rest]; [done|]. simpl in Hc |- *.
    destruct (comparator key k <? 0); [done|]. by apply IH.
Qed.

Lemma lookup_from_drop key rest (c : nat) sk vc cur :
  ascending rest -> rest !! c = Some (sk, vc) -> comparator key sk >= 0 ->
  InternalPage.lookup_from comparator key (drop (S c) rest) vc
  = InternalPage.lookup_from comparator key rest cur.
Proof.
  revert rest cur. induction c as [|c IH]; intros rest cur Hasc Hc Hge.
  - destruct rest as [|[k v] rest]; [done|]. simpl in Hc. injection Hc as -> ->.
    simpl. destruct (comparator key sk <? 0) eqn:Hb; [apply Z.ltb_lt in Hb; lia | done].
  - destruct rest as [|[k v] rest]; [done|]. simpl in Hc.
    apply ascending_cons in Hasc as [Hk Hasc].
    assert (Hlt : comparator k sk < 0).
    { rewrite Forall_forall in Hk. apply (Hk (sk, vc)). eapply list_elem_of_lookup_2; eauto. }
    change (drop (S (S c)) ((k, v) :: rest)) with (drop (S c) rest).
    simpl InternalPage.lookup_from at 2.
    destruct (comparator key k <? 0) eqn:Hb.
    + apply Z.ltb_lt in Hb. pose proof (comparator_lt_trans' _ _ _ Hb Hlt). lia.
    + by apply IH.
Qed.

Lemma Lookup_split key k0 v0 rest (c : nat) sk vc :
  ascending rest -> rest !! c = Some (sk, vc) ->
  InternalPage.Lookup comparator
    (if comparator key sk <? 0 then take (S c) ((k0, v0) :: rest)
     else drop (S c) ((k0, v0) :: rest)) key
  = InternalPage.Lookup comparator ((k0, v0) :: rest) key.
Proof.
  intros Hasc Hc. destruct (comparator key sk <? 0) eqn:Hb.
  - apply Z.ltb_lt in Hb. simpl. f_equal. by eapply lookup_from_take.
  - apply Z.ltb_ge in Hb. simpl.
    rewrite (drop_S _ _ _ Hc). simpl. f_equal.
    eapply lookup_from_drop; eauto. lia.
Qed.

End OrderFacts.


(** ** Insertion: runs that return *)

Section Returns.
Context {S : Type}.

(** [wp m Φ s]: started in [s], the computation [m] returns, with a value
    and in a state that satisfy [Φ]. *)
Definition wp {A : Type} (m : M S A) (Φ : A -> S -> Prop) (s : S) : Prop :=
  exists a s', m s = Some (a, s') /\ Φ a s'.

Lemma wp_intro {A : Type} (m : M S A) Φ s a s' : m s = Some (a, s') -> Φ a s' -> wp m Φ s.
Proof. intros H1 H2. exists a, s'. auto. Qed.

Lemma wp_ret {A : Type} (a : A) Φ (s : S) : Φ a s -> wp (ret a) Φ s.
Proof. intros H. exists a, s. auto. Qed.

Lemma wp_bind {A B : Type} (m : M S A) (k : A -> M S B) Φ s :
  wp m (fun a s1 => wp (k a) Φ s1) s -> wp (bind m k) Φ s.
Proof.
  intros (a & s1 & H1 & b & s2 & H2 & H3). exists b, s2. split; [|done].
  apply bind_Some. eauto.
Qed.

Lemma wp_mono {A : Type} (m : M S A) (Φ Ψ : A -> S -> Prop) s :
  wp m Φ s -> (forall a s', Φ a s' -> Ψ a s') -> wp m Ψ s.
Proof. intros (a & s' & H1 & H2) H. exists a, s'. auto. Qed.

Lemma wp_gets {A : Type} (f : S -> A) Φ s : Φ (f s) s -> wp (gets f) Φ s.
Proof. intros H. exists (f s), s. auto. Qed.

Lemma wp_modify (f : S -> S) Φ s : Φ tt (f s) -> wp (modify f) Φ s.
Proof. intros H. exists tt, (f s). auto. Qed.

Lemma wp_check (b : bool) Φ (s : S) : b = true -> Φ tt s -> wp (check b) Φ s.
Proof. intros -> H. exists tt, s. auto. Qed.

Lemma wp_when (b : bool) (m : M S unit) Φ s :
  (b = true -> wp m Φ s) -> (b = false -> Φ tt s) -> wp (when b m) Φ s.
Proof. destruct b; intros H1 H2; [by apply H1 | apply wp_ret; by apply H2]. Qed.

Lemma wp_for_each {A : Type} (I : S -> Prop) (l : list A) (body : A -> M S unit) s :
  (forall x s, I s -> wp (body x) (fun _ s' => I s') s) ->
  I s -> wp (for_each l body) (fun _ s' => I s') s.
Proof.
  intros Hb. revert s. induction l as [|x l IH]; intros s HI; simpl.
  - by apply wp_ret.
  - apply wp_bind. eapply wp_mono; [by apply Hb|]. intros ? s'. apply IH.
Qed.

End Returns.

Section IndexReturns.
Import BPlusTreePage.
Context {Key : Type}.
Variable comparator : Key -> Key -> Z.
Variable IsSafe : OpType -> BPlusTreePage Key -> bool.

Abbreviation St := (State Key).
Abbreviation Page := (BPlusTreePage Key).

Lemma wp_page_at id p Φ (s : St) :
  pages_ s !! id = Some p -> Φ p s -> wp (page_at id) Φ s.
Proof. intros Hp H. eapply wp_intro; [by apply page_at_intro | done]. Qed.

Lemma wp_FetchPage id p Φ (s : St) :
  pages_ s !! id = Some p ->
  Φ p (set_pin_count (add_pin id 1 (pin_count_ s)) s) -> wp (FetchPage id) Φ s.
Proof. intros Hp H. eapply wp_intro; [by apply FetchPage_intro | done]. Qed.

Lemma wp_UnpinPage id d Φ (s : St) :
  Φ tt (set_pin_count (add_pin id (-1) (pin_count_ s)) s) -> wp (UnpinPage id d) Φ s.
Proof. intros H. eapply wp_intro; [reflexivity | done]. Qed.

Lemma wp_UnpinPage_of ptr d p Φ (s : St) :
  pages_ s !! ptr = Some p ->
  Φ tt (set_pin_count (add_pin (page_id_ p) (-1) (pin_count_ s)) s) ->
  wp (UnpinPage_of ptr d) Φ s.
Proof. intros Hp H. eapply wp_intro; [|exact H]. unfold UnpinPage_of. by rewrite Hp. Qed.

Lemma wp_NewPage Φ (s : St) :
  Φ (next_page_id_ s)
    (set_next_page_id (next_page_id_ s + 1)
       (set_pin_count (add_pin (next_page_id_ s) 1 (pin_count_ s)) s)) ->
  wp NewPage Φ s.
Proof. intros H. eapply wp_intro; [reflexivity | done]. Qed.

Lemma wp_store_page id p Φ (s : St) :
  Φ tt (set_pages (<[id := p]> (pages_ s)) s) -> wp (store_page id p) Φ s.
Proof. intros H. eapply wp_intro; [reflexivity | done]. Qed.

Lemma wp_update_page id f p Φ (s : St) :
  pages_ s !! id = Some p ->
  Φ tt (set_pages (<[id := f p]> (pages_ s)) s) -> wp (update_page id f) Φ s.
Proof. intros Hp H. eapply wp_intro; [by apply update_page_intro | done]. Qed.

Lemma wp_SetParentPageId id parent p Φ (s : St) :
  pages_ s !! id = Some p ->
  Φ tt (set_pages (<[id := set_parent parent p]> (pages_ s)) s) ->
  wp (SetParentPageId id parent) Φ s.
Proof. apply wp_update_page. Qed.

Lemma wp_AddIntoPageSet id t Φ (s : St) :
  transaction_ s = Some t ->
  Φ tt (set_transaction (Some (SetPageSet (page_set_ t ++ [id]) t)) s) ->
  wp (AddIntoPageSet id) Φ s.
Proof. intros Ht H. eapply wp_intro; [|exact H]. unfold AddIntoPageSet. by rewrite Ht. Qed.

Lemma wp_leaf_at id p next array Φ (s : St) :
  pages_ s !! id = Some p -> payload_ p = LeafArray next array ->
  Φ (p, next, array) s -> wp (LeafPage.leaf_at id) Φ s.
Proof. intros Hp Hpl H. eapply wp_intro; [by apply leaf_at_intro | done]. Qed.

Lemma wp_internal_at id p array Φ (s : St) :
  pages_ s !! id = Some p -> payload_ p = InternalArray array ->
  Φ (p, array) s -> wp (InternalPage.internal_at id) Φ s.
Proof. intros Hp Hpl H. eapply wp_intro; [by apply internal_at_intro | done]. Qed.

Lemma wp_Leaf_set_array id array p next old Φ (s : St) :
  pages_ s !! id = Some p -> payload_ p = LeafArray next old ->
  Φ tt (set_pages (<[id := set_payload (LeafArray next array) p]> (pages_ s)) s) ->
  wp (LeafPage.set_array id array) Φ s.
Proof. intros Hp Hpl H. eapply wp_intro; [by eapply Leaf_set_array_intro | done]. Qed.

Lemma wp_Internal_set_array id array p old Φ (s : St) :
  pages_ s !! id = Some p -> payload_ p = InternalArray old ->
  Φ tt (set_pages (<[id := set_payload (InternalArray array) p]> (pages_ s)) s) ->
  wp (InternalPage.set_array id array) Φ s.
Proof. intros Hp Hpl H. eapply wp_intro; [by eapply Internal_set_array_intro | done]. Qed.

(** *** The search path of a key *)

(** [subpath P key cur leaf array below]: in the pages [P] the descent for
    [key] from [cur] ends in the leaf [leaf], whose slots are [array]; it
    visits the pages [below], [cur] first. *)
Inductive subpath (P : gmap page_id_t Page) (key : Key)
  : page_id_t -> page_id_t -> list (Key * RID) -> list page_id_t -> Prop :=
| subpath_leaf cur p next array :
    P !! cur = Some p -> payload_ p = LeafArray next array ->
    subpath P key cur cur array [cur]
| subpath_step cur p A next leaf array below :
    P !! cur = Some p -> payload_ p = InternalArray A ->
    InternalPage.Lookup comparator A key = Some next ->
    subpath P key next leaf array below ->
    subpath P key cur leaf array (cur :: below).

Lemma subpath_stable P P' key cur leaf array below :
  subpath P key cur leaf array below ->
  (forall x, x ∈ below -> payload_ <$> P' !! x = payload_ <$> P !! x) ->
  subpath P' key cur leaf array below.
Proof.
  induction 1 as [cur p next array Hp Hpl | cur p A next leaf array below Hp Hpl Hl Hsub IH];
    intros Hsame.
  - pose proof (Hsame cur ltac:(left)) as Hc. rewrite Hp in Hc.
    destruct (P' !! cur) as [p'|] eqn:Hp'; [|discriminate].
    assert (Hc' : payload_ p' = payload_ p) by (by injection Hc).
    eapply subpath_leaf; [exact Hp' | by rewrite Hc'].
  - pose proof (Hsame cur ltac:(left)) as Hc. rewrite Hp in Hc.
    destruct (P' !! cur) as [p'|] eqn:Hp'; [|discriminate].
    assert (Hc' : payload_ p' = payload_ p) by (by injection Hc).
    eapply subpath_step; [exact Hp' | by rewrite Hc' | exact Hl |].
    apply IH. intros x Hx. apply Hsame. by right.
Qed.

Lemma subpath_last P key cur leaf array below :
  subpath P key cur leaf array below ->
  exists p next, P !! leaf = Some p /\ payload_ p = LeafArray next array /\ leaf ∈ below.
Proof.
  induction 1 as [cur p next array Hp Hpl | cur p A next leaf array below Hp Hpl Hl Hsub IH].
  - exists p, next. split; [done|]. split; [done | by left].
  - destruct IH as (p' & next' & ? & ? & ?). exists p', next'. split; [done|].
    split; [done | by right].
Qed.

Lemma subpath_head P key cur leaf array below :
  subpath P key cur leaf array below -> is_Some (P !! cur).
Proof. destruct 1; eauto. Qed.

Lemma subpath_exists P key cur leaf array below x :
  subpath P key cur leaf array below -> x ∈ below -> is_Some (P !! x).
Proof.
  induction 1 as [cur p next array Hp Hpl | cur p A next leaf array below Hp Hpl Hl Hsub IH];
    intros Hx.
  - apply list_elem_of_singleton in Hx as ->. eauto.
  - apply elem_of_cons in Hx as [-> | Hx]; eauto.
Qed.

(** *** The crabbing protocol with a transaction *)

(** The operation has a transaction, which has no page to delete. *)
Definition txn_ok (s : St) : Prop :=
  exists t, transaction_ s = Some t /\ deleted_page_set_ t = ∅.

(** The steps of the protocol touch the latches, the pins and the page
    set, and nothing of the tree. *)
Definition same_tree (s s' : St) : Prop :=
  pages_ s' = pages_ s /\ root_page_id_ s' = root_page_id_ s /\
  next_page_id_ s' = next_page_id_ s /\ txn_ok s'.

Lemma same_tree_refl s : txn_ok s -> same_tree s s.
Proof. intros H. split; [done|]. split; [done|]. split; done. Qed.

Lemma same_tree_trans s1 s2 s3 : same_tree s1 s2 -> same_tree s2 s3 -> same_tree s1 s3.
Proof.
  intros (H1 & H2 & H3 & _) (H4 & H5 & H6 & H7). split; [congruence|].
  split; [congruence|]. split; [congruence | done].
Qed.

Lemma free_page_returns e p (s0 s : St) :
  same_tree s0 s -> wp (BPlusTree.free_page e p) (fun _ s' => same_tree s0 s') s.
Proof.
  intros Hsame. pose proof Hsame as (Hp & Hr & Hn & t & Ht & Hd).
  unfold BPlusTree.free_page.
  apply wp_bind, wp_UnpinPage. apply wp_bind, wp_gets. simpl. rewrite Ht.
  apply wp_when; [|intros _].
  - intros Hb. apply bool_decide_eq_true in Hb. rewrite Hd in Hb. set_solver.
  - split; [done|]. split; [done|]. split; [done|]. exists t. done.
Qed.

Lemma FreePagesInTransaction_returns e cur (s : St) :
  txn_ok s ->
  wp (BPlusTree.FreePagesInTransaction e cur) (fun _ s' => same_tree s s') s.
Proof.
  intros (t & Ht & Hd). unfold BPlusTree.FreePagesInTransaction.
  apply wp_bind. unfold BPlusTree.TryUnlockRootPageId. apply wp_modify.
  set (s1 := if 0 <? rootLockedCnt s then _ else _).
  assert (Hs1 : same_tree s s1).
  { subst s1. destruct (0 <? _); (split; [done|]; split; [done|]; split; [done|]);
      exists t; done. }
  assert (Ht1 : transaction_ s1 = Some t) by (subst s1; destruct (0 <? _); done).
  clearbody s1.
  apply wp_bind, wp_gets. rewrite Ht1.
  apply wp_bind.
  eapply wp_mono.
  { apply (wp_for_each (fun s' => same_tree s s')); [|exact Hs1].
    intros x s2 Hs2. by apply free_page_returns. }
  intros ? s2 Hs2. simpl in Hs2. pose proof Hs2 as (_ & _ & _ & t2 & Ht2 & Hd2).
  apply wp_bind, wp_gets. rewrite Ht2.
  apply wp_bind, wp_check; [by apply bool_decide_eq_true|].
  unfold BPlusTree.clear_page_set. eapply wp_intro; [by rewrite Ht2|].
  destruct Hs2 as (H1 & H2 & H3 & _).
  split; [done|]. split; [done|]. split; [done|]. exists (SetPageSet [] t2). done.
Qed.

Lemma CrabingProtocalFetchPage_returns id op prev (s0 s : St) :
  same_tree s0 s -> is_Some (pages_ s !! id) ->
  wp (BPlusTree.CrabingProtocalFetchPage IsSafe id op prev)
     (fun a s' => a = id /\ same_tree s0 s') s.
Proof.
  intros Hsame [p Hp]. pose proof Hsame as (H1 & H2 & H3 & t & Ht & Hd).
  unfold BPlusTree.CrabingProtocalFetchPage. cbv zeta.
  apply wp_bind. eapply wp_FetchPage; [exact Hp|].
  set (s1 := set_pin_count _ s).
  assert (Hs1 : same_tree s0 s1).
  { split; [done|]. split; [done|]. split; [done|]. exists t. done. }
  clearbody s1. clear dependent s.
  apply wp_bind.
  assert (Hfree : wp (when ((0 <? prev) && (negb (negb (bool_decide (op = READ))) || IsSafe op p))
                        (BPlusTree.FreePagesInTransaction (negb (bool_decide (op = READ))) prev))
                    (fun _ s' => same_tree s0 s') s1).
  { apply wp_when; [|done]. intros _.
    eapply wp_mono; [apply FreePagesInTransaction_returns; by destruct Hs1 as (_ & _ & _ & ?)|].
    intros ? s2 Hs2. simpl in Hs2. by eapply same_tree_trans. }
  eapply wp_mono; [exact Hfree|]. clear Hfree.
  intros ? s2 Hs2. simpl in Hs2. pose proof Hs2 as (H1' & H2' & H3' & t' & Ht' & Hd').
  apply wp_bind. unfold AddIntoPageSet_if_transaction.
  eapply wp_intro; [by rewrite Ht'|].
  apply wp_ret. split; [done|].
  split; [done|]. split; [done|]. split; [done|]. eexists. split; [reflexivity | done].
Qed.

Lemma descend_returns fuel key op cur leaf array below (s0 s : St) :
  subpath (pages_ s0) key cur leaf array below -> (length below <= fuel)%nat ->
  same_tree s0 s ->
  wp (BPlusTree.descend comparator IsSafe fuel (Some key) false op cur)
     (fun a s' => a = leaf /\ same_tree s0 s') s.
Proof.
  intros Hsub. revert fuel s.
  induction Hsub as [cur p next array Hp Hpl | cur p A next leaf array below Hp Hpl Hl Hsub IH];
    intros fuel s Hlen Hsame; (destruct fuel as [|fuel]; [simpl in Hlen; lia|]); simpl.
  - apply wp_bind. eapply wp_page_at; [destruct Hsame as [-> _]; exact Hp|].
    rewrite Hpl. by apply wp_ret.
  - apply wp_bind. eapply wp_page_at; [destruct Hsame as [-> _]; exact Hp|].
    rewrite Hpl. apply wp_bind. unfold BPlusTree.next_child. rewrite Hl. apply wp_ret.
    apply wp_bind.
    eapply wp_mono.
    { apply CrabingProtocalFetchPage_returns; [exact Hsame|].
      destruct Hsame as [-> _].
      inversion Hsub; subst; eauto. }
    intros a s1 [-> Hs1]. apply IH; [simpl in Hlen; lia | done].
Qed.

Lemma FindLeafPage_returns fuel key op leaf array below (s : St) :
  txn_ok s -> root_page_id_ s <> INVALID_PAGE_ID ->
  subpath (pages_ s) key (root_page_id_ s) leaf array below -> (length below <= fuel)%nat ->
  wp (BPlusTree.FindLeafPage comparator IsSafe fuel (Some key) false op)
     (fun a s' => a = Some leaf /\ same_tree s s') s.
Proof.
  intros Htx Hroot Hsub Hlen. unfold BPlusTree.FindLeafPage. cbv zeta.
  apply wp_bind. unfold BPlusTree.LockRootPageId. apply wp_modify.
  set (s1 := set_rootLockedCnt _ s).
  assert (Hs1 : same_tree s s1) by (split; [done|]; split; [done|]; split; done).
  assert (Hr1 : root_page_id_ s1 = root_page_id_ s) by done.
  clearbody s1.
  apply wp_bind. unfold BPlusTree.IsEmpty. apply wp_gets. rewrite Hr1.
  destruct (root_page_id_ s =? INVALID_PAGE_ID) eqn:Hb; [apply Z.eqb_eq in Hb; done|].
  apply wp_bind, wp_gets. rewrite Hr1.
  apply wp_bind.
  eapply wp_mono.
  { apply CrabingProtocalFetchPage_returns; [exact Hs1|].
    destruct Hs1 as [-> _]. inversion Hsub; subst; eauto. }
  intros a s2 [-> Hs2].
  apply wp_bind.
  eapply wp_mono; [by eapply descend_returns|].
  intros a s3 [-> Hs3]. by apply wp_ret.
Qed.

End IndexReturns.


(** ** Insertion: splits *)

Section Splits.
Import BPlusTreePage.
Context {Key : Type}.
Variable comparator : Key -> Key -> Z.
Variable leaf_max_size internal_max_size : Z.
Variable IsSafe : OpType -> BPlusTreePage Key -> bool.

Abbreviation St := (State Key).
Abbreviation Page := (BPlusTreePage Key).

(** The pages after the children [cs] have been given the parent [r]. *)
Definition adopt_pages (r : page_id_t) (cs : list page_id_t) (P : gmap page_id_t Page)
  : gmap page_id_t Page :=
  foldl (fun P c => match P !! c with
                    | Some pc => <[c := set_parent r pc]> P
                    | None => P
                    end) P cs.

Lemma adopt_pages_lookup r cs P id :
  adopt_pages r cs P !! id
  = if bool_decide (id ∈ cs) then set_parent r <$> P !! id else P !! id.
Proof.
  unfold adopt_pages. revert P. induction cs as [|c cs IH]; intros P; cbn [foldl].
  - rewrite bool_decide_eq_false_2 by apply not_elem_of_nil. done.
  - rewrite IH. clear IH.
    destruct (decide (id = c)) as [-> | Hne].
    + rewrite (bool_decide_eq_true_2 (c ∈ c :: cs)) by (by left).
      destruct (P !! c) as [pc|] eqn:Hc.
      * rewrite lookup_insert_eq. simpl. by destruct (bool_decide (c ∈ cs)).
      * rewrite Hc. by destruct (bool_decide (c ∈ cs)).
    + assert (Hl : (match P !! c with
                    | Some pc => <[c := set_parent r pc]> P
                    | None => P
                    end) !! id = P !! id).
      { destruct (P !! c); [by rewrite lookup_insert_ne | done]. }
      rewrite Hl.
      destruct (decide (id ∈ cs)) as [Hin | Hnin].
      * rewrite (bool_decide_eq_true_2 _ Hin).
        rewrite (bool_decide_eq_true_2 (id ∈ c :: cs)) by (by right). done.
      * rewrite (bool_decide_eq_false_2 _ Hnin).
        rewrite (bool_decide_eq_false_2 (id ∈ c :: cs)) by (by apply not_elem_of_cons). done.
Qed.

(** The run of the fields of the state that a step on the nodes leaves
    alone. *)
Definition same_rest (s s' : St) : Prop :=
  root_page_id_ s' = root_page_id_ s /\ next_page_id_ s' = next_page_id_ s /\
  transaction_ s' = transaction_ s.

Lemma adopt_returns r c pc (s : St) :
  pages_ s !! c = Some pc ->
  wp (InternalPage.adopt r c)
     (fun _ s' => same_rest s s' /\ pages_ s' = <[c := set_parent r pc]> (pages_ s)) s.
Proof.
  intros Hc. unfold InternalPage.adopt.
  apply wp_bind. eapply wp_FetchPage; [exact Hc|].
  apply wp_bind. eapply wp_SetParentPageId; [exact Hc|].
  apply wp_UnpinPage. done.
Qed.

Lemma adopt_loop_returns r (moved : list (Key * page_id_t)) (s : St) :
  (forall c, c ∈ moved.*2 -> is_Some (pages_ s !! c)) ->
  wp (for_each moved (fun kv => InternalPage.adopt r kv.2))
     (fun _ s' => same_rest s s' /\ pages_ s' = adopt_pages r moved.*2 (pages_ s)) s.
Proof.
  revert s. induction moved as [|[k c] moved IH]; intros s Hex; simpl.
  - apply wp_ret. done.
  - destruct (Hex c ltac:(left)) as [pc Hc].
    apply wp_bind. eapply wp_mono; [by apply adopt_returns|].
    intros ? s1 [(Hr & Hn & Ht) Hp].
    eapply wp_mono.
    { apply IH. intros c' Hc'. rewrite Hp.
      destruct (decide (c' = c)) as [-> | ?];
        [rewrite lookup_insert_eq | rewrite lookup_insert_ne by done]; eauto.
      apply Hex. by right. }
    intros ? s2 [(Hr' & Hn' & Ht') Hp'].
    split; [split; [congruence|]; split; congruence|].
    rewrite Hp', Hp, Hc. done.
Qed.

Lemma InsertNodeAfter_returns a old sep new pa A (s : St) :
  pages_ s !! a = Some pa -> payload_ pa = InternalArray A ->
  0 <= InternalPage.ValueIndex A old ->
  wp (InternalPage.InsertNodeAfter a old sep new)
     (fun _ s' =>
        s' = set_pages (<[a := set_payload
                                 (InternalArray (InternalPage.insert_after A old sep new)) pa]>
                          (pages_ s)) s) s.
Proof.
  intros Hp Hpl Hidx. unfold InternalPage.InsertNodeAfter.
  apply wp_bind. eapply wp_internal_at; [exact Hp | exact Hpl|]. simpl.
  apply wp_bind, wp_check; [apply Z.ltb_lt; lia|].
  apply wp_bind. eapply wp_Internal_set_array; [exact Hp | exact Hpl|].
  by apply wp_ret.
Qed.

Lemma Internal_MoveHalfTo_returns self recipient p A pr old (s : St) :
  pages_ s !! self = Some p -> payload_ p = InternalArray A ->
  Z.of_nat (length A) = max_size_ p + 1 ->
  pages_ s !! recipient = Some pr -> payload_ pr = InternalArray old ->
  page_id_ pr = recipient -> self <> recipient ->
  (forall x, x ∈ (drop (Z.to_nat ((max_size_ p + 1) ÷ 2)) A).*2 ->
     is_Some (pages_ s !! x) /\ x <> self /\ x <> recipient) ->
  wp (InternalPage.MoveHalfTo self recipient)
     (fun _ s' =>
        same_rest s s' /\
        forall id, pages_ s' !! id =
          if bool_decide (id = self)
          then Some (set_payload (InternalArray (take (Z.to_nat ((max_size_ p + 1) ÷ 2)) A)) p)
          else if bool_decide (id = recipient)
          then Some (set_payload (InternalArray (drop (Z.to_nat ((max_size_ p + 1) ÷ 2)) A)) pr)
          else if bool_decide (id ∈ (drop (Z.to_nat ((max_size_ p + 1) ÷ 2)) A).*2)
          then set_parent recipient <$> pages_ s !! id
          else pages_ s !! id) s.
Proof.
  intros Hp Hpl Hlen Hr Hrpl Hrid Hne Hmoved. unfold InternalPage.MoveHalfTo.
  set (c := Z.to_nat ((max_size_ p + 1) ÷ 2)) in *.
  apply wp_bind. eapply wp_internal_at; [exact Hp | exact Hpl|]. cbn [fst snd]. cbv zeta.
  unfold GetMaxSize.
  apply wp_bind, wp_check; [by apply Z.eqb_eq|].
  apply wp_bind. eapply wp_internal_at; [exact Hr | exact Hrpl|]. cbn [fst snd].
  fold c.
  apply wp_bind. eapply wp_Internal_set_array; [exact Hr | exact Hrpl|].
  set (s1 := set_pages _ s).
  apply wp_bind. eapply wp_mono.
  { apply adopt_loop_returns. intros x Hx. destruct (Hmoved x Hx) as (Hex & _ & Hxr).
    subst s1. simpl. by rewrite lookup_insert_ne. }
  intros ? s2 [(Hroot & Hnext & Htxn) Hp2]. unfold GetPageId in Hp2. rewrite Hrid in Hp2.
  assert (Hself2 : pages_ s2 !! self = Some p).
  { rewrite Hp2, adopt_pages_lookup.
    rewrite bool_decide_eq_false_2 by (intros Hin; by destruct (Hmoved _ Hin) as (_ & ? & _)).
    subst s1. simpl. by rewrite lookup_insert_ne. }
  eapply wp_Internal_set_array; [exact Hself2 | exact Hpl|].
  split; [done|]. intros id. simpl.
  destruct (decide (id = self)) as [-> | Hids].
  { rewrite bool_decide_eq_true_2 by done. by rewrite lookup_insert_eq. }
  rewrite (bool_decide_eq_false_2 _ Hids). rewrite lookup_insert_ne by done.
  rewrite Hp2, adopt_pages_lookup. subst s1. simpl.
  destruct (decide (id = recipient)) as [-> | Hidr].
  { rewrite (bool_decide_eq_true_2 (recipient = recipient)) by done.
    rewrite bool_decide_eq_false_2 by (intros Hin; by destruct (Hmoved _ Hin) as (_ & _ & ?)).
    by rewrite lookup_insert_eq. }
  rewrite (bool_decide_eq_false_2 _ Hidr). rewrite lookup_insert_ne by done. done.
Qed.

Lemma Leaf_MoveHalfTo_returns self recipient p next array pr nr old (s : St) :
  pages_ s !! self = Some p -> payload_ p = LeafArray next array ->
  Z.of_nat (length array) = max_size_ p + 1 ->
  pages_ s !! recipient = Some pr -> payload_ pr = LeafArray nr old ->
  page_id_ pr = recipient -> self <> recipient ->
  wp (LeafPage.MoveHalfTo self recipient)
     (fun _ s' =>
        same_rest s s' /\
        pages_ s' =
          <[self := set_payload
                      (LeafArray recipient (take (Z.to_nat ((max_size_ p + 1) ÷ 2)) array)) p]>
            (<[recipient := set_payload
                              (LeafArray next (drop (Z.to_nat ((max_size_ p + 1) ÷ 2)) array)) pr]>
               (pages_ s))) s.
Proof.
  intros Hp Hpl Hlen Hr Hrpl Hrid Hne. unfold LeafPage.MoveHalfTo.
  apply wp_bind. eapply wp_leaf_at; [exact Hp | exact Hpl|]. cbv zeta. unfold GetMaxSize.
  apply wp_bind, wp_check; [by apply Z.eqb_eq|].
  apply wp_bind. eapply wp_leaf_at; [exact Hr | exact Hrpl|]. cbn [fst snd].
  apply wp_bind. eapply wp_Leaf_set_array; [exact Hr | exact Hrpl|].
  apply wp_bind. unfold LeafPage.SetNextPageId.
  apply wp_bind. eapply wp_leaf_at; [simpl; apply lookup_insert_eq | reflexivity|]. cbn [fst snd].
  eapply wp_update_page; [simpl; apply lookup_insert_eq|]. simpl.
  apply wp_bind.
  apply wp_bind. eapply wp_leaf_at;
    [simpl; rewrite !lookup_insert_ne by done; exact Hp | exact Hpl|]. cbn [fst snd].
  eapply wp_update_page; [simpl; rewrite !lookup_insert_ne by done; exact Hp|]. simpl.
  eapply wp_Leaf_set_array; [simpl; apply lookup_insert_eq | reflexivity|]. simpl.
  split; [done|]. unfold GetPageId. rewrite Hrid.
  apply map_eq. intros i.
  destruct (decide (i = self)) as [-> | ?]; [by rewrite !lookup_insert_eq|].
  rewrite !(lookup_insert_ne _ self) by done.
  destruct (decide (i = recipient)) as [-> | ?]; [by rewrite !lookup_insert_eq|].
  by rewrite !(lookup_insert_ne _ recipient) by done.
Qed.

(** [Split] of a leaf that holds one pair more than its maximal size. *)
Lemma Split_leaf_returns node p next array t (s : St) :
  transaction_ s = Some t ->
  pages_ s !! node = Some p -> payload_ p = LeafArray next array ->
  Z.of_nat (length array) = max_size_ p + 1 -> node <> next_page_id_ s ->
  wp (BPlusTree.Split leaf_max_size internal_max_size node)
     (fun r s' =>
        r = next_page_id_ s /\ root_page_id_ s' = root_page_id_ s /\
        next_page_id_ s' = next_page_id_ s + 1 /\
        transaction_ s' = Some (SetPageSet (page_set_ t ++ [next_page_id_ s]) t) /\
        pages_ s' =
          <[node := set_payload
                      (LeafArray (next_page_id_ s)
                         (take (Z.to_nat ((max_size_ p + 1) ÷ 2)) array)) p]>
            (<[next_page_id_ s :=
                 {| max_size_ := leaf_max_size; parent_page_id_ := parent_page_id_ p;
                    page_id_ := next_page_id_ s;
                    payload_ := LeafArray next
                                  (drop (Z.to_nat ((max_size_ p + 1) ÷ 2)) array) |}]>
               (pages_ s))) s.
Proof.
  intros Ht Hp Hpl Hlen Hne. unfold BPlusTree.Split.
  apply wp_bind, wp_NewPage.
  apply wp_bind. eapply wp_AddIntoPageSet; [exact Ht|].
  apply wp_bind. eapply wp_page_at; [exact Hp|].
  unfold IsLeafPage. rewrite Hpl.
  apply wp_bind. apply wp_bind. unfold LeafPage.Init. apply wp_store_page.
  eapply wp_mono.
  { eapply (Leaf_MoveHalfTo_returns node (next_page_id_ s));
      [cbn; rewrite lookup_insert_ne by done; exact Hp | exact Hpl | exact Hlen
      | cbn; apply lookup_insert_eq | reflexivity | reflexivity | exact Hne]. }
  intros ? s' [(Hr & Hn & Htx) Hpages]. apply wp_ret.
  split; [done|]. split; [exact Hr|]. split; [exact Hn|]. split; [exact Htx|].
  rewrite Hpages. cbn.
  apply map_eq. intros i.
  destruct (decide (i = node)) as [-> | ?]; [by rewrite !lookup_insert_eq|].
  rewrite !(lookup_insert_ne _ node) by done.
  destruct (decide (i = next_page_id_ s)) as [-> | ?]; [by rewrite !lookup_insert_eq|].
  by rewrite !(lookup_insert_ne _ (next_page_id_ s)) by done.
Qed.

(** [Split] of an internal page that holds one slot more than its maximal
    size: the children of the upper half are given their new parent. *)
Lemma Split_internal_returns node p A t (s : St) :
  transaction_ s = Some t ->
  pages_ s !! node = Some p -> payload_ p = InternalArray A ->
  Z.of_nat (length A) = max_size_ p + 1 -> node <> next_page_id_ s ->
  (forall x, x ∈ (drop (Z.to_nat ((max_size_ p + 1) ÷ 2)) A).*2 ->
     is_Some (pages_ s !! x) /\ x <> node /\ x <> next_page_id_ s) ->
  wp (BPlusTree.Split leaf_max_size internal_max_size node)
     (fun r s' =>
        r = next_page_id_ s /\ root_page_id_ s' = root_page_id_ s /\
        next_page_id_ s' = next_page_id_ s + 1 /\
        transaction_ s' = Some (SetPageSet (page_set_ t ++ [next_page_id_ s]) t) /\
        forall id, pages_ s' !! id =
          if bool_decide (id = node)
          then Some (set_payload (InternalArray (take (Z.to_nat ((max_size_ p + 1) ÷ 2)) A)) p)
          else if bool_decide (id = next_page_id_ s)
          then Some {| max_size_ := internal_max_size; parent_page_id_ := parent_page_id_ p;
                       page_id_ := next_page_id_ s;
                       payload_ := InternalArray
                                     (drop (Z.to_nat ((max_size_ p + 1) ÷ 2)) A) |}
          else if bool_decide (id ∈ (drop (Z.to_nat ((max_size_ p + 1) ÷ 2)) A).*2)
          then set_parent (next_page_id_ s) <$> pages_ s !! id
          else pages_ s !! id) s.
Proof.
  intros Ht Hp Hpl Hlen Hne Hmoved. unfold BPlusTree.Split.
  apply wp_bind, wp_NewPage.
  apply wp_bind. eapply wp_AddIntoPageSet; [exact Ht|].
  apply wp_bind. eapply wp_page_at; [exact Hp|].
  unfold IsLeafPage. rewrite Hpl.
  apply wp_bind. apply wp_bind. unfold InternalPage.Init. apply wp_store_page.
  eapply wp_mono.
  { eapply (Internal_MoveHalfTo_returns node (next_page_id_ s));
      [cbn; rewrite lookup_insert_ne by done; exact Hp | exact Hpl | exact Hlen
      | cbn; apply lookup_insert_eq | reflexivity | reflexivity | exact Hne |].
    intros x Hx. destruct (Hmoved x Hx) as (Hex & Hxn & Hxr).
    split; [|done]. cbn. by rewrite lookup_insert_ne. }
  intros ? s' [(Hr & Hn & Htx) Hpages]. apply wp_ret.
  split; [done|]. split; [exact Hr|]. split; [exact Hn|]. split; [exact Htx|].
  intros id. rewrite Hpages. cbn.
  destruct (bool_decide (id = node)); [done|].
  destruct (decide (id = next_page_id_ s)) as [-> | Hid].
  { rewrite !(bool_decide_eq_true_2 (next_page_id_ s = next_page_id_ s)) by done. done. }
  rewrite !(bool_decide_eq_false_2 _ Hid). by rewrite lookup_insert_ne.
Qed.

End Splits.

(** ** Insertion: the ancestors of a node that was split *)

Section Ancestors.
Import BPlusTreePage.
Context {Key : Type}.
Variable comparator : Key -> Key -> Z.
Variable leaf_max_size internal_max_size : Z.
Variable IsSafe : OpType -> BPlusTreePage Key -> bool.

Hypothesis comparator_sym : forall a b, comparator a b < 0 <-> 0 < comparator b a.
Hypothesis comparator_trans :
  forall a b c, comparator a b <= 0 -> comparator b c <= 0 -> comparator a c <= 0.

Abbreviation St := (State Key).
Abbreviation Page := (BPlusTreePage Key).

(** The bounds of a node: the separators next to it in its ancestors;
    [None] when there is none on that side. *)
Definition lt_lo (lo : option Key) (k : Key) : Prop :=
  match lo with Some l => comparator l k < 0 | None => True end.

Definition le_lo (lo : option Key) (k : Key) : Prop :=
  match lo with Some l => comparator l k <= 0 | None => True end.

Definition lt_hi (k : Key) (hi : option Key) : Prop :=
  match hi with Some h => comparator k h < 0 | None => True end.

(** The bounds of the child behind the last slot of [pre], in a node with
    the bounds [lo] and [hi] whose slots after slot 0 are [pre ++ post]. *)
Definition slot_lo (lo : option Key) (pre : list (Key * page_id_t)) : option Key :=
  match last pre with Some (k, _) => Some k | None => lo end.

Definition slot_hi (hi : option Key) (post : list (Key * page_id_t)) : option Key :=
  match post with (k, _) :: _ => Some k | [] => hi end.

Definition within (lo hi : option Key) (kv : Key * page_id_t) : Prop :=
  lt_lo lo kv.1 /\ lt_hi kv.1 hi.

(** [above P key child clo chi anc]: [anc] are the ancestors of [child],
    its parent first and the root last; in each of them the scan for [key]
    arrives at the node below, and [clo], [chi] are the bounds of [child]. *)
Inductive above (P : gmap page_id_t Page) (key : Key)
  : page_id_t -> option Key -> option Key -> list page_id_t -> Prop :=
| above_root child : above P key child None None []
| above_cons child clo chi a anc p k0 v0 pre post lo hi :
    P !! a = Some p -> page_id_ p = a ->
    parent_page_id_ p = hd INVALID_PAGE_ID anc ->
    payload_ p = InternalArray ((k0, v0) :: pre ++ post) ->
    Z.of_nat (length ((k0, v0) :: pre ++ post)) <= max_size_ p ->
    NoDup ((k0, v0) :: pre ++ post).*2 ->
    ascending comparator (pre ++ post) ->
    Forall (within lo hi) (pre ++ post) ->
    passes comparator key pre -> stops comparator key post ->
    child = last_value pre v0 ->
    clo = slot_lo lo pre -> chi = slot_hi hi post ->
    (forall c, c ∈ ((k0, v0) :: pre ++ post).*2 ->
       exists pc, P !! c = Some pc /\ parent_page_id_ pc = a) ->
    above P key a lo hi anc ->
    above P key child clo chi (a :: anc).

Lemma above_cons_inv P key child clo chi a anc :
  above P key child clo chi (a :: anc) ->
  exists p k0 v0 pre post lo hi,
    P !! a = Some p /\ page_id_ p = a /\
    parent_page_id_ p = hd INVALID_PAGE_ID anc /\
    payload_ p = InternalArray ((k0, v0) :: pre ++ post) /\
    Z.of_nat (length ((k0, v0) :: pre ++ post)) <= max_size_ p /\
    NoDup ((k0, v0) :: pre ++ post).*2 /\
    ascending comparator (pre ++ post) /\
    Forall (within lo hi) (pre ++ post) /\
    passes comparator key pre /\ stops comparator key post /\
    child = last_value pre v0 /\
    clo = slot_lo lo pre /\ chi = slot_hi hi post /\
    (forall c, c ∈ ((k0, v0) :: pre ++ post).*2 ->
       exists pc, P !! c = Some pc /\ parent_page_id_ pc = a) /\
    above P key a lo hi anc.
Proof.
  inversion 1; subst. eexists _, _, _, _, _, _, _.
  repeat (split; [eassumption || reflexivity|]). assumption.
Qed.

Lemma above_stable P P' key child clo chi anc :
  above P key child clo chi anc ->
  (forall a, a ∈ anc -> P' !! a = P !! a) ->
  (forall a pa A c pc, a ∈ anc -> P !! a = Some pa -> payload_ pa = InternalArray A ->
     c ∈ A.*2 -> P !! c = Some pc -> parent_page_id_ pc = a ->
     exists pc', P' !! c = Some pc' /\ parent_page_id_ pc' = a) ->
  above P' key child clo chi anc.
Proof.
  induction 1 as [child | child clo chi a anc p k0 v0 pre post lo hi
                    Hp Hid Hpar Hpl Hlen Hnd Hasc Hwithin Hpass Hstop Hchild Hclo Hchi Hch Habove IH];
    intros Hsame Hkids.
  - constructor.
  - eapply above_cons; eauto.
    + rewrite Hsame; [done | by left].
    + intros c Hc. destruct (Hch c Hc) as (pc & Hpc & Hpp).
      eapply Hkids; [by left | exact Hp | exact Hpl | exact Hc | exact Hpc | exact Hpp].
    + apply IH.
      * intros a' Ha'. apply Hsame. by right.
      * intros a' pa' A' c pc Ha'. apply Hkids. by right.
Qed.

(** Every ancestor points to the next one, the root to no page. *)
Lemma above_parents P key child clo chi anc a :
  above P key child clo chi anc -> a ∈ anc ->
  exists pa, P !! a = Some pa /\ page_id_ pa = a /\
             (parent_page_id_ pa = INVALID_PAGE_ID \/ parent_page_id_ pa ∈ anc).
Proof.
  induction 1 as [child | child clo chi a' anc p k0 v0 pre post lo hi
                    Hp Hid Hpar Hpl Hlen Hnd Hasc Hwithin Hpass Hstop Hchild Hclo Hchi Hch Habove IH];
    intros Ha.
  - by apply elem_of_nil in Ha.
  - apply elem_of_cons in Ha as [-> | Ha].
    + exists p. split; [done|]. split; [done|]. rewrite Hpar.
      destruct anc as [|a2 anc]; [by left | right; simpl; right; by left].
    + destruct (IH Ha) as (pa & ? & ? & [? | ?]); exists pa;
        (split; [done|]; split; [done|]); [by left | right; by right].
Qed.

Lemma above_children P key child clo chi anc a pa A c :
  above P key child clo chi anc -> a ∈ anc ->
  P !! a = Some pa -> payload_ pa = InternalArray A -> c ∈ A.*2 ->
  exists pc, P !! c = Some pc /\ parent_page_id_ pc = a.
Proof.
  induction 1 as [child | child clo chi a' anc p k0 v0 pre post lo hi
                    Hp Hid Hpar Hpl Hlen Hnd Hasc Hwithin Hpass Hstop Hchild Hclo Hchi Hch Habove IH];
    intros Ha Hpa HA Hc.
  - by apply elem_of_nil in Ha.
  - destruct (decide (a = a')) as [-> | Hne].
    + rewrite Hp in Hpa. injection Hpa as <-. rewrite Hpl in HA. injection HA as <-.
      by apply Hch.
    + apply elem_of_cons in Ha as [? | Ha]; [done|]. by apply IH.
Qed.

(** The last of the ancestors, or the node itself when it has none. *)
Definition root_of (child : page_id_t) (anc : list page_id_t) : page_id_t :=
  default child (last anc).

Lemma root_of_cons child a anc : root_of child (a :: anc) = root_of a anc.
Proof. unfold root_of. rewrite last_cons. by destruct (last anc). Qed.

(** The path from the root down to [child], continued by the path below
    it. *)
Lemma above_subpath P key child clo chi anc leaf array below :
  above P key child clo chi anc ->
  subpath comparator P key child leaf array below ->
  exists below',
    subpath comparator P key (root_of child anc) leaf array below' /\
    length below' = (length anc + length below)%nat.
Proof.
  intros Habove. revert below.
  induction Habove as [child | child clo chi a anc p k0 v0 pre post lo hi
                    Hp Hid Hpar Hpl Hlen Hnd Hasc Hwithin Hpass Hstop Hchild Hclo Hchi Hch Habove IH];
    intros below Hsub.
  - exists below. done.
  - destruct (IH (a :: below)) as (below' & Hsub' & Hlen').
    { eapply subpath_step; [exact Hp | exact Hpl | | exact Hsub].
      rewrite Hchild. by apply Lookup_decomposed. }
    exists below'. split.
    + by rewrite root_of_cons.
    + rewrite Hlen'. simpl. lia.
Qed.

(** The slot of the new sibling fits between the slots next to it. *)
Lemma separator_slot lo hi pre post sep (new : page_id_t) k0 (v0 : page_id_t) :
  ascending comparator (pre ++ post) -> Forall (within lo hi) (pre ++ post) ->
  NoDup ((k0, v0) :: pre ++ post).*2 -> new ∉ ((k0, v0) :: pre ++ post).*2 ->
  lt_lo (slot_lo lo pre) sep -> lt_hi sep (slot_hi hi post) ->
  ascending comparator (pre ++ (sep, new) :: post) /\
  Forall (within lo hi) (pre ++ (sep, new) :: post) /\
  NoDup ((k0, v0) :: pre ++ (sep, new) :: post).*2.
Proof.
  intros Hasc Hwithin Hnd Hnew Hlo Hhi.
  apply ascending_app in Hasc as (Hcross & Hpre & Hpost).
  apply Forall_app in Hwithin as [Hwpre Hwpost].
  assert (Ha : forall x, x ∈ pre -> key_lt comparator x (sep, new)).
  { intros x Hx. unfold slot_lo in Hlo.
    destruct (last pre) as [[kl vl]|] eqn:Hlast.
    - apply last_Some in Hlast as [pre0 ->].
      apply elem_of_app in Hx as [Hx | Hx].
      + apply ascending_app in Hpre as (Hc0 & _ & _).
        pose proof (Hc0 x (kl, vl) Hx ltac:(by left)) as Hlt.
        unfold key_lt in *. simpl in *.
        by eapply (comparator_lt_trans' comparator comparator_sym comparator_trans).
      + apply list_elem_of_singleton in Hx as ->. exact Hlo.
    - apply last_None in Hlast as ->. by apply elem_of_nil in Hx. }
  assert (Hb : forall y, y ∈ post -> key_lt comparator (sep, new) y).
  { intros y Hy. unfold slot_hi in Hhi. destruct post as [|[kf vf] post]; [by apply elem_of_nil in Hy|].
    apply elem_of_cons in Hy as [-> | Hy]; [exact Hhi|].
    apply ascending_cons in Hpost as [Hf _]. rewrite Forall_forall in Hf.
    pose proof (Hf y Hy) as Hlt. unfold key_lt in *. simpl in *.
    by eapply (comparator_lt_trans' comparator comparator_sym comparator_trans). }
  split; [|split].
  - apply ascending_app. split; [|split; [done|]].
    + intros x1 x2 H1 H2. apply elem_of_cons in H2 as [-> | H2]; [by apply Ha | by apply Hcross].
    + apply ascending_cons. split; [by apply Forall_forall | done].
  - apply Forall_app. split; [done|]. apply Forall_cons. split; [|done].
    split; simpl.
    + unfold slot_lo in Hlo. destruct (last pre) as [[kl vl]|] eqn:Hlast; [|exact Hlo].
      apply last_Some in Hlast as [pre0 ->].
      apply Forall_app in Hwpre as [_ Hl]. apply Forall_cons in Hl as [[Hl _] _].
      simpl in Hl. destruct lo as [l|]; [|done]. simpl in *.
      by eapply (comparator_lt_trans' comparator comparator_sym comparator_trans).
    + unfold slot_hi in Hhi. destruct post as [|[kf vf] post]; [exact Hhi|].
      apply Forall_cons in Hwpost as [[_ Hh] _].
      simpl in Hh. destruct hi as [h|]; [|done]. simpl in *.
      by eapply (comparator_lt_trans' comparator comparator_sym comparator_trans).
  - change (((k0, v0) :: pre ++ (sep, new) :: post).*2)
      with ((((k0, v0) :: pre) ++ (sep, new) :: post).*2).
    rewrite fmap_app, fmap_cons. simpl.
    assert (Hperm : (v0 :: pre.*2) ++ new :: post.*2 ≡ₚ new :: (v0 :: pre.*2) ++ post.*2)
      by (symmetry; apply Permutation_middle).
    simpl in Hperm. rewrite Hperm. apply NoDup_cons. split.
    + simpl in Hnew. by rewrite fmap_app in Hnew.
    + simpl in Hnd. by rewrite fmap_app in Hnd.
Qed.

(** What the insertion has reached when the descent for [key] from the
    root ends, after at most [n] pages, in the leaf [leaf] with the slots
    [array]. *)
Definition reaches (key : Key) (leaf : page_id_t) (array : list (Key * RID)) (n : nat)
    (s : St) : Prop :=
  txn_ok s /\ root_page_id_ s <> INVALID_PAGE_ID /\
  exists below, subpath comparator (pages_ s) key (root_page_id_ s) leaf array below /\
                (length below <= n)%nat.

(** Every page has an id between the header page and the next id to
    allocate. *)
Definition ids_below_next (s : St) : Prop :=
  forall id, is_Some (pages_ s !! id) -> 0 < id < next_page_id_ s.

Lemma InsertIntoParent_root key leaf array fuel old sep new below (s : St) po pn :
  txn_ok s -> ids_below_next s ->
  pages_ s !! old = Some po -> page_id_ po = old -> parent_page_id_ po = INVALID_PAGE_ID ->
  pages_ s !! new = Some pn -> page_id_ pn = new -> new <> old ->
  subpath comparator (pages_ s) key (if comparator key sep <? 0 then old else new)
    leaf array below ->
  wp (BPlusTree.InsertIntoParent leaf_max_size internal_max_size (S fuel) old sep new)
     (fun _ s' => reaches key leaf array (length below + 1) s') s.
Proof.
  intros Htx Hids Hpo Hoid Hopar Hpn Hnid Hne Hsub. simpl.
  apply wp_bind. eapply wp_page_at; [exact Hpo|].
  apply wp_bind. eapply wp_page_at; [exact Hpn|].
  unfold IsRootPage. rewrite Hopar. rewrite Z.eqb_refl.
  pose proof (Hids old ltac:(eauto)) as Hold.
  pose proof (Hids new ltac:(eauto)) as Hnew.
  set (r := next_page_id_ s) in *.
  apply wp_bind, wp_NewPage. fold r.
  apply wp_bind, wp_modify.
  apply wp_bind. unfold InternalPage.Init. apply wp_store_page. cbn.
  apply wp_bind. unfold InternalPage.PopulateNewRoot.
  eapply wp_Internal_set_array; [cbn; apply lookup_insert_eq | reflexivity|]. cbn.
  apply wp_bind. eapply wp_SetParentPageId;
    [cbn; rewrite !lookup_insert_ne by lia; exact Hpo|]. cbn.
  apply wp_bind. eapply wp_SetParentPageId;
    [cbn; rewrite !lookup_insert_ne by lia; exact Hpn|]. cbn.
  apply wp_bind. unfold BPlusTree.UpdateRootPageId.
  apply wp_bind. unfold BPlusTree.FetchHeaderPage. apply wp_modify.
  apply wp_bind, wp_modify. apply wp_UnpinPage. cbn.
  eapply wp_UnpinPage_of; [cbn; rewrite !lookup_insert_ne by lia; apply lookup_insert_eq|].
  split; [exact Htx|]. cbn. split; [unfold INVALID_PAGE_ID; lia|].
  exists (r :: below). split; [|simpl; lia].
  unfold GetPageId. rewrite Hoid, Hnid.
  eapply subpath_step with (next := if comparator key sep <? 0 then old else new).
  - rewrite !lookup_insert_ne by lia. apply lookup_insert_eq.
  - reflexivity.
  - simpl. destruct (comparator key sep <? 0); reflexivity.
  - eapply subpath_stable; [exact Hsub|].
    intros x Hx.
    assert (Hxr : x <> r).
    { pose proof (Hids x (subpath_exists _ _ _ _ _ _ _ _ Hsub Hx)). lia. }
    destruct (decide (x = new)) as [-> | Hxn].
    { rewrite lookup_insert_eq, Hpn. done. }
    rewrite lookup_insert_ne by done.
    destruct (decide (x = old)) as [-> | Hxo].
    { rewrite lookup_insert_eq, Hpo. done. }
    rewrite !lookup_insert_ne by done. done.
Qed.

Lemma reaches_mono key leaf array n m (s : St) :
  reaches key leaf array n s -> (n <= m)%nat -> reaches key leaf array m s.
Proof.
  intros (Htx & Hroot & below & Hsub & Hlen) Hnm. split; [done|]. split; [done|].
  exists below. split; [done | lia].
Qed.

Lemma InsertIntoParent_returns key leaf array anc :
  forall fuel old sep new clo chi below (s : St) po pn,
  (length anc < fuel)%nat ->
  txn_ok s -> ids_below_next s ->
  pages_ s !! old = Some po -> page_id_ po = old ->
  parent_page_id_ po = hd INVALID_PAGE_ID anc ->
  pages_ s !! new = Some pn -> page_id_ pn = new ->
  NoDup (old :: anc) -> new ∉ old :: anc ->
  (forall a pa A, a ∈ anc -> pages_ s !! a = Some pa -> payload_ pa = InternalArray A ->
     new ∉ A.*2) ->
  above (pages_ s) key old clo chi anc ->
  root_page_id_ s = root_of old anc ->
  lt_lo clo sep -> lt_hi sep chi ->
  subpath comparator (pages_ s) key (if comparator key sep <? 0 then old else new)
    leaf array below ->
  (forall x, x ∈ below -> x ∉ anc) ->
  wp (BPlusTree.InsertIntoParent leaf_max_size internal_max_size fuel old sep new)
     (fun _ s' => reaches key leaf array (length below + length anc + 1) s') s.
Proof.
  induction anc as [|a1 anc IH];
    intros fuel old sep new clo chi below s po pn Hfuel Htx Hids Hpo Hoid Hopar Hpn Hnid
      Hnd Hnew Hfresh Habove Hroot Hlo Hhi Hsub Hdisj.
  - destruct fuel as [|fuel]; [simpl in Hfuel; lia|].
    eapply wp_mono.
    { eapply InsertIntoParent_root; eauto.
      intros ->. apply Hnew. by left. }
    intros ? s' Hr. eapply reaches_mono; [exact Hr | simpl; lia].
  - destruct fuel as [|fuel]; [simpl in Hfuel; lia|].
    destruct (above_cons_inv _ _ _ _ _ _ _ Habove)
      as (pa & k0 & v0 & pre & post & lo & hi & Hpa & Haid & Hapar & Hapl & Hlen & HndA
          & Hasc & Hwithin & Hpass & Hstop & Hchild & Hclo & Hchi & Hch & Habove').
    destruct (insert_after_decomposed k0 v0 pre post sep new HndA) as [Hidx Hins].
    rewrite <- Hchild in Hidx, Hins. rewrite Hclo in Hlo. rewrite Hchi in Hhi.
    set (A := (k0, v0) :: pre ++ post) in *.
    pose proof (Hids a1 ltac:(eauto)) as Ha1pos.
    assert (Hoa : old <> a1).
    { intros Heq. apply NoDup_cons in Hnd as [Hnd _]. apply Hnd. rewrite Heq. by left. }
    assert (Hna : new <> a1) by (intros ->; apply Hnew; right; by left).
    assert (Hno : new <> old) by (intros ->; apply Hnew; by left).
    assert (HnewA : new ∉ A.*2) by (eapply Hfresh; [by left | exact Hpa | exact Hapl]).
    destruct (separator_slot lo hi pre post sep new k0 v0 Hasc Hwithin HndA HnewA Hlo Hhi)
      as (Hasc' & Hwithin' & Hnd').
    set (A' := (k0, v0) :: pre ++ (sep, new) :: post) in *.
    simpl.
    apply wp_bind. eapply wp_page_at; [exact Hpo|].
    apply wp_bind. eapply wp_page_at; [exact Hpn|].
    unfold IsRootPage, GetParentPageId. rewrite Hopar. cbn [hd].
    destruct (a1 =? INVALID_PAGE_ID) eqn:Hb;
      [apply Z.eqb_eq in Hb; unfold INVALID_PAGE_ID in Hb; lia|]. clear Hb.
    cbv zeta.
    apply wp_bind. eapply wp_FetchPage; [exact Hpa|].
    apply wp_bind. eapply wp_SetParentPageId; [cbn; exact Hpn|].
    apply wp_bind. eapply wp_mono.
    { eapply (InsertNodeAfter_returns a1 _ sep _ pa A);
        [cbn; rewrite lookup_insert_ne by done; exact Hpa | exact Hapl|].
      unfold GetPageId. rewrite Hoid, Hidx. lia. }
    intros ? s2' ->. unfold GetPageId. rewrite Hoid, Hnid, Hins.
    set (pa' := set_payload (InternalArray A') pa).
    match goal with |- wp _ _ ?st => set (s2 := st) end.
    assert (Hp2 : forall id, pages_ s2 !! id =
                    if bool_decide (id = a1) then Some pa'
                    else if bool_decide (id = new) then Some (set_parent a1 pn)
                    else pages_ s !! id).
    { intros id. subst s2. cbn.
      destruct (decide (id = a1)) as [-> | Hid].
      { rewrite bool_decide_eq_true_2 by done. apply lookup_insert_eq. }
      rewrite (bool_decide_eq_false_2 _ Hid). rewrite lookup_insert_ne by done.
      destruct (decide (id = new)) as [-> | Hid'].
      { rewrite bool_decide_eq_true_2 by done. apply lookup_insert_eq. }
      rewrite (bool_decide_eq_false_2 _ Hid'). by rewrite lookup_insert_ne. }
    assert (Hdom2 : forall id, is_Some (pages_ s2 !! id) -> is_Some (pages_ s !! id)).
    { intros id. rewrite Hp2. repeat case_bool_decide; subst; eauto. }
    assert (Hr2 : root_page_id_ s2 = root_page_id_ s) by done.
    assert (Hn2 : next_page_id_ s2 = next_page_id_ s) by done.
    assert (Ht2 : transaction_ s2 = transaction_ s) by done.
    clearbody s2.
    assert (Hpa2 : pages_ s2 !! a1 = Some pa').
    { rewrite Hp2. by rewrite bool_decide_eq_true_2. }
    (* the pages below keep their slots *)
    assert (Hsub2 : subpath comparator (pages_ s2) key a1 leaf array (a1 :: below)).
    { eapply subpath_step with (next := if comparator key sep <? 0 then old else new).
      - exact Hpa2.
      - reflexivity.
      - subst A'. rewrite Hchild. by apply Lookup_insert_after.
      - eapply subpath_stable; [exact Hsub|]. intros x Hx. rewrite Hp2.
        rewrite bool_decide_eq_false_2
          by (intros ->; apply (Hdisj _ Hx); by left).
        destruct (decide (x = new)) as [-> | Hxn].
        + rewrite bool_decide_eq_true_2 by done. rewrite Hpn. done.
        + by rewrite bool_decide_eq_false_2. }
    (* the ancestors further up are as they were *)
    assert (Habove2 : above (pages_ s2) key a1 lo hi anc).
    { eapply above_stable; [exact Habove' | |].
      - intros b Hb. rewrite Hp2.
        rewrite bool_decide_eq_false_2.
        2:{ intros ->. apply NoDup_cons in Hnd as [_ Hnd].
            apply NoDup_cons in Hnd as [Hnd _]. done. }
        rewrite bool_decide_eq_false_2; [done|].
        intros ->. apply Hnew. right. by right.
      - intros b pa0 A0 c pc Ha Hpa0 HA0 Hc Hpc Hpar. rewrite Hp2.
        destruct (decide (c = a1)) as [-> | Hca].
        { rewrite bool_decide_eq_true_2 by done. exists pa'. split; [done|].
          subst pa'. cbn. rewrite Hpa in Hpc. by injection Hpc as <-. }
        rewrite (bool_decide_eq_false_2 _ Hca).
        rewrite bool_decide_eq_false_2; [eauto|].
        intros ->. eapply Hfresh; [right; exact Ha | exact Hpa0 | exact HA0 | exact Hc]. }
    apply wp_bind. eapply wp_page_at; [exact Hpa2|].
    apply wp_bind. apply wp_when.
    + intros Hbig. apply Z.ltb_lt in Hbig. unfold GetMaxSize, GetSize in Hbig. cbn in Hbig.
      assert (HlenA' : length A' = S (length A)).
      { subst A' A. cbn. rewrite !length_app. cbn. lia. }
      change (max_size_ pa < Z.of_nat (length A')) in Hbig.
      assert (Hfull : Z.of_nat (length A') = max_size_ pa' + 1).
      { change (max_size_ pa') with (max_size_ pa). lia. }
      assert (Hmax : 1 <= max_size_ pa) by (subst A; cbn in Hlen; lia).
      set (rest' := pre ++ (sep, new) :: post) in *.
      set (c := Z.to_nat ((max_size_ pa' + 1) ÷ 2)) in *.
      assert (Hc : (1 <= c < length A')%nat).
      { subst c. cbn [max_size_ pa' set_payload].
        rewrite Z.quot_div_nonneg by lia.
        pose proof (Z.div_mod (max_size_ pa + 1) 2 ltac:(lia)).
        pose proof (Z.mod_pos_bound (max_size_ pa + 1) 2 ltac:(lia)). lia. }
      destruct c as [|c0] eqn:Hceq; [lia|].
      assert (Hc0 : (c0 < length rest')%nat) by (subst A'; cbn in Hc; lia).
      destruct (lookup_lt_is_Some_2 rest' c0 Hc0) as [[sk vc] Hsk].
      assert (Hdrop : drop (S c0) A' = (sk, vc) :: drop (S c0) rest').
      { subst A'. cbn [drop]. by apply drop_S. }
      assert (Htake : take (S c0) A' = (k0, v0) :: take c0 rest') by done.
      assert (HinA' : forall x, x ∈ A'.*2 -> x = new \/ x ∈ A.*2).
      { intros x. subst A' A rest'. cbn. rewrite !fmap_app. cbn.
        rewrite !elem_of_cons, !elem_of_app, !elem_of_cons. tauto. }
      assert (Hmoved : forall x, x ∈ (drop (S c0) A').*2 -> x ∈ A'.*2).
      { intros x Hx. apply list_elem_of_fmap in Hx as (y & -> & Hy).
        apply list_elem_of_fmap. exists y. split; [done|].
        rewrite <- (take_drop (S c0) A'). apply elem_of_app. by right. }
      assert (Ha1anc : a1 ∉ anc).
      { apply NoDup_cons in Hnd as [_ Hnd]. by apply NoDup_cons in Hnd as [Hnd _]. }
      assert (Hkid : forall x, x ∈ A.*2 ->
                exists pc, pages_ s !! x = Some pc /\ parent_page_id_ pc = a1 /\ x <> a1).
      { intros x Hx. destruct (Hch x Hx) as (pc & Hpc & Hpp). exists pc.
        split; [done|]. split; [done|]. intros ->.
        rewrite Hpa in Hpc. injection Hpc as <-. rewrite Hapar in Hpp.
        destruct anc as [|a2 anc']; cbn in Hpp;
          [unfold INVALID_PAGE_ID in Hpp; lia|].
        apply Ha1anc. rewrite <- Hpp. by left. }
      destruct Htx as (t & Ht & Hd).
      apply wp_bind. eapply wp_mono.
      { eapply (Split_internal_returns leaf_max_size internal_max_size a1 pa' A' t s2);
          [by rewrite Ht2 | exact Hpa2 | reflexivity | exact Hfull | rewrite Hn2; lia|].
        fold c. rewrite Hceq. intros x Hx. apply Hmoved, HinA' in Hx as [-> | Hx].
        - split; [|split; [done | rewrite Hn2; pose proof (Hids new ltac:(eauto)); lia]].
          rewrite Hp2. rewrite bool_decide_eq_false_2 by done.
          rewrite bool_decide_eq_true_2 by done. eauto.
        - destruct (Hkid x Hx) as (pc & Hpc & Hpp & Hxa).
          split; [|split; [done | rewrite Hn2; pose proof (Hids x ltac:(eauto)); lia]].
          rewrite Hp2. rewrite (bool_decide_eq_false_2 _ Hxa).
          case_bool_decide; eauto. }
      fold c. rewrite Hceq.
      intros r s6 (-> & Hr6 & Hn6 & Ht6 & Hp6).
      set (n' := next_page_id_ s2) in *.
      assert (Hn'pos : n' = next_page_id_ s) by (subst n'; exact Hn2).
      set (pnew := {| max_size_ := internal_max_size; parent_page_id_ := parent_page_id_ pa';
                      page_id_ := n'; payload_ := InternalArray (drop (S c0) A') |}) in *.
      assert (Hn'a : n' <> a1) by lia.
      assert (Hp6a : pages_ s6 !! a1
                     = Some (set_payload (InternalArray (take (S c0) A')) pa')).
      { rewrite Hp6. by rewrite bool_decide_eq_true_2. }
      assert (Hp6n : pages_ s6 !! n' = Some pnew).
      { rewrite Hp6. rewrite (bool_decide_eq_false_2 _ Hn'a).
        by rewrite bool_decide_eq_true_2. }
      assert (Hdom6 : forall id, is_Some (pages_ s6 !! id) ->
                        id = n' \/ is_Some (pages_ s !! id)).
      { intros id. rewrite Hp6.
        repeat case_bool_decide; subst; eauto;
          rewrite ?fmap_is_Some; intros Hex; right; by apply Hdom2. }
      assert (Hpay6 : forall x, x <> a1 -> x <> n' ->
                        payload_ <$> pages_ s6 !! x = payload_ <$> pages_ s !! x).
      { intros x Hxa Hxn. rewrite Hp6.
        rewrite (bool_decide_eq_false_2 _ Hxa), (bool_decide_eq_false_2 _ Hxn).
        assert (Hp2x : payload_ <$> pages_ s2 !! x = payload_ <$> pages_ s !! x).
        { rewrite Hp2. rewrite (bool_decide_eq_false_2 _ Hxa).
          case_bool_decide; [subst x; by rewrite Hpn | done]. }
        case_bool_decide; [|done]. rewrite <- Hp2x.
        by destruct (pages_ s2 !! x). }
      assert (Hanc6 : forall b, b ∈ anc -> pages_ s6 !! b = pages_ s !! b).
      { intros b Hb.
        destruct (above_parents _ _ _ _ _ _ b Habove' Hb) as (pb & Hpb & Hbid & Hbpar).
        pose proof (Hids b ltac:(eauto)) as Hbpos.
        assert (Hba : b <> a1) by (intros ->; done).
        assert (Hbn : b <> new) by (intros ->; apply Hnew; right; by right).
        rewrite Hp6. rewrite (bool_decide_eq_false_2 _ Hba).
        rewrite bool_decide_eq_false_2 by lia.
        rewrite bool_decide_eq_false_2.
        - rewrite Hp2. rewrite (bool_decide_eq_false_2 _ Hba).
          by rewrite (bool_decide_eq_false_2 _ Hbn).
        - intros Hin. apply Hmoved, HinA' in Hin as [-> | Hin]; [done|].
          destruct (Hkid b Hin) as (pc & Hpc & Hpp & _).
          rewrite Hpb in Hpc. injection Hpc as <-.
          destruct Hbpar as [Hinv | Hin']; [unfold INVALID_PAGE_ID in Hinv; lia|].
          apply Ha1anc. by rewrite <- Hpp. }
      (* the separator that goes up *)
      unfold InternalPage.KeyAt.
      apply wp_bind. apply wp_bind.
      eapply wp_internal_at; [exact Hp6n | reflexivity|]. cbn [snd].
      apply wp_bind, wp_check.
      { rewrite Hdrop. cbn. done. }
      rewrite Hdrop. cbn [Z.to_nat lookup list_lookup]. apply wp_ret.
      eapply wp_mono.
      { eapply (IH fuel a1 sk n' lo hi
                  ((if comparator key sk <? 0 then a1 else n') :: below) s6).
        - simpl in Hfuel. lia.
        - exists (SetPageSet (page_set_ t ++ [n']) t). split; [exact Ht6 | exact Hd].
        - intros id Hid. rewrite Hn6. destruct (Hdom6 id Hid) as [-> | Hex]; [lia|].
          apply Hids in Hex. lia.
        - exact Hp6a.
        - exact Haid.
        - exact Hapar.
        - exact Hp6n.
        - reflexivity.
        - apply NoDup_cons in Hnd as [_ Hnd]. exact Hnd.
        - intros Hin. apply elem_of_cons in Hin as [? | Hin]; [done|].
          destruct (above_parents _ _ _ _ _ _ n' Habove' Hin) as (pb & Hpb & _).
          pose proof (Hids n' ltac:(eauto)). lia.
        - intros b pb Ab Hb Hpb HAb Hin. rewrite (Hanc6 b Hb) in Hpb.
          destruct (above_children _ _ _ _ _ _ _ _ _ _ Habove' Hb Hpb HAb Hin) as (pc & Hpc & _).
          pose proof (Hids n' ltac:(eauto)). lia.
        - eapply above_stable; [exact Habove' | exact Hanc6 |].
          intros b pb Ab x pc Hb Hpb HAb Hx Hpc Hpp.
          assert (Hba : b <> a1) by (intros ->; done).
          rewrite Hp6.
          destruct (decide (x = a1)) as [-> | Hxa].
          { rewrite bool_decide_eq_true_2 by done. eexists. split; [reflexivity|].
            cbn. rewrite Hpa in Hpc. by injection Hpc as <-. }
          rewrite (bool_decide_eq_false_2 _ Hxa).
          pose proof (Hids x ltac:(eauto)) as Hxpos.
          rewrite bool_decide_eq_false_2 by lia.
          assert (Hxnew : x <> new).
          { intros ->. eapply Hfresh; [right; exact Hb | exact Hpb | exact HAb | exact Hx]. }
          rewrite bool_decide_eq_false_2.
          + rewrite Hp2. rewrite (bool_decide_eq_false_2 _ Hxa).
            rewrite (bool_decide_eq_false_2 _ Hxnew). eauto.
          + intros Hin. apply Hmoved, HinA' in Hin as [-> | Hin]; [done|].
            destruct (Hkid x Hin) as (pc' & Hpc' & Hpp' & _).
            rewrite Hpc in Hpc'. injection Hpc' as <-. congruence.
        - rewrite Hr6, Hr2, Hroot. apply root_of_cons.
        - assert (Hw : within lo hi (sk, vc)).
          { rewrite Forall_forall in Hwithin'. apply Hwithin'.
            eapply list_elem_of_lookup_2; exact Hsk. }
          apply Hw.
        - assert (Hw : within lo hi (sk, vc)).
          { rewrite Forall_forall in Hwithin'. apply Hwithin'.
            eapply list_elem_of_lookup_2; exact Hsk. }
          apply Hw.
        - pose proof (Lookup_split comparator comparator_sym comparator_trans
                        key k0 v0 rest' c0 sk vc Hasc' Hsk) as HL.
          assert (HLA : InternalPage.Lookup comparator A' key
                        = Some (if comparator key sep <? 0 then old else new)).
          { subst A' rest'. rewrite Hchild. by apply Lookup_insert_after. }
          fold A' in HL. rewrite HLA in HL.
          assert (Hbelow6 : subpath comparator (pages_ s6) key
                              (if comparator key sep <? 0 then old else new) leaf array below).
          { eapply subpath_stable; [exact Hsub|]. intros x Hx. apply Hpay6.
            - intros ->. apply (Hdisj _ Hx). by left.
            - pose proof (Hids x (subpath_exists _ _ _ _ _ _ _ _ Hsub Hx)). lia. }
          destruct (comparator key sk <? 0).
          + eapply subpath_step; [exact Hp6a | reflexivity | exact HL | exact Hbelow6].
          + eapply subpath_step; [exact Hp6n | reflexivity | exact HL | exact Hbelow6].
        - intros x Hx. apply elem_of_cons in Hx as [-> | Hx].
          + destruct (comparator key sk <? 0); [done|].
            intros Hin.
            destruct (above_parents _ _ _ _ _ _ n' Habove' Hin) as (pb & Hpb & _).
            pose proof (Hids n' ltac:(eauto)). lia.
          + intros Hin. apply (Hdisj _ Hx). by right. }
      intros ? s7 (Htx7 & Hroot7 & below7 & Hsub7 & Hlen7).
      apply wp_UnpinPage. split; [exact Htx7|]. split; [exact Hroot7|].
      exists below7. split; [exact Hsub7|]. simpl in Hlen7 |- *. lia.
    + intros Hfits. apply wp_UnpinPage.
      split; [|split].
      * destruct Htx as (t & Ht & Hd). exists t. cbn. rewrite Ht2. done.
      * cbn. rewrite Hr2, Hroot, root_of_cons.
        destruct (above_subpath _ _ _ _ _ _ _ _ _ Habove2 Hsub2) as (below' & Hb' & _).
        apply subpath_head in Hb'. apply Hdom2, Hids in Hb'.
        unfold INVALID_PAGE_ID. lia.
      * cbn. rewrite Hr2, Hroot, root_of_cons.
        destruct (above_subpath _ _ _ _ _ _ _ _ _ Habove2 Hsub2) as (below' & Hb' & Hl').
        exists below'. split; [exact Hb'|]. rewrite Hl'. simpl. lia.
Qed.

(** *** Well-formed trees *)

Definition leaf_within (lo hi : option Key) (kv : Key * RID) : Prop :=
  le_lo lo kv.1 /\ lt_hi kv.1 hi.

(** [subtree P h parent id lo hi]: the page [id] is the root of a tree of
    height [h] whose leaves are all at the same depth; every node carries
    its page id and the id of its parent, holds no more slots than its
    maximal size, in strictly ascending order of their keys and with
    distinct children; the keys of the node lie between the bounds [lo] and
    [hi], which for a child are the separators next to its slot. *)
Inductive subtree (P : gmap page_id_t Page)
  : nat -> page_id_t -> page_id_t -> option Key -> option Key -> Prop :=
| subtree_leaf parent id p next array lo hi :
    P !! id = Some p -> page_id_ p = id -> parent_page_id_ p = parent ->
    payload_ p = LeafArray next array ->
    0 < max_size_ p -> Z.of_nat (length array) <= max_size_ p ->
    ascending comparator array ->
    Forall (leaf_within lo hi) array ->
    subtree P 0 parent id lo hi
| subtree_internal h parent id p k0 v0 rest lo hi :
    P !! id = Some p -> page_id_ p = id -> parent_page_id_ p = parent ->
    payload_ p = InternalArray ((k0, v0) :: rest) ->
    Z.of_nat (length ((k0, v0) :: rest)) <= max_size_ p ->
    NoDup ((k0, v0) :: rest).*2 ->
    ascending comparator rest ->
    Forall (within lo hi) rest ->
    (forall pre kc c post, (k0, v0) :: rest = pre ++ (kc, c) :: post ->
       subtree P h id c (match pre with [] => lo | _ => Some kc end) (slot_hi hi post)) ->
    subtree P (S h) parent id lo hi.

(** A well-formed tree of height [h], in an operation that has a
    transaction. *)
Definition well_formed (s : St) (h : nat) : Prop :=
  txn_ok s /\ ids_below_next s /\ 0 < next_page_id_ s /\
  (root_page_id_ s = INVALID_PAGE_ID \/
   subtree (pages_ s) h INVALID_PAGE_ID (root_page_id_ s) None None).

Lemma subtree_page P h parent id lo hi :
  subtree P h parent id lo hi ->
  exists p, P !! id = Some p /\ page_id_ p = id /\ parent_page_id_ p = parent.
Proof. destruct 1; eauto. Qed.

Lemma subtree_height_unique P h parent id lo hi h' parent' lo' hi' :
  subtree P h parent id lo hi -> subtree P h' parent' id lo' hi' -> h = h'.
Proof.
  intros H. revert h' parent' lo' hi'.
  induction H as [parent id p next array lo hi Hp Hid Hpar Hpl Hmax Hlen Hasc Hw
                 | h parent id p k0 v0 rest lo hi Hp Hid Hpar Hpl Hlen Hnd Hasc Hw Hch IH];
    intros h' parent' lo' hi' H'.
  - inversion H' as [? ? p' ? ? ? ? Hp' | ? ? ? p' ? ? ? ? ? Hp' ? ? Hpl']; subst; [done|].
    rewrite Hp in Hp'. injection Hp' as <-. congruence.
  - inversion H' as [? ? p' ? ? ? ? Hp' ? ? Hpl' | ? ? ? p' k0' v0' rest' ? ? Hp' ? ? Hpl' ? ? ? ? Hch'];
      subst.
    + rewrite Hp in Hp'. injection Hp' as <-. congruence.
    + rewrite Hp in Hp'. injection Hp' as <-. rewrite Hpl in Hpl'.
      injection Hpl' as <- <- <-. f_equal.
      eapply (IH [] k0 v0 rest eq_refl). exact (Hch' [] k0 v0 rest eq_refl).
Qed.

(** The slot the scan arrives at, as a slot of the page. *)
Lemma last_slot k0 (v0 : page_id_t) (pre : list (Key * page_id_t)) :
  exists pre' kc, (k0, v0) :: pre = pre' ++ [(kc, last_value pre v0)] /\
    match pre' with [] => pre = [] | _ => slot_lo None pre = Some kc end.
Proof.
  destruct (last pre) as [[kl vl]|] eqn:Hlast.
  - apply last_Some in Hlast as Hpre. destruct Hpre as [pre0 ->].
    exists ((k0, v0) :: pre0), kl. unfold last_value, slot_lo. rewrite Hlast. done.
  - apply last_None in Hlast as ->. exists [], k0. done.
Qed.

(** What the descent for [key] from the node [id] of height [h], below the
    ancestors [anc], arrives at. *)
Definition descent_facts (P : gmap page_id_t Page) (key : Key) (id : page_id_t) (h : nat)
    (anc : list page_id_t) : Prop :=
  exists leaf p next array clo chi anc_leaf below,
    P !! leaf = Some p /\ page_id_ p = leaf /\
    parent_page_id_ p = hd INVALID_PAGE_ID anc_leaf /\
    payload_ p = LeafArray next array /\
    0 < max_size_ p /\ Z.of_nat (length array) <= max_size_ p /\
    ascending comparator array /\ Forall (leaf_within clo chi) array /\
    le_lo clo key /\ lt_hi key chi /\
    above P key leaf clo chi anc_leaf /\ NoDup (leaf :: anc_leaf) /\
    subpath comparator P key id leaf array below /\ length below = S h /\
    root_of leaf anc_leaf = root_of id anc /\
    length anc_leaf = (h + length anc)%nat.

Lemma subtree_descent P key h parent id lo hi :
  subtree P h parent id lo hi ->
  forall anc,
    above P key id lo hi anc -> parent = hd INVALID_PAGE_ID anc ->
    le_lo lo key -> lt_hi key hi ->
    (forall a, a ∈ anc ->
       exists ha par lo' hi', (h < ha)%nat /\ subtree P ha par a lo' hi') ->
    NoDup anc ->
    descent_facts P key id h anc.
Proof.
  induction 1 as [parent id p next array lo hi Hp Hid Hpar Hpl Hmax Hlen Hasc Hw
                 | h parent id p k0 v0 rest lo hi Hp Hid Hpar Hpl Hlen Hnd Hasc Hw Hch IH];
    intros anc Habove Hparent Hlo Hhi Hheights Hnodup.
  - exists id, p, next, array, lo, hi, anc, [id].
    repeat (split; [first [done | congruence]|]).
    split; [|split; [|split; [done|split; done]]].
    + apply NoDup_cons. split; [|done]. intros Hin.
      destruct (Hheights id Hin) as (ha & par & lo' & hi' & Hlt & Hsub).
      inversion Hsub as [| ? ? ? p' ? ? ? ? ? Hp' ? ? Hpl']; subst; [lia|].
      rewrite Hp in Hp'. injection Hp' as <-. congruence.
    + eapply subpath_leaf; eauto.
  - destruct (scan_decomposition comparator key rest) as (pre & post & Hrest & Hpass & Hstop).
    destruct (last_slot k0 v0 pre) as (pre' & kc & Heq & Hcase).
    set (child := last_value pre v0) in *.
    assert (Harr : (k0, v0) :: rest = pre' ++ (kc, child) :: post).
    { rewrite Hrest. change ((k0, v0) :: pre ++ post) with (((k0, v0) :: pre) ++ post).
      rewrite Heq. by rewrite <- app_assoc. }
    assert (Hclo : match pre' with [] => lo | _ => Some kc end = slot_lo lo pre).
    { destruct pre' as [|x pre'].
      - subst pre. done.
      - unfold slot_lo in *. destruct (last pre) as [[kl vl]|]; [|done].
        by injection Hcase as ->. }
    pose proof (Hch pre' kc child post Harr) as Hchild. rewrite Hclo in Hchild.
    assert (Hnid : id ∉ anc).
    { intros Hin. destruct (Hheights id Hin) as (ha & par & lo' & hi' & Hlt & Hsub).
      assert (Hthis : subtree P (S h) parent id lo hi)
        by (eapply subtree_internal; eauto).
      pose proof (subtree_height_unique _ _ _ _ _ _ _ _ _ _ Hthis Hsub). lia. }
    assert (Habove' : above P key child (slot_lo lo pre) (slot_hi hi post) (id :: anc)).
    { eapply (above_cons P key child _ _ id anc p k0 v0 pre post lo hi);
        rewrite <- ?Hrest; try first [done | congruence].
      intros c Hc.
        apply list_elem_of_fmap in Hc as ([kc' c'] & -> & Hin).
        apply list_elem_of_split in Hin as (pre1 & post1 & Hsplit).
        destruct (subtree_page _ _ _ _ _ _ (Hch pre1 kc' c' post1 Hsplit)) as (pc & ? & _ & ?).
        eauto. }
    destruct (IH pre' kc child post Harr (id :: anc)) as
      (leaf & pl & next & array & clo & chi & anc_leaf & below &
       H1 & H2 & H3 & H4 & H5 & H6 & H7 & H8 & H9 & H10 & H11 & H12 & H13 & H14 & H15 & H16).
    + by rewrite Hclo.
    + done.
    + rewrite Hclo. unfold slot_lo.
      destruct (last pre) as [[kl vl]|] eqn:Hlast; [|exact Hlo].
      apply last_Some in Hlast as [pre0 ->].
      apply Forall_app in Hpass as [_ Hp0]. apply Forall_cons in Hp0 as [Hp0 _].
      simpl in *. by apply (comparator_ge_le comparator comparator_sym).
    + unfold slot_hi. destruct post as [|[kf vf] post]; [exact Hhi | exact Hstop].
    + intros a Ha. apply elem_of_cons in Ha as [-> | Ha].
      * exists (S h), parent, lo, hi. split; [lia|]. eapply subtree_internal; eauto.
      * destruct (Hheights a Ha) as (ha & par & lo' & hi' & Hlt & Hsub).
        exists ha, par, lo', hi'. split; [lia | done].
    + apply NoDup_cons. done.
    + exists leaf, pl, next, array, clo, chi, anc_leaf, (id :: below).
      repeat (split; [done|]).
      split; [|split; [simpl; lia|split]].
      * eapply subpath_step; [exact Hp | exact Hpl | | exact H13].
        rewrite Hrest. by apply Lookup_decomposed.
      * rewrite H15. apply root_of_cons.
      * rewrite H16. simpl. lia.
Qed.

(** *** [GetValue] and [Insert] on a well-formed tree *)

Lemma reaches_same_tree key leaf array n (s s' : St) :
  reaches key leaf array n s -> same_tree s s' -> reaches key leaf array n s'.
Proof.
  intros (_ & Hroot & below & Hsub & Hlen) (Hp & Hr & _ & Htx).
  split; [done|]. split; [congruence|]. exists below. rewrite Hp, Hr. done.
Qed.

(** [GetValue] returns what [Lookup] finds in the leaf the descent ends
    in. *)
Lemma GetValue_returns key leaf array n fuel (s : St) :
  reaches key leaf array n s -> (n <= fuel)%nat ->
  wp (BPlusTree.GetValue comparator IsSafe fuel key)
     (fun r s' => r = LeafPage.array_lookup comparator array key /\ same_tree s s') s.
Proof.
  intros (Htx & Hroot & below & Hsub & Hlen) Hfuel. unfold BPlusTree.GetValue.
  destruct (subpath_last _ _ _ _ _ _ _ Hsub) as (p & next & Hp & Hpl & _).
  apply wp_bind. eapply wp_mono.
  { eapply FindLeafPage_returns; [exact Htx | exact Hroot | exact Hsub | lia]. }
  intros r s1 [-> Hs1]. pose proof Hs1 as (Hp1 & _ & _ & Htx1).
  apply wp_bind. unfold LeafPage.Lookup.
  apply wp_bind. eapply wp_leaf_at; [rewrite Hp1; exact Hp | exact Hpl|].
  apply wp_ret. cbn [snd].
  apply wp_bind. eapply wp_page_at; [rewrite Hp1; exact Hp|].
  apply wp_bind. eapply wp_mono; [by apply FreePagesInTransaction_returns|].
  intros ? s2 Hs2. apply wp_ret. split; [done|]. by eapply same_tree_trans.
Qed.

(** [Insert] into the empty tree. *)
Lemma Insert_empty_returns key value fuel (s : St) :
  txn_ok s -> 0 < next_page_id_ s -> root_page_id_ s = INVALID_PAGE_ID ->
  wp (BPlusTree.Insert comparator leaf_max_size internal_max_size IsSafe fuel key value)
     (fun b s' => b = true /\ reaches key (next_page_id_ s) [(key, value)] 1 s') s.
Proof.
  intros Htx Hnext Hroot. unfold BPlusTree.Insert.
  apply wp_bind. unfold BPlusTree.IsEmpty. apply wp_gets. rewrite Hroot, Z.eqb_refl.
  apply wp_bind. unfold BPlusTree.LockRootPageId. apply wp_modify.
  apply wp_bind. unfold BPlusTree.StartNewTree.
  apply wp_bind, wp_NewPage. cbn.
  set (id := next_page_id_ s).
  apply wp_bind. unfold LeafPage.Init. apply wp_store_page. cbn.
  apply wp_bind, wp_modify.
  apply wp_bind. unfold BPlusTree.UpdateRootPageId.
  apply wp_bind. unfold BPlusTree.FetchHeaderPage. apply wp_modify.
  apply wp_bind, wp_modify. apply wp_UnpinPage. cbn.
  apply wp_bind. unfold LeafPage.Insert.
  apply wp_bind. eapply wp_leaf_at; [cbn; apply lookup_insert_eq | reflexivity|]. cbn [snd].
  apply wp_bind. eapply wp_Leaf_set_array; [cbn; apply lookup_insert_eq | reflexivity|].
  apply wp_ret. apply wp_UnpinPage.
  apply wp_bind. unfold BPlusTree.TryUnlockRootPageId. apply wp_modify.
  apply wp_ret. split; [done|].
  assert (Hgoal : forall s' : St,
            transaction_ s' = transaction_ s -> root_page_id_ s' = id ->
            pages_ s' !! id
            = Some {| max_size_ := leaf_max_size; parent_page_id_ := INVALID_PAGE_ID;
                      page_id_ := id;
                      payload_ := LeafArray INVALID_PAGE_ID [(key, value)] |} ->
            reaches key id [(key, value)] 1 s').
  { intros s' Ht Hr Hp. split; [|split].
    - destruct Htx as (t & ? & ?). exists t. by rewrite Ht.
    - rewrite Hr. unfold INVALID_PAGE_ID. subst id. lia.
    - exists [id]. split; [|done]. rewrite Hr. eapply subpath_leaf; [exact Hp | reflexivity]. }
  match goal with |- reaches _ _ _ _ (if ?b then _ else _) => destruct b end;
    apply Hgoal; cbn; try done; rewrite insert_insert_eq; apply lookup_insert_eq.
Qed.

(** What [Insert] has done when it returns [true]: the descent for [key]
    ends in a leaf that holds the pair. *)
Definition inserted (key : Key) (value : RID) (n : nat) (s : St) : Prop :=
  exists leaf array,
    reaches key leaf array n s /\ ascending comparator array /\ (key, value) ∈ array.

Lemma Insert_nonempty_returns key value fuel h (s : St) :
  well_formed s h -> root_page_id_ s <> INVALID_PAGE_ID -> (h + 2 <= fuel)%nat ->
  exists leaf array,
    reaches key leaf array (S h) s /\ ascending comparator array /\
    match LeafPage.array_lookup comparator array key with
    | Some _ =>
        wp (BPlusTree.Insert comparator leaf_max_size internal_max_size IsSafe fuel key value)
           (fun b s' => b = false /\ same_tree s s') s
    | None =>
        wp (BPlusTree.Insert comparator leaf_max_size internal_max_size IsSafe fuel key value)
           (fun b s' => b = true /\ inserted key value (S (S h)) s') s
    end.
Proof.
  intros (Htx & Hids & Hnext & Htree) Hroot Hfuel.
  destruct Htree as [? | Htree]; [done|].
  destruct (subtree_descent _ key _ _ _ _ _ Htree [] (above_root _ _ _) eq_refl I I)
    as (leaf & p & next & array & clo & chi & anc & below &
        Hp & Hid & Hpar & Hpl & Hmax & Hlen & Hasc & Hw & Hlo & Hhi & Habove & Hnd & Hsub
        & Hbl & Hrootof & Hanc).
  { intros a Ha. by apply elem_of_nil in Ha. }
  { constructor. }
  cbn in Hrootof, Hanc. rewrite Nat.add_0_r in Hanc.
  assert (Hreach : reaches key leaf array (S h) s).
  { split; [done|]. split; [done|]. exists below. split; [done | lia]. }
  exists leaf, array. split; [exact Hreach|]. split; [exact Hasc|].
  assert (Hstart : forall Φ,
            (forall s1, same_tree s s1 ->
               wp (let* exist := LeafPage.Lookup comparator leaf key in
                   match exist with
                   | Some _ => BPlusTree.FreePagesInTransaction true (-1) >> ret false
                   | None =>
                       let* _ := LeafPage.Insert comparator leaf key value in
                       let* p := page_at leaf in
                       when (GetMaxSize p <? GetSize p)
                         (let* newLeafPage :=
                            BPlusTree.Split leaf_max_size internal_max_size leaf in
                          let* k0 := LeafPage.KeyAt newLeafPage 0 in
                          BPlusTree.InsertIntoParent leaf_max_size internal_max_size fuel
                            leaf k0 newLeafPage) >>
                       BPlusTree.FreePagesInTransaction true (-1) >> ret true
                   end)%M Φ s1) ->
            wp (BPlusTree.Insert comparator leaf_max_size internal_max_size IsSafe
                  fuel key value) Φ s).
  { intros Φ HΦ. unfold BPlusTree.Insert.
    apply wp_bind. unfold BPlusTree.IsEmpty. apply wp_gets.
    destruct (root_page_id_ s =? INVALID_PAGE_ID) eqn:Hb; [by apply Z.eqb_eq in Hb|].
    unfold BPlusTree.InsertIntoLeaf.
    apply wp_bind. eapply wp_mono.
    { eapply FindLeafPage_returns; [exact Htx | exact Hroot | exact Hsub | lia]. }
    intros r s1 [-> Hs1]. by apply HΦ. }
  destruct (LeafPage.array_lookup comparator array key) as [v|] eqn:Hlook.
  - (* the key is there *)
    apply Hstart. intros s1 Hs1. pose proof Hs1 as (Hp1 & _ & _ & Htx1).
    apply wp_bind. unfold LeafPage.Lookup.
    apply wp_bind. eapply wp_leaf_at; [rewrite Hp1; exact Hp | exact Hpl|].
    apply wp_ret. cbn [snd]. rewrite Hlook.
    apply wp_bind. eapply wp_mono; [by apply FreePagesInTransaction_returns|].
    intros ? s2 Hs2. apply wp_ret. split; [done|]. by eapply same_tree_trans.
  - (* the key is new *)
    apply Hstart. intros s1 Hs1. pose proof Hs1 as (Hp1 & Hr1 & Hn1 & Htx1).
    apply wp_bind. unfold LeafPage.Lookup.
    apply wp_bind. eapply wp_leaf_at; [rewrite Hp1; exact Hp | exact Hpl|].
    apply wp_ret. cbn [snd]. rewrite Hlook.
    set (array' := LeafPage.array_insert comparator array key value).
    assert (Hasc' : ascending comparator array')
      by (by apply array_insert_ascending).
    assert (Hin' : (key, value) ∈ array') by (apply elem_of_array_insert; by left).
    assert (Hlen' : length array' = S (length array)) by apply length_array_insert.
    assert (Hw' : Forall (leaf_within clo chi) array').
    { apply Forall_forall. intros x Hx. apply elem_of_array_insert in Hx as [-> | Hx].
      - split; done.
      - rewrite Forall_forall in Hw. by apply Hw. }
    apply wp_bind. unfold LeafPage.Insert.
    apply wp_bind. eapply wp_leaf_at; [rewrite Hp1; exact Hp | exact Hpl|]. cbn [snd].
    fold array'.
    apply wp_bind. eapply wp_Leaf_set_array; [rewrite Hp1; exact Hp | exact Hpl|].
    apply wp_ret.
    set (p2 := set_payload (LeafArray next array') p).
    match goal with |- wp _ _ ?st => set (s2 := st) end.
    assert (Hp2 : forall id, pages_ s2 !! id
                  = if bool_decide (id = leaf) then Some p2 else pages_ s !! id).
    { intros id. subst s2. cbn. rewrite Hp1. case_bool_decide as Hideq.
      - subst id. apply lookup_insert_eq.
      - by rewrite lookup_insert_ne. }
    assert (Hr2 : root_page_id_ s2 = root_page_id_ s) by (subst s2; cbn; congruence).
    assert (Hn2 : next_page_id_ s2 = next_page_id_ s) by (subst s2; cbn; congruence).
    assert (Htx2 : txn_ok s2) by (subst s2; exact Htx1).
    clearbody s2.
    assert (Hp2l : pages_ s2 !! leaf = Some p2).
    { rewrite Hp2. by rewrite bool_decide_eq_true_2. }
    apply wp_bind. eapply wp_page_at; [exact Hp2l|].
    assert (Hleafanc : leaf ∉ anc) by (by apply NoDup_cons in Hnd as [? _]).
    apply wp_bind. apply wp_when.
    + (* the leaf is split *)
      intros Hbig. apply Z.ltb_lt in Hbig. unfold GetMaxSize, GetSize in Hbig.
      cbn in Hbig. fold array' in Hbig.
      assert (Hfull : Z.of_nat (length array') = max_size_ p2 + 1).
      { change (max_size_ p2) with (max_size_ p). lia. }
      set (c := Z.to_nat ((max_size_ p2 + 1) ÷ 2)) in *.
      assert (Hc : (1 <= c < length array')%nat).
      { subst c. change (max_size_ p2) with (max_size_ p).
        rewrite Z.quot_div_nonneg by lia.
        pose proof (Z.div_mod (max_size_ p + 1) 2 ltac:(lia)).
        pose proof (Z.mod_pos_bound (max_size_ p + 1) 2 ltac:(lia)). lia. }
      destruct (lookup_lt_is_Some_2 array' c ltac:(lia)) as [[sk sv] Hsk].
      destruct (lookup_lt_is_Some_2 array' 0 ltac:(lia)) as [[kf vf] Hkf].
      assert (Hdrop : drop c array' = (sk, sv) :: drop (S c) array') by (by apply drop_S).
      pose proof Htx2 as (t2 & Ht2 & Hd2).
      pose proof (Hids leaf ltac:(eauto)) as Hleafpos.
      apply wp_bind. eapply wp_mono.
      { eapply (Split_leaf_returns leaf_max_size internal_max_size leaf p2 next array' t2 s2);
          [exact Ht2 | exact Hp2l | reflexivity | exact Hfull | rewrite Hn2; lia]. }
      fold c. intros r s3 (-> & Hr3 & Hn3 & Ht3 & Hp3).
      set (n' := next_page_id_ s2) in *.
      assert (Hn' : n' = next_page_id_ s) by (subst n'; exact Hn2).
      set (po := set_payload (LeafArray n' (take c array')) p2) in *.
      set (pn := {| max_size_ := leaf_max_size; parent_page_id_ := parent_page_id_ p2;
                    page_id_ := n'; payload_ := LeafArray next (drop c array') |}) in *.
      assert (Hp3' : forall id, pages_ s3 !! id
                     = if bool_decide (id = leaf) then Some po
                       else if bool_decide (id = n') then Some pn else pages_ s !! id).
      { intros id. rewrite Hp3. case_bool_decide as Hideq.
        - subst id. apply lookup_insert_eq.
        - rewrite lookup_insert_ne by done. case_bool_decide as Hideq'.
          + subst id. apply lookup_insert_eq.
          + rewrite lookup_insert_ne by done. rewrite Hp2.
            by rewrite bool_decide_eq_false_2. }
      clear Hp3.
      assert (Hp3l : pages_ s3 !! leaf = Some po).
      { rewrite Hp3'. by rewrite bool_decide_eq_true_2. }
      assert (Hp3n : pages_ s3 !! n' = Some pn).
      { rewrite Hp3'. rewrite bool_decide_eq_false_2 by lia.
        by rewrite bool_decide_eq_true_2. }
      assert (Hanc3 : forall a, a ∈ anc -> pages_ s3 !! a = pages_ s !! a).
      { intros a Ha.
        destruct (above_parents _ _ _ _ _ _ a Habove Ha) as (pa & Hpa & _).
        pose proof (Hids a ltac:(eauto)).
        rewrite Hp3'. rewrite bool_decide_eq_false_2 by (intros ->; done).
        rewrite bool_decide_eq_false_2 by lia. done. }
      unfold LeafPage.KeyAt.
      apply wp_bind. apply wp_bind.
      eapply wp_leaf_at; [exact Hp3n | reflexivity|]. cbn [snd].
      apply wp_bind, wp_check.
      { rewrite Hdrop. cbn. done. }
      rewrite Hdrop. cbn [Z.to_nat lookup list_lookup]. apply wp_ret.
      (* the separator lies inside the bounds of the leaf *)
      assert (Hsklo : lt_lo clo sk).
      { assert (Hlt : comparator kf sk < 0).
        { apply (strictly_ascending_pairs comparator
                   (comparator_lt_trans' comparator comparator_sym comparator_trans)
                   array' (ascending_strictly_ascending _ _ Hasc') 0 c kf vf sk sv);
            [lia | done | done]. }
        rewrite Forall_forall in Hw'.
        destruct (Hw' (kf, vf) ltac:(eapply list_elem_of_lookup_2; eauto)) as [Hl _].
        unfold lt_lo, le_lo in *. destruct clo as [l|]; [|done]. simpl in Hl.
        by eapply (comparator_le_lt_trans comparator comparator_sym comparator_trans). }
      assert (Hskhi : lt_hi sk chi).
      { rewrite Forall_forall in Hw'.
        by destruct (Hw' (sk, sv) ltac:(eapply list_elem_of_lookup_2; eauto)) as [_ Hh]. }
      pose proof (ascending_split_elem_of comparator comparator_sym
                    array' c sk sv _ key value Hasc' Hdrop Hin') as Hhalf.
      set (t := if comparator key sk <? 0 then leaf else n').
      set (final := if comparator key sk <? 0 then take c array' else drop c array').
      assert (Hfinal : subpath comparator (pages_ s3) key t t final [t]).
      { subst t final. destruct (comparator key sk <? 0).
        - eapply subpath_leaf; [exact Hp3l | reflexivity].
        - eapply subpath_leaf; [exact Hp3n | reflexivity]. }
      assert (Hascf : ascending comparator final).
      { subst final. destruct (comparator key sk <? 0);
          [by apply ascending_take | by apply ascending_drop]. }
      eapply wp_mono.
      { eapply (InsertIntoParent_returns key t final anc fuel leaf sk n' clo chi [t] s3 po pn).
        - lia.
        - exists (SetPageSet (page_set_ t2 ++ [n']) t2). split; [exact Ht3 | exact Hd2].
        - intros id Hex. rewrite Hn3. rewrite Hp3' in Hex.
          repeat case_bool_decide; subst; try lia.
          apply Hids in Hex. lia.
        - exact Hp3l.
        - exact Hid.
        - exact Hpar.
        - exact Hp3n.
        - reflexivity.
        - exact Hnd.
        - intros Hin. apply elem_of_cons in Hin as [? | Hin]; [lia|].
          destruct (above_parents _ _ _ _ _ _ n' Habove Hin) as (pa & Hpa & _).
          pose proof (Hids n' ltac:(eauto)). lia.
        - intros a pa A Ha Hpa HA Hin. rewrite (Hanc3 a Ha) in Hpa.
          destruct (above_children _ _ _ _ _ _ _ _ _ _ Habove Ha Hpa HA Hin) as (pc & Hpc & _).
          pose proof (Hids n' ltac:(eauto)). lia.
        - eapply above_stable; [exact Habove | exact Hanc3|].
          intros a pa A x pc Ha Hpa HA Hx Hpc Hpp. rewrite Hp3'.
          case_bool_decide as Hxl.
          + subst x. eexists. split; [reflexivity|]. cbn.
            rewrite Hp in Hpc. by injection Hpc as <-.
          + pose proof (Hids x ltac:(eauto)).
            rewrite bool_decide_eq_false_2 by lia. eauto.
        - rewrite Hr3, Hr2. by rewrite Hrootof.
        - exact Hsklo.
        - exact Hskhi.
        - exact Hfinal.
        - intros x Hx. apply list_elem_of_singleton in Hx as ->. subst t.
          destruct (comparator key sk <? 0); [done|]. intros Hin.
          destruct (above_parents _ _ _ _ _ _ n' Habove Hin) as (pa & Hpa & _).
          pose proof (Hids n' ltac:(eauto)). lia. }
      intros ? s4 Hreach4.
      apply wp_bind. eapply wp_mono;
        [apply FreePagesInTransaction_returns; by destruct Hreach4|].
      intros ? s5 Hs5. apply wp_ret. split; [done|].
      exists t, final. split; [|split; [exact Hascf | exact Hhalf]].
      eapply reaches_same_tree; [|exact Hs5].
      eapply reaches_mono; [exact Hreach4|]. simpl. lia.
    + (* the pair fits *)
      intros Hfits.
      apply wp_bind. eapply wp_mono; [by apply FreePagesInTransaction_returns|].
      intros ? s5 Hs5. apply wp_ret. split; [done|].
      exists leaf, array'. split; [|split; [exact Hasc' | exact Hin']].
      eapply reaches_same_tree; [|exact Hs5].
      split; [exact Htx2|]. split; [congruence|].
      assert (Habove2 : above (pages_ s2) key leaf clo chi anc).
      { eapply above_stable; [exact Habove | |].
        - intros b Hb. rewrite Hp2. rewrite bool_decide_eq_false_2; [done|].
          intros ->. done.
        - intros b pb A x pc Hb Hpb HA Hx Hpc Hpp. rewrite Hp2.
          case_bool_decide as Hxl; [|eauto].
          subst x. eexists. split; [reflexivity|]. cbn.
          rewrite Hp in Hpc. by injection Hpc as <-. }
      assert (Hleaf2 : subpath comparator (pages_ s2) key leaf leaf array' [leaf])
        by (eapply subpath_leaf; [exact Hp2l | reflexivity]).
      destruct (above_subpath _ _ _ _ _ _ _ _ _ Habove2 Hleaf2) as (below' & Hb' & Hl').
      exists below'. rewrite Hr2, <- Hrootof. split; [exact Hb'|]. rewrite Hl'. simpl. lia.
Qed.

(** *** The keys stored in the tree *)

(** [holds P key id]: a leaf below the page [id] holds a pair whose key
    compares equal to [key]. *)
Inductive holds (P : gmap page_id_t Page) (key : Key) : page_id_t -> Prop :=
| holds_leaf id p next array k v :
    P !! id = Some p -> payload_ p = LeafArray next array ->
    (k, v) ∈ array -> comparator k key = 0 -> holds P key id
| holds_internal id p A kc c :
    P !! id = Some p -> payload_ p = InternalArray A ->
    (kc, c) ∈ A -> holds P key c -> holds P key id.

(** The key is present in the tree. *)
Definition stored (s : St) (key : Key) : Prop :=
  root_page_id_ s <> INVALID_PAGE_ID /\ holds (pages_ s) key (root_page_id_ s).

Lemma Lookup_elem_of (A : list (Key * page_id_t)) key c :
  InternalPage.Lookup comparator A key = Some c -> exists k, (k, c) ∈ A.
Proof.
  destruct A as [|[k0 v0] rest]; [done|]. simpl. intros [= <-].
  revert k0 v0. induction rest as [|[k v] rest IH]; intros k0 v0; simpl.
  - exists k0. by left.
  - destruct (comparator key k <? 0).
    + exists k0. by left.
    + destruct (IH k v) as [k' Hk']. exists k'. by right.
Qed.

Lemma subpath_holds P key cur leaf array below k v :
  subpath comparator P key cur leaf array below ->
  (k, v) ∈ array -> comparator k key = 0 -> holds P key cur.
Proof.
  induction 1 as [cur p next array Hp Hpl | cur p A next leaf array below Hp Hpl Hl Hsub IH];
    intros Hin Heq.
  - eapply holds_leaf; eauto.
  - destruct (Lookup_elem_of _ _ _ Hl) as [k' Hk'].
    eapply holds_internal; eauto.
Qed.

(** The scan arrives at the slot whose bounds the key lies between. *)
Lemma Lookup_slot key k0 v0 rest pre1 kc c post1 :
  (k0, v0) :: rest = pre1 ++ (kc, c) :: post1 -> ascending comparator rest ->
  (pre1 <> [] -> comparator kc key <= 0) -> stops comparator key post1 ->
  InternalPage.Lookup comparator ((k0, v0) :: rest) key = Some c.
Proof.
  intros Harr Hasc Hlo Hstop. destruct pre1 as [|[kx vx] pre0].
  - simpl in Harr. injection Harr as -> -> ->. simpl. by rewrite lookup_from_stop.
  - simpl in Harr. injection Harr as <- <- ->. specialize (Hlo ltac:(done)).
    replace (pre0 ++ (kc, c) :: post1) with ((pre0 ++ [(kc, c)]) ++ post1)
      by (by rewrite <- app_assoc).
    rewrite Lookup_decomposed; [| |exact Hstop].
    + f_equal. unfold last_value. by rewrite last_snoc.
    + apply Forall_app. split; [|constructor; [|constructor]].
      * apply ascending_app in Hasc as (Hcross & _ & _).
        apply Forall_forall. intros [k' v'] Hin.
        pose proof (Hcross (k', v') (kc, c) Hin ltac:(by left)) as Hlt.
        unfold key_lt in Hlt. simpl in *.
        apply (comparator_ge_le comparator comparator_sym).
        assert (comparator k' key < 0 \/ comparator k' key <= 0) as [? | ?]; [|lia | done].
        left. by eapply (comparator_lt_le_trans comparator comparator_sym comparator_trans).
      * simpl. by apply (comparator_ge_le comparator comparator_sym).
Qed.

(** The keys below a node lie between its bounds. *)
Lemma holds_bounds P key h parent id lo hi :
  subtree P h parent id lo hi -> holds P key id -> le_lo lo key /\ lt_hi key hi.
Proof.
  induction 1 as [parent id p next array lo hi Hp Hid Hpar Hpl Hmax Hlen Hasc Hw
                 | h parent id p k0 v0 rest lo hi Hp Hid Hpar Hpl Hlen Hnd Hasc Hw Hch IH];
    intros Hholds.
  - inversion Hholds as [? p' ? ? k v Hp' Hpl' Hin Heq | ? p' ? ? ? Hp' Hpl']; subst;
      rewrite Hp in Hp'; injection Hp' as <-; rewrite Hpl in Hpl'; [|done].
    injection Hpl' as <- <-.
    rewrite Forall_forall in Hw. destruct (Hw _ Hin) as [Hl Hh]. simpl in Hl, Hh.
    split.
    + unfold le_lo in *. destruct lo as [l|]; [|done].
      apply (comparator_trans l k key); lia.
    + unfold lt_hi in *. destruct hi as [u|]; [|done].
      by apply (comparator_eq_lt_l comparator comparator_sym comparator_trans k key u).
  - inversion Hholds as [? p' ? ? k v Hp' Hpl' | ? p' ? kc c Hp' Hpl' Hin Hc]; subst;
      rewrite Hp in Hp'; injection Hp' as <-; rewrite Hpl in Hpl'; [done|].
    injection Hpl' as <-.
    apply list_elem_of_split in Hin as (pre1 & post1 & Harr).
    destruct (IH pre1 kc c post1 Harr Hc) as [Hl Hh].
    assert (Hin_rest : forall x, pre1 <> [] -> x ∈ (kc, c) :: post1 -> x ∈ rest).
    { intros x Hne Hx. destruct pre1 as [|[ky vy] pre0]; [done|]. simpl in Harr.
      injection Harr as _ _ ->. apply elem_of_app. by right. }
    rewrite Forall_forall in Hw.
    split.
    + destruct pre1 as [|y pre0]; [exact Hl|].
      destruct (Hw (kc, c) (Hin_rest _ ltac:(done) ltac:(by left))) as [Hlo _].
      unfold le_lo, lt_lo in *. simpl in *. destruct lo as [l|]; [|done].
      apply (comparator_trans l kc key); lia.
    + destruct post1 as [|[kf vf] post1]; [exact Hh|]. simpl in Hh.
      assert (Hkf : (kf, vf) ∈ rest).
      { destruct pre1 as [|[ky vy] pre0]; simpl in Harr.
        - injection Harr as _ _ ->. by left.
        - injection Harr as _ _ ->. apply elem_of_app. right. right. by left. }
      destruct (Hw _ Hkf) as [_ Hhi]. unfold lt_hi in *. simpl in *.
      destruct hi as [u|]; [|done].
      by eapply (comparator_lt_trans' comparator comparator_sym comparator_trans).
Qed.

(** On a well-formed tree the descent for a stored key ends in the leaf
    that holds it. *)
Lemma holds_subpath P key h parent id lo hi leaf array below :
  subtree P h parent id lo hi -> holds P key id ->
  subpath comparator P key id leaf array below ->
  exists k v, (k, v) ∈ array /\ comparator k key = 0.
Proof.
  intros Hsub. revert leaf array below.
  induction Hsub as [parent id p next array0 lo hi Hp Hid Hpar Hpl Hmax Hlen Hasc Hw
                 | h parent id p k0 v0 rest lo hi Hp Hid Hpar Hpl Hlen Hnd Hasc Hw Hch IH];
    intros leaf array below Hholds Hpath.
  - inversion Hpath as [? p1 ? ? Hp1 Hpl1 | ? p1 ? ? ? ? ? Hp1 Hpl1]; subst;
      rewrite Hp in Hp1; injection Hp1 as <-; rewrite Hpl in Hpl1; [|done].
    injection Hpl1 as <- <-.
    inversion Hholds as [? p' ? ? k v Hp' Hpl' Hin Heq | ? p' ? ? ? Hp' Hpl']; subst;
      rewrite Hp in Hp'; injection Hp' as <-; rewrite Hpl in Hpl'; [|done].
    injection Hpl' as <- <-. eauto.
  - inversion Hpath as [? p1 ? ? Hp1 Hpl1 | ? p1 A1 next1 ? ? below1 Hp1 Hpl1 Hl1 Hsub1];
      subst; rewrite Hp in Hp1; injection Hp1 as <-; rewrite Hpl in Hpl1; [done|].
    injection Hpl1 as <-.
    inversion Hholds as [? p' ? ? k v Hp' Hpl' | ? p' ? kc c Hp' Hpl' Hin Hc]; subst;
      rewrite Hp in Hp'; injection Hp' as <-; rewrite Hpl in Hpl'; [done|].
    injection Hpl' as <-.
    apply list_elem_of_split in Hin as (pre1 & post1 & Harr).
    pose proof (Hch pre1 kc c post1 Harr) as Hchild.
    destruct (holds_bounds _ _ _ _ _ _ _ Hchild Hc) as [Hl Hh].
    assert (Hlook : InternalPage.Lookup comparator ((k0, v0) :: rest) key = Some c).
    { eapply Lookup_slot; [exact Harr | exact Hasc | |].
      - intros Hne. destruct pre1; [done | exact Hl].
      - destruct post1 as [|[kf vf] post1]; [done | exact Hh]. }
    rewrite Hlook in Hl1. injection Hl1 as <-.
    eapply IH; eauto.
Qed.

(** C3 — unique keys.  On a well-formed tree, in an operation that has a
    transaction, and for a comparator that is a total preorder:
    [Insert(key, value)] returns, and it returns [false] when [key] is
    present in the tree, leaving the pages of the tree and the root as they
    were; it returns [true] when the key is not present, and a [GetValue(key)]
    after it returns and finds [value].  ([fuel] bounds the depth of the
    descent in the model; any bound above the height of the tree plus one
    will do.) *)
Theorem Insert_unique_keys (s : St) (h : nat) (key : Key) (value : RID) (fuel : nat) :
  well_formed s h -> (h + 2 <= fuel)%nat ->
  (stored s key ->
   exists s',
     BPlusTree.Insert comparator leaf_max_size internal_max_size IsSafe fuel key value s
     = Some (false, s') /\
     pages_ s' = pages_ s /\ root_page_id_ s' = root_page_id_ s) /\
  (~ stored s key ->
   exists s' s'',
     BPlusTree.Insert comparator leaf_max_size internal_max_size IsSafe fuel key value s
     = Some (true, s') /\
     BPlusTree.GetValue comparator IsSafe fuel key s' = Some (Some value, s'')).
Proof.
  intros Hwf Hfuel.
  destruct (decide (root_page_id_ s = INVALID_PAGE_ID)) as [Hempty | Hroot].
  - split; [intros [Hne _]; done|]. intros _.
    destruct Hwf as (Htx & _ & Hnext & _).
    destruct (Insert_empty_returns key value fuel s Htx Hnext Hempty)
      as (b & s' & Hrun & -> & Hreach).
    destruct (GetValue_returns key _ _ 1 fuel s' Hreach ltac:(lia))
      as (r & s'' & Hget & -> & _).
    exists s', s''. split; [exact Hrun|]. rewrite Hget. do 2 f_equal.
    apply (array_lookup_found comparator comparator_sym comparator_trans _ key key value).
    + repeat constructor.
    + by left.
    + by apply comparator_refl.
  - destruct (Insert_nonempty_returns key value fuel h s Hwf Hroot Hfuel)
      as (leaf & array & Hreach & Hasc & Hmatch).
    pose proof Hreach as (_ & _ & below & Hsub & _).
    destruct Hwf as (_ & _ & _ & [? | Htree]); [done|].
    split.
    + intros [_ Hholds].
      destruct (holds_subpath _ _ _ _ _ _ _ _ _ _ Htree Hholds Hsub) as (k & v & Hin & Heq).
      rewrite (array_lookup_found comparator comparator_sym comparator_trans
                 _ key k v Hasc Hin Heq) in Hmatch.
      destruct Hmatch as (b & s' & Hrun & -> & Hp & Hr & _).
      exists s'. done.
    + intros Hnot.
      destruct (LeafPage.array_lookup comparator array key) as [v|] eqn:Hlook.
      { exfalso. apply Hnot. split; [done|].
        destruct (array_lookup_Some _ _ _ _ Hlook) as (k & Hin & Heq).
        eapply subpath_holds; eauto. }
      destruct Hmatch as (b & s' & Hrun & -> & leaf' & array' & Hreach' & Hasc' & Hin').
      destruct (GetValue_returns key _ _ _ fuel s' Hreach' ltac:(lia))
        as (r & s'' & Hget & -> & _).
      exists s', s''. split; [exact Hrun|]. rewrite Hget. do 2 f_equal.
      apply (array_lookup_found comparator comparator_sym comparator_trans
               _ key key value Hasc' Hin').
      by apply comparator_refl.
Qed.

End Ancestors.


(** The theorem on the two-leaf tree with the full right leaf [5; 6; 7]:
    the key 6 is there, and an insert of it is refused; the key 8 is not,
    its insert splits the right leaf and a lookup finds it afterwards. *)
Lemma Zcomparator_sym a b : Zcomparator a b < 0 <-> 0 < Zcomparator b a.
Proof. unfold Zcomparator. destruct (Z.ltb_spec a b), (Z.ltb_spec b a); lia. Qed.

Lemma Zcomparator_trans a b c :
  Zcomparator a b <= 0 -> Zcomparator b c <= 0 -> Zcomparator a c <= 0.
Proof.
  unfold Zcomparator.
  destruct (Z.ltb_spec a b), (Z.ltb_spec b a), (Z.ltb_spec b c), (Z.ltb_spec c b),
    (Z.ltb_spec a c), (Z.ltb_spec c a); lia.
Qed.

Definition insert_fixture : BPlusTreePage.State Z :=
  two_leaf_tree [5; 6; 7] (Some (new_Transaction 0)).

Lemma insert_fixture_well_formed : well_formed Zcomparator insert_fixture 1.
Proof.
  split; [|split; [|split]].
  - exists (new_Transaction 0). done.
  - intros id [p Hp]. cbn [BPlusTreePage.pages_ insert_fixture two_leaf_tree] in Hp |- *.
    repeat (rewrite lookup_insert in Hp; case_decide; [subst; cbn; lia|]).
    rewrite lookup_empty in Hp. discriminate.
  - cbn. lia.
  - right. cbn [BPlusTreePage.root_page_id_ BPlusTreePage.pages_ insert_fixture two_leaf_tree].
    eapply (subtree_internal Zcomparator _ 0 _ 3 (internal_page 3 INVALID_PAGE_ID [(5, 1); (5, 2)])
              5 1 [(5, 2)]); try done.
    + cbn. apply NoDup_cons. split; [rewrite list_elem_of_singleton; lia | apply NoDup_singleton].
    + repeat constructor.
    + repeat constructor.
    + intros pre kc c post Heq.
      destruct pre as [|x [|y pre]]; simpl in Heq.
      * injection Heq as <- <- <-.
        eapply (subtree_leaf Zcomparator _ 3 1 (leaf_page 1 3 2 [1; 3; 4])); try done.
        all: repeat constructor; done.
      * injection Heq as _ <- <- <-.
        eapply (subtree_leaf Zcomparator _ 3 2 (leaf_page 2 3 INVALID_PAGE_ID [5; 6; 7]));
          try done.
        all: repeat constructor; done.
      * injection Heq as _ _ Heq. by destruct pre.
Defined.

Lemma insert_fixture_stores_6 : stored Zcomparator insert_fixture 6.
Proof.
  split; [done|].
  eapply (holds_internal Zcomparator _ 6 3 _ _ 5 2); [reflexivity | reflexivity | |].
  - right. by left.
  - eapply (holds_leaf Zcomparator _ 6 2 _ _ _ 6 (6, 6)); [reflexivity | reflexivity | |done].
    right. by left.
Defined.

Lemma insert_fixture_lacks_8 : ~ stored Zcomparator insert_fixture 8.
Proof.
  intros [_ H].
  inversion H as [? p ? ? k v Hp Hpl | ? p A kc c Hp Hpl Hin Hc]; subst;
    vm_compute in Hp; injection Hp as <-; [discriminate|].
  injection Hpl as <-.
  assert (Hleaf : forall c keys next,
            BPlusTreePage.pages_ insert_fixture !! c = Some (leaf_page c 3 next keys) ->
            Forall (fun k => k <> 8) keys -> ~ holds Zcomparator (BPlusTreePage.pages_ insert_fixture) 8 c).
  { intros c' keys next Hpc Hkeys Hh.
    inversion Hh as [? p ? ? k v Hp Hpl Hk Heq | ? p A kc' c'' Hp Hpl]; subst;
      rewrite Hpc in Hp; injection Hp as <-; [|discriminate].
    injection Hpl as <- <-.
    apply list_elem_of_fmap in Hk as (k' & [= -> ->] & Hk').
    rewrite Forall_forall in Hkeys. apply (Hkeys _ Hk').
    unfold Zcomparator in Heq. destruct (Z.ltb_spec k' 8), (Z.ltb_spec 8 k'); lia. }
  apply elem_of_cons in Hin as [[= -> ->] | Hin].
  - eapply (Hleaf 1 [1; 3; 4] 2); [reflexivity | repeat constructor; lia | exact Hc].
  - apply list_elem_of_singleton in Hin as [= -> ->].
    eapply (Hleaf 2 [5; 6; 7] INVALID_PAGE_ID); [reflexivity | repeat constructor; lia | exact Hc].
Defined.

Lemma Insert_unique_keys_witness :
  well_formed Zcomparator insert_fixture 1 /\
  (stored Zcomparator insert_fixture 6 /\
   exists s',
     BPlusTree.Insert Zcomparator 3 3 fixture_IsSafe 8 6 (0, 0) insert_fixture
     = Some (false, s') /\
     BPlusTreePage.pages_ s' = BPlusTreePage.pages_ insert_fixture) /\
  (exists s' s'',
     BPlusTree.Insert Zcomparator 3 3 fixture_IsSafe 8 8 (8, 8) insert_fixture
     = Some (true, s') /\
     BPlusTree.GetValue Zcomparator fixture_IsSafe 8 8 s' = Some (Some (8, 8), s'') /\
     BPlusTreePage.pages_ s' !! 4 = Some (leaf_page 4 3 INVALID_PAGE_ID [7; 8])).
Proof.
  split; [exact insert_fixture_well_formed|].
  split.
  - split; [exact insert_fixture_stores_6|].
    destruct (proj1 (Insert_unique_keys Zcomparator 3 3 fixture_IsSafe
                       Zcomparator_sym Zcomparator_trans insert_fixture 1 6 (0, 0) 8
                       insert_fixture_well_formed ltac:(lia)) insert_fixture_stores_6)
      as (s' & Hrun & Hp & _).
    exists s'. split; [exact Hrun | exact Hp].
  - destruct (proj2 (Insert_unique_keys Zcomparator 3 3 fixture_IsSafe
                       Zcomparator_sym Zcomparator_trans insert_fixture 1 8 (8, 8) 8
                       insert_fixture_well_formed ltac:(lia)) insert_fixture_lacks_8)
      as (s' & s'' & Hrun & Hget).
    exists s', s''. split; [exact Hrun|]. split; [exact Hget|].
    vm_compute in Hrun. injection Hrun as <-. reflexivity.
Defined.


(** ** Leaf pages: insertion, removal and lookup in the slots *)

Section LeafSlots.
Import BPlusTreePage.
Context {Key : Type}.
Variable comparator : Key -> Key -> Z.

Hypothesis comparator_sym : forall a b, comparator a b < 0 <-> 0 < comparator b a.
Hypothesis comparator_trans :
  forall a b c, comparator a b <= 0 -> comparator b c <= 0 -> comparator a c <= 0.

Abbreviation St := (State Key).
Abbreviation Page := (BPlusTreePage Key).
Abbreviation asc := (ascending comparator).
Abbreviation KeyIndex := (LeafPage.KeyIndex comparator).
Abbreviation array_lookup := (LeafPage.array_lookup comparator).
Abbreviation array_insert := (LeafPage.array_insert comparator).
Abbreviation array_remove := (LeafPage.array_remove comparator).

Lemma comparator_eq_trans a b c :
  comparator a b = 0 -> comparator b c = 0 -> comparator a c = 0.
Proof.
  intros H1 H2.
  assert (comparator a c <= 0) by (apply (comparator_trans a b c); lia).
  pose proof (comparator_eq_sym comparator comparator_sym _ _ H1).
  pose proof (comparator_eq_sym comparator comparator_sym _ _ H2).
  assert (comparator c a <= 0) by (apply (comparator_trans c b a); lia).
  destruct (Z.eq_dec (comparator a c) 0) as [|Hne]; [done|].
  assert (Hlt : comparator a c < 0) by lia. apply comparator_sym in Hlt. lia.
Qed.

(** The slot [KeyIndex] names holds the key exactly when [Lookup] finds it. *)
Lemma array_lookup_slot (array : list (Key * RID)) key v :
  array_lookup array key = Some v ->
  exists k, array !! Z.to_nat (KeyIndex array key) = Some (k, v) /\ comparator k key = 0 /\
            KeyIndex array key < Z.of_nat (length array).
Proof.
  unfold LeafPage.array_lookup. intros H.
  destruct (Z.ltb_spec (KeyIndex array key) (Z.of_nat (length array))); [|done].
  destruct (array !! Z.to_nat (KeyIndex array key)) as [[k v']|] eqn:E; [|done].
  destruct (Z.eqb_spec (comparator k key) 0); [|done].
  injection H as ->. eauto.
Qed.

Lemma array_lookup_insert_same (array : list (Key * RID)) key value :
  asc array -> array_lookup array key = None ->
  array_lookup (array_insert array key value) key = Some value.
Proof.
  intros Hasc Hnone.
  eapply (array_lookup_found comparator comparator_sym comparator_trans).
  - by apply (array_insert_ascending comparator comparator_sym comparator_trans).
  - apply elem_of_array_insert. by left.
  - apply (comparator_refl comparator comparator_sym).
Qed.

Lemma array_lookup_agree (a a' : list (Key * RID)) key' :
  asc a -> asc a' ->
  (forall k v, comparator k key' = 0 -> (k, v) ∈ a <-> (k, v) ∈ a') ->
  array_lookup a' key' = array_lookup a key'.
Proof.
  intros Ha Ha' Hiff.
  destruct (array_lookup a key') as [v|] eqn:E.
  - apply array_lookup_Some in E as (k & Hin & Hk).
    eapply (array_lookup_found comparator comparator_sym comparator_trans); [done| |exact Hk].
    by apply Hiff.
  - destruct (array_lookup a' key') as [v'|] eqn:E'; [|done].
    apply array_lookup_Some in E' as (k & Hin & Hk).
    apply Hiff in Hin; [|done].
    by destruct (array_lookup_None comparator comparator_sym comparator_trans _ _ _ _ Ha E Hin).
Qed.

Lemma array_lookup_insert_other (array : list (Key * RID)) key value key' :
  asc array -> array_lookup array key = None -> comparator key' key <> 0 ->
  array_lookup (array_insert array key value) key' = array_lookup array key'.
Proof.
  intros Hasc Hnone Hne. apply array_lookup_agree; [done| |].
  - by apply (array_insert_ascending comparator comparator_sym comparator_trans).
  - intros k v Hk. rewrite elem_of_array_insert. split; [auto|].
    intros [[= -> ->] | ?]; [|done].
    destruct Hne. by apply (comparator_eq_sym comparator comparator_sym).
Qed.

(** The slot of the key after its insertion is the slot it was inserted at. *)
Lemma KeyIndex_array_insert (array : list (Key * RID)) key value :
  asc array -> array_lookup array key = None ->
  KeyIndex (array_insert array key value) key = KeyIndex array key.
Proof.
  intros Hasc Hnone.
  pose proof (array_insert_ascending comparator comparator_sym comparator_trans
                _ _ value Hasc Hnone) as Hasc'.
  pose proof (KeyIndex_range comparator comparator_sym comparator_trans array key Hasc) as Hr.
  pose proof (KeyIndex_range comparator comparator_sym comparator_trans _ key Hasc') as Hr'.
  set (i := KeyIndex array key) in *.
  set (j := KeyIndex (array_insert array key value) key) in *.
  assert (Hi : array_insert array key value !! Z.to_nat i = Some (key, value)).
  { unfold LeafPage.array_insert. fold i.
    rewrite lookup_app_r by (rewrite length_take; lia).
    rewrite length_take. replace (Z.to_nat i - Z.to_nat i `min` length array)%nat with 0%nat by lia.
    done. }
  destruct (Z.lt_trichotomy j i) as [Hlt | [Heq | Hgt]]; [|done|].
  - assert (Hj : exists k v, array !! Z.to_nat j = Some (k, v)).
    { destruct (array !! Z.to_nat j) as [[k v]|] eqn:E; [eauto|].
      apply lookup_ge_None in E. lia. }
    destruct Hj as (k & v & Hj).
    assert (Hj' : array_insert array key value !! Z.to_nat j = Some (k, v)).
    { unfold LeafPage.array_insert. fold i.
      rewrite lookup_app_l by (rewrite length_take; lia).
      rewrite lookup_take_lt by lia. done. }
    pose proof (KeyIndex_below comparator comparator_sym comparator_trans
                  array key (Z.to_nat j) k v Hasc Hj) as H1.
    pose proof (KeyIndex_not_below comparator comparator_sym comparator_trans
                  _ key (Z.to_nat j) k v Hasc' Hj') as H2.
    fold i in H1. fold j in H2. lia.
  - pose proof (KeyIndex_below comparator comparator_sym comparator_trans
                  _ key (Z.to_nat i) key value Hasc' Hi) as H1.
    fold j in H1.
    pose proof (comparator_refl comparator comparator_sym key). lia.
Qed.

Lemma array_remove_missing (array : list (Key * RID)) key :
  array_lookup array key = None -> array_remove array key = array.
Proof.
  unfold LeafPage.array_lookup, LeafPage.array_remove. intros H.
  destruct (Z.ltb_spec (KeyIndex array key) (Z.of_nat (length array))),
    (Z.leb_spec (Z.of_nat (length array)) (KeyIndex array key)); try lia; [|done].
  destruct (array !! Z.to_nat (KeyIndex array key)) as [[k v]|]; [|done].
  destruct (Z.eqb_spec (comparator k key) 0); [done|].
  destruct (Z.eqb_spec (comparator key k) 0) as [Heq|]; [|done].
  apply (comparator_eq_sym comparator comparator_sym) in Heq. done.
Qed.

Lemma array_remove_present (array : list (Key * RID)) key v :
  array_lookup array key = Some v ->
  exists i k, array !! i = Some (k, v) /\ comparator k key = 0 /\
              array_remove array key = take i array ++ drop (S i) array.
Proof.
  intros H. destruct (array_lookup_slot _ _ _ H) as (k & Hk & Hcmp & Hlt).
  exists (Z.to_nat (KeyIndex array key)), k. split; [done|]. split; [done|].
  unfold LeafPage.array_remove.
  destruct (Z.leb_spec (Z.of_nat (length array)) (KeyIndex array key)); [lia|].
  rewrite Hk.
  apply (comparator_eq_sym comparator comparator_sym) in Hcmp.
  rewrite Hcmp. done.
Qed.

Lemma asc_delete (array : list (Key * RID)) i :
  asc array -> asc (take i array ++ drop (S i) array).
Proof.
  intros Hasc. rewrite <- (take_drop i array) in Hasc.
  apply ascending_app in Hasc as (H1 & H2 & H3).
  apply ascending_app. split; [|split; [done|]].
  - intros x1 x2 Hx1 Hx2. apply H1; [done|].
    rewrite <- (take_drop 1 (drop i array)), drop_drop. apply elem_of_app. right.
    by replace (i + 1)%nat with (S i) by lia.
  - replace (S i) with (i + 1)%nat by lia. rewrite <- drop_drop.
    by apply ascending_drop.
Qed.

Lemma asc_unique (array : list (Key * RID)) i j k1 v1 k2 v2 key :
  asc array -> array !! i = Some (k1, v1) -> array !! j = Some (k2, v2) ->
  comparator k1 key = 0 -> comparator k2 key = 0 -> i = j.
Proof.
  intros Hasc H1 H2 Hk1 Hk2.
  pose proof (ascending_strictly_ascending comparator _ Hasc) as Hs.
  assert (Hlt : forall a b ka va kb vb, (a < b)%nat ->
            array !! a = Some (ka, va) -> array !! b = Some (kb, vb) -> comparator ka kb < 0).
  { intros a b ka va kb vb Hab Ha Hb.
    eapply (strictly_ascending_lt comparator
              (comparator_lt_trans' comparator comparator_sym comparator_trans)
              array Hs (b - a - 1)%nat a); [exact Ha|].
    replace (a + S (b - a - 1))%nat with b by lia. exact Hb. }
  assert (Heq : comparator k1 k2 = 0).
  { apply (comparator_eq_trans k1 key k2); [done|].
    by apply (comparator_eq_sym comparator comparator_sym). }
  destruct (lt_eq_lt_dec i j) as [[Hij | ->] | Hji]; [|done|].
  - pose proof (Hlt _ _ _ _ _ _ Hij H1 H2). lia.
  - pose proof (Hlt _ _ _ _ _ _ Hji H2 H1) as Hc.
    apply (comparator_eq_sym comparator comparator_sym) in Heq. lia.
Qed.

Lemma elem_of_delete_slot (array : list (Key * RID)) i x :
  x ∈ take i array ++ drop (S i) array -> x ∈ array.
Proof.
  rewrite elem_of_app. intros [H | H].
  - apply elem_of_take in H as (j & Hj & _). by eapply list_elem_of_lookup_2.
  - apply list_elem_of_lookup in H as [j Hj]. rewrite lookup_drop in Hj.
    by eapply list_elem_of_lookup_2.
Qed.

Lemma array_remove_facts (array : list (Key * RID)) key v :
  asc array -> array_lookup array key = Some v ->
  asc (array_remove array key) /\
  S (length (array_remove array key)) = length array /\
  array_lookup (array_remove array key) key = None /\
  (forall key', comparator key' key <> 0 ->
     array_lookup (array_remove array key) key' = array_lookup array key').
Proof.
  intros Hasc H. destruct (array_remove_present _ _ _ H) as (i & k & Hi & Hk & ->).
  pose proof (asc_delete array i Hasc) as Hasc'.
  pose proof (lookup_lt_Some _ _ _ Hi) as Hlen.
  assert (Hother : forall k' v', (k', v') ∈ take i array ++ drop (S i) array ->
                     comparator k' key <> 0).
  { intros k' v' Hin Hk'.
    apply elem_of_app in Hin as [Hin | Hin]; apply list_elem_of_lookup in Hin as [j Hj].
    - assert (j < i)%nat.
      { apply lookup_lt_Some in Hj. rewrite length_take in Hj. lia. }
      rewrite lookup_take_lt in Hj by lia.
      pose proof (asc_unique _ _ _ _ _ _ _ _ Hasc Hj Hi Hk' Hk). lia.
    - rewrite lookup_drop in Hj.
      pose proof (asc_unique _ _ _ _ _ _ _ _ Hasc Hj Hi Hk' Hk). lia. }
  split; [done|]. split; [|split].
  - rewrite length_app, length_take, length_drop. lia.
  - destruct (array_lookup (take i array ++ drop (S i) array) key) as [v'|] eqn:E; [|done].
    apply array_lookup_Some in E as (k' & Hin & Hk'). by destruct (Hother _ _ Hin).
  - intros key' Hne. apply array_lookup_agree; [done..|].
    intros k' v' Hk'. split.
    + intros Hin. apply list_elem_of_lookup in Hin as [j Hj].
      destruct (decide (j = i)) as [-> | Hji].
      * rewrite Hi in Hj. injection Hj as <- <-. destruct Hne.
        apply (comparator_eq_trans key' k key); [|done].
        by apply (comparator_eq_sym comparator comparator_sym).
      * apply elem_of_app.
        destruct (decide (j < i)%nat).
        -- left. apply list_elem_of_lookup. exists j. by rewrite lookup_take_lt by lia.
        -- right. apply list_elem_of_lookup. exists (j - S i)%nat.
           rewrite lookup_drop. by replace (S i + (j - S i))%nat with j by lia.
    + apply elem_of_delete_slot.
Qed.

Lemma array_remove_insert (array : list (Key * RID)) key value :
  asc array -> array_lookup array key = None ->
  array_remove (array_insert array key value) key = array.
Proof.
  intros Hasc Hnone.
  pose proof (KeyIndex_range comparator comparator_sym comparator_trans array key Hasc) as Hr.
  unfold LeafPage.array_remove. rewrite KeyIndex_array_insert by done.
  rewrite length_array_insert.
  destruct (Z.leb_spec (Z.of_nat (S (length array))) (KeyIndex array key)); [lia|].
  unfold LeafPage.array_insert at 1.
  rewrite lookup_app_r by (rewrite length_take; lia).
  rewrite length_take.
  replace (Z.to_nat (KeyIndex array key) - Z.to_nat (KeyIndex array key) `min` length array)%nat
    with 0%nat by lia.
  cbn [lookup list_lookup]. rewrite (comparator_refl comparator comparator_sym). cbn [negb Z.eqb].
  unfold LeafPage.array_insert.
  set (i := Z.to_nat (KeyIndex array key)).
  assert (Hlen : length (take i array) = i) by (rewrite length_take; lia).
  rewrite take_app_length' by done.
  replace (S i) with (length (take i array) + 1)%nat by lia.
  rewrite drop_app_add'; [|done]. cbn [drop]. rewrite drop_0. apply take_drop.
Qed.

(** What a leaf operation leaves of a state in which it rewrote the slots
    of the page [self]. *)
Definition with_slots (self : page_id_t) (p : Page) (next : page_id_t)
    (array : list (Key * RID)) (s : St) : St :=
  set_pages (<[self := set_payload (LeafArray next array) p]> (pages_ s)) s.

Lemma Leaf_Lookup_run self key p next array (s : St) :
  pages_ s !! self = Some p -> payload_ p = LeafArray next array ->
  LeafPage.Lookup comparator self key s = Some (array_lookup array key, s).
Proof.
  intros Hp Hpl. unfold LeafPage.Lookup.
  apply bind_Some. exists (p, next, array), s. split; [by apply leaf_at_intro | done].
Qed.

Lemma Leaf_set_array_run self array' p next array (s : St) :
  pages_ s !! self = Some p -> payload_ p = LeafArray next array ->
  LeafPage.set_array self array' s = Some (tt, with_slots self p next array' s).
Proof.
  intros Hp Hpl. unfold LeafPage.set_array.
  apply bind_Some. exists (p, next, array), s. split; [by apply leaf_at_intro|].
  cbn [fst snd]. by apply update_page_intro.
Qed.

Lemma Leaf_Insert_run self key value p next array (s : St) :
  pages_ s !! self = Some p -> payload_ p = LeafArray next array ->
  LeafPage.Insert comparator self key value s
  = Some (Z.of_nat (length array) + 1, with_slots self p next (array_insert array key value) s).
Proof.
  intros Hp Hpl. unfold LeafPage.Insert.
  apply bind_Some. exists (p, next, array), s. split; [by apply leaf_at_intro|].
  cbn [fst snd]. apply bind_Some. eexists tt, _. split; [by eapply Leaf_set_array_run|].
  rewrite length_array_insert.
  replace (Z.of_nat (length array) + 1) with (Z.of_nat (S (length array))) by lia.
  reflexivity.
Qed.

Lemma Leaf_Remove_run self key p next array (s : St) :
  pages_ s !! self = Some p -> payload_ p = LeafArray next array ->
  LeafPage.RemoveAndDeleteRecord comparator self key s
  = Some (Z.of_nat (length (array_remove array key)),
          with_slots self p next (array_remove array key) s).
Proof.
  intros Hp Hpl. unfold LeafPage.RemoveAndDeleteRecord.
  apply bind_Some. exists (p, next, array), s. split; [by apply leaf_at_intro|].
  cbn [fst snd]. apply bind_Some. eexists tt, _. split; [by eapply Leaf_set_array_run|].
  reflexivity.
Qed.

Lemma with_slots_same self p next array (s : St) :
  pages_ s !! self = Some p -> payload_ p = LeafArray next array ->
  with_slots self p next array s = s.
Proof.
  intros Hp Hpl. unfold with_slots.
  replace (set_payload (LeafArray next array) p) with p
    by (destruct p; simpl in *; by subst).
  rewrite insert_id by done. by destruct s.
Qed.

Lemma with_slots_twice self p next a1 a2 (s : St) :
  with_slots self (set_payload (LeafArray next a1) p) next a2 (with_slots self p next a1 s)
  = with_slots self p next a2 s.
Proof. unfold with_slots. cbn. by rewrite insert_insert_eq. Qed.

(** X1 — insert and lookup on a leaf page.  On a leaf that holds no more
    than its maximal size, so that the frame has room for one pair more,
    whose slots are in strictly ascending key order and do not hold [key],
    [Insert(key, value)] returns the size plus one; after it [Lookup(key)]
    finds [value], and [Lookup] of every other key finds what it found
    before.  No other page is written. *)
Theorem Leaf_Insert_then_Lookup self key value p next array (s : St) :
  pages_ s !! self = Some p -> payload_ p = LeafArray next array ->
  Z.of_nat (length array) <= max_size_ p ->
  asc array -> array_lookup array key = None ->
  exists s1,
    LeafPage.Insert comparator self key value s = Some (Z.of_nat (length array) + 1, s1) /\
    LeafPage.Lookup comparator self key s1 = Some (Some value, s1) /\
    (forall key' r, comparator key' key <> 0 ->
       LeafPage.Lookup comparator self key' s = Some (r, s) ->
       LeafPage.Lookup comparator self key' s1 = Some (r, s1)) /\
    (forall id, id <> self -> pages_ s1 !! id = pages_ s !! id).
Proof.
  intros Hp Hpl Hroom Hasc Hnone. eexists. split; [by apply Leaf_Insert_run|].
  assert (Hp1 : pages_ (with_slots self p next (array_insert array key value) s) !! self
                = Some (set_payload (LeafArray next (array_insert array key value)) p))
    by apply lookup_insert_eq.
  split; [|split].
  - rewrite (Leaf_Lookup_run _ _ _ _ _ _ Hp1 eq_refl).
    by rewrite array_lookup_insert_same.
  - intros key' r Hne Hbefore.
    rewrite (Leaf_Lookup_run _ _ _ _ _ _ Hp Hpl) in Hbefore. injection Hbefore as <-.
    rewrite (Leaf_Lookup_run _ _ _ _ _ _ Hp1 eq_refl).
    by rewrite array_lookup_insert_other.
  - intros id Hid. cbn. by rewrite lookup_insert_ne.
Qed.

(** X2 — the order of a leaf.  On a leaf that holds no more than its
    maximal size, [Insert] of a key the leaf does not hold leaves the slots
    in strictly ascending key order, with the new pair and the old ones and
    nothing else, at most one pair above the maximal size, which is what
    the frame has room for; the header of the page and its sibling link
    stay as they were. *)
Theorem Leaf_Insert_keeps_order self key value p next array (s : St) :
  pages_ s !! self = Some p -> payload_ p = LeafArray next array ->
  Z.of_nat (length array) <= max_size_ p ->
  asc array -> array_lookup array key = None ->
  exists n s1 p1 array1,
    LeafPage.Insert comparator self key value s = Some (n, s1) /\
    pages_ s1 !! self = Some p1 /\ payload_ p1 = LeafArray next array1 /\
    asc array1 /\ n = GetSize p1 /\ n <= max_size_ p1 + 1 /\
    (forall x, x ∈ array1 <-> x = (key, value) \/ x ∈ array) /\
    page_id_ p1 = page_id_ p /\ parent_page_id_ p1 = parent_page_id_ p /\
    max_size_ p1 = max_size_ p.
Proof.
  intros Hp Hpl Hroom Hasc Hnone. do 4 eexists. split; [by apply Leaf_Insert_run|].
  split; [apply lookup_insert_eq|]. split; [reflexivity|].
  split; [|split; [|split; [|split]]].
  - by apply (array_insert_ascending comparator comparator_sym comparator_trans).
  - unfold GetSize. cbn. rewrite length_array_insert. lia.
  - cbn [max_size_ set_payload]. lia.
  - intros x. apply elem_of_array_insert.
  - done.
Qed.

(** X3 — removal of a key the leaf does not hold.  [RemoveAndDeleteRecord]
    returns the size of the page and leaves the whole state as it was. *)
Theorem RemoveAndDeleteRecord_missing_key self key p next array (s : St) :
  pages_ s !! self = Some p -> payload_ p = LeafArray next array ->
  array_lookup array key = None ->
  LeafPage.RemoveAndDeleteRecord comparator self key s = Some (Z.of_nat (length array), s).
Proof.
  intros Hp Hpl Hnone. rewrite (Leaf_Remove_run _ _ _ _ _ _ Hp Hpl).
  rewrite array_remove_missing by done. by rewrite with_slots_same.
Qed.

(** X4 — removal of a key the leaf holds.  On a leaf in strictly ascending
    key order [RemoveAndDeleteRecord(key)] returns the size minus one;
    after it [Lookup(key)] finds nothing, [Lookup] of every other key finds
    what it found before, and the slots are still in ascending order. *)
Theorem RemoveAndDeleteRecord_present_key self key v p next array (s : St) :
  pages_ s !! self = Some p -> payload_ p = LeafArray next array ->
  asc array -> array_lookup array key = Some v ->
  exists s1 p1 array1,
    LeafPage.RemoveAndDeleteRecord comparator self key s
    = Some (Z.of_nat (length array) - 1, s1) /\
    pages_ s1 !! self = Some p1 /\ payload_ p1 = LeafArray next array1 /\ asc array1 /\
    LeafPage.Lookup comparator self key s1 = Some (None, s1) /\
    (forall key' r, comparator key' key <> 0 ->
       LeafPage.Lookup comparator self key' s = Some (r, s) ->
       LeafPage.Lookup comparator self key' s1 = Some (r, s1)).
Proof.
  intros Hp Hpl Hasc Hsome.
  destruct (array_remove_facts _ _ _ Hasc Hsome) as (Hasc' & Hlen & Hgone & Hother).
  assert (Hp1 : pages_ (with_slots self p next (array_remove array key) s) !! self
                = Some (set_payload (LeafArray next (array_remove array key)) p))
    by apply lookup_insert_eq.
  do 3 eexists. split.
  { rewrite (Leaf_Remove_run _ _ _ _ _ _ Hp Hpl).
    replace (Z.of_nat (length array) - 1) with (Z.of_nat (length (array_remove array key)))
      by lia.
    reflexivity. }
  split; [exact Hp1|]. split; [reflexivity|]. split; [done|]. split.
  - rewrite (Leaf_Lookup_run _ _ _ _ _ _ Hp1 eq_refl). by rewrite Hgone.
  - intros key' r Hne Hbefore.
    rewrite (Leaf_Lookup_run _ _ _ _ _ _ Hp Hpl) in Hbefore. injection Hbefore as <-.
    rewrite (Leaf_Lookup_run _ _ _ _ _ _ Hp1 eq_refl). by rewrite Hother.
Qed.

(** X5 — insert, then remove.  On a leaf that holds no more than its
    maximal size, in strictly ascending key order and without [key],
    [Insert(key, value)] followed by [RemoveAndDeleteRecord(key)] gives back
    the state before the insert, and the removal returns the size before
    the insert. *)
Theorem Leaf_Insert_then_Remove self key value p next array (s : St) :
  pages_ s !! self = Some p -> payload_ p = LeafArray next array ->
  Z.of_nat (length array) <= max_size_ p ->
  asc array -> array_lookup array key = None ->
  exists s1,
    LeafPage.Insert comparator self key value s = Some (Z.of_nat (length array) + 1, s1) /\
    LeafPage.RemoveAndDeleteRecord comparator self key s1 = Some (Z.of_nat (length array), s).
Proof.
  intros Hp Hpl Hroom Hasc Hnone. eexists. split; [by apply Leaf_Insert_run|].
  erewrite Leaf_Remove_run; [|apply lookup_insert_eq|reflexivity].
  rewrite array_remove_insert by done.
  rewrite with_slots_twice. by rewrite with_slots_same.
Qed.

Lemma Leaf_SetNextPageId_run self next' p next array (s : St) :
  pages_ s !! self = Some p -> payload_ p = LeafArray next array ->
  LeafPage.SetNextPageId self next' s = Some (tt, with_slots self p next' array s).
Proof.
  intros Hp Hpl. unfold LeafPage.SetNextPageId.
  apply bind_Some. exists (p, next, array), s. split; [by apply leaf_at_intro|].
  cbn [fst snd]. by apply update_page_intro.
Qed.

Lemma Leaf_MoveAllTo_run self recipient p next array pr nr old (s : St) :
  pages_ s !! self = Some p -> payload_ p = LeafArray next array ->
  pages_ s !! recipient = Some pr -> payload_ pr = LeafArray nr old ->
  self <> recipient ->
  LeafPage.MoveAllTo self recipient s
  = Some (tt, set_pages (<[self := set_payload (LeafArray next []) p]>
                           (<[recipient := set_payload (LeafArray next (old ++ array)) pr]>
                              (pages_ s))) s).
Proof.
  intros Hp Hpl Hr Hrpl Hne. unfold LeafPage.MoveAllTo.
  apply bind_Some. exists (p, next, array), s. split; [by apply leaf_at_intro|].
  apply bind_Some. exists (pr, nr, old), s. split; [by apply leaf_at_intro|].
  cbn [fst snd].
  apply bind_Some. eexists tt, _. split; [by eapply Leaf_set_array_run|].
  apply bind_Some. eexists tt, _. split.
  { eapply Leaf_SetNextPageId_run; [apply lookup_insert_eq | reflexivity]. }
  erewrite Leaf_set_array_run;
    [|cbn; rewrite !lookup_insert_ne by done; exact Hp | exact Hpl].
  unfold with_slots. cbn. by rewrite insert_insert_eq.
Qed.

(** X6 — the split of a leaf.  [MoveHalfTo] asserts that the page holds
    one pair more than its maximal size.  It then keeps the lower half of
    the slots, [(max_size + 1) / 2] of them, and moves the rest, in their
    order, to the recipient; the recipient takes over the sibling link of
    the page and the page links to the recipient.  No other page is
    written. *)
Theorem Leaf_MoveHalfTo_splits self recipient p next array pr nr old (s : St) :
  pages_ s !! self = Some p -> payload_ p = LeafArray next array ->
  pages_ s !! recipient = Some pr -> payload_ pr = LeafArray nr old ->
  page_id_ pr = recipient -> self <> recipient ->
  (Z.of_nat (length array) <> max_size_ p + 1 ->
   LeafPage.MoveHalfTo self recipient s = None) /\
  (Z.of_nat (length array) = max_size_ p + 1 ->
   exists s1 p1 pr1 low high,
     LeafPage.MoveHalfTo self recipient s = Some (tt, s1) /\
     pages_ s1 !! self = Some p1 /\ payload_ p1 = LeafArray recipient low /\
     pages_ s1 !! recipient = Some pr1 /\ payload_ pr1 = LeafArray next high /\
     low ++ high = array /\ Z.of_nat (length low) = (max_size_ p + 1) ÷ 2 /\
     (forall id, id <> self -> id <> recipient -> pages_ s1 !! id = pages_ s !! id)).
Proof.
  intros Hp Hpl Hr Hrpl Hrid Hne. split.
  - intros Hlen. unfold LeafPage.MoveHalfTo, bind.
    rewrite (leaf_at_intro _ _ _ _ _ Hp Hpl). unfold GetMaxSize.
    destruct (Z.eqb_spec (Z.of_nat (length array)) (max_size_ p + 1)); [done|]. done.
  - intros Hlen.
    destruct (Leaf_MoveHalfTo_returns _ _ _ _ _ _ _ _ _ Hp Hpl Hlen Hr Hrpl Hrid Hne)
      as ([] & s1 & Hrun & _ & Hpages).
    exists s1. do 4 eexists. split; [exact Hrun|]. rewrite Hpages.
    split; [apply lookup_insert_eq|]. split; [reflexivity|].
    split; [rewrite lookup_insert_ne by done; apply lookup_insert_eq|].
    split; [reflexivity|]. split; [apply take_drop|]. split.
    + rewrite length_take.
      assert (0 <= (max_size_ p + 1) ÷ 2 <= max_size_ p + 1).
      { rewrite <- Hlen. split; [apply Z.quot_pos; lia|].
        apply Z.quot_le_upper_bound; lia. }
      lia.
    + intros id H1 H2. by rewrite !lookup_insert_ne.
Qed.

(** X7 — split, then merge.  After [MoveHalfTo] has split a leaf into the
    page and the recipient, [MoveAllTo] of the recipient back into the page
    restores the page as it was before the split, slots and sibling link,
    and leaves the recipient empty. *)
Theorem Leaf_split_then_merge self recipient p next array pr nr old (s : St) :
  pages_ s !! self = Some p -> payload_ p = LeafArray next array ->
  Z.of_nat (length array) = max_size_ p + 1 ->
  pages_ s !! recipient = Some pr -> payload_ pr = LeafArray nr old ->
  page_id_ pr = recipient -> self <> recipient ->
  exists s1 s2,
    LeafPage.MoveHalfTo self recipient s = Some (tt, s1) /\
    LeafPage.MoveAllTo recipient self s1 = Some (tt, s2) /\
    pages_ s2 !! self = Some p /\
    pages_ s2 !! recipient = Some (set_payload (LeafArray next []) pr) /\
    (forall id, id <> recipient -> pages_ s2 !! id = pages_ s !! id).
Proof.
  intros Hp Hpl Hlen Hr Hrpl Hrid Hne.
  destruct (Leaf_MoveHalfTo_returns _ _ _ _ _ _ _ _ _ Hp Hpl Hlen Hr Hrpl Hrid Hne)
    as ([] & s1 & Hrun & _ & Hpages).
  exists s1. eexists. split; [exact Hrun|]. split.
  { eapply (Leaf_MoveAllTo_run recipient self
              (set_payload (LeafArray next (drop (Z.to_nat ((max_size_ p + 1) ÷ 2)) array)) pr)
              next _
              (set_payload (LeafArray recipient (take (Z.to_nat ((max_size_ p + 1) ÷ 2)) array)) p)
              recipient _).
    - rewrite Hpages. rewrite lookup_insert_ne by done. apply lookup_insert_eq.
    - reflexivity.
    - rewrite Hpages. apply lookup_insert_eq.
    - reflexivity.
    - done. }
  cbn. rewrite Hpages.
  assert (Hself : set_payload (LeafArray next
                     (take (Z.to_nat ((max_size_ p + 1) ÷ 2)) array ++
                      drop (Z.to_nat ((max_size_ p + 1) ÷ 2)) array))
                    (set_payload (LeafArray recipient
                       (take (Z.to_nat ((max_size_ p + 1) ÷ 2)) array)) p) = p).
  { rewrite take_drop. destruct p; simpl in *; by subst. }
  split; [|split].
  - rewrite lookup_insert_ne by done. rewrite lookup_insert_eq. by rewrite Hself.
  - by rewrite lookup_insert_eq.
  - intros id Hid. rewrite lookup_insert_ne by done.
    destruct (decide (id = self)) as [-> | ?].
    + rewrite lookup_insert_eq, Hself. done.
    + by rewrite !lookup_insert_ne.
Qed.

End LeafSlots.

(** The theorems on the right leaf [5; 7] of the two-leaf tree (page 2),
    with the key 6 that it does not hold and the key 7 that it holds. *)
Definition right_leaf_57 : BPlusTreePage.BPlusTreePage Z := leaf_page 2 3 INVALID_PAGE_ID [5; 7].

Lemma right_leaf_57_ascending :
  ascending Zcomparator ((fun k : Z => (k, (k, k))) <$> [5; 7]).
Proof. repeat constructor. Defined.

Lemma right_leaf_57_has_room :
  Z.of_nat (length ((fun k : Z => (k, (k, k))) <$> [5; 7]))
  <= BPlusTreePage.max_size_ right_leaf_57.
Proof. cbn. lia. Defined.

Lemma Leaf_Insert_then_Lookup_witness :
  ascending Zcomparator ((fun k : Z => (k, (k, k))) <$> [5; 7]) /\
  exists s1,
    LeafPage.Insert Zcomparator 2 6 (6, 6) (two_leaf_tree [5; 7] None) = Some (3, s1) /\
    LeafPage.Lookup Zcomparator 2 6 s1 = Some (Some (6, 6), s1) /\
    LeafPage.Lookup Zcomparator 2 7 s1 = Some (Some (7, 7), s1).
Proof.
  split; [exact right_leaf_57_ascending|].
  destruct (Leaf_Insert_then_Lookup Zcomparator Zcomparator_sym Zcomparator_trans
              2 6 (6, 6) right_leaf_57 INVALID_PAGE_ID _ (two_leaf_tree [5; 7] None)
              eq_refl eq_refl right_leaf_57_has_room right_leaf_57_ascending eq_refl)
    as (s1 & Hrun & Hfind & Hother & _).
  exists s1. split; [exact Hrun|]. split; [exact Hfind|].
  apply (Hother 7 (Some (7, 7))); [vm_compute; discriminate | reflexivity].
Defined.

Lemma Leaf_Insert_keeps_order_witness :
  exists s1 p1,
    LeafPage.Insert Zcomparator 2 6 (6, 6) (two_leaf_tree [5; 7] None) = Some (3, s1) /\
    BPlusTreePage.pages_ s1 !! 2 = Some p1 /\
    BPlusTreePage.payload_ p1
    = BPlusTreePage.LeafArray INVALID_PAGE_ID ((fun k : Z => (k, (k, k))) <$> [5; 6; 7]).
Proof.
  destruct (Leaf_Insert_keeps_order Zcomparator Zcomparator_sym Zcomparator_trans
              2 6 (6, 6) right_leaf_57 INVALID_PAGE_ID _ (two_leaf_tree [5; 7] None)
              eq_refl eq_refl right_leaf_57_has_room right_leaf_57_ascending eq_refl)
    as (n & s1 & p1 & array1 & Hrun & Hp1 & Hpl1 & _ & _).
  pose proof Hrun as Hrun'. vm_compute in Hrun'. injection Hrun' as <- <-.
  pose proof Hp1 as Hp1'. vm_compute in Hp1'. injection Hp1' as <-.
  do 2 eexists. split; [exact Hrun|]. split; [exact Hp1 | reflexivity].
Defined.

Lemma RemoveAndDeleteRecord_missing_key_witness :
  LeafPage.RemoveAndDeleteRecord Zcomparator 2 6 (two_leaf_tree [5; 7] None)
  = Some (2, two_leaf_tree [5; 7] None).
Proof.
  exact (RemoveAndDeleteRecord_missing_key Zcomparator Zcomparator_sym
           2 6 right_leaf_57 INVALID_PAGE_ID _ (two_leaf_tree [5; 7] None)
           eq_refl eq_refl eq_refl).
Defined.

Lemma RemoveAndDeleteRecord_present_key_witness :
  exists s1,
    LeafPage.RemoveAndDeleteRecord Zcomparator 2 7 (two_leaf_tree [5; 7] None) = Some (1, s1) /\
    LeafPage.Lookup Zcomparator 2 7 s1 = Some (None, s1) /\
    LeafPage.Lookup Zcomparator 2 5 s1 = Some (Some (5, 5), s1).
Proof.
  destruct (RemoveAndDeleteRecord_present_key Zcomparator Zcomparator_sym Zcomparator_trans
              2 7 (7, 7) right_leaf_57 INVALID_PAGE_ID _ (two_leaf_tree [5; 7] None)
              eq_refl eq_refl right_leaf_57_ascending eq_refl)
    as (s1 & p1 & array1 & Hrun & _ & _ & _ & Hgone & Hother).
  exists s1. split; [exact Hrun|]. split; [exact Hgone|].
  apply (Hother 5 (Some (5, 5))); [vm_compute; discriminate | reflexivity].
Defined.

Lemma Leaf_Insert_then_Remove_witness :
  exists s1,
    LeafPage.Insert Zcomparator 2 6 (6, 6) (two_leaf_tree [5; 7] None) = Some (3, s1) /\
    LeafPage.RemoveAndDeleteRecord Zcomparator 2 6 s1 = Some (2, two_leaf_tree [5; 7] None).
Proof.
  exact (Leaf_Insert_then_Remove Zcomparator Zcomparator_sym Zcomparator_trans
           2 6 (6, 6) right_leaf_57 INVALID_PAGE_ID _ (two_leaf_tree [5; 7] None)
           eq_refl eq_refl right_leaf_57_has_room right_leaf_57_ascending eq_refl).
Defined.

(** The right leaf with one pair more than its maximal size 3, and the
    fresh page 4 that a split initialises. *)
Definition overfull_leaf_tree : BPlusTreePage.State Z :=
  BPlusTreePage.set_pages
    (<[4 := leaf_page 4 3 INVALID_PAGE_ID []]>
       (BPlusTreePage.pages_ (two_leaf_tree [5; 6; 7; 8] None)))
    (two_leaf_tree [5; 6; 7; 8] None).

Lemma Leaf_MoveHalfTo_splits_witness :
  (LeafPage.MoveHalfTo 1 4 overfull_leaf_tree = None) /\
  exists s1,
    LeafPage.MoveHalfTo 2 4 overfull_leaf_tree = Some (tt, s1) /\
    BPlusTreePage.pages_ s1 !! 2 = Some (leaf_page 2 3 4 [5; 6]) /\
    BPlusTreePage.pages_ s1 !! 4 = Some (leaf_page 4 3 INVALID_PAGE_ID [7; 8]).
Proof.
  split.
  - apply (Leaf_MoveHalfTo_splits 1 4 (leaf_page 1 3 2 [1; 3; 4]) 2 _
             (leaf_page 4 3 INVALID_PAGE_ID []) INVALID_PAGE_ID [] overfull_leaf_tree
             eq_refl eq_refl eq_refl eq_refl eq_refl ltac:(lia)).
    vm_compute. discriminate.
  - destruct (proj2 (Leaf_MoveHalfTo_splits 2 4 (leaf_page 2 3 INVALID_PAGE_ID [5; 6; 7; 8])
             INVALID_PAGE_ID _ (leaf_page 4 3 INVALID_PAGE_ID []) INVALID_PAGE_ID []
             overfull_leaf_tree eq_refl eq_refl eq_refl eq_refl eq_refl ltac:(lia)) eq_refl)
      as (s1 & p1 & pr1 & low & high & Hrun & _).
    pose proof Hrun as Hrun'. vm_compute in Hrun'. injection Hrun' as <-.
    eexists. split; [exact Hrun|]. split; reflexivity.
Defined.

Lemma Leaf_split_then_merge_witness :
  exists s1 s2,
    LeafPage.MoveHalfTo 2 4 overfull_leaf_tree = Some (tt, s1) /\
    LeafPage.MoveAllTo 4 2 s1 = Some (tt, s2) /\
    BPlusTreePage.pages_ s2 !! 2 = Some (leaf_page 2 3 INVALID_PAGE_ID [5; 6; 7; 8]) /\
    BPlusTreePage.pages_ s2 !! 4 = Some (leaf_page 4 3 INVALID_PAGE_ID []).
Proof.
  destruct (Leaf_split_then_merge 2 4 (leaf_page 2 3 INVALID_PAGE_ID [5; 6; 7; 8])
              INVALID_PAGE_ID _ (leaf_page 4 3 INVALID_PAGE_ID []) INVALID_PAGE_ID []
              overfull_leaf_tree eq_refl eq_refl eq_refl eq_refl eq_refl eq_refl ltac:(lia))
    as (s1 & s2 & H1 & H2 & H3 & H4 & _).
  exists s1, s2. split; [exact H1|]. split; [exact H2|]. split; [exact H3 | exact H4].
Defined.


(** ** The tree: lookup and removal *)

Section TreeLookup.
Import BPlusTreePage.
Context {Key : Type}.
Variable comparator : Key -> Key -> Z.
Variable GetMinSize : BPlusTreePage Key -> Z.
Variable IsSafe : OpType -> BPlusTreePage Key -> bool.

Hypothesis comparator_sym : forall a b, comparator a b < 0 <-> 0 < comparator b a.
Hypothesis comparator_trans :
  forall a b c, comparator a b <= 0 -> comparator b c <= 0 -> comparator a c <= 0.

Abbreviation St := (State Key).
Abbreviation Page := (BPlusTreePage Key).

(** The leaf the search for [key] ends in, in a well-formed tree. *)
Lemma well_formed_reaches (s : St) (h : nat) (key : Key) :
  well_formed comparator s h -> root_page_id_ s <> INVALID_PAGE_ID ->
  exists leaf array p next,
    reaches comparator key leaf array (S h) s /\ ascending comparator array /\
    pages_ s !! leaf = Some p /\ payload_ p = LeafArray next array.
Proof.
  intros (Htx & Hids & Hnext & Htree) Hroot.
  destruct Htree as [? | Htree]; [done|].
  destruct (subtree_descent comparator comparator_sym _ key _ _ _ _ _ Htree []
              (above_root _ _ _ _) eq_refl I I)
    as (leaf & p & next & array & clo & chi & anc & below &
        Hp & Hid & Hpar & Hpl & Hmax & Hlen & Hasc & Hw & Hlo & Hhi & Habove & Hnd & Hsub
        & Hbl & Hrootof & Hanc).
  { intros a Ha. by apply elem_of_nil in Ha. }
  { constructor. }
  exists leaf, array, p, next. split; [|done].
  split; [done|]. split; [done|]. exists below. split; [done | lia].
Qed.

Lemma stored_array_lookup (s : St) (h : nat) (key : Key) leaf array n :
  well_formed comparator s h -> reaches comparator key leaf array n s ->
  ascending comparator array ->
  stored comparator s key <-> is_Some (LeafPage.array_lookup comparator array key).
Proof.
  intros (_ & _ & _ & Htree) (_ & Hroot & below & Hsub & _) Hasc.
  destruct Htree as [? | Htree]; [done|]. split.
  - intros [_ Hholds].
    destruct (holds_subpath comparator comparator_sym comparator_trans
                _ _ _ _ _ _ _ _ _ _ Htree Hholds Hsub) as (k & v & Hin & Heq).
    rewrite (array_lookup_found comparator comparator_sym comparator_trans
               _ key k v Hasc Hin Heq). eauto.
  - intros [v Hlook]. split; [done|].
    destruct (array_lookup_Some _ _ _ _ Hlook) as (k & Hin & Heq).
    eapply subpath_holds; eauto.
Qed.

(** X8 — point lookup.  On a well-formed tree, in an operation that has a
    transaction, [GetValue(key)] returns; it finds a value exactly when the
    key is stored in some leaf of the tree, the value it finds stands next
    to an equal key in a leaf, and the pages and the root are left as they
    were. *)
Theorem GetValue_finds_stored (s : St) (h : nat) (key : Key) (fuel : nat) :
  well_formed comparator s h -> (h + 1 <= fuel)%nat ->
  exists r s',
    BPlusTree.GetValue comparator IsSafe fuel key s = Some (r, s') /\
    (is_Some r <-> stored comparator s key) /\
    (forall v, r = Some v ->
       exists id p next array k,
         pages_ s !! id = Some p /\ payload_ p = LeafArray next array /\
         (k, v) ∈ array /\ comparator k key = 0) /\
    pages_ s' = pages_ s /\ root_page_id_ s' = root_page_id_ s.
Proof.
  intros Hwf Hfuel.
  destruct (decide (root_page_id_ s = INVALID_PAGE_ID)) as [Hempty | Hroot].
  - destruct (FindLeafPage_empty comparator IsSafe fuel (Some key) false READ s Hempty)
      as [s' Hfind].
    exists None, s'. split.
    { unfold BPlusTree.GetValue. apply bind_Some. exists None, s'. done. }
    split; [|split].
    + split; [by intros [? ?] | by intros [? _]].
    + done.
    + unfold BPlusTree.FindLeafPage in Hfind.
      apply bind_Some in Hfind as ([] & s1 & H1 & Hfind).
      apply modify_Some in H1. subst s1.
      apply bind_Some in Hfind as (b & s2 & H2 & Hfind).
      apply gets_Some in H2 as [-> ->]. cbn in Hfind.
      apply Z.eqb_eq in Hempty. rewrite Hempty in Hfind.
      apply bind_Some in Hfind as ([] & s3 & H3 & Hfind).
      apply modify_Some in H3. subst s3. apply ret_Some in Hfind as [_ ->].
      cbn. by destruct (0 <? rootLockedCnt s + 1).
  - destruct (well_formed_reaches s h key Hwf Hroot)
      as (leaf & array & p & next & Hreach & Hasc & Hp & Hpl).
    destruct (GetValue_returns comparator IsSafe key _ _ _ fuel s Hreach ltac:(lia))
      as (r & s' & Hget & -> & Hp' & Hr' & _).
    exists (LeafPage.array_lookup comparator array key), s'.
    split; [exact Hget|]. split; [|split; [|done]].
    + symmetry. by eapply stored_array_lookup.
    + intros v Hv. destruct (array_lookup_Some _ _ _ _ Hv) as (k & Hin & Heq).
      exists leaf, p, next, array, k. done.
Qed.

(** The search paths after a write to the slots of one leaf. *)
Lemma subpath_update_leaf P key' cur leaf' array' below leaf p next array a2 :
  subpath comparator P key' cur leaf' array' below ->
  P !! leaf = Some p -> payload_ p = LeafArray next array ->
  subpath comparator (<[leaf := set_payload (LeafArray next a2) p]> P) key' cur leaf'
    (if decide (leaf' = leaf) then a2 else array') below.
Proof.
  intros Hsub Hp Hpl.
  induction Hsub as [cur pc nc ac Hc Hcpl | cur pc A nxt lf arr below Hc Hcpl Hlook Hsub IH].
  - destruct (decide (cur = leaf)) as [-> | Hne].
    + eapply subpath_leaf; [apply lookup_insert_eq | reflexivity].
    + eapply subpath_leaf; [by rewrite lookup_insert_ne | exact Hcpl].
  - eapply subpath_step; [| exact Hcpl | exact Hlook | exact IH].
    rewrite lookup_insert_ne; [done|]. intros ->. congruence.
Qed.

(** [Remove] on a tree that is not empty, when the leaf does not fall
    under its minimal size: only the slots of the leaf are written. *)
Lemma Remove_returns (s : St) key leaf array n fuel p next :
  reaches comparator key leaf array n s -> (n <= fuel)%nat ->
  pages_ s !! leaf = Some p -> payload_ p = LeafArray next array ->
  GetMinSize (set_payload (LeafArray next (LeafPage.array_remove comparator array key)) p)
    <= Z.of_nat (length (LeafPage.array_remove comparator array key)) ->
  wp (BPlusTree.Remove comparator GetMinSize IsSafe fuel key)
     (fun _ s' =>
        pages_ s'
        = <[leaf := set_payload (LeafArray next (LeafPage.array_remove comparator array key)) p]>
            (pages_ s) /\
        root_page_id_ s' = root_page_id_ s /\ txn_ok s') s.
Proof.
  intros (Htx & Hroot & below & Hsub & Hbl) Hfuel Hp Hpl Hmin.
  unfold BPlusTree.Remove.
  apply wp_bind. unfold BPlusTree.IsEmpty. apply wp_gets.
  destruct (root_page_id_ s =? INVALID_PAGE_ID) eqn:Hb; [by apply Z.eqb_eq in Hb|].
  apply wp_bind. eapply wp_mono.
  { eapply FindLeafPage_returns; [exact Htx | exact Hroot | exact Hsub | lia]. }
  intros r s1 [-> (Hp1 & Hr1 & Hn1 & Htx1)].
  assert (Hp1l : pages_ s1 !! leaf = Some p) by (by rewrite Hp1).
  apply wp_bind. eapply wp_intro; [by eapply Leaf_Remove_run|].
  apply wp_bind. eapply wp_page_at; [apply lookup_insert_eq|].
  apply wp_bind. apply wp_when.
  { intros Hlt. apply Z.ltb_lt in Hlt. lia. }
  intros _. eapply wp_mono; [by apply FreePagesInTransaction_returns|].
  intros [] s3 (Hp3 & Hr3 & _ & Htx3). cbn in Hp3, Hr3.
  split; [by rewrite Hp3, Hp1|]. split; [congruence | done].
Qed.

(** X9 — removal of a key that is not stored.  On a well-formed tree in
    which no leaf is under its minimal size, [Remove] of a key that no
    leaf holds returns and leaves the pages and the root as they were. *)
Theorem Remove_missing_key_is_noop (s : St) (h : nat) (key : Key) (fuel : nat) :
  well_formed comparator s h -> (h + 1 <= fuel)%nat ->
  (forall id p, pages_ s !! id = Some p -> IsLeafPage p = true -> GetMinSize p <= GetSize p) ->
  ~ stored comparator s key ->
  exists s',
    BPlusTree.Remove comparator GetMinSize IsSafe fuel key s = Some (tt, s') /\
    pages_ s' = pages_ s /\ root_page_id_ s' = root_page_id_ s.
Proof.
  intros Hwf Hfuel Hmin Hnot.
  destruct (decide (root_page_id_ s = INVALID_PAGE_ID)) as [Hempty | Hroot].
  - exists s. split; [|done]. unfold BPlusTree.Remove, BPlusTree.IsEmpty, bind, gets.
    apply Z.eqb_eq in Hempty. by rewrite Hempty.
  - destruct (well_formed_reaches s h key Hwf Hroot)
      as (leaf & array & p & next & Hreach & Hasc & Hp & Hpl).
    assert (Hnone : LeafPage.array_lookup comparator array key = None).
    { destruct (LeafPage.array_lookup comparator array key) eqn:E; [|done].
      destruct Hnot. eapply stored_array_lookup; eauto. }
    pose proof (array_remove_missing comparator comparator_sym _ _ Hnone) as Hsame.
    assert (Hpp : set_payload (LeafArray next array) p = p)
      by (destruct p; simpl in *; by subst).
    destruct (Remove_returns s key leaf array _ fuel p next Hreach ltac:(lia) Hp Hpl)
      as ([] & s' & Hrun & Hp' & Hr' & _).
    { rewrite Hsame, Hpp. specialize (Hmin leaf p Hp). unfold IsLeafPage, GetSize in Hmin.
      rewrite Hpl in Hmin. by apply Hmin. }
    exists s'. split; [exact Hrun|]. split; [|done].
    rewrite Hp', Hsame, Hpp. by apply insert_id.
Qed.

(** X10 — remove, then look up.  On a well-formed tree, when the leaf
    that holds [key] keeps at least its minimal size without it,
    [Remove(key)] returns, a [GetValue(key)] after it finds nothing, and a
    [GetValue] of any other key finds after the removal what it found
    before. *)
Theorem Remove_then_GetValue (s : St) (h : nat) (key : Key) (fuel : nat) :
  well_formed comparator s h -> (h + 1 <= fuel)%nat ->
  stored comparator s key ->
  (forall id p next array,
     pages_ s !! id = Some p -> payload_ p = LeafArray next array ->
     is_Some (LeafPage.array_lookup comparator array key) ->
     GetMinSize (set_payload (LeafArray next (LeafPage.array_remove comparator array key)) p)
       < GetSize p) ->
  exists s1 s2,
    BPlusTree.Remove comparator GetMinSize IsSafe fuel key s = Some (tt, s1) /\
    BPlusTree.GetValue comparator IsSafe fuel key s1 = Some (None, s2) /\
    (forall key', comparator key' key <> 0 ->
       exists r s3 s4,
         BPlusTree.GetValue comparator IsSafe fuel key' s = Some (r, s3) /\
         BPlusTree.GetValue comparator IsSafe fuel key' s1 = Some (r, s4)).
Proof.
  intros Hwf Hfuel Hst Hmin. pose proof Hst as [Hroot _].
  destruct (well_formed_reaches s h key Hwf Hroot)
    as (leaf & array & p & next & Hreach & Hasc & Hp & Hpl).
  destruct (proj1 (stored_array_lookup s h key leaf array _ Hwf Hreach Hasc) Hst)
    as [v Hlook].
  destruct (array_remove_facts comparator comparator_sym comparator_trans _ _ _ Hasc Hlook)
    as (Hasc' & Hlen & Hgone & Hother).
  set (array1 := LeafPage.array_remove comparator array key) in *.
  destruct (Remove_returns s key leaf array _ fuel p next Hreach ltac:(lia) Hp Hpl)
    as ([] & s1 & Hrun & Hp1 & Hr1 & Htx1).
  { fold array1. specialize (Hmin leaf p next array Hp Hpl ltac:(eauto)).
    fold array1 in Hmin. unfold GetSize in Hmin. rewrite Hpl in Hmin. lia. }
  fold array1 in Hp1.
  assert (Hmove : forall key' leaf' array' n,
            reaches comparator key' leaf' array' n s ->
            reaches comparator key' leaf' (if decide (leaf' = leaf) then array1 else array') n s1).
  { intros key' leaf' array' n (_ & _ & below & Hsub & Hbl).
    split; [done|]. split; [congruence|]. exists below. split; [|done].
    rewrite Hr1, Hp1. by eapply subpath_update_leaf. }
  exists s1.
  pose proof (Hmove _ _ _ _ Hreach) as Hreach1. rewrite decide_True in Hreach1 by done.
  destruct (GetValue_returns comparator IsSafe key _ _ _ fuel s1 Hreach1 ltac:(lia))
    as (r & s2 & Hget & -> & _).
  exists s2. split; [exact Hrun|]. split; [by rewrite Hget, Hgone|].
  intros key' Hne.
  destruct (well_formed_reaches s h key' Hwf Hroot)
    as (leaf' & array' & p' & next' & Hreach' & _ & Hp' & Hpl').
  destruct (GetValue_returns comparator IsSafe key' _ _ _ fuel s Hreach' ltac:(lia))
    as (r & s3 & Hget3 & -> & _).
  pose proof (Hmove _ _ _ _ Hreach') as Hreach1'.
  destruct (GetValue_returns comparator IsSafe key' _ _ _ fuel s1 Hreach1' ltac:(lia))
    as (r & s4 & Hget4 & -> & _).
  exists (LeafPage.array_lookup comparator array' key'), s3, s4.
  split; [exact Hget3|]. rewrite Hget4. do 2 f_equal.
  destruct (decide (leaf' = leaf)) as [-> | ?]; [|done].
  rewrite Hp in Hp'. injection Hp' as <-. rewrite Hpl in Hpl'. injection Hpl' as <- <-.
  by apply Hother.
Qed.

End TreeLookup.

(** The theorems on the two-leaf tree with the leaves [1; 3; 4] and
    [5; 6; 7]: the key 6 is stored, the key 8 is not. *)
Lemma insert_fixture_leaves (id : Z) (p : BPlusTreePage.BPlusTreePage Z) :
  BPlusTreePage.pages_ insert_fixture !! id = Some p ->
  (id = 1 /\ p = leaf_page 1 3 2 [1; 3; 4]) \/
  (id = 2 /\ p = leaf_page 2 3 INVALID_PAGE_ID [5; 6; 7]) \/
  (id = 3 /\ p = internal_page 3 INVALID_PAGE_ID [(5, 1); (5, 2)]).
Proof.
  intros Hp. cbn [BPlusTreePage.pages_ insert_fixture two_leaf_tree] in Hp.
  rewrite lookup_insert in Hp. case_decide; [simplify_eq; auto|].
  rewrite lookup_insert in Hp. case_decide; [simplify_eq; auto|].
  rewrite lookup_insert in Hp. case_decide; [simplify_eq; auto|].
  rewrite lookup_empty in Hp. discriminate.
Defined.

Lemma GetValue_finds_stored_witness :
  well_formed Zcomparator insert_fixture 1 /\
  (exists s', BPlusTree.GetValue Zcomparator fixture_IsSafe 8 6 insert_fixture
              = Some (Some (6, 6), s')) /\
  (exists s', BPlusTree.GetValue Zcomparator fixture_IsSafe 8 8 insert_fixture
              = Some (None, s')).
Proof.
  split; [exact insert_fixture_well_formed|]. split.
  - destruct (GetValue_finds_stored Zcomparator fixture_IsSafe Zcomparator_sym
                Zcomparator_trans insert_fixture 1 6 8 insert_fixture_well_formed ltac:(lia))
      as (r & s' & Hget & _).
    pose proof Hget as Hget'. vm_compute in Hget'. injection Hget' as <- <-.
    eexists. exact Hget.
  - destruct (GetValue_finds_stored Zcomparator fixture_IsSafe Zcomparator_sym
                Zcomparator_trans insert_fixture 1 8 8 insert_fixture_well_formed ltac:(lia))
      as (r & s' & Hget & _).
    pose proof Hget as Hget'. vm_compute in Hget'. injection Hget' as <- <-.
    eexists. exact Hget.
Defined.

Lemma Remove_missing_key_is_noop_witness :
  ~ stored Zcomparator insert_fixture 8 /\
  exists s',
    BPlusTree.Remove Zcomparator fixture_GetMinSize fixture_IsSafe 8 8 insert_fixture
    = Some (tt, s') /\
    BPlusTreePage.pages_ s' = BPlusTreePage.pages_ insert_fixture.
Proof.
  split; [exact insert_fixture_lacks_8|].
  destruct (Remove_missing_key_is_noop Zcomparator fixture_GetMinSize fixture_IsSafe
              Zcomparator_sym Zcomparator_trans insert_fixture 1 8 8
              insert_fixture_well_formed ltac:(lia)) as (s' & Hrun & Hp & _).
  - intros id p Hp _.
    destruct (insert_fixture_leaves id p Hp) as [[-> ->] | [[-> ->] | [-> ->]]];
      vm_compute; discriminate.
  - exact insert_fixture_lacks_8.
  - exists s'. split; [exact Hrun | exact Hp].
Defined.

Lemma Remove_then_GetValue_witness :
  stored Zcomparator insert_fixture 6 /\
  exists s1 s2 s4,
    BPlusTree.Remove Zcomparator fixture_GetMinSize fixture_IsSafe 8 6 insert_fixture
    = Some (tt, s1) /\
    BPlusTree.GetValue Zcomparator fixture_IsSafe 8 6 s1 = Some (None, s2) /\
    BPlusTree.GetValue Zcomparator fixture_IsSafe 8 7 s1 = Some (Some (7, 7), s4).
Proof.
  split; [exact insert_fixture_stores_6|].
  destruct (Remove_then_GetValue Zcomparator fixture_GetMinSize fixture_IsSafe
              Zcomparator_sym Zcomparator_trans insert_fixture 1 6 8
              insert_fixture_well_formed ltac:(lia) insert_fixture_stores_6)
    as (s1 & s2 & Hrun & Hgone & Hother).
  - intros id p next array Hp Hpl Hsome.
    destruct (insert_fixture_leaves id p Hp) as [[-> ->] | [[-> ->] | [-> ->]]];
      cbn in Hpl; [injection Hpl as <- <- | injection Hpl as <- <- | discriminate].
    + vm_compute in Hsome. by destruct Hsome.
    + vm_compute. reflexivity.
  - destruct (Hother 7 ltac:(vm_compute; discriminate)) as (r & s3 & s4 & Hget & Hget1).
    pose proof Hget as Hget'. vm_compute in Hget'. injection Hget' as <- <-.
    exists s1, s2, s4. split; [exact Hrun|]. split; [exact Hgone | exact Hget1].
Defined.


(** ** The index iterator: range scans *)

Section RangeScan.
Import BPlusTreePage.
Context {Key : Type}.
Variable comparator : Key -> Key -> Z.
Variable IsSafe : OpType -> BPlusTreePage Key -> bool.

Abbreviation St := (State Key).
Abbreviation Page := (BPlusTreePage Key).

(** [chain P id arrays]: the sibling links lead from the leaf [id] through
    leaves that hold, in this order, the slots [arrays], to a last leaf
    without a sibling; no leaf on the way is empty. *)
Inductive chain (P : gmap page_id_t Page) : page_id_t -> list (list (Key * RID)) -> Prop :=
| chain_last id p array :
    P !! id = Some p -> page_id_ p = id ->
    payload_ p = LeafArray INVALID_PAGE_ID array -> array <> [] ->
    chain P id [array]
| chain_next id p next array rest :
    P !! id = Some p -> page_id_ p = id ->
    payload_ p = LeafArray next array -> array <> [] ->
    next <> INVALID_PAGE_ID -> chain P next rest ->
    chain P id (array :: rest).

Lemma chain_head P id arrays :
  chain P id arrays ->
  exists p next array rest,
    arrays = array :: rest /\ P !! id = Some p /\ page_id_ p = id /\
    payload_ p = LeafArray next array /\ array <> [] /\
    (if decide (next = INVALID_PAGE_ID) then rest = [] else chain P next rest).
Proof.
  destruct 1 as [id p array Hp Hid Hpl Hne | id p next array rest Hp Hid Hpl Hne Hnext Hch].
  - exists p, INVALID_PAGE_ID, array, []. by rewrite decide_True.
  - exists p, next, array, rest. by rewrite decide_False.
Qed.

(** A run that only moves pins. *)
Definition same_nodes (s s' : St) : Prop :=
  pages_ s' = pages_ s /\ root_page_id_ s' = root_page_id_ s /\
  transaction_ s' = transaction_ s.

Lemma same_nodes_refl s : same_nodes s s.
Proof. done. Qed.

Lemma same_nodes_trans s1 s2 s3 : same_nodes s1 s2 -> same_nodes s2 s3 -> same_nodes s1 s3.
Proof. intros (H1 & H2 & H3) (H4 & H5 & H6). repeat split; congruence. Qed.

Lemma same_nodes_pins s pc : same_nodes s (set_pin_count pc s).
Proof. done. Qed.

Lemma deref_returns leaf idx p next array kv (s : St) :
  pages_ s !! leaf = Some p -> payload_ p = LeafArray next array ->
  array !! Z.to_nat idx = Some kv -> 0 <= idx ->
  IndexIterator.deref {| IndexIterator.index_ := idx; IndexIterator.leaf_ := Some leaf |} s
  = Some (kv, s).
Proof.
  intros Hp Hpl Hkv Hidx. unfold IndexIterator.deref, LeafPage.GetItem. cbn.
  apply bind_Some. exists (p, next, array), s. split; [by apply leaf_at_intro|]. cbn [snd].
  apply bind_Some. exists tt, s. split.
  - apply lookup_lt_Some in Hkv.
    destruct (Z.leb_spec 0 idx); [|lia].
    destruct (Z.ltb_spec idx (Z.of_nat (length array))); [done | lia].
  - by rewrite Hkv.
Qed.

(** [operator*] on a position at or past the size of the leaf. *)
Lemma deref_past_the_end leaf idx p next array (s : St) :
  pages_ s !! leaf = Some p -> payload_ p = LeafArray next array ->
  Z.of_nat (length array) <= idx ->
  IndexIterator.deref {| IndexIterator.index_ := idx; IndexIterator.leaf_ := Some leaf |} s
  = None.
Proof.
  intros Hp Hpl Hidx. unfold IndexIterator.deref, LeafPage.GetItem, bind. cbn.
  rewrite (leaf_at_intro _ _ _ _ _ Hp Hpl). cbn [snd].
  destruct (Z.ltb_spec idx (Z.of_nat (length array))); [lia|].
  by rewrite andb_false_r.
Qed.

Lemma incr_inside leaf idx p next array (s : St) :
  pages_ s !! leaf = Some p -> payload_ p = LeafArray next array ->
  idx + 1 < Z.of_nat (length array) ->
  IndexIterator.incr {| IndexIterator.index_ := idx; IndexIterator.leaf_ := Some leaf |} s
  = Some ({| IndexIterator.index_ := idx + 1; IndexIterator.leaf_ := Some leaf |}, s).
Proof.
  intros Hp Hpl Hidx. unfold IndexIterator.incr. cbn.
  apply bind_Some. exists (p, next, array), s. split; [by apply leaf_at_intro|].
  destruct (Z.leb_spec (Z.of_nat (length array)) (idx + 1)); [lia | done].
Qed.

Lemma UnlockAndUnPin_returns leaf p (s : St) :
  pages_ s !! leaf = Some p -> page_id_ p = leaf ->
  wp (IndexIterator.UnlockAndUnPin leaf) (fun _ s' => same_nodes s s') s.
Proof.
  intros Hp Hid. unfold IndexIterator.UnlockAndUnPin.
  apply wp_bind. eapply wp_page_at; [exact Hp|]. unfold GetPageId. rewrite Hid.
  apply wp_bind. eapply wp_FetchPage; [exact Hp|].
  apply wp_bind. apply wp_UnpinPage. apply wp_UnpinPage. done.
Qed.

Lemma incr_last_slot leaf idx p next array (s : St) :
  pages_ s !! leaf = Some p -> page_id_ p = leaf -> payload_ p = LeafArray next array ->
  Z.of_nat (length array) <= idx + 1 ->
  (next = INVALID_PAGE_ID \/ is_Some (pages_ s !! next)) ->
  wp (IndexIterator.incr {| IndexIterator.index_ := idx; IndexIterator.leaf_ := Some leaf |})
     (fun it' s' =>
        same_nodes s s' /\
        it' = if decide (next = INVALID_PAGE_ID)
              then {| IndexIterator.index_ := idx + 1; IndexIterator.leaf_ := None |}
              else {| IndexIterator.index_ := 0; IndexIterator.leaf_ := Some next |}) s.
Proof.
  intros Hp Hid Hpl Hidx Hnext. unfold IndexIterator.incr. cbn.
  apply wp_bind. eapply wp_leaf_at; [exact Hp | exact Hpl|].
  destruct (Z.leb_spec (Z.of_nat (length array)) (idx + 1)); [|lia].
  apply wp_bind. eapply wp_mono; [by eapply UnlockAndUnPin_returns|].
  intros [] s1 Hs1. cbn.
  destruct (Z.eqb_spec next INVALID_PAGE_ID) as [-> | Hne].
  - apply wp_ret. by rewrite decide_True.
  - destruct Hnext as [? | [pn Hpn]]; [done|].
    apply wp_bind. eapply wp_FetchPage; [destruct Hs1 as [-> _]; exact Hpn|].
    apply wp_ret. rewrite decide_False by done. split; [|done].
    eapply same_nodes_trans; [exact Hs1 | apply same_nodes_pins].
Qed.

Lemma scan_chain_returns P leaf arrays :
  chain P leaf arrays ->
  forall (n : nat) (idx : Z) array rest (s : St) fuel,
    arrays = array :: rest -> pages_ s = P ->
    0 <= idx -> Z.of_nat (length array) = idx + Z.of_nat n -> (0 < n)%nat ->
    (n + length (concat rest) < fuel)%nat ->
    wp (IndexIterator.scan fuel
          {| IndexIterator.index_ := idx; IndexIterator.leaf_ := Some leaf |})
       (fun l s' => l = drop (Z.to_nat idx) array ++ concat rest /\ same_nodes s s') s.
Proof.
  induction 1 as [id p array0 Hp Hid Hpl Hne | id p next array0 rest0 Hp Hid Hpl Hne Hnext Hch IH];
    intros n; induction n as [|n IHn]; intros idx array rest s fuel [= <- <-] HP Hidx Hlen Hn Hfuel;
    try lia; (destruct fuel as [|fuel]; [lia|]); subst P.
  - (* the last leaf *)
    destruct (array0 !! Z.to_nat idx) as [kv|] eqn:Hkv;
      [|apply lookup_ge_None in Hkv; lia].
    cbn [IndexIterator.scan IndexIterator.isEnd IndexIterator.leaf_].
    apply wp_bind. eapply wp_intro; [by eapply deref_returns|].
    rewrite (drop_S _ _ _ Hkv).
    destruct n as [|n].
    + apply wp_bind. eapply wp_mono.
      { eapply incr_last_slot; [exact Hp | exact Hid | exact Hpl | lia | by left]. }
      intros it' s1 [Hs1 ->]. rewrite decide_True by done.
      destruct fuel as [|fuel]; [cbn in Hfuel; lia|].
      apply wp_bind. cbn [IndexIterator.scan IndexIterator.isEnd IndexIterator.leaf_].
      apply wp_ret. apply wp_ret. split; [|done].
      rewrite (drop_ge array0) by lia. done.
    + apply wp_bind. eapply wp_intro; [eapply incr_inside; [exact Hp | exact Hpl | lia]|].
      apply wp_bind. eapply wp_mono.
      { eapply (IHn (idx + 1)); [reflexivity | reflexivity | lia | lia | lia | cbn in *; lia]. }
      intros l s1 [-> Hs1]. apply wp_ret. split; [|done].
      replace (Z.to_nat (idx + 1)) with (S (Z.to_nat idx)) by lia. done.
  - (* a leaf with a sibling *)
    destruct (array0 !! Z.to_nat idx) as [kv|] eqn:Hkv;
      [|apply lookup_ge_None in Hkv; lia].
    cbn [IndexIterator.scan IndexIterator.isEnd IndexIterator.leaf_].
    apply wp_bind. eapply wp_intro; [by eapply deref_returns|].
    rewrite (drop_S _ _ _ Hkv).
    destruct n as [|n].
    + destruct (chain_head _ _ _ Hch) as (pn & nn & an & rn & -> & Hpn & Hidn & Hpln & Hnen & _).
      apply wp_bind. eapply wp_mono.
      { eapply incr_last_slot; [exact Hp | exact Hid | exact Hpl | lia | right; eauto]. }
      intros it' s1 [Hs1 ->]. rewrite decide_False by done.
      apply wp_bind. eapply wp_mono.
      { eapply (IH (length an) 0 an rn s1 fuel); [reflexivity | by destruct Hs1 | lia | lia | |].
        - destruct an; [done | cbn; lia].
        - cbn in Hfuel. rewrite length_app in Hfuel. lia. }
      intros l s2 [-> Hs2]. apply wp_ret. split; [|by eapply same_nodes_trans].
      rewrite (drop_ge array0) by lia. cbn. done.
    + apply wp_bind. eapply wp_intro; [eapply incr_inside; [exact Hp | exact Hpl | lia]|].
      apply wp_bind. eapply wp_mono.
      { eapply (IHn (idx + 1)); [reflexivity | reflexivity | lia | lia | lia | cbn in *; lia]. }
      intros l s1 [-> Hs1]. apply wp_ret. split; [|done].
      replace (Z.to_nat (idx + 1)) with (S (Z.to_nat idx)) by lia. done.
Qed.

Lemma scan_from_slot leaf array rest (idx : Z) (s : St) (fuel : nat) :
  chain (pages_ s) leaf (array :: rest) ->
  0 <= idx < Z.of_nat (length array) ->
  (length array + length (concat rest) < fuel)%nat ->
  exists s',
    IndexIterator.scan fuel
      {| IndexIterator.index_ := idx; IndexIterator.leaf_ := Some leaf |} s
    = Some (drop (Z.to_nat idx) array ++ concat rest, s') /\
    pages_ s' = pages_ s.
Proof.
  intros Hch Hidx Hfuel.
  destruct (scan_chain_returns _ _ _ Hch (length array - Z.to_nat idx)%nat idx array rest s fuel
              eq_refl eq_refl ltac:(lia) ltac:(lia) ltac:(lia) ltac:(lia))
    as (l & s' & Hrun & -> & Hp & _).
  exists s'. done.
Qed.

(** X11 — a range scan walks the sibling chain.  From a position inside a
    leaf, dereferencing and advancing the iterator until [isEnd] returns
    the pairs of the leaf from that position on, followed by all pairs of
    the leaves the sibling links lead to, in their order; no page is
    written. *)
Theorem scan_walks_chain leaf array rest (idx : Z) (s : St) (fuel : nat) :
  chain (pages_ s) leaf (array :: rest) ->
  0 <= idx < Z.of_nat (length array) ->
  (length array + length (concat rest) < fuel)%nat ->
  exists s',
    IndexIterator.scan fuel
      {| IndexIterator.index_ := idx; IndexIterator.leaf_ := Some leaf |} s
    = Some (drop (Z.to_nat idx) array ++ concat rest, s') /\
    pages_ s' = pages_ s.
Proof. apply scan_from_slot. Qed.

(** *** The descent of a read without a transaction *)

Lemma FreePagesInTransaction_read_returns cur p (s : St) :
  transaction_ s = None -> pages_ s !! cur = Some p -> 0 <= cur ->
  wp (BPlusTree.FreePagesInTransaction false cur) (fun _ s' => same_nodes s s') s.
Proof.
  intros Hn Hp Hcur. unfold BPlusTree.FreePagesInTransaction.
  apply wp_bind. unfold BPlusTree.TryUnlockRootPageId. apply wp_modify.
  set (s1 := if 0 <? rootLockedCnt s then _ else _).
  assert (Hs1 : same_nodes s s1) by (subst s1; by destruct (0 <? rootLockedCnt s)).
  clearbody s1. destruct Hs1 as (Hp1 & Hr1 & Ht1).
  apply wp_bind, wp_gets. rewrite Ht1, Hn.
  apply wp_bind, wp_check; [by destruct (Z.leb_spec 0 cur); [|lia]|].
  apply wp_bind. unfold BPlusTree.Unlock_page_id.
  apply wp_bind. eapply wp_FetchPage; [by rewrite Hp1|].
  apply wp_UnpinPage. apply wp_UnpinPage. done.
Qed.

Lemma CrabingProtocalFetchPage_read_returns id prev (s : St) :
  transaction_ s = None -> is_Some (pages_ s !! id) ->
  (0 < prev -> is_Some (pages_ s !! prev)) ->
  wp (BPlusTree.CrabingProtocalFetchPage IsSafe id READ prev)
     (fun a s' => a = id /\ same_nodes s s') s.
Proof.
  intros Hn [p Hp] Hprev. unfold BPlusTree.CrabingProtocalFetchPage. cbv zeta.
  apply wp_bind. eapply wp_FetchPage; [exact Hp|].
  apply wp_bind. rewrite bool_decide_eq_true_2 by done. cbn [negb orb].
  rewrite andb_true_r.
  apply wp_when.
  - intros Hpos. apply Z.ltb_lt in Hpos. destruct (Hprev Hpos) as [pp Hpp].
    eapply wp_mono.
    { eapply (FreePagesInTransaction_read_returns prev pp); [done | done | lia]. }
    intros [] s1 (Hp1 & Hr1 & Ht1). cbn in Hp1, Hr1, Ht1.
    apply wp_bind. unfold AddIntoPageSet_if_transaction.
    eapply wp_intro; [by rewrite Ht1, Hn|]. by apply wp_ret.
  - intros _. apply wp_bind. unfold AddIntoPageSet_if_transaction.
    eapply wp_intro; [cbn; by rewrite Hn|]. by apply wp_ret.
Qed.

Lemma descend_read_returns fuel key cur leaf array below (s0 s : St) :
  subpath comparator (pages_ s0) key cur leaf array below -> (length below <= fuel)%nat ->
  transaction_ s0 = None -> same_nodes s0 s ->
  wp (BPlusTree.descend comparator IsSafe fuel (Some key) false READ cur)
     (fun a s' => a = leaf /\ same_nodes s0 s') s.
Proof.
  intros Hsub. revert fuel s.
  induction Hsub as [cur p next array Hp Hpl | cur p A next leaf array below Hp Hpl Hl Hsub IH];
    intros fuel s Hlen Hn Hsame; (destruct fuel as [|fuel]; [simpl in Hlen; lia|]); simpl.
  - apply wp_bind. eapply wp_page_at; [destruct Hsame as [-> _]; exact Hp|].
    rewrite Hpl. by apply wp_ret.
  - pose proof Hsame as (Hp1 & Hr1 & Ht1).
    apply wp_bind. eapply wp_page_at; [rewrite Hp1; exact Hp|].
    rewrite Hpl. apply wp_bind. unfold BPlusTree.next_child. rewrite Hl. apply wp_ret.
    apply wp_bind.
    eapply wp_mono.
    { apply CrabingProtocalFetchPage_read_returns; [congruence| |].
      - rewrite Hp1. by eapply subpath_head.
      - intros _. rewrite Hp1. eauto. }
    intros a s1 [-> Hs1]. apply IH; [simpl in Hlen; lia | done |].
    by eapply same_nodes_trans.
Qed.

Lemma FindLeafPage_read_returns fuel key leaf array below (s : St) :
  transaction_ s = None -> root_page_id_ s <> INVALID_PAGE_ID ->
  subpath comparator (pages_ s) key (root_page_id_ s) leaf array below ->
  (length below <= fuel)%nat ->
  wp (BPlusTree.FindLeafPage comparator IsSafe fuel (Some key) false READ)
     (fun a s' => a = Some leaf /\ same_nodes s s') s.
Proof.
  intros Hn Hroot Hsub Hlen. unfold BPlusTree.FindLeafPage. cbv zeta.
  apply wp_bind. unfold BPlusTree.LockRootPageId. apply wp_modify.
  set (s1 := set_rootLockedCnt _ s).
  assert (Hs1 : same_nodes s s1) by done.
  clearbody s1. pose proof Hs1 as (Hp1 & Hr1 & Ht1).
  apply wp_bind. unfold BPlusTree.IsEmpty. apply wp_gets. rewrite Hr1.
  destruct (root_page_id_ s =? INVALID_PAGE_ID) eqn:Hb; [apply Z.eqb_eq in Hb; done|].
  apply wp_bind, wp_gets. rewrite Hr1.
  apply wp_bind.
  eapply wp_mono.
  { apply CrabingProtocalFetchPage_read_returns; [congruence| |].
    - rewrite Hp1. by eapply subpath_head.
    - cbn. lia. }
  intros a s2 [-> Hs2].
  apply wp_bind.
  eapply wp_mono.
  { eapply descend_read_returns; [exact Hsub | exact Hlen | exact Hn|].
    by eapply same_nodes_trans. }
  intros a s3 [-> Hs3]. by apply wp_ret.
Qed.

Lemma Begin_key_returns fuel key leaf array below (s : St) :
  transaction_ s = None -> root_page_id_ s <> INVALID_PAGE_ID ->
  subpath comparator (pages_ s) key (root_page_id_ s) leaf array below ->
  (length below <= fuel)%nat ->
  wp (BPlusTree.Begin_key comparator IsSafe fuel key)
     (fun it s' =>
        it = {| IndexIterator.index_ := LeafPage.KeyIndex comparator array key;
                IndexIterator.leaf_ := Some leaf |} /\ same_nodes s s') s.
Proof.
  intros Hn Hroot Hsub Hlen. unfold BPlusTree.Begin_key.
  apply wp_bind. eapply wp_mono; [by eapply FindLeafPage_read_returns|].
  intros a s1 [-> Hs1].
  apply wp_bind. unfold BPlusTree.TryUnlockRootPageId. apply wp_modify.
  set (s2 := if 0 <? rootLockedCnt s1 then _ else _).
  assert (Hs2 : same_nodes s s2).
  { eapply same_nodes_trans; [exact Hs1|]. subst s2. by destruct (0 <? rootLockedCnt s1). }
  clearbody s2.
  destruct (subpath_last _ _ _ _ _ _ _ Hsub) as (p & next & Hp & Hpl & _).
  apply wp_bind. eapply wp_leaf_at; [destruct Hs2 as [-> _]; exact Hp | exact Hpl|].
  by apply wp_ret.
Qed.

(** [leftmost P cur leaf n]: following the first child from [cur] leads,
    over [n] nodes, to the leaf [leaf]. *)
Inductive leftmost (P : gmap page_id_t Page) : page_id_t -> page_id_t -> nat -> Prop :=
| leftmost_leaf cur p next array :
    P !! cur = Some p -> payload_ p = LeafArray next array -> leftmost P cur cur 1
| leftmost_step cur p k0 v0 rest leaf n :
    P !! cur = Some p -> payload_ p = InternalArray ((k0, v0) :: rest) ->
    leftmost P v0 leaf n -> leftmost P cur leaf (S n).

Lemma leftmost_head P cur leaf n : leftmost P cur leaf n -> is_Some (P !! cur).
Proof. destruct 1; eauto. Qed.

Lemma descend_leftmost_returns fuel cur leaf n (s0 s : St) :
  leftmost (pages_ s0) cur leaf n -> (n <= fuel)%nat ->
  transaction_ s0 = None -> same_nodes s0 s ->
  wp (BPlusTree.descend comparator IsSafe fuel None true READ cur)
     (fun a s' => a = leaf /\ same_nodes s0 s') s.
Proof.
  intros Hleft. revert fuel s.
  induction Hleft as [cur p next array Hp Hpl | cur p k0 v0 rest leaf n Hp Hpl Hleft IH];
    intros fuel s Hlen Hn Hsame; (destruct fuel as [|fuel]; [lia|]); simpl.
  - apply wp_bind. eapply wp_page_at; [destruct Hsame as [-> _]; exact Hp|].
    rewrite Hpl. by apply wp_ret.
  - pose proof Hsame as (Hp1 & Hr1 & Ht1).
    apply wp_bind. eapply wp_page_at; [rewrite Hp1; exact Hp|].
    rewrite Hpl. apply wp_bind. unfold InternalPage.ValueAt.
    apply wp_bind. eapply wp_internal_at; [rewrite Hp1; exact Hp | exact Hpl|]. cbn [snd].
    apply wp_bind, wp_check; [done|]. cbn. apply wp_ret.
    apply wp_bind.
    eapply wp_mono.
    { apply CrabingProtocalFetchPage_read_returns; [congruence| |].
      - rewrite Hp1. by eapply leftmost_head.
      - intros _. rewrite Hp1. eauto. }
    intros a s1 [-> Hs1]. apply IH; [lia | done |].
    by eapply same_nodes_trans.
Qed.

(** X14 — a full scan.  Called without a transaction on a tree that is
    not empty, [Begin()] followed by the scan until [isEnd] returns all
    pairs of the leaves from the leftmost leaf along the sibling links, in
    their order, and writes no page. *)
Theorem Begin_then_scan (s : St) leaf arrays (n fuel fuel' : nat) :
  transaction_ s = None -> root_page_id_ s <> INVALID_PAGE_ID ->
  leftmost (pages_ s) (root_page_id_ s) leaf n -> (n <= fuel)%nat ->
  chain (pages_ s) leaf arrays ->
  (length (concat arrays) < fuel')%nat ->
  exists it s1 s2,
    BPlusTree.Begin comparator IsSafe fuel s = Some (it, s1) /\
    IndexIterator.scan fuel' it s1 = Some (concat arrays, s2) /\
    pages_ s2 = pages_ s.
Proof.
  intros Hn Hroot Hleft Hlen Hch Hfuel.
  assert (Hbegin : wp (BPlusTree.Begin comparator IsSafe fuel)
                     (fun it s' => it = {| IndexIterator.index_ := 0;
                                           IndexIterator.leaf_ := Some leaf |} /\
                                   same_nodes s s') s).
  { unfold BPlusTree.Begin. apply wp_bind.
    unfold BPlusTree.FindLeafPage. cbv zeta.
    apply wp_bind. unfold BPlusTree.LockRootPageId. apply wp_modify.
    set (s1 := set_rootLockedCnt _ s).
    assert (Hs1 : same_nodes s s1) by done.
    clearbody s1. pose proof Hs1 as (Hp1 & Hr1 & Ht1).
    apply wp_bind. unfold BPlusTree.IsEmpty. apply wp_gets. rewrite Hr1.
    destruct (root_page_id_ s =? INVALID_PAGE_ID) eqn:Hb; [apply Z.eqb_eq in Hb; done|].
    apply wp_bind, wp_gets. rewrite Hr1.
    apply wp_bind.
    eapply wp_mono.
    { apply CrabingProtocalFetchPage_read_returns; [congruence| |].
      - rewrite Hp1. by eapply leftmost_head.
      - cbn. lia. }
    intros a s2 [-> Hs2].
    apply wp_bind.
    eapply wp_mono.
    { eapply descend_leftmost_returns; [exact Hleft | exact Hlen | exact Hn|].
      by eapply same_nodes_trans. }
    intros a s3 [-> Hs3]. apply wp_ret.
    apply wp_bind. unfold BPlusTree.TryUnlockRootPageId. apply wp_modify.
    apply wp_ret. split; [done|].
    destruct (0 <? rootLockedCnt s3); exact Hs3. }
  destruct Hbegin as (it & s1 & Hrun & -> & Hs1).
  destruct (chain_head _ _ _ Hch) as (p & next & array & rest & -> & Hp & Hid & Hpl & Hne & _).
  destruct (scan_from_slot leaf array rest 0 s1 fuel') as (s2 & Hscan & Hp2).
  - destruct Hs1 as [-> _]. exact Hch.
  - destruct array; [done | cbn; lia].
  - cbn in Hfuel. rewrite length_app in Hfuel. lia.
  - exists {| IndexIterator.index_ := 0; IndexIterator.leaf_ := Some leaf |}, s1, s2.
    split; [exact Hrun|]. split; [exact Hscan|]. destruct Hs1 as [Hp1 _]. congruence.
Qed.

Section Ordered.

Hypothesis comparator_sym : forall a b, comparator a b < 0 <-> 0 < comparator b a.
Hypothesis comparator_trans :
  forall a b c, comparator a b <= 0 -> comparator b c <= 0 -> comparator a c <= 0.

(** X12 — a range scan from a key.  Called without a transaction on a
    tree in which the search for [key] ends in a leaf that holds a key not
    below [key], [Begin(key)] followed by the scan until [isEnd] skips
    exactly the pairs of that leaf whose keys are below [key], and returns
    the other pairs of the leaf and all pairs of the leaves after it, in
    their order. *)
Theorem Begin_key_then_scan (s : St) key leaf array rest below (fuel fuel' : nat) :
  transaction_ s = None -> root_page_id_ s <> INVALID_PAGE_ID ->
  subpath comparator (pages_ s) key (root_page_id_ s) leaf array below ->
  (length below <= fuel)%nat ->
  ascending comparator array ->
  chain (pages_ s) leaf (array :: rest) ->
  (exists k v, (k, v) ∈ array /\ comparator k key >= 0) ->
  (length array + length (concat rest) < fuel')%nat ->
  exists it s1 s2 low high,
    BPlusTree.Begin_key comparator IsSafe fuel key s = Some (it, s1) /\
    IndexIterator.scan fuel' it s1 = Some (high ++ concat rest, s2) /\
    array = low ++ high /\
    Forall (fun kv => comparator kv.1 key < 0) low /\
    Forall (fun kv => comparator kv.1 key >= 0) high /\
    pages_ s2 = pages_ s.
Proof.
  intros Hn Hroot Hsub Hlen Hasc Hch (k & v & Hin & Hk) Hfuel.
  destruct (Begin_key_returns fuel key leaf array below s Hn Hroot Hsub Hlen)
    as (it & s1 & Hrun & -> & Hs1).
  pose proof (KeyIndex_range comparator comparator_sym comparator_trans array key Hasc) as Hr.
  set (idx := LeafPage.KeyIndex comparator array key) in *.
  assert (Hlt : idx < Z.of_nat (length array)).
  { apply list_elem_of_lookup in Hin as [i Hi].
    destruct (Z_lt_ge_dec (Z.of_nat i) idx) as [Hlt | Hge].
    - pose proof (KeyIndex_below comparator comparator_sym comparator_trans
                    array key i k v Hasc Hi Hlt). lia.
    - apply lookup_lt_Some in Hi. lia. }
  destruct (scan_from_slot leaf array rest idx s1 fuel') as (s2 & Hscan & Hp2);
    [destruct Hs1 as [-> _]; exact Hch | lia | lia |].
  exists {| IndexIterator.index_ := idx; IndexIterator.leaf_ := Some leaf |}, s1, s2,
    (take (Z.to_nat idx) array), (drop (Z.to_nat idx) array).
  split; [exact Hrun|]. split; [exact Hscan|]. split; [by rewrite take_drop|].
  split; [|split].
  - apply Forall_forall. intros [k' v'] Hin'.
    apply elem_of_take in Hin' as (i & Hi & Hlti). cbn.
    apply (KeyIndex_below comparator comparator_sym comparator_trans array key i k' v' Hasc Hi).
    fold idx. lia.
  - apply Forall_forall. intros [k' v'] Hin'.
    apply list_elem_of_lookup in Hin' as [i Hi]. rewrite lookup_drop in Hi. cbn.
    apply (KeyIndex_not_below comparator comparator_sym comparator_trans
             array key _ k' v' Hasc Hi).
    fold idx. lia.
  - destruct Hs1 as [Hp1 _]. congruence.
Qed.

(** X13 — [Begin(key)] past the last key of a leaf.  When every key of
    the leaf in which the search for [key] ends is below [key], the
    iterator [Begin(key)] returns stands on that leaf at the position of
    its size: it is not at the end, and [operator*] fails the assertion of
    [GetItem], whether or not the leaf has a sibling. *)
Theorem Begin_key_past_the_end (s : St) key leaf array below (fuel : nat) :
  transaction_ s = None -> root_page_id_ s <> INVALID_PAGE_ID ->
  subpath comparator (pages_ s) key (root_page_id_ s) leaf array below ->
  (length below <= fuel)%nat ->
  ascending comparator array ->
  Forall (fun kv => comparator kv.1 key < 0) array ->
  exists it s1,
    BPlusTree.Begin_key comparator IsSafe fuel key s = Some (it, s1) /\
    IndexIterator.isEnd it = false /\
    IndexIterator.index_ it = Z.of_nat (length array) /\
    IndexIterator.deref it s1 = None /\
    (forall fuel', IndexIterator.scan fuel' it s1 = None).
Proof.
  intros Hn Hroot Hsub Hlen Hasc Hall.
  destruct (Begin_key_returns fuel key leaf array below s Hn Hroot Hsub Hlen)
    as (it & s1 & Hrun & -> & Hs1).
  pose proof (KeyIndex_range comparator comparator_sym comparator_trans array key Hasc) as Hr.
  set (idx := LeafPage.KeyIndex comparator array key) in *.
  assert (Hidx : idx = Z.of_nat (length array)).
  { destruct (Z_lt_ge_dec idx (Z.of_nat (length array))) as [Hlt | Hge]; [|lia].
    destruct (lookup_lt_is_Some_2 array (Z.to_nat idx) ltac:(lia)) as [[k v] Hi].
    pose proof (KeyIndex_not_below comparator comparator_sym comparator_trans
                  array key _ k v Hasc Hi) as Hk.
    fold idx in Hk. rewrite Forall_forall in Hall.
    pose proof (Hall (k, v) ltac:(by eapply list_elem_of_lookup_2)) as Hb. cbn in Hb. lia. }
  destruct (subpath_last _ _ _ _ _ _ _ Hsub) as (p & next & Hp & Hpl & _).
  assert (Hderef : IndexIterator.deref
                     {| IndexIterator.index_ := idx; IndexIterator.leaf_ := Some leaf |} s1
                   = None).
  { eapply deref_past_the_end; [destruct Hs1 as [-> _]; exact Hp | exact Hpl | lia]. }
  do 2 eexists. split; [exact Hrun|]. split; [done|]. split; [done|].
  split; [exact Hderef|].
  intros [|fuel']; [done|]. cbn [IndexIterator.scan IndexIterator.isEnd IndexIterator.leaf_].
  unfold bind. by rewrite Hderef.
Qed.

End Ordered.

End RangeScan.

(** The theorems on the two-leaf tree with the leaves [1; 3; 4] and
    [5; 6; 7], called without a transaction. *)
Definition scan_fixture : BPlusTreePage.State Z := two_leaf_tree [5; 6; 7] None.

Lemma scan_fixture_chain :
  chain (BPlusTreePage.pages_ scan_fixture) 1
    [(fun k : Z => (k, (k, k))) <$> [1; 3; 4]; (fun k : Z => (k, (k, k))) <$> [5; 6; 7]].
Proof.
  eapply (chain_next _ 1 (leaf_page 1 3 2 [1; 3; 4]) 2); try done.
  eapply (chain_last _ 2 (leaf_page 2 3 INVALID_PAGE_ID [5; 6; 7])); done.
Defined.

Lemma scan_fixture_right_chain :
  chain (BPlusTreePage.pages_ scan_fixture) 2 [(fun k : Z => (k, (k, k))) <$> [5; 6; 7]].
Proof. eapply (chain_last _ 2 (leaf_page 2 3 INVALID_PAGE_ID [5; 6; 7])); done. Defined.

Lemma scan_fixture_path (key : Z) :
  5 <= key ->
  subpath Zcomparator (BPlusTreePage.pages_ scan_fixture) key 3 2
    ((fun k : Z => (k, (k, k))) <$> [5; 6; 7]) [3; 2].
Proof.
  intros Hkey.
  eapply (subpath_step _ _ _ 3 (internal_page 3 INVALID_PAGE_ID [(5, 1); (5, 2)]) _ 2);
    [reflexivity | reflexivity | |].
  - cbn. unfold Zcomparator. destruct (Z.ltb_spec key 5); [lia|].
    destruct (Z.ltb_spec 5 key); reflexivity.
  - eapply (subpath_leaf _ _ _ 2 (leaf_page 2 3 INVALID_PAGE_ID [5; 6; 7])); reflexivity.
Defined.

Lemma scan_walks_chain_witness :
  exists s',
    IndexIterator.scan 8 {| IndexIterator.index_ := 1; IndexIterator.leaf_ := Some 1 |}
      scan_fixture
    = Some ((fun k : Z => (k, (k, k))) <$> [3; 4; 5; 6; 7], s').
Proof.
  destruct (scan_walks_chain 1 _ _ 1 scan_fixture 8 scan_fixture_chain
              ltac:(cbn; lia) ltac:(cbn; lia)) as (s' & Hscan & _).
  exists s'. exact Hscan.
Defined.

Lemma Begin_key_then_scan_witness :
  exists it s1 s2,
    BPlusTree.Begin_key Zcomparator fixture_IsSafe 8 6 scan_fixture = Some (it, s1) /\
    IndexIterator.scan 8 it s1 = Some ((fun k : Z => (k, (k, k))) <$> [6; 7], s2).
Proof.
  destruct (Begin_key_then_scan Zcomparator fixture_IsSafe Zcomparator_sym Zcomparator_trans
              scan_fixture 6 2 _ [] [3; 2] 8 8 eq_refl ltac:(done)
              (scan_fixture_path 6 ltac:(lia)) ltac:(cbn; lia))
    as (it & s1 & s2 & low & high & Hrun & Hscan & Harr & Hlow & Hhigh & _).
  - repeat constructor.
  - exact scan_fixture_right_chain.
  - exists 6, (6, 6). split; [right; by left | done].
  - cbn. lia.
  - cbn [concat] in Hscan. rewrite app_nil_r in Hscan.
    pose proof Hrun as Hrun'. vm_compute in Hrun'. injection Hrun' as <- <-.
    pose proof Hscan as Hscan'. vm_compute in Hscan'. injection Hscan' as <- <-.
    do 3 eexists. split; [exact Hrun | exact Hscan].
Defined.

Lemma Begin_key_past_the_end_witness :
  exists it s1,
    BPlusTree.Begin_key Zcomparator fixture_IsSafe 8 8 scan_fixture = Some (it, s1) /\
    IndexIterator.isEnd it = false /\ IndexIterator.index_ it = 3 /\
    IndexIterator.deref it s1 = None.
Proof.
  destruct (Begin_key_past_the_end Zcomparator fixture_IsSafe Zcomparator_sym
              Zcomparator_trans scan_fixture 8 2 _ [3; 2] 8 eq_refl ltac:(done)
              (scan_fixture_path 8 ltac:(lia)) ltac:(cbn; lia))
    as (it & s1 & Hrun & Hend & Hidx & Hderef & _).
  - repeat constructor.
  - repeat constructor.
  - exists it, s1. done.
Defined.

Lemma Begin_then_scan_witness :
  exists it s1 s2,
    BPlusTree.Begin Zcomparator fixture_IsSafe 8 scan_fixture = Some (it, s1) /\
    IndexIterator.scan 8 it s1
    = Some ((fun k : Z => (k, (k, k))) <$> [1; 3; 4; 5; 6; 7], s2).
Proof.
  destruct (Begin_then_scan Zcomparator fixture_IsSafe scan_fixture 1
              [(fun k : Z => (k, (k, k))) <$> [1; 3; 4]; (fun k : Z => (k, (k, k))) <$> [5; 6; 7]]
              2 8 8 eq_refl ltac:(done)) as (it & s1 & s2 & Hrun & Hscan & _).
  - eapply (leftmost_step _ 3 (internal_page 3 INVALID_PAGE_ID [(5, 1); (5, 2)]) 5 1 [(5, 2)]);
      [reflexivity | reflexivity|].
    eapply (leftmost_leaf _ 1 (leaf_page 1 3 2 [1; 3; 4])); reflexivity.
  - lia.
  - exact scan_fixture_chain.
  - cbn. lia.
  - exists it, s1, s2. split; [exact Hrun | exact Hscan].
Defined.


(** ** The descent: which pages stay in the page set *)

Section Crabbing.
Import BPlusTreePage.
Context {Key : Type}.
Variable comparator : Key -> Key -> Z.
Variable IsSafe : OpType -> BPlusTreePage Key -> bool.

Abbreviation St := (State Key).
Abbreviation Page := (BPlusTreePage Key).

(** The test of [CrabingProtocalFetchPage] on the page it fetched: the
    pages fetched before it are released. *)
Definition releases (op : OpType) (p : Page) : bool :=
  negb (negb (bool_decide (op = READ))) || IsSafe op p.

Definition releases_at (P : gmap page_id_t Page) (op : OpType) (id : page_id_t) : bool :=
  match P !! id with Some p => releases op p | None => false end.

(** The page set along a path: [held] is the set on arrival at the first
    node of [rest]. *)
Fixpoint crab_held (rel : page_id_t -> bool) (held rest : list page_id_t) : list page_id_t :=
  match rest with
  | [] => held
  | n :: rest' => crab_held rel (if rel n then [n] else held ++ [n]) rest'
  end.

Lemma FreePagesInTransaction_clears e cur (s : St) :
  txn_ok s ->
  wp (BPlusTree.FreePagesInTransaction e cur)
     (fun _ s' => same_tree s s' /\ page_set_of s' = []) s.
Proof.
  intros Htx. destruct (FreePagesInTransaction_returns e cur s Htx) as ([] & s' & Hrun & Hs').
  exists tt, s'. split; [exact Hrun|]. split; [exact Hs'|].
  destruct Htx as (t & Ht & _).
  by destruct (FreePagesInTransaction_run e cur _ _ _ Hrun ltac:(by exists t)).
Qed.

Lemma CrabingProtocalFetchPage_page_set id op prev p (s0 s : St) :
  same_tree s0 s -> pages_ s !! id = Some p ->
  wp (BPlusTree.CrabingProtocalFetchPage IsSafe id op prev)
     (fun a s' =>
        a = id /\ same_tree s0 s' /\
        page_set_of s'
        = (if (0 <? prev) && releases op p then [] else page_set_of s) ++ [id]) s.
Proof.
  intros Hsame Hp. pose proof Hsame as (H1 & H2 & H3 & t & Ht & Hd).
  unfold BPlusTree.CrabingProtocalFetchPage. cbv zeta.
  apply wp_bind. eapply wp_FetchPage; [exact Hp|].
  set (s1 := set_pin_count _ s).
  assert (Hs1 : same_tree s0 s1).
  { split; [done|]. split; [done|]. split; [done|]. exists t. done. }
  assert (Hps1 : page_set_of s1 = page_set_of s) by done.
  clearbody s1.
  apply wp_bind. fold (releases op p).
  assert (Hfree : wp (when ((0 <? prev) && releases op p)
                        (BPlusTree.FreePagesInTransaction (negb (bool_decide (op = READ))) prev))
                    (fun _ s' => same_tree s0 s' /\
                       page_set_of s'
                       = if (0 <? prev) && releases op p then [] else page_set_of s) s1).
  { apply wp_when.
    - intros ->. eapply wp_mono.
      { apply FreePagesInTransaction_clears. by destruct Hs1 as (_ & _ & _ & ?). }
      intros ? s2 [Hs2 Hps2]. split; [by eapply same_tree_trans | done].
    - intros ->. done. }
  eapply wp_mono; [exact Hfree|]. clear Hfree.
  intros ? s2 [Hs2 Hps2]. pose proof Hs2 as (H1' & H2' & H3' & t' & Ht' & Hd').
  apply wp_bind. unfold AddIntoPageSet_if_transaction.
  eapply wp_intro; [by rewrite Ht'|].
  apply wp_ret. split; [done|]. split.
  - split; [done|]. split; [done|]. split; [done|]. eexists. split; [reflexivity | done].
  - rewrite <- Hps2. unfold page_set_of. cbn. by rewrite Ht'.
Qed.

Lemma descend_page_set fuel key op cur leaf array below (s0 s : St) :
  subpath comparator (pages_ s0) key cur leaf array below -> (length below <= fuel)%nat ->
  (forall x, x ∈ below -> 0 < x) ->
  same_tree s0 s ->
  wp (BPlusTree.descend comparator IsSafe fuel (Some key) false op cur)
     (fun a s' =>
        a = leaf /\ same_tree s0 s' /\
        page_set_of s' = crab_held (releases_at (pages_ s0) op) (page_set_of s) (tail below)) s.
Proof.
  intros Hsub. revert fuel s.
  induction Hsub as [cur p next array Hp Hpl | cur p A next leaf array below Hp Hpl Hl Hsub IH];
    intros fuel s Hlen Hpos Hsame; (destruct fuel as [|fuel]; [simpl in Hlen; lia|]); simpl.
  - apply wp_bind. eapply wp_page_at; [destruct Hsame as [-> _]; exact Hp|].
    rewrite Hpl. by apply wp_ret.
  - apply wp_bind. eapply wp_page_at; [destruct Hsame as [-> _]; exact Hp|].
    rewrite Hpl. apply wp_bind. unfold BPlusTree.next_child. rewrite Hl. apply wp_ret.
    destruct (subpath_head _ _ _ _ _ _ _ Hsub) as [pn Hpn].
    apply wp_bind.
    eapply wp_mono.
    { eapply (CrabingProtocalFetchPage_page_set next op cur pn); [exact Hsame|].
      destruct Hsame as [-> _]. exact Hpn. }
    intros a s1 (-> & Hs1 & Hps1).
    eapply wp_mono.
    { apply IH; [simpl in Hlen; lia | | done]. intros x Hx. apply Hpos. by right. }
    intros a s2 (-> & Hs2 & Hps2). split; [done|]. split; [done|].
    rewrite Hps2, Hps1.
    assert (Hcur : 0 <? cur = true) by (apply Z.ltb_lt, Hpos; by left).
    rewrite Hcur. cbn [andb].
    destruct Hsub as [? ? ? ? Hq ? | ? ? ? ? ? ? ? Hq ? ? ?]; cbn [tail crab_held];
      unfold releases_at; rewrite Hq; rewrite Hpn in Hq; injection Hq as ->;
      by destruct (releases op _).
Qed.

(** The pages that stay in the page set are the end of the path, from the
    last node that releases the ones above it. *)
Lemma crab_held_suffix rel rest : forall pre held,
  held <> [] ->
  (forall x, x ∈ tail held -> rel x = false) ->
  (pre <> [] -> rel (hd 0 held) = true) ->
  exists pre' held',
    pre ++ held ++ rest = pre' ++ held' /\ crab_held rel held rest = held' /\
    held' <> [] /\ last held' = last (held ++ rest) /\
    (forall x, x ∈ tail held' -> rel x = false) /\
    (pre' <> [] -> rel (hd 0 held') = true).
Proof.
  induction rest as [|n rest IH]; intros pre held Hne Htail Hhd; cbn [crab_held].
  - exists pre, held. rewrite app_nil_r. done.
  - destruct (rel n) eqn:Hn.
    + destruct (IH (pre ++ held) [n]) as (pre' & held' & Heq & Hc & Hne' & Hlast & Ht' & Hh').
      * done.
      * intros x Hx. by apply elem_of_nil in Hx.
      * intros _. exact Hn.
      * exists pre', held'. split; [by rewrite <- Heq, <- !app_assoc|].
        split; [done|]. split; [done|]. split; [|done].
        rewrite Hlast. cbn. rewrite (last_app_cons held). done.
    + destruct (IH pre (held ++ [n])) as (pre' & held' & Heq & Hc & Hne' & Hlast & Ht' & Hh').
      * by destruct held.
      * intros x Hx. destruct held as [|h held]; [done|]. cbn in Hx.
        apply elem_of_app in Hx as [Hx | Hx]; [by apply Htail|].
        apply list_elem_of_singleton in Hx as ->. exact Hn.
      * intros Hpre. destruct held as [|h held]; [done|]. by apply Hhd.
      * exists pre', held'. split; [by rewrite <- Heq, <- !app_assoc|].
        split; [done|]. split; [done|]. split; [|done].
        rewrite Hlast. by rewrite <- app_assoc.
Qed.

(** X15 — latch crabbing.  Take an operation with a transaction whose page
    set is empty, on a tree in which the search for [key] follows the path
    [below] from the root to a leaf.  [FindLeafPage] returns that leaf, and
    the page set then holds the end of the path, in its order, down to the
    leaf: it starts at the deepest node below the root on which the pages
    above are released — any node for a read, a node the operation finds
    safe for an insert or a delete — or at the root when there is none. *)
Theorem FindLeafPage_crabbing (s : St) t key op leaf array below (fuel : nat) :
  transaction_ s = Some t -> page_set_ t = [] -> deleted_page_set_ t = ∅ ->
  root_page_id_ s <> INVALID_PAGE_ID ->
  subpath comparator (pages_ s) key (root_page_id_ s) leaf array below ->
  (length below <= fuel)%nat ->
  (forall x, x ∈ below -> 0 < x) ->
  exists s' t' freed held,
    BPlusTree.FindLeafPage comparator IsSafe fuel (Some key) false op s = Some (Some leaf, s') /\
    pages_ s' = pages_ s /\
    transaction_ s' = Some t' /\ page_set_ t' = held /\
    below = freed ++ held /\ last held = Some leaf /\
    (forall x, x ∈ tail held -> releases_at (pages_ s) op x = false) /\
    (freed <> [] -> releases_at (pages_ s) op (hd 0 held) = true).
Proof.
  intros Ht Hps Hd Hroot Hsub Hlen Hpos.
  assert (Htx : txn_ok s) by (exists t; done).
  assert (Hrun : wp (BPlusTree.FindLeafPage comparator IsSafe fuel (Some key) false op)
                   (fun a s' => a = Some leaf /\ same_tree s s' /\
                      page_set_of s'
                      = crab_held (releases_at (pages_ s) op) [root_page_id_ s] (tail below)) s).
  { unfold BPlusTree.FindLeafPage. cbv zeta.
    apply wp_bind. unfold BPlusTree.LockRootPageId. apply wp_modify.
    set (s1 := set_rootLockedCnt _ s).
    assert (Hs1 : same_tree s s1) by (split; [done|]; split; [done|]; split; done).
    assert (Hr1 : root_page_id_ s1 = root_page_id_ s) by done.
    assert (Hps1 : page_set_of s1 = []) by (unfold page_set_of; cbn; by rewrite Ht).
    clearbody s1.
    apply wp_bind. unfold BPlusTree.IsEmpty. apply wp_gets. rewrite Hr1.
    destruct (root_page_id_ s =? INVALID_PAGE_ID) eqn:Hb; [apply Z.eqb_eq in Hb; done|].
    apply wp_bind, wp_gets. rewrite Hr1.
    destruct (subpath_head _ _ _ _ _ _ _ Hsub) as [pr Hpr].
    apply wp_bind.
    eapply wp_mono.
    { eapply (CrabingProtocalFetchPage_page_set _ op (-1) pr); [exact Hs1|].
      destruct Hs1 as [-> _]. exact Hpr. }
    intros a s2 (-> & Hs2 & Hps2). cbn [Z.ltb Z.compare andb] in Hps2. rewrite Hps1 in Hps2.
    apply wp_bind.
    eapply wp_mono; [by eapply descend_page_set|].
    intros a s3 (-> & Hs3 & Hps3). apply wp_ret. rewrite Hps3, Hps2. done. }
  destruct Hrun as (a & s' & Hrun & -> & (Hp' & _ & _ & t' & Ht' & _) & Hps').
  assert (Hbelow : below = root_page_id_ s :: tail below).
  { destruct Hsub; done. }
  destruct (crab_held_suffix (releases_at (pages_ s) op) (tail below) [] [root_page_id_ s])
    as (freed & held & Heq & Hc & Hne & Hlast & Htail & Hhd); [done| |done|].
  { intros x Hx. by apply elem_of_nil in Hx. }
  exists s', t', freed, held. split; [exact Hrun|]. split; [done|]. split; [done|].
  split; [unfold page_set_of in Hps'; rewrite Ht' in Hps'; congruence|].
  split; [by rewrite Hbelow|]. split; [|done].
  rewrite Hlast. cbn [app]. rewrite <- Hbelow.
  destruct (subpath_last _ _ _ _ _ _ _ Hsub) as (p & next & _ & _ & _).
  clear -Hsub. induction Hsub as [| ? ? ? ? ? ? ? ? ? ? Hsub IH]; [done|].
  rewrite last_cons, IH. done.
Qed.

End Crabbing.

(** The theorem on the two-leaf tree whose right leaf [5; 6; 7] is full:
    a read keeps the leaf alone, an insert keeps the root and the leaf. *)
Lemma insert_fixture_path (key : Z) :
  5 <= key ->
  subpath Zcomparator (BPlusTreePage.pages_ insert_fixture) key 3 2
    ((fun k : Z => (k, (k, k))) <$> [5; 6; 7]) [3; 2].
Proof.
  intros Hkey.
  eapply (subpath_step _ _ _ 3 (internal_page 3 INVALID_PAGE_ID [(5, 1); (5, 2)]) _ 2);
    [reflexivity | reflexivity | |].
  - cbn. unfold Zcomparator. destruct (Z.ltb_spec key 5); [lia|].
    destruct (Z.ltb_spec 5 key); reflexivity.
  - eapply (subpath_leaf _ _ _ 2 (leaf_page 2 3 INVALID_PAGE_ID [5; 6; 7])); reflexivity.
Defined.

Lemma FindLeafPage_crabbing_witness :
  (exists s' t',
     BPlusTree.FindLeafPage Zcomparator fixture_IsSafe 8 (Some 8) false BPlusTreePage.READ
       insert_fixture = Some (Some 2, s') /\
     BPlusTreePage.transaction_ s' = Some t' /\ page_set_ t' = [2]) /\
  (exists s' t',
     BPlusTree.FindLeafPage Zcomparator fixture_IsSafe 8 (Some 8) false BPlusTreePage.INSERT
       insert_fixture = Some (Some 2, s') /\
     BPlusTreePage.transaction_ s' = Some t' /\ page_set_ t' = [3; 2]).
Proof.
  assert (Hpos : forall x : Z, x ∈ [3; 2] -> 0 < x).
  { intros x Hx. apply elem_of_cons in Hx as [-> | Hx]; [lia|].
    apply list_elem_of_singleton in Hx as ->. lia. }
  split.
  - destruct (FindLeafPage_crabbing Zcomparator fixture_IsSafe insert_fixture
                (new_Transaction 0) 8 BPlusTreePage.READ 2 _ [3; 2] 8
                eq_refl eq_refl eq_refl ltac:(done) (insert_fixture_path 8 ltac:(lia))
                ltac:(cbn; lia) Hpos)
      as (s' & t' & freed & held & Hrun & _ & Ht' & Hheld & _).
    pose proof Hrun as Hrun'. vm_compute in Hrun'. injection Hrun' as <-.
    pose proof Ht' as Ht''. vm_compute in Ht''. injection Ht'' as <-.
    do 2 eexists. split; [exact Hrun|]. split; [exact Ht' | reflexivity].
  - destruct (FindLeafPage_crabbing Zcomparator fixture_IsSafe insert_fixture
                (new_Transaction 0) 8 BPlusTreePage.INSERT 2 _ [3; 2] 8
                eq_refl eq_refl eq_refl ltac:(done) (insert_fixture_path 8 ltac:(lia))
                ltac:(cbn; lia) Hpos)
      as (s' & t' & freed & held & Hrun & _ & Ht' & Hheld & _).
    pose proof Hrun as Hrun'. vm_compute in Hrun'. injection Hrun' as <-.
    pose proof Ht' as Ht''. vm_compute in Ht''. injection Ht'' as <-.
    do 2 eexists. split; [exact Hrun|]. split; [exact Ht' | reflexivity].
Defined.


(** ** The lock manager: queues, phases and round trips *)

Section LockQueues.
Import LockManager.

(** The granted requests of a queue stand before the waiting ones. *)
Fixpoint in_order (l : list TxItem) : bool :=
  match l with
  | [] => true
  | tx :: rest =>
      if granted_ tx then in_order rest else forallb (fun t => negb (granted_ t)) rest
  end.

Definition queues_in_order (lm : LockManager) : Prop :=
  forall rid l, lockTable_ lm !! rid = Some l -> in_order (locks_ l) = true.

Lemma forallb_waiting_in_order l :
  forallb (fun t => negb (granted_ t)) l = true -> in_order l = true.
Proof.
  induction l as [|tx l IH]; [done|]. cbn. intros H. apply andb_true_iff in H as [H1 H2].
  destruct (granted_ tx); [done | exact H2].
Qed.

Lemma forallb_waiting_erase tid l :
  forallb (fun t => negb (granted_ t)) l = true ->
  forallb (fun t => negb (granted_ t)) (erase_tid tid l) = true.
Proof.
  induction l as [|tx l IH]; [done|]. cbn. intros H. apply andb_true_iff in H as [H1 H2].
  destruct (tid_ tx =? tid); [done|]. cbn. rewrite H1. by apply IH.
Qed.

Lemma in_order_erase tid l : in_order l = true -> in_order (erase_tid tid l) = true.
Proof.
  induction l as [|tx l IH]; [done|]. cbn. intros H.
  destruct (tid_ tx =? tid).
  - destruct (granted_ tx); [done | by apply forallb_waiting_in_order].
  - cbn. destruct (granted_ tx); [by apply IH | by apply forallb_waiting_erase].
Qed.

Lemma in_order_snoc_waiting l tx :
  in_order l = true -> granted_ tx = false -> in_order (l ++ [tx]) = true.
Proof.
  intros H Htx. induction l as [|a l IH]; cbn.
  - by rewrite Htx.
  - cbn in H. destruct (granted_ a); [by apply IH|].
    rewrite forallb_app, H. cbn. by rewrite Htx.
Qed.

Lemma in_order_last_granted l b :
  in_order l = true -> last l = Some b -> granted_ b = true ->
  forallb granted_ l = true.
Proof.
  induction l as [|a l IH]; [done|]. cbn [in_order forallb]. intros H Hlast Hb.
  destruct l as [|a' l].
  - injection Hlast as ->. by rewrite Hb.
  - rewrite last_cons_cons in Hlast. destruct (granted_ a) eqn:Ha.
    + by rewrite (IH H Hlast Hb).
    + exfalso. clear IH Ha. revert H Hlast. generalize (a' :: l). clear a' l.
      intros l H Hlast. apply last_Some in Hlast as [l' ->].
      rewrite forallb_app in H. cbn in H. rewrite Hb in H. cbn in H.
      by rewrite andb_false_r in H.
Qed.

Lemma in_order_snoc_granted l tx :
  forallb granted_ l = true -> in_order (l ++ [tx]) = true.
Proof.
  induction l as [|a l IH]; cbn.
  - by destruct (granted_ tx).
  - intros H. apply andb_true_iff in H as [-> H]. by apply IH.
Qed.

Lemma grant_pass_waiting l h :
  forallb (fun t => negb (granted_ t)) l = true -> in_order (grant_pass l h).1 = true.
Proof.
  revert h. induction l as [|tx l IH]; intros h; [done|]. cbn. intros H.
  apply andb_true_iff in H as [H1 H2].
  destruct (granted_ tx); [done|]. cbn.
  destruct (mode_ tx).
  - specialize (IH h H2). destruct (grant_pass l h) as [rest' h']. cbn in *. exact IH.
  - cbn. by apply forallb_waiting_in_order.
  - cbn. by apply forallb_waiting_in_order.
Qed.

Lemma grant_pass_in_order l h : in_order l = true -> in_order (grant_pass l h).1 = true.
Proof.
  destruct l as [|tx l]; [done|]. intros H. cbn in H.
  destruct (granted_ tx) eqn:Htx.
  - cbn [grant_pass]. rewrite Htx. cbn. by rewrite Htx.
  - apply grant_pass_waiting. cbn. by rewrite Htx.
Qed.

Lemma queues_in_order_store rid l lm :
  queues_in_order lm -> in_order (locks_ l) = true -> queues_in_order (store rid l lm).
Proof.
  intros Hlm Hl rid' l'. cbn. rewrite lookup_insert. case_decide.
  - by intros [= <-].
  - by apply Hlm.
Qed.

Lemma in_order_table_at rid lm :
  queues_in_order lm -> in_order (locks_ (table_at rid lm)) = true.
Proof.
  intros Hlm. unfold table_at. destruct (lockTable_ lm !! rid) as [l|] eqn:E; cbn; [|done].
  by eapply Hlm.
Qed.

Lemma lock_step3_in_order txn rid mode l lm o txn' lm' :
  lock_step3 txn rid mode l lm = (o, txn', lm') ->
  queues_in_order lm -> in_order (locks_ l) = true -> queues_in_order lm'.
Proof.
  unfold lock_step3. intros H Hlm Hl.
  destruct (match last (locks_ l) with
            | Some back => negb (checkCanGrant mode l) && (tid_ back <? txn_id_ txn)
            | None => false
            end).
  { injection H as _ _ <-. by apply queues_in_order_store. }
  unfold insert_enqueue in H.
  destruct (checkCanGrant mode l) eqn:Hcan; injection H as _ _ <-;
    apply queues_in_order_store; try done; cbn.
  - apply in_order_snoc_granted.
    unfold checkCanGrant in Hcan.
    destruct (last (locks_ l)) as [b|] eqn:Hlast.
    + destruct mode; try done. apply andb_true_iff in Hcan as [Hb _].
      by eapply in_order_last_granted.
    + apply last_None in Hlast. by rewrite Hlast.
  - by apply in_order_snoc_waiting.
Qed.

Lemma lockTemplate_in_order txn rid mode lm o txn' lm' :
  lockTemplate txn rid mode lm = (o, txn', lm') ->
  queues_in_order lm -> queues_in_order lm'.
Proof.
  unfold lockTemplate, abort_false. intros H Hlm.
  pose proof (in_order_table_at rid lm Hlm) as Hq.
  pose proof (queues_in_order_store rid _ lm Hlm Hq) as Hlm1.
  destruct (negb (bool_decide (state_ txn = GROWING))); [by injection H as _ _ <-|].
  destruct (bool_decide (mode = UPGRADING)).
  - destruct (hasUpgrading_ (table_at rid lm)); [by injection H as _ _ <-|].
    destruct (find_tid (txn_id_ txn) (locks_ (table_at rid lm))) as [it|];
      [|by injection H as _ _ <-].
    destruct (negb (bool_decide (mode_ it = SHARED)) || negb (granted_ it));
      [by injection H as _ _ <-|].
    destruct (bool_decide (rid ∈ shared_lock_set_ txn)).
    + eapply lock_step3_in_order; [exact H | exact Hlm1|]. cbn. by apply in_order_erase.
    + injection H as _ _ <-. apply queues_in_order_store; [done|]. cbn.
      by apply in_order_erase.
  - eapply lock_step3_in_order; [exact H | exact Hlm1 | exact Hq].
Qed.

Lemma queues_in_order_delete rid lm :
  queues_in_order lm -> queues_in_order (set_table (delete rid (lockTable_ lm)) lm).
Proof.
  intros Hlm rid' l'. cbn. rewrite lookup_delete. case_decide; [done|]. by apply Hlm.
Qed.

Lemma Unlock_in_order txn rid lm o txn' lm' :
  Unlock txn rid lm = (o, txn', lm') -> queues_in_order lm -> queues_in_order lm'.
Proof.
  intros H Hlm.
  assert (Hstep : forall t, unlock_step2 t rid lm = (o, txn', lm') -> queues_in_order lm').
  { clear H. intros t H. unfold unlock_step2 in H.
    pose proof (in_order_table_at rid lm Hlm) as Hq.
    pose proof (queues_in_order_store rid _ lm Hlm Hq) as Hlm1.
    destruct (find_tid (txn_id_ t) (locks_ (table_at rid lm))) as [it|];
      [|by injection H as _ _ <-].
    destruct (negb (bool_decide (rid ∈ _))); [by injection H as _ _ <-|].
    set (t1 := if bool_decide (mode_ it = SHARED) then _ else _) in H.
    assert (Hid : txn_id_ t1 = txn_id_ t) by (subst t1; by destruct (bool_decide _)).
    rewrite Hid in H.
    pose proof (in_order_erase (txn_id_ t) _ Hq) as Hq'.
    destruct (erase_tid (txn_id_ t) (locks_ (table_at rid lm))) as [|a q] eqn:E.
    - injection H as _ _ <-. by apply queues_in_order_delete.
    - pose proof (grant_pass_in_order (a :: q) (hasUpgrading_ (table_at rid lm)) Hq') as Hg.
      destruct (grant_pass (a :: q) (hasUpgrading_ (table_at rid lm))) as [locks' h].
      injection H as _ _ <-. by apply queues_in_order_store. }
  unfold Unlock, abort_false in H.
  destruct (strict_2PL_ lm).
  - destruct (negb (bool_decide (state_ txn = COMMITTED)) &&
              negb (bool_decide (state_ txn = ABORTED))); [by injection H as _ _ <-|].
    by eapply Hstep.
  - destruct (bool_decide (state_ txn = GROWING)); by eapply Hstep.
Qed.

Lemma step_in_order s c s' :
  step s c = Some s' -> queues_in_order (lm_ s) -> queues_in_order (lm_ s').
Proof.
  unfold step. intros H Hlm.
  destruct c as [tid rid mode | tid rid | tid];
    destruct (txns_ s !! tid) as [txn|]; try discriminate;
    destruct (waiting_ s !! tid) as [w|]; try discriminate.
  - destruct (lockTemplate txn rid mode (lm_ s)) as [[o txn'] lm'] eqn:E.
    pose proof (lockTemplate_in_order _ _ _ _ _ _ _ E Hlm).
    destruct o; simplify_eq; done.
  - destruct (Unlock txn rid (lm_ s)) as [[o txn'] lm'] eqn:E.
    pose proof (Unlock_in_order _ _ _ _ _ _ E Hlm).
    destruct o; simplify_eq; done.
  - destruct w as [rid mode].
    destruct (find_tid tid (locks_ (table_at rid (lm_ s)))) as [it|]; [|discriminate].
    destruct (granted_ it); simplify_eq; done.
Qed.

Lemma run_in_order cs : forall s s',
  run s cs = Some s' -> queues_in_order (lm_ s) -> queues_in_order (lm_ s').
Proof.
  induction cs as [|c cs IH]; intros s s' H Hlm; cbn in H.
  - by injection H as <-.
  - destruct (step s c) as [s1|] eqn:E; [|discriminate].
    eapply IH; [exact H|]. by eapply step_in_order.
Qed.

Lemma in_order_split l1 a l2 b l3 :
  in_order (l1 ++ a :: l2 ++ b :: l3) = true -> granted_ b = true -> granted_ a = true.
Proof.
  induction l1 as [|x l1 IH]; cbn.
  - intros H Hb. destruct (granted_ a); [done|].
    rewrite forallb_app in H. cbn in H. rewrite Hb in H. cbn in H.
    by rewrite andb_false_r in H.
  - intros H Hb. destruct (granted_ x); [by apply IH|].
    rewrite forallb_app in H. cbn in H. rewrite forallb_app in H. cbn in H. rewrite Hb in H.
    cbn in H. by rewrite !andb_false_r in H.
Qed.

(** X16 — requests are granted in queue order.  In every state of the
    lock manager that some schedule of lock and unlock calls leads to, no
    queue holds a waiting request in front of a granted one. *)
Theorem granted_in_queue_order strict tids s rid l1 a l2 b l3 :
  reachable strict tids s ->
  locks_ (table_at rid (lm_ s)) = l1 ++ a :: l2 ++ b :: l3 ->
  granted_ b = true -> granted_ a = true.
Proof.
  intros [cs Hrun] Hq Hb.
  assert (Hinv : queues_in_order (lm_ s)).
  { eapply run_in_order; [exact Hrun|]. intros rid' l'. cbn. by rewrite lookup_empty. }
  pose proof (in_order_table_at rid _ Hinv) as Hord. rewrite Hq in Hord.
  by eapply in_order_split.
Qed.

Lemma table_at_store rid l lm : table_at rid (store rid l lm) = l.
Proof. unfold table_at, store. cbn. by rewrite lookup_insert_eq. Qed.

Lemma store_store rid l1 l2 lm : store rid l2 (store rid l1 lm) = store rid l2 lm.
Proof. unfold store, set_table. cbn. by rewrite insert_insert_eq. Qed.

(** X17 — lock, then unlock.  Without strict two-phase locking, a SHARED
    or EXCLUSIVE request of a growing transaction on a RID that has no
    queue is granted at once and recorded in the lock set of its mode; an
    [Unlock] after it returns true, puts the lock table and both lock sets
    back as they were and leaves the transaction SHRINKING. *)
Theorem lock_then_unlock txn rid mode lm :
  state_ txn = GROWING -> strict_2PL_ lm = false ->
  lockTable_ lm !! rid = None ->
  rid ∉ shared_lock_set_ txn -> rid ∉ exclusive_lock_set_ txn ->
  mode <> UPGRADING ->
  exists txn1 lm1,
    lockTemplate txn rid mode lm = (Returned true, txn1, lm1) /\
    locks_ (table_at rid lm1) = [{| tid_ := txn_id_ txn; mode_ := mode; granted_ := true |}] /\
    rid ∈ (if bool_decide (mode = SHARED)
           then shared_lock_set_ txn1 else exclusive_lock_set_ txn1) /\
    Unlock txn1 rid lm1 = (Returned true, SetState SHRINKING txn, lm).
Proof.
  intros Hst Hstrict Hnone HS HX Hmode.
  assert (Hlock : lockTemplate txn rid mode lm
                  = (Returned true, insert_finish rid mode txn,
                     store rid {| locks_ := [{| tid_ := txn_id_ txn; mode_ := mode;
                                                granted_ := true |}];
                                  hasUpgrading_ := false |} lm)).
  { unfold lockTemplate. rewrite Hst. cbn [bool_decide decide_rel negb].
    rewrite bool_decide_eq_true_2 by done. cbn [negb].
    rewrite (bool_decide_eq_false_2 _ Hmode).
    unfold table_at. rewrite Hnone. cbn [default from_option].
    unfold lock_step3, checkCanGrant, insert_enqueue. cbn.
    rewrite (bool_decide_eq_false_2 _ Hmode). cbn. by rewrite store_store. }
  do 2 eexists. split; [exact Hlock|]. split; [by rewrite table_at_store|]. split.
  { destruct mode; [|rewrite bool_decide_eq_false_2 by done..]; cbn; [set_solver.. | done]. }
  unfold Unlock. replace (strict_2PL_ (store rid _ lm)) with false by done.
  assert (Hg : state_ (insert_finish rid mode txn) = GROWING) by (by destruct mode).
  rewrite Hg. rewrite bool_decide_eq_true_2 by done.
  unfold unlock_step2. rewrite table_at_store, !store_store.
  assert (Htable : forall q, set_table (delete rid (lockTable_ (store rid q lm)))
                               (store rid q lm) = lm).
  { intros q. unfold store, set_table. cbn. rewrite delete_insert_eq. rewrite delete_id by done.
    by destruct lm. }
  assert (Hlm : forall q, {| strict_2PL_ := strict_2PL_ lm;
                              lockTable_ := delete rid (<[rid := q]> (lockTable_ lm)) |} = lm).
  { intros q. rewrite delete_insert_eq, delete_id by done. by destruct lm. }
  destruct mode; [| |done].
  - cbn. rewrite Z.eqb_refl. cbn.
    rewrite bool_decide_eq_true_2 by set_solver. cbn. rewrite Z.eqb_refl.
    f_equal; [f_equal | apply Hlm].
    unfold SetSharedLockSet, SetState. cbn. f_equal.
    apply leibniz_equiv. set_solver.
  - cbn. rewrite Z.eqb_refl. cbn.
    rewrite bool_decide_eq_true_2 by set_solver. cbn. rewrite Z.eqb_refl.
    f_equal; [f_equal | apply Hlm].
    unfold SetExclusiveLockSet, SetState. cbn. f_equal.
    apply leibniz_equiv. set_solver.
Qed.

Lemma unlock_step2_state t rid lm o t' lm' :
  unlock_step2 t rid lm = (o, t', lm') -> state_ t' = state_ t.
Proof.
  unfold unlock_step2. intros H.
  destruct (find_tid (txn_id_ t) (locks_ (table_at rid lm))) as [it|];
    [|by injection H as _ <- _].
  destruct (negb (bool_decide (rid ∈ _))); [by injection H as _ <- _|].
  set (t1 := if bool_decide (mode_ it = SHARED) then _ else _) in H.
  assert (Hst : state_ t1 = state_ t) by (subst t1; by destruct (bool_decide _)).
  destruct (erase_tid (txn_id_ t1) _).
  - by injection H as _ <- _.
  - destruct (grant_pass _ _). by injection H as _ <- _.
Qed.

(** X18 — two phases.  Once [Unlock] has returned for a transaction, with
    either result and under either locking discipline, the transaction is
    no longer GROWING: every later lock request of it, on any RID and in
    any mode, returns false, marks it ABORTED and leaves the lock table as
    it is. *)
Theorem no_lock_after_unlock txn rid lm b txn' lm' rid' mode lm'' :
  Unlock txn rid lm = (Returned b, txn', lm') ->
  state_ txn' <> GROWING /\
  lockTemplate txn' rid' mode lm'' = (Returned false, SetState ABORTED txn', lm'').
Proof.
  intros H.
  assert (Hst : state_ txn' <> GROWING).
  { unfold Unlock, abort_false in H. destruct (strict_2PL_ lm).
    - destruct (bool_decide (state_ txn = COMMITTED)) eqn:Hc;
        destruct (bool_decide (state_ txn = ABORTED)) eqn:Ha; cbn in H.
      + apply unlock_step2_state in H. apply bool_decide_eq_true_1 in Hc. congruence.
      + apply unlock_step2_state in H. apply bool_decide_eq_true_1 in Hc. congruence.
      + apply unlock_step2_state in H. apply bool_decide_eq_true_1 in Ha. congruence.
      + by injection H as _ <- _.
    - destruct (bool_decide (state_ txn = GROWING)) eqn:Hg.
      + apply unlock_step2_state in H. rewrite H. done.
      + apply unlock_step2_state in H. apply bool_decide_eq_false_1 in Hg. congruence. }
  split; [exact Hst|]. unfold lockTemplate. by rewrite bool_decide_eq_false_2.
Qed.

(** X19 — the upgrade of the only holder.  When the queue of the RID holds
    the granted SHARED request of the transaction and nothing else,
    [LockUpgrade] returns true at once: the queue then holds one granted
    EXCLUSIVE request of the transaction, the RID has moved from its
    shared to its exclusive lock set, and no upgrade is pending. *)
Theorem LockUpgrade_sole_holder txn rid lm l :
  state_ txn = GROWING -> lockTable_ lm !! rid = Some l ->
  locks_ l = [{| tid_ := txn_id_ txn; mode_ := SHARED; granted_ := true |}] ->
  hasUpgrading_ l = false -> rid ∈ shared_lock_set_ txn ->
  exists txn1 lm1,
    LockUpgrade txn rid lm = (Returned true, txn1, lm1) /\
    locks_ (table_at rid lm1)
    = [{| tid_ := txn_id_ txn; mode_ := EXCLUSIVE; granted_ := true |}] /\
    hasUpgrading_ (table_at rid lm1) = false /\
    shared_lock_set_ txn1 = shared_lock_set_ txn ∖ {[rid]} /\
    exclusive_lock_set_ txn1 = {[rid]} ∪ exclusive_lock_set_ txn /\
    state_ txn1 = GROWING.
Proof.
  intros Hst Hl Hq Hup Hin.
  unfold LockUpgrade, lockTemplate. rewrite Hst. rewrite bool_decide_eq_true_2 by done.
  cbn [negb]. rewrite bool_decide_eq_true_2 by done.
  unfold table_at. rewrite Hl. cbn [default from_option id]. rewrite Hup, Hq.
  cbn [find_tid tid_]. rewrite Z.eqb_refl. cbn [mode_ granted_].
  rewrite bool_decide_eq_true_2 by done. cbn [negb orb].
  rewrite bool_decide_eq_true_2 by done.
  cbn [erase_tid tid_]. rewrite Z.eqb_refl.
  unfold lock_step3, checkCanGrant, insert_enqueue. cbn.
  do 2 eexists. split; [reflexivity|].
  fold (table_at rid (store rid {| locks_ := [{| tid_ := txn_id_ txn;
                                                mode_ := if bool_decide (UPGRADING = UPGRADING) && true
                                                         then EXCLUSIVE else UPGRADING;
                                                granted_ := true |}];
                                  hasUpgrading_ := false |} (store rid l lm))).
  rewrite table_at_store. rewrite bool_decide_eq_true_2 by done. cbn. done.
Qed.

(** X20 — a request that blocks.  When a lock request blocks, it stands
    last in the queue of its RID, waiting in the mode asked for, behind a
    request whose transaction id is not below its own; a blocked upgrade
    marks the queue as having an upgrade pending. *)
Theorem blocked_request_is_last txn rid mode lm txn' lm' :
  lockTemplate txn rid mode lm = (Blocked, txn', lm') ->
  exists q back,
    locks_ (table_at rid lm')
    = q ++ [{| tid_ := txn_id_ txn; mode_ := mode; granted_ := false |}] /\
    last q = Some back /\ txn_id_ txn <= tid_ back /\
    (mode = UPGRADING -> hasUpgrading_ (table_at rid lm') = true).
Proof.
  assert (Hstep : forall t l lm0,
            txn_id_ t = txn_id_ txn ->
            lock_step3 t rid mode l lm0 = (Blocked, txn', lm') ->
            exists back,
              locks_ (table_at rid lm')
              = locks_ l ++ [{| tid_ := txn_id_ txn; mode_ := mode; granted_ := false |}] /\
              last (locks_ l) = Some back /\ txn_id_ txn <= tid_ back /\
              (mode = UPGRADING -> hasUpgrading_ (table_at rid lm') = true)).
  { intros t l lm0 Hid H. unfold lock_step3, abort_false, insert_enqueue in H.
    destruct (last (locks_ l)) as [back|] eqn:Hlast.
    - destruct (checkCanGrant mode l) eqn:Hcan; cbn [negb andb] in H; [discriminate|].
      destruct (tid_ back <? txn_id_ t) eqn:Hlt; [discriminate|].
      injection H as _ <-. rewrite table_at_store. cbn. rewrite andb_false_r.
      exists back. rewrite <- Hid. split; [done|]. split; [done|].
      split; [apply Z.ltb_ge in Hlt; lia|].
      intros ->. by rewrite orb_true_r.
    - unfold checkCanGrant in H. rewrite Hlast in H. discriminate. }
  unfold lockTemplate, abort_false. intros H.
  destruct (negb (bool_decide (state_ txn = GROWING))); [discriminate|].
  destruct (bool_decide (mode = UPGRADING)).
  - destruct (hasUpgrading_ (table_at rid lm)); [discriminate|].
    destruct (find_tid (txn_id_ txn) (locks_ (table_at rid lm))) as [it|]; [|discriminate].
    destruct (negb (bool_decide (mode_ it = SHARED)) || negb (granted_ it)); [discriminate|].
    destruct (bool_decide (rid ∈ shared_lock_set_ txn)); [|discriminate].
    apply Hstep in H as (back & H1 & H2 & H3 & H4); [|done]. cbn in H1, H2.
    exists (erase_tid (txn_id_ txn) (locks_ (table_at rid lm))), back. done.
  - apply Hstep in H as (back & H1 & H2 & H3 & H4); [|done].
    exists (locks_ (table_at rid lm)), back. done.
Qed.

End LockQueues.

(** The theorems on the RID (1, 0): two readers, a reader that unlocks or
    upgrades, and an older writer that blocks behind a younger one. *)
Lemma granted_in_queue_order_witness :
  exists s,
    LockManager.reachable false [1; 5] s /\
    LockManager.locks_ (LockManager.table_at rid0 (LockManager.lm_ s))
    = [] ++ item 1 LockManager.SHARED true :: [] ++ [item 5 LockManager.SHARED true] /\
    LockManager.granted_ (item 1 LockManager.SHARED true) = true.
Proof.
  destruct (LockManager.run (LockManager.init_System false [1; 5])
              [LockManager.CallLock 1 rid0 LockManager.SHARED;
               LockManager.CallLock 5 rid0 LockManager.SHARED]) as [s|] eqn:Hrun;
    [|vm_compute in Hrun; discriminate].
  assert (Hq : LockManager.locks_ (LockManager.table_at rid0 (LockManager.lm_ s))
               = [] ++ item 1 LockManager.SHARED true :: [] ++ [item 5 LockManager.SHARED true]).
  { vm_compute in Hrun. injection Hrun as <-. reflexivity. }
  exists s. split; [by eexists|]. split; [exact Hq|].
  exact (granted_in_queue_order false [1; 5] s rid0 [] _ [] _ [] ltac:(by eexists) Hq eq_refl).
Defined.

Definition free_table : LockManager.LockManager :=
  {| LockManager.strict_2PL_ := false; LockManager.lockTable_ := ∅ |}.

Lemma lock_then_unlock_witness :
  exists txn1 lm1,
    LockManager.lockTemplate (new_Transaction 1) rid0 LockManager.SHARED free_table
    = (Returned true, txn1, lm1) /\
    LockManager.Unlock txn1 rid0 lm1
    = (Returned true, SetState SHRINKING (new_Transaction 1), free_table).
Proof.
  destruct (lock_then_unlock (new_Transaction 1) rid0 LockManager.SHARED free_table
              eq_refl eq_refl eq_refl ltac:(set_solver) ltac:(set_solver) ltac:(done))
    as (txn1 & lm1 & Hlock & _ & _ & Hunlock).
  exists txn1, lm1. split; [exact Hlock | exact Hunlock].
Defined.

Lemma no_lock_after_unlock_witness :
  exists txn1 lm1 txn2 lm2,
    LockManager.lockTemplate (new_Transaction 1) rid0 LockManager.SHARED free_table
    = (Returned true, txn1, lm1) /\
    LockManager.Unlock txn1 rid0 lm1 = (Returned true, txn2, lm2) /\
    LockManager.lockTemplate txn2 (2, 0) LockManager.SHARED lm2
    = (Returned false, SetState ABORTED txn2, lm2).
Proof.
  destruct (LockManager.lockTemplate (new_Transaction 1) rid0 LockManager.SHARED free_table)
    as [[o1 txn1] lm1] eqn:Hlock.
  assert (Ho1 : o1 = Returned true).
  { pose proof Hlock as Hlock'. vm_compute in Hlock'. by injection Hlock' as <- _ _. }
  subst o1.
  destruct (LockManager.Unlock txn1 rid0 lm1) as [[o2 txn2] lm2] eqn:Hunlock.
  assert (Ho2 : o2 = Returned true).
  { pose proof Hlock as Hlock'. vm_compute in Hlock'. injection Hlock' as <- <-.
    pose proof Hunlock as Hunlock'. vm_compute in Hunlock'. by injection Hunlock' as <- _ _. }
  subst o2.
  exists txn1, lm1, txn2, lm2. split; [done|]. split; [done|].
  exact (proj2 (no_lock_after_unlock _ _ _ _ _ _ (2, 0) LockManager.SHARED lm2 Hunlock)).
Defined.

Definition reader_table : LockManager.LockManager :=
  {| LockManager.strict_2PL_ := false;
     LockManager.lockTable_ :=
       {[ rid0 := {| LockManager.locks_ := [item 1 LockManager.SHARED true];
                     LockManager.hasUpgrading_ := false |} ]} |}.

Definition reader : Transaction :=
  LockManager.insert_finish rid0 LockManager.SHARED (new_Transaction 1).

Lemma LockUpgrade_sole_holder_witness :
  exists txn1 lm1,
    LockManager.LockUpgrade reader rid0 reader_table = (Returned true, txn1, lm1) /\
    LockManager.locks_ (LockManager.table_at rid0 lm1) = [item 1 LockManager.EXCLUSIVE true] /\
    rid0 ∈ exclusive_lock_set_ txn1 /\ rid0 ∉ shared_lock_set_ txn1.
Proof.
  destruct (LockUpgrade_sole_holder reader rid0 reader_table
              {| LockManager.locks_ := [item 1 LockManager.SHARED true];
                 LockManager.hasUpgrading_ := false |}
              eq_refl eq_refl eq_refl eq_refl ltac:(set_solver))
    as (txn1 & lm1 & Hrun & Hq & _ & HS & HX & _).
  exists txn1, lm1. split; [exact Hrun|]. split; [exact Hq|].
  rewrite HS, HX. set_solver.
Defined.

Definition writer_table : LockManager.LockManager :=
  {| LockManager.strict_2PL_ := false;
     LockManager.lockTable_ :=
       {[ rid0 := {| LockManager.locks_ := [item 5 LockManager.EXCLUSIVE true];
                     LockManager.hasUpgrading_ := false |} ]} |}.

Lemma blocked_request_is_last_witness :
  exists txn' lm',
    LockManager.lockTemplate (new_Transaction 3) rid0 LockManager.EXCLUSIVE writer_table
    = (Blocked, txn', lm') /\
    LockManager.locks_ (LockManager.table_at rid0 lm')
    = [item 5 LockManager.EXCLUSIVE true; item 3 LockManager.EXCLUSIVE false].
Proof.
  destruct (LockManager.lockTemplate (new_Transaction 3) rid0 LockManager.EXCLUSIVE writer_table)
    as [[o txn'] lm'] eqn:Hrun.
  assert (Ho : o = Blocked) by (vm_compute in Hrun; by injection Hrun as <- _ _).
  subst o.
  destruct (blocked_request_is_last _ _ _ _ _ _ Hrun) as (q & back & Hq & _).
  exists txn', lm'. split; [reflexivity|].
  vm_compute in Hrun. injection Hrun as _ <-. reflexivity.
Defined.


(** ** The transaction manager: the end of a transaction *)

Section EndOfTransaction.
Import TransactionManager.

Variable Heap : Type.
Variable ENABLE_LOGGING : bool.

(** The transaction has reached its end. *)
Definition finished (txn : Transaction) : Prop :=
  state_ txn = COMMITTED \/ state_ txn = ABORTED.

(** A heap operation that leaves the state of the transaction alone and
    its two lock sets disjoint. *)
Definition keeps_locks (op : Transaction -> Env Heap -> Transaction * Env Heap) : Prop :=
  forall t e,
    state_ (op t e).1 = state_ t /\
    (shared_lock_set_ t ## exclusive_lock_set_ t ->
     shared_lock_set_ (op t e).1 ## exclusive_lock_set_ (op t e).1).

(** [Unlock] for a finished transaction: when it returns, the RID has
    left the one lock set that held it. *)
Lemma Unlock_finished txn rid lm o txn1 lm1 :
  finished txn -> shared_lock_set_ txn ## exclusive_lock_set_ txn ->
  LockManager.Unlock txn rid lm = (o, txn1, lm1) ->
  o <> Blocked /\
  (forall b, o = Returned b ->
     b = true /\ state_ txn1 = state_ txn /\ write_set_ txn1 = write_set_ txn /\
     prev_lsn_ txn1 = prev_lsn_ txn /\
     shared_lock_set_ txn1 ∪ exclusive_lock_set_ txn1
     = (shared_lock_set_ txn ∪ exclusive_lock_set_ txn) ∖ {[rid]} /\
     shared_lock_set_ txn1 ## exclusive_lock_set_ txn1).
Proof.
  intros Hfin Hdisj H.
  assert (Hstep : LockManager.unlock_step2 txn rid lm = (o, txn1, lm1)).
  { unfold LockManager.Unlock in H. destruct (LockManager.strict_2PL_ lm).
    - destruct Hfin as [Hs | Hs]; rewrite Hs in H; exact H.
    - destruct Hfin as [Hs | Hs]; rewrite Hs in H; exact H. }
  clear H. unfold LockManager.unlock_step2 in Hstep.
  destruct (LockManager.find_tid (txn_id_ txn) _) as [it|];
    [|injection Hstep as <- _ _; split; [done | intros b [=]]].
  destruct (bool_decide (LockManager.mode_ it = LockManager.SHARED)) eqn:Hmode.
  - destruct (bool_decide (rid ∈ shared_lock_set_ txn)) eqn:Hin; cbn [negb] in Hstep;
      [|injection Hstep as <- _ _; split; [done | intros b [=]]].
    apply bool_decide_eq_true_1 in Hin.
    set (t1 := SetSharedLockSet (shared_lock_set_ txn ∖ {[rid]}) txn) in *.
    assert (Hres : o = Returned true /\ txn1 = t1).
    { destruct (LockManager.erase_tid _ _); [by injection Hstep as <- <- _|].
      destruct (LockManager.grant_pass _ _). by injection Hstep as <- <- _. }
    destruct Hres as [-> ->]. split; [done|]. intros b [= <-].
    split; [done|]. split; [done|]. split; [done|]. split; [done|]. cbn.
    split; [apply leibniz_equiv; set_solver | set_solver].
  - destruct (bool_decide (rid ∈ exclusive_lock_set_ txn)) eqn:Hin; cbn [negb] in Hstep;
      [|injection Hstep as <- _ _; split; [done | intros b [=]]].
    apply bool_decide_eq_true_1 in Hin.
    set (t1 := SetExclusiveLockSet (exclusive_lock_set_ txn ∖ {[rid]}) txn) in *.
    assert (Hres : o = Returned true /\ txn1 = t1).
    { destruct (LockManager.erase_tid _ _); [by injection Hstep as <- <- _|].
      destruct (LockManager.grant_pass _ _). by injection Hstep as <- <- _. }
    destruct Hres as [-> ->]. split; [done|]. intros b [= <-].
    split; [done|]. split; [done|]. split; [done|]. split; [done|]. cbn.
    split; [apply leibniz_equiv; set_solver | set_solver].
Qed.

(** The loop that releases the locks, for a finished transaction with
    disjoint lock sets: when it returns, no lock is left. *)
Lemma release_locks_all rids : forall txn (e : Env Heap) tr txn' e' tr',
  finished txn -> shared_lock_set_ txn ## exclusive_lock_set_ txn ->
  (forall r, r ∈ shared_lock_set_ txn ∪ exclusive_lock_set_ txn -> r ∈ rids) ->
  release_locks Heap rids (txn, e, tr) = (Returned tt, (txn', e', tr')) ->
  shared_lock_set_ txn' ∪ exclusive_lock_set_ txn'
    ⊆ (shared_lock_set_ txn ∪ exclusive_lock_set_ txn) ∖ list_to_set rids /\
  state_ txn' = state_ txn /\ write_set_ txn' = write_set_ txn /\
  prev_lsn_ txn' = prev_lsn_ txn.
Proof.
  induction rids as [|rid rids IH]; intros txn e tr txn' e' tr' Hfin Hdisj Hall H; cbn in H.
  - injection H as <- <- <-. split; [set_solver | done].
  - destruct (LockManager.Unlock txn rid (lock_manager_ e)) as [[o txn1] lm1] eqn:E.
    destruct (Unlock_finished _ _ _ _ _ _ Hfin Hdisj E) as [_ Hret].
    destruct o as [b| |]; [|discriminate..].
    destruct (Hret b eq_refl) as (_ & Hst & Hws & Hlsn & Hsets & Hdisj1).
    apply IH in H as (Hsub & Hst' & Hws' & Hlsn'); [| |done|].
    + split; [|split; [congruence | split; congruence]].
      rewrite Hsets in Hsub. set_solver.
    + unfold finished. by rewrite Hst.
    + intros r Hr. rewrite Hsets in Hr.
      apply elem_of_difference in Hr as [Hr Hne].
      apply Hall in Hr. apply elem_of_cons in Hr as [-> | Hr]; [set_solver | done].
Qed.

Lemma release_locks_abort_all rids : forall txn (e : Env Heap) tr txn' e' tr',
  finished txn -> shared_lock_set_ txn ## exclusive_lock_set_ txn ->
  (forall r, r ∈ shared_lock_set_ txn ∪ exclusive_lock_set_ txn -> r ∈ rids) ->
  TransactionAbort.release_locks Heap rids (txn, e, tr) = (Returned tt, (txn', e', tr')) ->
  shared_lock_set_ txn' ∪ exclusive_lock_set_ txn'
    ⊆ (shared_lock_set_ txn ∪ exclusive_lock_set_ txn) ∖ list_to_set rids /\
  state_ txn' = state_ txn /\ write_set_ txn' = write_set_ txn /\
  prev_lsn_ txn' = prev_lsn_ txn.
Proof.
  induction rids as [|rid rids IH]; intros txn e tr txn' e' tr' Hfin Hdisj Hall H; cbn in H.
  - injection H as <- <- <-. split; [set_solver | done].
  - destruct (LockManager.Unlock txn rid (lock_manager_ e)) as [[o txn1] lm1] eqn:E.
    destruct (Unlock_finished _ _ _ _ _ _ Hfin Hdisj E) as [_ Hret].
    destruct o as [b| |]; [|discriminate..].
    destruct (Hret b eq_refl) as (_ & Hst & Hws & Hlsn & Hsets & Hdisj1).
    apply IH in H as (Hsub & Hst' & Hws' & Hlsn'); [| |done|].
    + split; [|split; [congruence | split; congruence]].
      rewrite Hsets in Hsub. set_solver.
    + unfold finished. by rewrite Hst.
    + intros r Hr. rewrite Hsets in Hr.
      apply elem_of_difference in Hr as [Hr Hne].
      apply Hall in Hr. apply elem_of_cons in Hr as [-> | Hr]; [set_solver | done].
Qed.

Lemma no_lock_left (txn txn' : Transaction) :
  shared_lock_set_ txn' ∪ exclusive_lock_set_ txn'
    ⊆ (shared_lock_set_ txn ∪ exclusive_lock_set_ txn) ∖ list_to_set (lock_set txn) ->
  shared_lock_set_ txn' = ∅ /\ exclusive_lock_set_ txn' = ∅.
Proof.
  unfold lock_set. intros H.
  assert (Hempty : shared_lock_set_ txn' ∪ exclusive_lock_set_ txn' ⊆ ∅).
  { intros r Hr. apply H in Hr. apply elem_of_difference in Hr as [Hr Hn].
    destruct Hn. apply elem_of_list_to_set, elem_of_elements. exact Hr. }
  split; apply leibniz_equiv; set_solver.
Qed.

Section CommitLocks.

Variable ApplyDelete : Z -> RID -> Transaction -> Env Heap -> Transaction * Env Heap.
Hypothesis ApplyDelete_keeps : forall table rid, keeps_locks (ApplyDelete table rid).

Lemma drain_from_back_keeps rev_ws : forall txn e tr,
  let r := drain_from_back Heap ApplyDelete rev_ws (txn, e, tr) in
  state_ r.1.1 = state_ txn /\
  (shared_lock_set_ txn ## exclusive_lock_set_ txn ->
   shared_lock_set_ r.1.1 ## exclusive_lock_set_ r.1.1).
Proof.
  induction rev_ws as [|item rest IH]; intros txn e tr; cbn; [done|].
  destruct (bool_decide (wtype_ item = WDELETE)).
  - destruct (ApplyDelete_keeps (table_ item) (rid_ item) txn e) as [Hst Hdisj].
    destruct (ApplyDelete (table_ item) (rid_ item) txn e) as [txn1 e1]. cbn in Hst, Hdisj.
    destruct (IH (SetWriteSet (rev rest) txn1) e1
                (tr ++ [EvApplyDelete (table_ item) (rid_ item)])) as [Hst' Hdisj'].
    cbn in Hst', Hdisj'. split; [congruence | auto].
  - apply (IH (SetWriteSet (rev rest) txn) e tr).
Qed.

(** X21 — a commit releases every lock.  Take a transaction whose two
    lock sets are disjoint, and a heap whose [ApplyDelete] leaves the
    state of the transaction alone and its lock sets disjoint.  When
    [Commit] returns, the transaction is COMMITTED, its write set is empty
    and so are both of its lock sets. *)
Theorem Commit_releases_all_locks (txn : Transaction) (e : Env Heap) txn' e' tr :
  shared_lock_set_ txn ## exclusive_lock_set_ txn ->
  Commit Heap ENABLE_LOGGING ApplyDelete txn e = (Returned tt, (txn', e', tr)) ->
  state_ txn' = COMMITTED /\ write_set_ txn' = [] /\
  shared_lock_set_ txn' = ∅ /\ exclusive_lock_set_ txn' = ∅.
Proof.
  intros Hdisj. unfold Commit, drain_write_set.
  destruct (drain_from_back_keeps (rev (write_set_ (SetState COMMITTED txn)))
              (SetState COMMITTED txn) e [EvSetState COMMITTED]) as [Hst1 Hdisj1].
  destruct (drain_from_back Heap ApplyDelete _ _) as [[txn1 e1] tr1]. cbn in Hst1, Hdisj1.
  specialize (Hdisj1 Hdisj).
  set (st2 := log_commit Heap ENABLE_LOGGING (SetWriteSet [] txn1, e1, tr1)).
  assert (H2 : state_ st2.1.1 = COMMITTED /\ write_set_ st2.1.1 = [] /\
               shared_lock_set_ st2.1.1 = shared_lock_set_ txn1 /\
               exclusive_lock_set_ st2.1.1 = exclusive_lock_set_ txn1).
  { subst st2. unfold log_commit. by destruct ENABLE_LOGGING. }
  destruct st2 as [[txn2 e2] tr2]. cbn [fst snd] in *.
  destruct H2 as (Hst2 & Hws2 & HS2 & HX2).
  intros H.
  apply release_locks_all in H as (Hsub & Hst' & Hws' & _).
  - apply no_lock_left in Hsub. split; [congruence|]. split; [congruence | done].
  - by left.
  - by rewrite HS2, HX2.
  - intros r Hr. unfold lock_set. by apply elem_of_elements.
Qed.

End CommitLocks.

Section AbortLocks.
Import TransactionAbort.

Variable RollbackDelete : Z -> RID -> Transaction -> Env Heap -> Transaction * Env Heap.
Variable ApplyDelete : Z -> RID -> Transaction -> Env Heap -> Transaction * Env Heap.
Variable UpdateTuple : Z -> Tuple -> RID -> Transaction -> Env Heap -> Transaction * Env Heap.

Abbreviation undo_item := (undo_item Heap RollbackDelete ApplyDelete UpdateTuple).
Abbreviation rollback_from_back :=
  (rollback_from_back Heap RollbackDelete ApplyDelete UpdateTuple).
Abbreviation rollback_write_set :=
  (rollback_write_set Heap RollbackDelete ApplyDelete UpdateTuple).
Abbreviation Abort := (Abort Heap ENABLE_LOGGING RollbackDelete ApplyDelete UpdateTuple).

(** The heap call that undoes an entry of the write set. *)
Definition undo_call (w : WriteRecord) : Call :=
  match wtype_ w with
  | WDELETE => CallRollbackDelete (table_ w) (rid_ w)
  | WINSERT => CallApplyDelete (table_ w) (rid_ w)
  | WUPDATE => CallUpdateTuple (table_ w) (tuple_ w) (rid_ w)
  end.

Definition abort_log_calls : list Call :=
  if ENABLE_LOGGING then [CallAppendLogRecord ABORT; CallFlush false] else [].

Lemma undo_item_trace item txn e tr :
  (undo_item item (txn, e, tr)).2 = tr ++ [undo_call item].
Proof.
  unfold TransactionAbort.undo_item, undo_call.
  destruct (wtype_ item).
  - by destruct (ApplyDelete _ _ _ _).
  - by destruct (RollbackDelete _ _ _ _).
  - by destruct (UpdateTuple _ _ _ _ _).
Qed.

Lemma rollback_from_back_trace rev_ws : forall txn e tr,
  (rollback_from_back rev_ws (txn, e, tr)).2 = tr ++ map undo_call rev_ws.
Proof.
  induction rev_ws as [|item rest IH]; intros txn e tr; cbn [TransactionAbort.rollback_from_back].
  - cbn. by rewrite app_nil_r.
  - pose proof (undo_item_trace item txn e tr) as Hu.
    destruct (undo_item item (txn, e, tr)) as [[txn1 e1] tr1]. cbn in Hu.
    rewrite IH, Hu, <- app_assoc. done.
Qed.

(** What the rollback loop does to the transaction and the environment:
    the heap call that undoes each entry, from the back of the write set,
    each call on what the one before it left; after each entry the write
    set loses its last element. *)
Definition undo_on_heap (item : WriteRecord) (txn : Transaction) (e : Env Heap)
  : Transaction * Env Heap :=
  match wtype_ item with
  | WDELETE => RollbackDelete (table_ item) (rid_ item) txn e
  | WINSERT => ApplyDelete (table_ item) (rid_ item) txn e
  | WUPDATE => UpdateTuple (table_ item) (tuple_ item) (rid_ item) txn e
  end.

Fixpoint undo_from_back (rev_ws : list WriteRecord) (txn : Transaction) (e : Env Heap)
  : Transaction * Env Heap :=
  match rev_ws with
  | [] => (txn, e)
  | item :: rest =>
      let '(txn1, e1) := undo_on_heap item txn e in
      undo_from_back rest (SetWriteSet (rev rest) txn1) e1
  end.

Lemma rollback_from_back_state rev_ws : forall txn e tr,
  (rollback_from_back rev_ws (txn, e, tr)).1 = undo_from_back rev_ws txn e.
Proof.
  induction rev_ws as [|item rest IH]; intros txn e tr; [done|].
  cbn [TransactionAbort.rollback_from_back undo_from_back].
  unfold TransactionAbort.undo_item, undo_on_heap.
  destruct (wtype_ item).
  - destruct (ApplyDelete _ _ _ _) as [txn1 e1]. apply IH.
  - destruct (RollbackDelete _ _ _ _) as [txn1 e1]. apply IH.
  - destruct (UpdateTuple _ _ _ _ _) as [txn1 e1]. apply IH.
Qed.

(** The release loop of [Abort]: the calls it records are the calls of
    [Unlock] it makes, on the transaction and the lock manager, and it
    touches nothing else. *)
Lemma release_locks_abort_run rids : forall txn (e : Env Heap) tr,
  exists unlocked,
    (TransactionAbort.release_locks Heap rids (txn, e, tr)).2.2 = tr ++ map CallUnlock unlocked /\
    unlocked `prefix_of` rids /\
    ((TransactionAbort.release_locks Heap rids (txn, e, tr)).1 = Returned tt ->
     unlocked = rids) /\
    unlock_each unlocked txn (lock_manager_ e)
    = ((TransactionAbort.release_locks Heap rids (txn, e, tr)).2.1.1,
       lock_manager_ (TransactionAbort.release_locks Heap rids (txn, e, tr)).2.1.2) /\
    log_ (TransactionAbort.release_locks Heap rids (txn, e, tr)).2.1.2 = log_ e /\
    heap_ (TransactionAbort.release_locks Heap rids (txn, e, tr)).2.1.2 = heap_ e.
Proof.
  induction rids as [|rid rest IH]; intros txn e tr.
  - exists []. cbn. rewrite app_nil_r. done.
  - cbn [TransactionAbort.release_locks].
    destruct (LockManager.Unlock txn rid (lock_manager_ e)) as [[o txn1] lm1] eqn:Hunlock.
    destruct o as [b| |].
    + destruct (IH txn1 (set_lock_manager Heap lm1 e) (tr ++ [CallUnlock rid]))
        as (unlocked & Htr & Hpre & Hall & Hstate & Hlog & Hheap).
      exists (rid :: unlocked). rewrite Htr, <- app_assoc.
      split; [done|]. split; [by apply prefix_cons|].
      split; [intros Hret; by rewrite (Hall Hret)|].
      cbn [unlock_each]. rewrite Hunlock. done.
    + exists [rid]. cbn [unlock_each fst snd map]. rewrite Hunlock.
      split; [done|]. split; [apply prefix_cons, prefix_nil|]. done.
    + exists [rid]. cbn [unlock_each fst snd map]. rewrite Hunlock.
      split; [done|]. split; [apply prefix_cons, prefix_nil|]. done.
Qed.

(** X22 — [Abort], step by step.  It sets the state to ABORTED and, on
    the transaction so marked, makes for every entry of the write set,
    from its back to its front, the heap call that undoes it —
    [RollbackDelete] for a DELETE, [ApplyDelete] for an INSERT,
    [UpdateTuple] with the saved tuple for an UPDATE — which leaves [txn1]
    and [e1]; the write set is then empty.  When logging is enabled it
    appends to the log one ABORT record of the transaction, which carries
    the next LSN and points back at the previous record of the
    transaction, makes that LSN the previous LSN of the transaction, and
    calls [Flush(false)]; this leaves [txn2] and [e2].  Only then does it
    call [Unlock], for the RIDs of the two lock sets as they are then (all
    of them when [Abort] returns), and these calls change the transaction
    and the lock manager and nothing else. *)
Theorem Abort_call_order (txn : Transaction) (e : Env Heap) :
  exists txn1 e1 txn2 e2 unlocked,
    undo_from_back (rev (write_set_ txn)) (SetState ABORTED txn) e = (txn1, e1) /\
    (ENABLE_LOGGING = true ->
     txn2 = SetPrevLSN (next_lsn_ e1) (SetWriteSet [] txn1) /\
     heap_ e2 = heap_ e1 /\ lock_manager_ e2 = lock_manager_ e1 /\
     exists c,
       log_ e2 = log_ e1 ++ [c] /\
       LogRecord.log_record_type_ c = ABORT /\
       LogRecord.txn_id_ c = txn_id_ txn1 /\
       LogRecord.prev_lsn_ c = prev_lsn_ txn1 /\
       LogRecord.lsn_ c = next_lsn_ e1) /\
    (ENABLE_LOGGING = false -> txn2 = SetWriteSet [] txn1 /\ e2 = e1) /\
    unlocked `prefix_of` lock_set txn2 /\
    ((Abort txn e).1 = Returned tt -> unlocked = lock_set txn2) /\
    unlock_each unlocked txn2 (lock_manager_ e2)
    = ((Abort txn e).2.1.1, lock_manager_ (Abort txn e).2.1.2) /\
    log_ (Abort txn e).2.1.2 = log_ e2 /\
    heap_ (Abort txn e).2.1.2 = heap_ e2 /\
    (Abort txn e).2.2
    = [CallSetState ABORTED]
      ++ map undo_call (rev (write_set_ txn))
      ++ abort_log_calls
      ++ map CallUnlock unlocked.
Proof.
  unfold TransactionAbort.Abort, TransactionAbort.rollback_write_set.
  pose proof (rollback_from_back_state (rev (write_set_ (SetState ABORTED txn)))
                (SetState ABORTED txn) e [CallSetState ABORTED]) as Hst.
  pose proof (rollback_from_back_trace (rev (write_set_ (SetState ABORTED txn)))
                (SetState ABORTED txn) e [CallSetState ABORTED]) as Htr.
  destruct (rollback_from_back _ _) as [[txn1 e1] tr1]. cbn [fst snd] in Hst, Htr.
  cbn [write_set_ SetState] in Hst, Htr.
  set (st2 := log_abort Heap ENABLE_LOGGING (SetWriteSet [] txn1, e1, tr1)).
  assert (Hlog : st2.2 = tr1 ++ abort_log_calls /\
            (ENABLE_LOGGING = true ->
             st2.1.1 = SetPrevLSN (next_lsn_ e1) (SetWriteSet [] txn1) /\
             heap_ st2.1.2 = heap_ e1 /\ lock_manager_ st2.1.2 = lock_manager_ e1 /\
             exists c,
               log_ st2.1.2 = log_ e1 ++ [c] /\
               LogRecord.log_record_type_ c = ABORT /\
               LogRecord.txn_id_ c = txn_id_ txn1 /\
               LogRecord.prev_lsn_ c = prev_lsn_ txn1 /\
               LogRecord.lsn_ c = next_lsn_ e1) /\
            (ENABLE_LOGGING = false -> st2.1.1 = SetWriteSet [] txn1 /\ st2.1.2 = e1)).
  { subst st2. unfold log_abort, abort_log_calls.
    destruct ENABLE_LOGGING; cbn.
    - split; [done|]. split; [|done]. intros _.
      split; [done|]. split; [done|]. split; [done|].
      eexists. split; [reflexivity|]. done.
    - rewrite app_nil_r. split; [done|]. split; [done|]. done. }
  destruct st2 as [[txn2 e2] tr2]. cbn [fst snd] in Hlog |- *.
  destruct Hlog as (Htr2 & Hon & Hoff).
  destruct (release_locks_abort_run (lock_set txn2) txn2 e2 tr2)
    as (unlocked & Htr3 & Hpre & Hall & Hstate & Hlog3 & Hheap3).
  exists txn1, e1, txn2, e2, unlocked.
  split; [by rewrite Hst|]. split; [exact Hon|]. split; [exact Hoff|].
  split; [exact Hpre|]. split; [exact Hall|]. split; [exact Hstate|].
  split; [exact Hlog3|]. split; [exact Hheap3|].
  rewrite Htr3, Htr2, Htr, <- !app_assoc. reflexivity.
Qed.

Hypothesis RollbackDelete_keeps : forall table rid, keeps_locks (RollbackDelete table rid).
Hypothesis ApplyDelete_keeps : forall table rid, keeps_locks (ApplyDelete table rid).
Hypothesis UpdateTuple_keeps : forall table tuple rid, keeps_locks (UpdateTuple table tuple rid).

Lemma rollback_from_back_keeps rev_ws : forall txn e tr,
  let r := rollback_from_back rev_ws (txn, e, tr) in
  state_ r.1.1 = state_ txn /\
  (shared_lock_set_ txn ## exclusive_lock_set_ txn ->
   shared_lock_set_ r.1.1 ## exclusive_lock_set_ r.1.1).
Proof.
  induction rev_ws as [|item rest IH]; intros txn e tr;
    cbn [TransactionAbort.rollback_from_back]; [done|].
  assert (Hu : state_ (undo_item item (txn, e, tr)).1.1 = state_ txn /\
               (shared_lock_set_ txn ## exclusive_lock_set_ txn ->
                shared_lock_set_ (undo_item item (txn, e, tr)).1.1
                  ## exclusive_lock_set_ (undo_item item (txn, e, tr)).1.1)).
  { unfold TransactionAbort.undo_item. destruct (wtype_ item).
    - pose proof (ApplyDelete_keeps (table_ item) (rid_ item) txn e) as H.
      by destruct (ApplyDelete _ _ _ _).
    - pose proof (RollbackDelete_keeps (table_ item) (rid_ item) txn e) as H.
      by destruct (RollbackDelete _ _ _ _).
    - pose proof (UpdateTuple_keeps (table_ item) (tuple_ item) (rid_ item) txn e) as H.
      by destruct (UpdateTuple _ _ _ _ _). }
  destruct (undo_item item (txn, e, tr)) as [[txn1 e1] tr1]. cbn [fst snd] in Hu.
  destruct Hu as [Hst Hdisj].
  destruct (IH (SetWriteSet (rev rest) txn1) e1 tr1) as [Hst' Hdisj'].
  cbn in Hst', Hdisj'. split; [congruence | auto].
Qed.

(** X23 — an abort releases every lock.  Take a transaction whose two
    lock sets are disjoint, and a heap whose operations leave the state of
    the transaction alone and its lock sets disjoint.  When [Abort]
    returns, the transaction is ABORTED, its write set is empty and so
    are both of its lock sets. *)
Theorem Abort_releases_all_locks (txn : Transaction) (e : Env Heap) txn' e' tr :
  shared_lock_set_ txn ## exclusive_lock_set_ txn ->
  Abort txn e = (Returned tt, (txn', e', tr)) ->
  state_ txn' = ABORTED /\ write_set_ txn' = [] /\
  shared_lock_set_ txn' = ∅ /\ exclusive_lock_set_ txn' = ∅.
Proof.
  intros Hdisj. unfold TransactionAbort.Abort, TransactionAbort.rollback_write_set.
  destruct (rollback_from_back_keeps (rev (write_set_ (SetState ABORTED txn)))
              (SetState ABORTED txn) e [CallSetState ABORTED]) as [Hst1 Hdisj1].
  destruct (rollback_from_back _ _) as [[txn1 e1] tr1]. cbn in Hst1, Hdisj1.
  specialize (Hdisj1 Hdisj).
  set (st2 := log_abort Heap ENABLE_LOGGING (SetWriteSet [] txn1, e1, tr1)).
  assert (H2 : state_ st2.1.1 = ABORTED /\ write_set_ st2.1.1 = [] /\
               shared_lock_set_ st2.1.1 = shared_lock_set_ txn1 /\
               exclusive_lock_set_ st2.1.1 = exclusive_lock_set_ txn1).
  { subst st2. unfold log_abort. by destruct ENABLE_LOGGING. }
  destruct st2 as [[txn2 e2] tr2]. cbn [fst snd] in *.
  destruct H2 as (Hst2 & Hws2 & HS2 & HX2).
  intros H.
  apply release_locks_abort_all in H as (Hsub & Hst' & Hws' & _).
  - apply no_lock_left in Hsub. split; [congruence|]. split; [congruence | done].
  - by right.
  - by rewrite HS2, HX2.
  - intros r Hr. unfold lock_set. by apply elem_of_elements.
Qed.

End AbortLocks.

End EndOfTransaction.

(** A heap whose operations do nothing, and a lock manager whose table
    holds the shared lock of transaction 1 on [rid0]. *)
Definition idle_heap_op (t : Transaction) (e : TransactionManager.Env unit) : Transaction * TransactionManager.Env unit := (t, e).

Definition reader_env : TransactionManager.Env unit :=
  {| TransactionManager.heap_ := tt; TransactionManager.lock_manager_ := reader_table;
     TransactionManager.log_ := []; TransactionManager.next_lsn_ := 0 |}.

Lemma idle_heap_op_keeps : keeps_locks unit idle_heap_op.
Proof. intros t e. done. Qed.

Lemma reader_lock_sets_disjoint : shared_lock_set_ reader ## exclusive_lock_set_ reader.
Proof. cbn. set_solver. Qed.

Lemma Commit_releases_all_locks_witness :
  exists txn' e' tr,
    TransactionManager.Commit unit true (fun _ _ => idle_heap_op) reader reader_env
    = (Returned tt, (txn', e', tr)) /\
    state_ txn' = COMMITTED /\ write_set_ txn' = [] /\
    shared_lock_set_ txn' = ∅ /\ exclusive_lock_set_ txn' = ∅.
Proof.
  destruct (TransactionManager.Commit unit true (fun _ _ => idle_heap_op) reader reader_env)
    as [o [[txn' e'] tr]] eqn:Hrun.
  assert (Ho : o = Returned tt).
  { pose proof Hrun as Hrun'. vm_compute in Hrun'. by injection Hrun' as <- _ _ _. }
  subst o. exists txn', e', tr. split; [done|].
  exact (Commit_releases_all_locks unit true (fun _ _ => idle_heap_op)
           (fun _ _ => idle_heap_op_keeps) reader reader_env txn' e' tr
           reader_lock_sets_disjoint Hrun).
Defined.

Lemma Abort_releases_all_locks_witness :
  exists txn' e' tr,
    TransactionAbort.Abort unit true (fun _ _ => idle_heap_op) (fun _ _ => idle_heap_op)
      (fun _ _ _ => idle_heap_op) reader reader_env
    = (Returned tt, (txn', e', tr)) /\
    state_ txn' = ABORTED /\ write_set_ txn' = [] /\
    shared_lock_set_ txn' = ∅ /\ exclusive_lock_set_ txn' = ∅.
Proof.
  destruct (TransactionAbort.Abort unit true (fun _ _ => idle_heap_op)
              (fun _ _ => idle_heap_op) (fun _ _ _ => idle_heap_op) reader reader_env)
    as [o [[txn' e'] tr]] eqn:Hrun.
  assert (Ho : o = Returned tt).
  { pose proof Hrun as Hrun'. vm_compute in Hrun'. by injection Hrun' as <- _ _ _. }
  subst o. exists txn', e', tr. split; [done|].
  exact (Abort_releases_all_locks unit true (fun _ _ => idle_heap_op)
           (fun _ _ => idle_heap_op) (fun _ _ _ => idle_heap_op)
           (fun _ _ => idle_heap_op_keeps) (fun _ _ => idle_heap_op_keeps)
           (fun _ _ _ => idle_heap_op_keeps) reader reader_env txn' e' tr
           reader_lock_sets_disjoint Hrun).
Defined.

Lemma idle_heap_op_leaves_locks : leaves_locks unit (fun _ _ => idle_heap_op).
Proof. intros table rid txn e. done. Qed.



(** ** Log recovery: the active transactions, and a second pass *)

Section RedoTables.
Import LogRecord LogRecovery.

Variable Body : Type.
Variable Init : page_id_t -> page_id_t -> TablePage Body -> TablePage Body.
Variable InsertTuple : Tuple -> RID -> TablePage Body -> TablePage Body.
Variable UpdateTuple : Tuple -> Tuple -> RID -> TablePage Body -> TablePage Body.
Variable MarkDelete : RID -> TablePage Body -> TablePage Body.
Variable ApplyDelete : RID -> TablePage Body -> TablePage Body.
Variable RollbackDelete : RID -> TablePage Body -> TablePage Body.

Abbreviation redo_record :=
  (redo_record Body Init InsertTuple UpdateTuple MarkDelete ApplyDelete RollbackDelete).
Abbreviation Redo :=
  (Redo Body Init InsertTuple UpdateTuple MarkDelete ApplyDelete RollbackDelete).

(** A COMMIT or ABORT record. *)
Definition ends_transaction (log : LogRecord) : bool :=
  match log_record_type_ log with
  | COMMIT | ABORT => true
  | _ => false
  end.

(** The last record of the log that transaction [tid] wrote. *)
Definition last_record_of (tid : txn_id_t) (logs : list (Z * LogRecord)) : option LogRecord :=
  last (filter (fun log => txn_id_ log = tid) logs.*2).

(** The offset of the last record of the log that carries [lsn]. *)
Definition last_offset_of (lsn : lsn_t) (logs : list (Z * LogRecord)) : option Z :=
  fst <$> last (filter (fun ol => lsn_ ol.2 = lsn) logs).

Lemma last_cons_or {A} (x : A) (l : list A) :
  last (x :: l) = match last l with Some y => Some y | None => Some x end.
Proof. destruct l as [|y l]; [done|]. rewrite last_cons_cons. by destruct (last (y :: l)) eqn:E;
  [|apply last_None in E]. Qed.

Lemma last_record_of_cons tid offset log rest :
  last_record_of tid ((offset, log) :: rest)
  = match last_record_of tid rest with
    | Some l => Some l
    | None => if decide (txn_id_ log = tid) then Some log else None
    end.
Proof.
  unfold last_record_of. cbn [fmap list_fmap snd]. rewrite filter_cons.
  destruct (decide (txn_id_ log = tid)); [|by destruct (last _)].
  apply last_cons_or.
Qed.

Lemma last_offset_of_cons lsn offset log rest :
  last_offset_of lsn ((offset, log) :: rest)
  = match last_offset_of lsn rest with
    | Some o => Some o
    | None => if decide (lsn_ log = lsn) then Some offset else None
    end.
Proof.
  unfold last_offset_of. rewrite filter_cons. cbn [snd].
  destruct (decide (lsn_ log = lsn)); [|by destruct (last _)].
  rewrite last_cons_or. by destruct (last _).
Qed.

Lemma redo_record_tables offset log r r' :
  redo_record offset log r = Some r' ->
  lsn_mapping_ r' = <[lsn_ log := offset]> (lsn_mapping_ r) /\
  active_txn_ r'
  = if ends_transaction log then delete (txn_id_ log) (active_txn_ r)
    else <[txn_id_ log := lsn_ log]> (active_txn_ r).
Proof.
  unfold LogRecovery.redo_record, ends_transaction, replay, set_pages.
  intros H.
  destruct (log_record_type_ log);
    repeat (first [ injection H as <- | discriminate H
                  | match type of H with
                    | context [match ?x with _ => _ end] => destruct x
                    end ]);
    cbn; rewrite ?delete_insert_eq; done.
Qed.

Lemma Redo_tables_lookup logs r0 r :
  Redo logs r0 = Some r ->
  (forall tid,
     active_txn_ r !! tid
     = match last_record_of tid logs with
       | Some log => if ends_transaction log then None else Some (lsn_ log)
       | None => active_txn_ r0 !! tid
       end) /\
  (forall lsn,
     lsn_mapping_ r !! lsn
     = match last_offset_of lsn logs with
       | Some offset => Some offset
       | None => lsn_mapping_ r0 !! lsn
       end).
Proof.
  revert r0. induction logs as [|[offset log] rest IH]; intros r0 H.
  - injection H as <-. done.
  - cbn [LogRecovery.Redo] in H.
    destruct (redo_record offset log r0) as [r1|] eqn:Hstep; [|discriminate].
    apply redo_record_tables in Hstep as [Hl Ha].
    destruct (IH r1 H) as [IHa IHl]. split.
    + intros tid. rewrite IHa, last_record_of_cons.
      destruct (last_record_of tid rest); [done|]. rewrite Ha.
      destruct (decide (txn_id_ log = tid)) as [<-|Hne].
      * destruct (ends_transaction log);
          [apply lookup_delete_eq | apply lookup_insert_eq].
      * destruct (ends_transaction log);
          [by apply lookup_delete_ne | by apply lookup_insert_ne].
    + intros lsn. rewrite IHl, last_offset_of_cons.
      destruct (last_offset_of lsn rest); [done|]. rewrite Hl.
      destruct (decide (lsn_ log = lsn)) as [<-|Hne];
        [apply lookup_insert_eq | by apply lookup_insert_ne].
Qed.

(** X24 — the active-transaction table the REDO pass builds.  When the
    pass over a log returns, the table maps a transaction to the LSN of
    its last record in the log when that record is neither a COMMIT nor
    an ABORT, and has no entry for it when the last record is one of
    these; a transaction the log does not mention keeps the entry it
    had. *)
Theorem Redo_active_transactions logs r0 r tid :
  Redo logs r0 = Some r ->
  active_txn_ r !! tid
  = match last_record_of tid logs with
    | Some log => if ends_transaction log then None else Some (lsn_ log)
    | None => active_txn_ r0 !! tid
    end.
Proof. intros H. by apply (Redo_tables_lookup logs r0 r H). Qed.

(** The page a record names: none for BEGIN, COMMIT and ABORT. *)
Definition record_page (log : LogRecord) : option page_id_t :=
  match log_record_type_ log with
  | BEGIN | COMMIT | ABORT => None
  | NEWPAGE => Some (page_id_ log)
  | _ => Some (fst (record_rid log))
  end.

(** The record is of a type [DeserializeLogRecord] knows, and the page it
    names is there and carries the LSN of the record or a later one. *)
Definition replayed (P : gmap page_id_t (TablePage Body)) (log : LogRecord) : Prop :=
  log_record_type_ log <> INVALID /\
  match record_page log with
  | None => True
  | Some pid => exists page, P !! pid = Some page /\ lsn_ log <= GetLSN page
  end.

(** No page is dropped and no page LSN goes down. *)
Definition pages_grow (P P' : gmap page_id_t (TablePage Body)) : Prop :=
  forall pid page, P !! pid = Some page ->
    exists page', P' !! pid = Some page' /\ GetLSN page <= GetLSN page'.

Lemma pages_grow_refl P : pages_grow P P.
Proof. intros pid page H. exists page. split; [done | lia]. Qed.

Lemma pages_grow_trans P1 P2 P3 : pages_grow P1 P2 -> pages_grow P2 P3 -> pages_grow P1 P3.
Proof.
  intros H12 H23 pid page H.
  destruct (H12 pid page H) as (p2 & H2 & Hle2).
  destruct (H23 pid p2 H2) as (p3 & H3 & Hle3).
  exists p3. split; [done | lia].
Qed.

Lemma pages_grow_insert P pid page page' :
  P !! pid = Some page -> GetLSN page <= GetLSN page' -> pages_grow P (<[pid := page']> P).
Proof.
  intros Hp Hle q pq Hq. destruct (decide (q = pid)) as [->|Hne].
  - rewrite lookup_insert_eq. exists page'. split; [done|]. congruence.
  - rewrite lookup_insert_ne by done. exists pq. split; [done | lia].
Qed.

Lemma replayed_grow P P' log : pages_grow P P' -> replayed P log -> replayed P' log.
Proof.
  unfold replayed. intros Hg [Hty H]. split; [done|].
  destruct (record_page log) as [pid|]; [|done].
  destruct H as (page & Hp & Hle). destruct (Hg pid page Hp) as (page' & Hp' & Hle').
  exists page'. split; [done | lia].
Qed.

(** One record of the pass: pages only grow, and the page the record
    names ends at the LSN of the record or above. *)
Lemma redo_record_pages offset log r r' :
  redo_record offset log r = Some r' ->
  pages_grow (pages_ r) (pages_ r') /\ replayed (pages_ r') log.
Proof.
  unfold LogRecovery.redo_record, replayed, record_page, replay, set_pages.
  intros H.
  destruct (log_record_type_ log) eqn:Hty; cbn [pages_ bool_decide decide_rel] in H;
    [discriminate|..].
  all: rewrite bool_decide_eq_false_2 in H by done.
  all: try (injection H as <-; split; [apply pages_grow_refl | done]).
  all: try (destruct (pages_ r !! fst (record_rid log)) as [page|] eqn:Hp; [|discriminate];
            destruct (GetLSN page <? lsn_ log) eqn:Hlt;
            [ apply Z.ltb_lt in Hlt | apply Z.ltb_ge in Hlt ];
            [ injection H as <-; cbn; split;
              [ apply (pages_grow_insert _ _ page); [done | cbn; lia]
              | split; [done|]; eexists; split; [apply lookup_insert_eq | cbn; lia] ]
            | injection H as <-; cbn; split; [apply pages_grow_refl | eauto] ]).
  destruct (pages_ r !! page_id_ log) as [page|] eqn:Hp; [|discriminate].
  destruct (GetLSN page <? lsn_ log) eqn:Hlt;
    [ apply Z.ltb_lt in Hlt | apply Z.ltb_ge in Hlt ].
  2: { injection H as <-. cbn. split; [apply pages_grow_refl | eauto]. }
  set (page1 := SetLSN (lsn_ log) (Init (page_id_ log) (prev_page_id_ log) page)) in *.
  assert (Hg1 : pages_grow (pages_ r) (<[page_id_ log := page1]> (pages_ r))).
  { apply (pages_grow_insert _ _ page); [done | cbn; lia]. }
  destruct (bool_decide (prev_page_id_ log = INVALID_PAGE_ID)).
  { injection H as <-. cbn. split; [done|]. split; [done|].
    eexists. split; [apply lookup_insert_eq | cbn; lia]. }
  cbn [pages_] in H.
  destruct (<[page_id_ log := page1]> (pages_ r) !! prev_page_id_ log) as [prevPage|] eqn:Hprev; [|discriminate].
  injection H as <-. cbn [pages_].
  assert (Hg2 : pages_grow (<[page_id_ log := page1]> (pages_ r))
                  (<[prev_page_id_ log := LogRecovery.SetNextPageId Body (page_id_ log) prevPage]>
                     (<[page_id_ log := page1]> (pages_ r)))).
  { apply (pages_grow_insert _ _ prevPage); [done|].
    unfold GetLSN, LogRecovery.SetNextPageId. cbn. lia. }
  split; [by eapply pages_grow_trans|]. split; [done|].
  destruct (Hg2 (page_id_ log) page1 (lookup_insert_eq _ _ _)) as (page' & Hp' & Hle').
  exists page'. split; [done|]. cbn in Hle'. lia.
Qed.

Lemma Redo_pages logs : forall r0 r,
  Redo logs r0 = Some r ->
  pages_grow (pages_ r0) (pages_ r) /\ Forall (fun ol => replayed (pages_ r) ol.2) logs.
Proof.
  induction logs as [|[offset log] rest IH]; intros r0 r H.
  - injection H as <-. split; [apply pages_grow_refl | constructor].
  - cbn [LogRecovery.Redo] in H.
    destruct (redo_record offset log r0) as [r1|] eqn:Hstep; [|discriminate].
    apply redo_record_pages in Hstep as [Hg1 Hrep].
    destruct (IH r1 r H) as [Hg Hall].
    split; [by eapply pages_grow_trans|].
    constructor; [|done]. cbn. by eapply replayed_grow.
Qed.

(** A record whose page is already at its LSN changes no page. *)
Lemma redo_record_replayed offset log r :
  replayed (pages_ r) log ->
  exists r', redo_record offset log r = Some r' /\ pages_ r' = pages_ r.
Proof.
  unfold LogRecovery.redo_record, replayed, record_page, set_pages.
  intros [Hty H]. rewrite bool_decide_eq_false_2 by done.
  destruct (log_record_type_ log) eqn:Hty'; cbn [pages_]; [done|..].
  all: try (eexists; split; [reflexivity | done]).
  all: destruct H as (page & Hp & Hle); rewrite Hp;
    apply Z.ltb_ge in Hle; rewrite Hle; eexists; split; [reflexivity | done].
Qed.

Lemma Redo_replayed logs : forall r,
  Forall (fun ol => replayed (pages_ r) ol.2) logs ->
  exists r', Redo logs r = Some r' /\ pages_ r' = pages_ r.
Proof.
  induction logs as [|[offset log] rest IH]; intros r Hall.
  - exists r. done.
  - apply Forall_cons in Hall as [Hrep Hall]. cbn in Hrep.
    destruct (redo_record_replayed offset log r Hrep) as (r1 & Hstep & Hp1).
    cbn [LogRecovery.Redo]. rewrite Hstep.
    destruct (IH r1) as (r' & Hrun & Hp'); [by rewrite Hp1|].
    exists r'. split; [done | congruence].
Qed.

(** X25 — the REDO pass can be run again.  When the pass over a log
    returns, a second pass over the same log, from the state the first one
    reached, returns as well and changes nothing: no page is replayed
    twice, and the two tables are rebuilt as they were. *)
Theorem Redo_twice logs r0 r :
  Redo logs r0 = Some r -> Redo logs r = Some r.
Proof.
  intros H.
  destruct (Redo_pages logs r0 r H) as [_ Hall].
  destruct (Redo_replayed logs r Hall) as (r' & Hrun & Hp').
  rewrite Hrun. f_equal.
  destruct (Redo_tables_lookup logs r0 r H) as [Ha Hl].
  destruct (Redo_tables_lookup logs r r' Hrun) as [Ha' Hl'].
  assert (Hact : active_txn_ r' = active_txn_ r).
  { apply map_eq. intros tid. rewrite Ha'. specialize (Ha tid).
    destruct (last_record_of tid logs); [by rewrite Ha | done]. }
  assert (Hlsn : lsn_mapping_ r' = lsn_mapping_ r).
  { apply map_eq. intros lsn. rewrite Hl'. specialize (Hl lsn).
    destruct (last_offset_of lsn logs); [by rewrite Hl | done]. }
  destruct r, r'. cbn in *. congruence.
Qed.

End RedoTables.

Section RedoTablesWitness.
Import LogRecord LogRecovery.

Definition begin2 : LogRecord :=
  {| size_ := 20; lsn_ := 2; txn_id_ := 2; prev_lsn_ := INVALID_LSN;
     log_record_type_ := BEGIN;
     insert_rid_ := (0, 0); insert_tuple_ := [];
     delete_rid_ := (0, 0); delete_tuple_ := [];
     update_rid_ := (0, 0); old_tuple_ := []; new_tuple_ := [];
     prev_page_id_ := INVALID_PAGE_ID; page_id_ := INVALID_PAGE_ID |}.

Definition commit2 : LogRecord :=
  {| size_ := 20; lsn_ := 3; txn_id_ := 2; prev_lsn_ := 2;
     log_record_type_ := COMMIT;
     insert_rid_ := (0, 0); insert_tuple_ := [];
     delete_rid_ := (0, 0); delete_tuple_ := [];
     update_rid_ := (0, 0); old_tuple_ := []; new_tuple_ := [];
     prev_page_id_ := INVALID_PAGE_ID; page_id_ := INVALID_PAGE_ID |}.

(** Transaction 1 begins and inserts, transaction 2 begins and commits. *)
Definition two_txn_log : list (Z * LogRecord) :=
  [(0, begin1); (20, insert1); (56, begin2); (76, commit2)].

Lemma Redo_active_transactions_witness :
  exists r,
    Redo_on_fixture two_txn_log recovery0 = Some r /\
    active_txn_ r !! 1 = Some 1 /\ active_txn_ r !! 2 = None.
Proof.
  destruct (Redo_on_fixture two_txn_log recovery0) as [r|] eqn:Hrun;
    [|by vm_compute in Hrun].
  exists r. split; [done|].
  split.
  - exact (Redo_active_transactions Z (fun _ _ p => p) (fun _ _ => bump 1)
             (fun _ _ _ => bump 2) (fun _ => bump 3) (fun _ => bump 4) (fun _ => bump 5)
             two_txn_log recovery0 r 1 Hrun).
  - exact (Redo_active_transactions Z (fun _ _ p => p) (fun _ _ => bump 1)
             (fun _ _ _ => bump 2) (fun _ => bump 3) (fun _ => bump 4) (fun _ => bump 5)
             two_txn_log recovery0 r 2 Hrun).
Defined.

Lemma Redo_twice_witness :
  exists r,
    Redo_on_fixture two_txn_log recovery0 = Some r /\
    pages_ r !! 3 = Some (SetLSN 1 (bump 1 page3)) /\
    Redo_on_fixture two_txn_log r = Some r.
Proof.
  destruct (Redo_on_fixture two_txn_log recovery0) as [r|] eqn:Hrun;
    [|by vm_compute in Hrun].
  exists r. split; [done|]. split.
  - pose proof Hrun as Hrun'. vm_compute in Hrun'. by injection Hrun' as <-.
  - exact (Redo_twice Z (fun _ _ p => p) (fun _ _ => bump 1)
             (fun _ _ _ => bump 2) (fun _ => bump 3) (fun _ => bump 4) (fun _ => bump 5)
             two_txn_log recovery0 r Hrun).
Defined.

End RedoTablesWitness.


(** ** A transaction from [Begin] to [Commit], and its log at recovery *)

Section BeginCommitRedo.
Import TransactionManager.

Variable Heap : Type.
Variable HeapApplyDelete : Z -> RID -> Transaction -> Env Heap -> Transaction * Env Heap.

Variable Body : Type.
Variable Init : page_id_t -> page_id_t -> LogRecovery.TablePage Body -> LogRecovery.TablePage Body.
Variable InsertTuple : Tuple -> RID -> LogRecovery.TablePage Body -> LogRecovery.TablePage Body.
Variable UpdateTuple :
  Tuple -> Tuple -> RID -> LogRecovery.TablePage Body -> LogRecovery.TablePage Body.
Variable MarkDelete : RID -> LogRecovery.TablePage Body -> LogRecovery.TablePage Body.
Variable ApplyDelete : RID -> LogRecovery.TablePage Body -> LogRecovery.TablePage Body.
Variable RollbackDelete : RID -> LogRecovery.TablePage Body -> LogRecovery.TablePage Body.

(** X26 — begin, commit, recover.  With logging enabled and a counter
    [next] of 32 bits, [Begin] hands out the transaction id [next] and
    leaves the counter at [next + 1], or at [INT32_MIN] when [next] is
    [INT32_MAX].  A [Commit] of the new transaction right away returns, and
    while the LSNs stay within 32 bits the two calls add exactly two
    records to the log: a BEGIN record without a predecessor and a COMMIT
    record that points back at it, both of transaction [next], with the
    next two LSNs.  The lock manager is as it was.  A REDO pass over these
    two records, wherever they lie in the log file, returns, changes no
    page and leaves the transaction out of the active-transaction table,
    so that the UNDO pass has nothing to undo for it. *)
Theorem Begin_then_Commit_then_Redo (next : txn_id_t) (e : Env Heap) :
  INT32_MIN <= next <= INT32_MAX ->
  0 <= next_lsn_ e -> next_lsn_ e + 2 <= INT32_MAX ->
  exists txn e1 txn' e2 tr b c,
    TransactionAbort.Begin Heap true next e
    = Some (txn, (if next =? INT32_MAX then INT32_MIN else next + 1), e1) /\
    txn_id_ txn = next /\ state_ txn = GROWING /\
    Commit Heap true HeapApplyDelete txn e1 = (Returned tt, (txn', e2, tr)) /\
    log_ e2 = log_ e ++ [b; c] /\ next_lsn_ e2 = next_lsn_ e + 2 /\
    state_ txn' = COMMITTED /\ prev_lsn_ txn' = LogRecord.lsn_ c /\
    lock_manager_ e2 = lock_manager_ e /\
    LogRecord.log_record_type_ b = BEGIN /\ LogRecord.log_record_type_ c = COMMIT /\
    LogRecord.txn_id_ b = next /\ LogRecord.txn_id_ c = next /\
    LogRecord.lsn_ b = next_lsn_ e /\ LogRecord.lsn_ c = next_lsn_ e + 1 /\
    LogRecord.prev_lsn_ b = INVALID_LSN /\ LogRecord.prev_lsn_ c = LogRecord.lsn_ b /\
    forall offset_b offset_c r0,
      exists r,
        LogRecovery.Redo Body Init InsertTuple UpdateTuple MarkDelete ApplyDelete
          RollbackDelete [(offset_b, b); (offset_c, c)] r0 = Some r /\
        LogRecovery.active_txn_ r !! next = None /\
        LogRecovery.pages_ r = LogRecovery.pages_ r0.
Proof.
  intros Hnext Hlsn0 Hlsn2.
  assert (Hwrap : int32 (next + 1)
                  = if next =? INT32_MAX then INT32_MIN else next + 1).
  { unfold int32, INT32_MAX, INT32_MIN in *.
    destruct (Z.eqb_spec next 2147483647) as [-> | Hne]; [reflexivity|].
    rewrite Z.mod_small by lia. lia. }
  do 7 eexists. split.
  { unfold TransactionAbort.Begin. cbn -[Z.add int32 Z.eqb].
    rewrite Hwrap. reflexivity. }
  split; [reflexivity|]. split; [reflexivity|].
  unfold Commit, drain_write_set, log_commit, lock_set. cbn -[elements union Z.add].
  rewrite union_empty_l_L, elements_empty. cbn -[Z.add].
  split; [reflexivity|].
  split; [by rewrite <- app_assoc|]. split; [cbn -[Z.add]; lia|].
  do 11 (split; [reflexivity|]).
  intros offset_b offset_c r0. eexists. split; [reflexivity|]. cbn -[Z.add].
  split; [apply lookup_delete_eq | reflexivity].
Qed.

End BeginCommitRedo.

(** A run on a heap that holds nothing, from the counter at its last
    value: the transaction gets [INT32_MAX] and the counter wraps. *)
Lemma Begin_then_Commit_then_Redo_witness :
  exists txn e1 txn' e2 tr,
    TransactionAbort.Begin unit true INT32_MAX reader_env = Some (txn, INT32_MIN, e1) /\
    TransactionManager.Commit unit true (fun _ _ => idle_heap_op) txn e1
    = (Returned tt, (txn', e2, tr)) /\
    length (TransactionManager.log_ e2) = 2%nat.
Proof.
  assert (H1 : INT32_MIN <= INT32_MAX <= INT32_MAX) by (unfold INT32_MIN, INT32_MAX; lia).
  assert (H2 : 0 <= TransactionManager.next_lsn_ reader_env) by (cbn; lia).
  assert (H3 : TransactionManager.next_lsn_ reader_env + 2 <= INT32_MAX)
    by (unfold INT32_MAX; cbn; lia).
  destruct (Begin_then_Commit_then_Redo unit (fun _ _ => idle_heap_op) unit
              (fun _ _ p => p) (fun _ _ p => p) (fun _ _ _ p => p) (fun _ p => p)
              (fun _ p => p) (fun _ p => p) INT32_MAX reader_env H1 H2 H3)
    as (txn & e1 & txn' & e2 & tr & b & c & Hbegin & _ & _ & Hcommit & Hlog & _).
  exists txn, e1, txn', e2, tr. split; [exact Hbegin|]. split; [exact Hcommit|].
  rewrite Hlog. reflexivity.
Defined.


(** ** The reader-writer mutex *)

Section RWMutexFacts.
Import RWMutex.

(** What the members say about the threads inside. *)
Definition consistent (w : World) : Prop :=
  reader_count_ (mutex_state w) = Z.of_nat (reading w) /\
  reader_count_ (mutex_state w) <= max_readers_ /\
  writer_entered_ (mutex_state w) = negb (Nat.eqb (entering w + writing w) 0) /\
  (entering w + writing w <= 1)%nat /\
  (writing w = 1%nat -> reading w = 0%nat).

Lemma new_World_consistent : consistent new_World.
Proof. unfold consistent, max_readers_. cbn. repeat split; lia. Qed.

Lemma step_consistent c w w' : consistent w -> step c w = Some w' -> consistent w'.
Proof.
  unfold consistent, max_readers_. intros (Hc & Hmax & Hw & Hone & Hex) H.
  destruct w as [[count entered] r e wr]. cbn in *.
  destruct c; cbn in H.
  - unfold RLock in H. cbn in H.
    destruct entered; [discriminate|]. cbn in H.
    destruct (count =? max_readers_) eqn:Hm; [discriminate|].
    apply Z.eqb_neq in Hm. unfold max_readers_ in Hm.
    injection H as <-. cbn. unfold uint32.
    symmetry in Hw. apply negb_false_iff, Nat.eqb_eq in Hw.
    rewrite Z.mod_small by lia.
    repeat split; try lia. by rewrite Hw.
  - destruct r as [|n]; [discriminate|]. injection H as <-. cbn. unfold uint32.
    rewrite Z.mod_small by lia. repeat split; try lia. done.
  - unfold WLock_enter in H. cbn in H. destruct entered; [discriminate|].
    injection H as <-. cbn.
    symmetry in Hw. apply negb_false_iff, Nat.eqb_eq in Hw.
    repeat split; try lia.
  - destruct e as [|n]; [discriminate|]. unfold WLock_return in H. cbn in H.
    destruct (0 <? count) eqn:Hpos; [discriminate|]. apply Z.ltb_ge in Hpos.
    injection H as <-. cbn. repeat split; try lia.
    rewrite Hw. f_equal. replace (n + S wr)%nat with (S n + wr)%nat by lia. done.
  - destruct wr as [|n]; [discriminate|]. injection H as <-. cbn.
    repeat split; try lia.
    replace (e + n)%nat with 0%nat by lia. done.
Qed.

Lemma run_consistent cs : forall w w',
  consistent w -> run cs w = Some w' -> consistent w'.
Proof.
  induction cs as [|c rest IH]; intros w w' Hw H; cbn in H.
  - by injection H as <-.
  - destruct (step c w) as [w1|] eqn:Hstep; [|discriminate].
    eapply IH; [|exact H]. by eapply step_consistent.
Qed.

(** X27 — the reader-writer mutex excludes.  In every state the threads
    can reach from a new mutex by calls of [RLock], [RUnlock], [WLock] and
    [WUnlock], each thread unlocking only what it holds: at most one
    thread holds the mutex for writing, and while one does no thread
    holds it for reading; [reader_count_] is the number of threads that
    hold the mutex for reading, and [writer_entered_] is set exactly when
    a thread holds the mutex for writing or is inside [WLock] past its
    first loop. *)
Theorem RWMutex_excludes (cs : list Step) (w : World) :
  run cs new_World = Some w ->
  (writing w <= 1)%nat /\
  (writing w = 1%nat -> reading w = 0%nat) /\
  reader_count_ (mutex_state w) = Z.of_nat (reading w) /\
  (writer_entered_ (mutex_state w) = true <-> (0 < entering w + writing w)%nat).
Proof.
  intros H. destruct (run_consistent cs _ _ new_World_consistent H)
    as (Hc & _ & Hw & Hone & Hex).
  split; [lia|]. split; [done|]. split; [done|].
  rewrite Hw, negb_true_iff, Nat.eqb_neq. lia.
Qed.

(** Once a writer is past the first loop of [WLock], the readers that
    hold the mutex can only leave: a run of steps in which no [WUnlock]
    occurs never lets the number of readers grow. *)
Lemma step_no_new_reader c w w' :
  consistent w -> (0 < entering w + writing w)%nat -> c <> StepWUnlock ->
  step c w = Some w' ->
  (reading w' <= reading w)%nat /\ (0 < entering w' + writing w')%nat.
Proof.
  intros (Hc & Hmax & Hw & Hone & Hex) Hin Hc' H.
  assert (He : writer_entered_ (mutex_state w) = true).
  { rewrite Hw. apply negb_true_iff, Nat.eqb_neq. lia. }
  destruct w as [[count entered] r e wr]. cbn in *. clear Hw. subst entered.
  destruct c; unfold RLock, WLock_enter in H; cbn in H; try done.
  - destruct r; [discriminate|]. injection H as <-. cbn. lia.
  - destruct e; [discriminate|]. destruct (WLock_return _); [|discriminate].
    injection H as <-. cbn. lia.
Qed.

(** X28 — writers are preferred.  From the moment a thread has left the
    first loop of [WLock], and for as long as no [WUnlock] is called, no
    [RLock] returns: through any such run of steps the number of threads
    that hold the mutex for reading never grows, and no second writer gets
    past the first loop. *)
Theorem RWMutex_writer_preferred (cs0 cs : list Step) (w0 w : World) :
  run cs0 new_World = Some w0 ->
  (0 < entering w0 + writing w0)%nat ->
  StepWUnlock ∉ cs ->
  run cs w0 = Some w ->
  (reading w <= reading w0)%nat /\ (entering w + writing w = 1)%nat.
Proof.
  intros H0 Hin Hno H.
  pose proof (run_consistent cs0 _ _ new_World_consistent H0) as Hcons. clear H0.
  revert w0 Hcons Hin H. induction cs as [|c rest IH]; intros w0 Hcons Hin H; cbn in H.
  - injection H as <-. destruct Hcons as (_ & _ & _ & Hone & _). lia.
  - destruct (step c w0) as [w1|] eqn:Hstep; [|discriminate].
    apply not_elem_of_cons in Hno as [Hc Hrest].
    destruct (step_no_new_reader c w0 w1 Hcons Hin ltac:(done) Hstep) as [Hle Hin1].
    destruct (IH Hrest w1 (step_consistent _ _ _ Hcons Hstep) Hin1 H) as [Hle' Hone].
    split; [lia | done].
Qed.

Lemma RWMutex_excludes_witness :
  exists w,
    run [StepRLock; StepRLock; StepWLockEnter; StepRUnlock; StepRUnlock; StepWLockReturn]
        new_World = Some w /\
    writing w = 1%nat /\ reading w = 0%nat /\ reader_count_ (mutex_state w) = 0.
Proof.
  eexists. split; [reflexivity|].
  destruct (RWMutex_excludes
              [StepRLock; StepRLock; StepWLockEnter; StepRUnlock; StepRUnlock; StepWLockReturn]
              _ eq_refl) as (_ & Hex & Hc & _).
  split; [reflexivity|]. split; [exact (Hex eq_refl)|].
  rewrite Hc, (Hex eq_refl). reflexivity.
Defined.

Lemma RWMutex_writer_preferred_witness :
  exists w0 w,
    run [StepRLock; StepRLock; StepWLockEnter] new_World = Some w0 /\
    run [StepRUnlock; StepRUnlock; StepWLockReturn] w0 = Some w /\
    step StepRLock w0 = None /\
    (reading w <= reading w0)%nat /\ (entering w + writing w = 1)%nat.
Proof.
  eexists _, _. split; [reflexivity|]. split; [reflexivity|]. split; [reflexivity|].
  apply (RWMutex_writer_preferred [StepRLock; StepRLock; StepWLockEnter]
           [StepRUnlock; StepRUnlock; StepWLockReturn] _ _ eq_refl).
  - cbn. lia.
  - rewrite !not_elem_of_cons. repeat split; try done. apply not_elem_of_nil.
  - reflexivity.
Defined.

End RWMutexFacts.


(** ** The integrity check: [isBalanced] *)

Section Balance.
Import BPlusTreePage BPlusTreeCheck.
Context {Key : Type}.
Variable comparator : Key -> Key -> Z.

Abbreviation St := (State Key).
Abbreviation Page := (BPlusTreePage Key).

(** A run that leaves the tree alone and every pin count where it was. *)
Definition pins_restored (s s' : St) : Prop :=
  pages_ s' = pages_ s /\ root_page_id_ s' = root_page_id_ s /\
  transaction_ s' = transaction_ s /\
  forall q, pin_count_ s' q = pin_count_ s q.

Lemma pins_restored_refl s : pins_restored s s.
Proof. done. Qed.

Lemma pins_restored_trans s1 s2 s3 :
  pins_restored s1 s2 -> pins_restored s2 s3 -> pins_restored s1 s3.
Proof.
  intros (H1 & H2 & H3 & H4) (H5 & H6 & H7 & H8).
  split; [congruence|]. split; [congruence|]. split; [congruence|].
  intros q. by rewrite H8.
Qed.

Lemma wp_ValueAt self p array i k v Φ (s : St) :
  pages_ s !! self = Some p -> payload_ p = InternalArray array ->
  array !! i = Some (k, v) ->
  Φ v s -> wp (InternalPage.ValueAt self (Z.of_nat i)) Φ s.
Proof.
  intros Hp Hpl Hi H. unfold InternalPage.ValueAt.
  apply wp_bind. eapply wp_internal_at; [done..|]. cbn [snd].
  apply wp_bind. apply wp_check.
  { apply lookup_lt_Some in Hi.
    destruct (Z.leb_spec 0 (Z.of_nat i)); [|lia].
    destruct (Z.ltb_spec (Z.of_nat i) (Z.of_nat (length array))); [done | lia]. }
  rewrite Nat2Z.id, Hi. by apply wp_ret.
Qed.

(** The loop over the slots [post] of an internal page whose children are
    all balanced of height [h]. *)
Lemma isBalanced_loop_returns (rec : page_id_t -> M St Z) self p h (s0 : St) :
  forall post pre last ret_ (s : St),
    pages_ s !! self = Some p -> payload_ p = InternalArray (pre ++ post) ->
    pins_restored s0 s ->
    (forall c s1, c ∈ (pre ++ post).*2 -> pins_restored s0 s1 ->
       wp (rec c) (fun r s2 => r = Z.of_nat h /\ pins_restored s0 s2) s1) ->
    (pre = [] -> last = -2 /\ ret_ = 0) ->
    (pre <> [] -> last = Z.of_nat h /\ ret_ = Z.of_nat h + 1) ->
    wp (isBalanced_loop rec self (length post) (Z.of_nat (length pre)) last ret_)
       (fun r s' => r = (if decide (pre ++ post = []) then 0 else Z.of_nat h + 1) /\
                    pins_restored s0 s') s.
Proof.
  induction post as [|[k v] post IH]; intros pre last ret_ s Hp Hpl Hs Hrec Hnil Hcons.
  - cbn [length isBalanced_loop]. apply wp_ret. split; [|done].
    rewrite app_nil_r. destruct (decide (pre = [])) as [He|He]; [by apply Hnil | by apply Hcons].
  - cbn [length isBalanced_loop].
    apply wp_bind. eapply (wp_ValueAt self p (pre ++ (k, v) :: post) (length pre) k v); [done..| |].
    { by rewrite lookup_app_r, Nat.sub_diag by lia. }
    apply wp_bind. eapply wp_mono.
    { apply (Hrec v s); [|done]. rewrite fmap_app, elem_of_app. right. cbn. by left. }
    intros r s2 [-> Hs2].
    assert (Hp2 : pages_ s2 !! self = Some p).
    { destruct Hs2 as (H2 & _), Hs as (H1 & _). by rewrite H2, <- H1. }
    assert (Hshift : pre ++ (k, v) :: post = (pre ++ [(k, v)]) ++ post)
      by by rewrite <- app_assoc.
    assert (Hlen : Z.of_nat (length pre) + 1 = Z.of_nat (length (pre ++ [(k, v)]))).
    { rewrite length_app. cbn. lia. }
    destruct (decide (pre = [])) as [He|He].
    + destruct (Hnil He) as [-> ->].
      replace ((0 <=? Z.of_nat h) && (-2 =? -2)) with true
        by (symmetry; apply andb_true_iff; split; [apply Z.leb_le; lia | done]).
      rewrite Hlen.
      eapply wp_mono.
      { apply (IH (pre ++ [(k, v)]) (Z.of_nat h) (Z.of_nat h + 1) s2); try done.
        - by rewrite <- Hshift.
        - intros c s1 Hc. apply Hrec. by rewrite Hshift.
        - intros Hx. by apply app_eq_nil in Hx as [_ ?]. }
      intros r s' [-> Hs']. split; [|done]. rewrite <- Hshift.
      destruct (decide (pre ++ (k, v) :: post = [])) as [Hx|_]; [|done].
      by apply app_eq_nil in Hx as [_ ?].
    + destruct (Hcons He) as [-> ->].
      replace ((0 <=? Z.of_nat h) && (Z.of_nat h =? -2)) with false
        by (symmetry; apply andb_false_iff; right; apply Z.eqb_neq; lia).
      rewrite Z.eqb_refl. cbn [negb]. rewrite Hlen.
      eapply wp_mono.
      { apply (IH (pre ++ [(k, v)]) (Z.of_nat h) (Z.of_nat h + 1) s2); try done.
        - by rewrite <- Hshift.
        - intros c s1 Hc. apply Hrec. by rewrite Hshift.
        - intros Hx. by apply app_eq_nil in Hx as [_ ?]. }
      intros r s' [-> Hs']. split; [|done]. rewrite <- Hshift.
      destruct (decide (pre ++ (k, v) :: post = [])) as [Hx|_]; [|done].
      by apply app_eq_nil in Hx as [_ ?].
Qed.

Lemma pins_restored_fetch_unpin (s0 s s' : St) id :
  pins_restored s0 s ->
  pins_restored (set_pin_count (add_pin id 1 (pin_count_ s)) s) s' ->
  pins_restored s0 (set_pin_count (add_pin id (-1) (pin_count_ s')) s').
Proof.
  intros (H1 & H2 & H3 & H4) (H5 & H6 & H7 & H8). cbn in *.
  split; [cbn; congruence|]. split; [cbn; congruence|]. split; [cbn; congruence|].
  intros q. cbn. unfold add_pin in *. rewrite H8, <- H4.
  destruct (bool_decide (q = id)); lia.
Qed.

Lemma isBalanced_subtree P h parent id lo hi :
  subtree comparator P h parent id lo hi ->
  forall fuel (s0 s : St),
    pages_ s0 = P -> root_page_id_ s0 <> INVALID_PAGE_ID -> (h < fuel)%nat ->
    pins_restored s0 s ->
    wp (isBalanced fuel id) (fun r s' => r = Z.of_nat h /\ pins_restored s0 s') s.
Proof.
  induction 1 as [parent id p next array lo hi Hp Hid Hpar Hpl Hmax Hlen Hasc Hw
                 | h parent id p k0 v0 rest lo hi Hp Hid Hpar Hpl Hlen Hnd Hasc Hw Hch IH];
    intros fuel s0 s HP Hroot Hfuel Hs.
  - destruct fuel as [|fuel]; [lia|]. cbn [isBalanced].
    apply wp_bind, wp_gets.
    replace (root_page_id_ s =? INVALID_PAGE_ID) with false.
    2: { symmetry. apply Z.eqb_neq. destruct Hs as (_ & -> & _). done. }
    apply wp_bind. eapply wp_FetchPage.
    { destruct Hs as (-> & _). by rewrite HP. }
    unfold IsLeafPage. rewrite Hpl.
    apply wp_bind, wp_ret. apply wp_bind, wp_UnpinPage. apply wp_ret.
    split; [done|]. by eapply pins_restored_fetch_unpin.
  - destruct fuel as [|fuel]; [lia|]. cbn [isBalanced].
    apply wp_bind, wp_gets.
    replace (root_page_id_ s =? INVALID_PAGE_ID) with false.
    2: { symmetry. apply Z.eqb_neq. destruct Hs as (_ & -> & _). done. }
    assert (Hps : pages_ s !! id = Some p).
    { destruct Hs as (-> & _). by rewrite HP. }
    apply wp_bind. eapply wp_FetchPage; [done|].
    unfold IsLeafPage, GetSize. rewrite Hpl, Nat2Z.id.
    set (s1 := set_pin_count (add_pin id 1 (pin_count_ s)) s).
    apply wp_bind. eapply wp_mono.
    { apply (isBalanced_loop_returns (isBalanced fuel) id p h s1 ((k0, v0) :: rest) []
               (-2) 0 s1); try done.
      intros c s2 Hc Hs2. cbn [app] in Hc.
      apply list_elem_of_fmap in Hc as ([kc c'] & -> & Hin). cbn [snd].
      apply list_elem_of_split in Hin as (pre & post & Harr).
      destruct Hs as (Hs_pages & Hs_root & _).
      eapply (IH pre kc c' post Harr fuel s1 s2); [| | lia | done].
      - subst s1. cbn. congruence.
      - subst s1. cbn. congruence. }
    intros r s2 [-> Hs2]. cbn [app].
    destruct (decide ((k0, v0) :: rest = [])) as [|_]; [done|].
    apply wp_bind, wp_UnpinPage. apply wp_ret.
    split; [lia|]. by eapply pins_restored_fetch_unpin.
Qed.

(** X29 — the balance check.  On a well-formed tree of height [h] that
    is not empty, [isBalanced(root_page_id_)] returns [h], the number of
    levels above the leaves, so that [Check] finds the tree balanced; on
    an empty tree it returns 1.  The run changes no page and leaves every
    pin count as it found it.  ([fuel] bounds the depth of the recursion
    in the model.) *)
Theorem isBalanced_returns_height (s : St) (h : nat) (fuel : nat) :
  well_formed comparator s h -> (h < fuel)%nat ->
  exists r s',
    isBalanced fuel (root_page_id_ s) s = Some (r, s') /\
    r = (if root_page_id_ s =? INVALID_PAGE_ID then 1 else Z.of_nat h) /\
    0 <= r /\ pins_restored s s'.
Proof.
  intros (_ & _ & _ & Htree) Hfuel.
  destruct (decide (root_page_id_ s = INVALID_PAGE_ID)) as [Hempty | Hroot].
  - destruct fuel as [|fuel]; [lia|]. cbn [isBalanced].
    exists 1, s. unfold bind, BPlusTree.IsEmpty, gets. rewrite Hempty. cbn.
    split; [done|]. split; [done|]. split; [lia | done].
  - destruct Htree as [? | Htree]; [done|].
    destruct (isBalanced_subtree _ _ _ _ _ _ Htree fuel s s eq_refl Hroot Hfuel
                (pins_restored_refl s)) as (r & s' & Hrun & -> & Hs').
    exists (Z.of_nat h), s'. split; [done|].
    apply Z.eqb_neq in Hroot. rewrite Hroot. split; [done|]. split; [lia | done].
Qed.

End Balance.

Lemma isBalanced_returns_height_witness :
  exists s',
    BPlusTreeCheck.isBalanced 2 (BPlusTreePage.root_page_id_ insert_fixture) insert_fixture
    = Some (1, s') /\
    pins_restored insert_fixture s'.
Proof.
  assert (Hfuel : (1 < 2)%nat) by lia.
  destruct (isBalanced_returns_height Zcomparator insert_fixture 1 2
              insert_fixture_well_formed Hfuel) as (r & s' & Hrun & Hr & _ & Hs').
  exists s'. split; [|exact Hs']. rewrite Hrun, Hr. reflexivity.
Defined.

